(** * SmartSkip: a learned-index accelerated ordered integer set

    Shallow embedding of [ML-skiplist/skiplist.cpp] (Fraser-style skip list
    with a shift table) and of [ML-list/list.cpp] (the single-level list
    variant), followed by the properties of the specification.

    Conventions of the embedding.
    - Memory is a finite map from addresses to node records.  Addresses are
      integers; [0] is [NULL]; the low bit of a stored forward reference is
      the mark bit, exactly as in the source.
    - A function that can dereference an invalid address or index outside an
      array returns [None] there (the C program has no defined behaviour).
    - Loops whose termination depends on the shape of the memory take a
      [fuel] argument and return [None] when it runs out.
    - [int] arithmetic is written with its 32-bit two's-complement
      wrap-around ([wrap_int]); [uint32_t] arithmetic is reduced modulo
      [2^32]. *)

From Stdlib Require Import ZArith QArith Qround Qabs Qpower Lia Lqa.
From stdpp Require Import base gmap list sorting.

Local Open Scope Z_scope.

(** ** Definitions shared by both variants *)

Definition INT_MAX : Z := 2147483647.
Definition INT_MIN : Z := -2147483648.

(** [list.h]: [#define VAL_MIN INT_MIN] and [#define VAL_MAX INT_MAX]. *)
Definition VAL_MIN : Z := INT_MIN.
Definition VAL_MAX : Z := INT_MAX.

(** Result of an [int] operation whose mathematical value is [z]. *)
Definition wrap_int (z : Z) : Z := (z + 2147483648) mod 4294967296 - 2147483648.

(** Conversion of a [double] to [int]: truncation toward zero. *)
Definition Qtrunc (q : Q) : Z :=
  if Qlt_le_dec q 0 then Qceiling q else Qfloor q.

(** ** [double] arithmetic

    A finite [double] is the rational it denotes.  An operation on doubles
    returns its exact result rounded to the nearest binary64 value, ties to
    the even significand (IEEE 754, the default rounding mode). *)

(** [floor (log2 a)] for [a > 0]. *)
Definition Qlog2 (a : Q) : Z :=
  let k0 := Z.log2 (Qnum a) - Z.log2 (Zpos (Qden a)) in
  if Qle_bool (2 ^ k0) a then k0 else k0 - 1.

(** The integer nearest to [z], the even one of two that are equally
    near. *)
Definition round_half_even (z : Q) : Z :=
  let f := Qfloor z in
  match (z - inject_Z f ?= 1 # 2)%Q with
  | Lt => f
  | Gt => f + 1
  | Eq => if Z.even f then f else f + 1
  end.

(** The exponent of the last place of the binary64 values around [a]:
    53 significant bits, and [2^-1074] is the smallest positive value. *)
Definition double_exp (a : Q) : Z := Z.max (Qlog2 a - 52) (-1074).

(** Rounding to binary64.  Values of magnitude [2^1024] or more, which
    round to an infinity, do not occur here: the operands are estimates and
    [int]s. *)
Definition round_double (q : Q) : Q :=
  let a := Qabs q in
  if Qeq_bool a 0 then 0%Q
  else
    let e := double_exp a in
    let r := (inject_Z (round_half_even (a / 2 ^ e)) * 2 ^ e)%Q in
    if Qle_bool 0 q then r else (- r)%Q.

(** The learned index is an external collaborator: one operation
    [GetEstimatedPosition], which returns a [double].  An estimator is given
    by a rational-valued function; what the call returns is the binary64
    value nearest to it (the function's own value when that is a
    binary64 value). *)
Definition estimator := Z -> Q.

Definition estimate (est : estimator) (v : Z) : Q := round_double (est v).

(** [int k = spline->GetEstimatedPosition(val) * (table_size-1);]: the
    [int] [table_size-1] is converted to [double] (exactly), the product of
    the two doubles is rounded to a [double], which is then truncated to
    [int]. *)
Definition bucket (est : estimator) (table_size : Z) (v : Z) : Z :=
  Qtrunc (round_double (estimate est v * inject_Z (table_size - 1))).

(** [typedef struct shift_node { int count; int delta; sl_node_t* node; }] *)
Record shift_node := mk_shift { count : Z; delta : Z; node : Z }.

Definition tbl_get (tbl : list shift_node) (k : Z) : option shift_node :=
  if 0 <=? k then tbl !! Z.to_nat k else None.

Definition tbl_set (tbl : list shift_node) (k : Z) (e : shift_node)
  : option (list shift_node) :=
  if (0 <=? k) && (k <? Z.of_nat (length tbl))
  then Some (<[Z.to_nat k := e]> tbl) else None.

(** [new_shift_table] (identical in both variants). *)
Definition new_shift_table (table_size : Z) : list shift_node :=
  replicate (Z.to_nat table_size) (mk_shift 0 INT_MAX 0).

(** The backward fill that ends [populate_shift_table] (identical in both
    variants):
    [for (j = table_size-1; j >= 0; j--) if (shift_table[j].count == 0) ...].
    The first argument is [j+1].  The first component of the result lists,
    in program order, every index of [shift_table] the loop reads or
    writes; the second is the table, or [None] once an index outside the
    array has been touched. *)
Fixpoint backfill (j1 : nat) (tbl : list shift_node)
  : list Z * option (list shift_node) :=
  match j1 with
  | O => ([], Some tbl)
  | S j =>
    match tbl !! j with
    | None => ([Z.of_nat j], None)
    | Some e =>
      if count e =? 0 then
        match tbl !! S j with
        | None => ([Z.of_nat j; Z.of_nat (S j)], None)
        | Some r =>
          let e' := mk_shift (count r) (wrap_int (delta r + 1)) (node r) in
          let '(tr, res) := backfill j (<[j := e']> tbl) in
          (Z.of_nat j :: Z.of_nat (S j) :: tr, res)
        end
      else
        let '(tr, res) := backfill j tbl in (Z.of_nat j :: tr, res)
    end
  end.

(** [is_marked], [unset_mark], [set_mark] on [uintptr_t]. *)
Definition is_marked (i : Z) : Z := Z.land i 1.
Definition unset_mark (i : Z) : Z := Z.land i (Z.lnot 1).
Definition set_mark (i : Z) : Z := Z.lor i 1.

Definition NULL : Z := 0.

(** ** ML-skiplist/skiplist.cpp *)

Module MLSkiplist.

(** Modelled from the spec: the declaration of [sl_node_t] ([skiplist.h] is
    not among the sources).  A node has a value, a deletion flag, its tower
    height and [forward[0..height)]: one forward reference per level. *)
Record sl_node := mk_node {
  val : Z;
  deleted : Z;
  toplevel : Z;
  next : list Z
}.

Abbreviation heap := (gmap Z sl_node).

(** [sl_intset_t]: [struct sl_intset { sl_node_t *head; }]. *)
Record sl_intset := mk_set { head : Z }.

(** Program state: the node store, the allocation pointer of [malloc], the
    [static uint32_t y] of [get_rand_level] and the caller's [*iterations]. *)
Record state := mk_state {
  st_heap : heap;
  st_brk : Z;
  st_y : Z;
  st_iter : Z
}.

Definition with_heap (s : state) (h : heap) : state :=
  mk_state h (st_brk s) (st_y s) (st_iter s).

(** Modelled from the spec: the layout behind the [malloc] of
    [sl_new_simple_node]: a 16-byte header ([val], [deleted], [toplevel])
    followed by [toplevel] forward references, 8 bytes each. *)
Definition NEXT_OFFSET : Z := 16.
Definition node_size (toplevel : Z) : Z := NEXT_OFFSET + 8 * Z.max toplevel 0.

Definition set_next (n : sl_node) (i : nat) (p : Z) : sl_node :=
  mk_node (val n) (deleted n) (toplevel n) (<[i := p]> (next n)).

Definition set_deleted (n : sl_node) (d : Z) : sl_node :=
  mk_node (val n) d (toplevel n) (next n).

(** [p->next[i]] *)
Definition read_next (h : heap) (p : Z) (i : nat) : option Z :=
  n ← h !! p; next n !! i.

(** [p->next[i] = q] *)
Definition write_next (h : heap) (p : Z) (i : nat) (q : Z) : option heap :=
  n ← h !! p;
  if decide (i < length (next n))%nat then Some (<[p := set_next n i q]> h)
  else None.

(** [ATOMIC_CAS_MB(&p->next[i], old, new)] executed without interference. *)
Definition CAS (h : heap) (p : Z) (i : nat) (old new : Z)
  : option (bool * heap) :=
  cur ← read_next h p i;
  if cur =? old then (h' ← write_next h p i new; Some (true, h'))
  else Some (false, h).

Section Levelmax.

(** [unsigned int levelmax = MAXLEVEL;] *)
Variable levelmax : Z.

(** *** get_rand_level *)

Definition xorshift (y : Z) : Z :=
  let y := Z.lxor y (Z.shiftl y 13 mod 4294967296) in
  let y := Z.lxor y (Z.shiftr y 17) in
  Z.lxor y (Z.shiftl y 5 mod 4294967296).

(** [while (((temp >>= 1) & 1) != 0) ++level;] on a 32-bit word: the word is
    zero after 32 shifts, so 32 rounds are enough. *)
Fixpoint count_level (n : nat) (temp level : Z) : Z :=
  match n with
  | O => level
  | S n' =>
    let temp := Z.shiftr temp 1 in
    if Z.land temp 1 =? 0 then level else count_level n' temp (level + 1)
  end.

Definition get_rand_level (y : Z) : Z * Z :=
  let y := xorshift y in
  let level := count_level 32 y 1 in
  (if level >? levelmax then levelmax else level, y).

(** *** Nodes and the set *)

(** [sl_new_simple_node]: the forward references are left uninitialised
    (here: [NULL]). *)
Definition sl_new_simple_node (s : state) (v toplevel : Z) : Z * state :=
  let p := st_brk s in
  let n := mk_node v 0 toplevel (replicate (Z.to_nat toplevel) NULL) in
  (p, mk_state (<[p := n]> (st_heap s)) (p + node_size toplevel)
        (st_y s) (st_iter s)).

(** [for (i = 0; i < levelmax; i++) node->next[i] = next;] from [i] on,
    [n] rounds. *)
Fixpoint fill_next (n : nat) (h : heap) (p : Z) (i : nat) (q : Z)
  : option heap :=
  match n with
  | O => Some h
  | S n' => h' ← write_next h p i q; fill_next n' h' p (S i) q
  end.

Definition sl_new_node (s : state) (v next toplevel : Z)
  : option (Z * state) :=
  let '(p, s1) := sl_new_simple_node s v toplevel in
  h ← fill_next (Z.to_nat levelmax) (st_heap s1) p 0 next;
  Some (p, with_heap s1 h).

(** [sl_delete_node]: [free(n)]. *)
Definition sl_delete_node (h : heap) (p : Z) : heap := delete p h.

Definition sl_set_new (s : state) : option (sl_intset * state) :=
  '(max, s1) ← sl_new_node s VAL_MAX NULL levelmax;
  '(min, s2) ← sl_new_node s1 VAL_MIN max levelmax;
  Some (mk_set min, s2).

(** *** populate_shift_table *)

(** The walk [while (node->next[0]->next[0] != NULL) { ... }]. *)
Fixpoint populate_walk (fuel : nat) (h : heap) (est : estimator)
    (table_size : Z) (nd : Z) (j : Z) (tbl : list shift_node)
  : option (Z * list shift_node) :=
  match fuel with
  | O => None
  | S fuel' =>
    nx ← read_next h nd 0;
    nnx ← read_next h nx 0;
    if nnx =? NULL then Some (nd, tbl)
    else
      n ← h !! nx;
      let k := bucket est table_size (val n) in
      let d := wrap_int (j - k) in
      e ← tbl_get tbl k;
      let e1 := if d <=? delta e then mk_shift (count e) d nx else e in
      let e2 := mk_shift (wrap_int (count e1 + 1)) (delta e1) (node e1) in
      tbl' ← tbl_set tbl k e2;
      populate_walk fuel' h est table_size nx (wrap_int (j + 1)) tbl'
  end.

(** [populate_shift_table], with the index trace of its final loop. *)
Definition populate_shift_table_trace (fuel : nat) (h : heap)
    (set : sl_intset) (tbl : list shift_node) (est : estimator)
    (table_size : Z) : option (list Z * option (list shift_node)) :=
  tbl1 ← tbl_set tbl 0 (mk_shift 1 0 (head set));
  '(nd, tbl2) ← populate_walk fuel h est table_size (head set) 0 tbl1;
  tl ← read_next h nd 0;
  tbl3 ← tbl_set tbl2 (table_size - 1) (mk_shift 1 0 tl);
  Some (backfill (Z.to_nat table_size) tbl3).

Definition populate_shift_table (fuel : nat) (h : heap) (set : sl_intset)
    (tbl : list shift_node) (est : estimator) (table_size : Z)
  : option (list shift_node) :=
  r ← populate_shift_table_trace fuel h set tbl est table_size; r.2.

(** *** fraser_search *)

(** [( *iterations)++] on an [unsigned long]. *)
Definition incr_iter (it : Z) : Z := (it + 1) mod 18446744073709551616.

(** [while ((left->val > val && k-- > 0)) { left = ...shift_table[k].node;
    ( *iterations)++; }] with [k] the current bucket index. *)
Fixpoint shortcut_loop (h : heap) (tbl : list shift_node) (v : Z) (k : nat)
    (left_n : Z) (it : Z) : option (Z * Z) :=
  n ← h !! left_n;
  if val n >? v then
    match k with
    | O => Some (left_n, it)
    | S k' =>
      e ← tbl !! k';
      shortcut_loop h tbl v k' (unset_mark (node e)) (incr_iter it)
    end
  else Some (left_n, it).

(** The shortcut start: lines 221-227 of [fraser_search]. *)
Definition shortcut_start (h : heap) (tbl : list shift_node)
    (est : estimator) (table_size : Z) (v : Z) (it : Z) : option (Z * Z) :=
  let k := bucket est table_size v in
  e ← tbl_get tbl k;
  shortcut_loop h tbl v (Z.to_nat k) (unset_mark (node e)) (incr_iter it).

(** [while(1) { right_next = right->next[i]; if (!is_marked(right_next))
    break; right = unset_mark(right_next); }] *)
Fixpoint skip_marked (fuel : nat) (h : heap) (i : nat) (right_n : Z)
  : option (Z * Z) :=
  match fuel with
  | O => None
  | S fuel' =>
    right_next ← read_next h right_n i;
    if is_marked right_next =? 0 then Some (right_n, right_next)
    else skip_marked fuel' h i (unset_mark right_next)
  end.

(** [for (right = left_next; ; right = right_next) { ... }]: the result is
    [(left, left_next, right)] at the [break]. *)
Fixpoint find_pair (fuel : nat) (h : heap) (i : nat) (v : Z)
    (left_n left_next right_n : Z) : option (Z * Z * Z) :=
  match fuel with
  | O => None
  | S fuel' =>
    '(right_n, right_next) ← skip_marked fuel h i right_n;
    n ← h !! right_n;
    if val n >=? v then Some (left_n, left_next, right_n)
    else find_pair fuel' h i v right_n right_next right_next
  end.

(** [left_list[i] = left] when [left_list != NULL]. *)
Definition arr_write (a : option (list Z)) (i : nat) (p : Z)
  : option (option (list Z)) :=
  match a with
  | None => Some None
  | Some l =>
    if decide (i < length l)%nat then Some (Some (<[i := p]> l)) else None
  end.

(** How the level loop of [fraser_search] is left. *)
Inductive level_exit := GotoRetry | LevelsDone.

(** [for (i = left->toplevel - 1; i >= 0; i--) { ... }]; the first argument
    is [i+1]. *)
Fixpoint search_levels (i1 : nat) (fuel : nat) (h : heap) (v : Z)
    (left_n : Z) (left_list right_list : option (list Z))
  : option (level_exit * heap * option (list Z) * option (list Z)) :=
  match i1 with
  | O => Some (LevelsDone, h, left_list, right_list)
  | S i =>
    left_next ← read_next h left_n i;
    if is_marked left_next =? 0 then
      '(left_n, left_next, right_n) ← find_pair fuel h i v left_n left_next left_next;
      '(ok, h) ← (if left_next =? right_n then Some (true, h)
                  else CAS h left_n i left_next right_n);
      if ok : bool then
        left_list ← arr_write left_list i left_n;
        right_list ← arr_write right_list i right_n;
        search_levels i fuel h v left_n left_list right_list
      else Some (GotoRetry, h, left_list, right_list)
    else Some (GotoRetry, h, left_list, right_list)
  end.

Fixpoint fraser_search (fuel : nat) (s : state) (v : Z)
    (left_list right_list : option (list Z)) (tbl : list shift_node)
    (est : estimator) (table_size : Z)
  : option (state * option (list Z) * option (list Z)) :=
  match fuel with
  | O => None
  | S fuel' =>
    '(left_n, it) ← shortcut_start (st_heap s) tbl est table_size v (st_iter s);
    n ← st_heap s !! left_n;
    '(ex, h, left_list, right_list) ←
      search_levels (Z.to_nat (toplevel n)) fuel (st_heap s) v left_n
                    left_list right_list;
    let s' := mk_state h (st_brk s) (st_y s) it in
    match ex with
    | LevelsDone => Some (s', left_list, right_list)
    | GotoRetry =>
      fraser_search fuel' s' v left_list right_list tbl est table_size
    end
  end.

(** *** mark_node_ptrs *)

(** [do { n_next = n->next[i]; if (is_marked(n_next)) break; }
    while (!ATOMIC_CAS_MB(&n->next[i], n_next, set_mark(n_next)));] *)
Fixpoint mark_level (fuel : nat) (h : heap) (n : Z) (i : nat) : option heap :=
  match fuel with
  | O => None
  | S fuel' =>
    n_next ← read_next h n i;
    if is_marked n_next =? 0 then
      '(ok, h) ← CAS h n i n_next (set_mark n_next);
      if ok : bool then Some h else mark_level fuel' h n i
    else Some h
  end.

(** [for (i=n->toplevel-1; i>=0; i--)]; the first argument is [i+1]. *)
Fixpoint mark_levels (i1 : nat) (fuel : nat) (h : heap) (n : Z)
  : option heap :=
  match i1 with
  | O => Some h
  | S i => h ← mark_level fuel h n i; mark_levels i fuel h n
  end.

Definition mark_node_ptrs (fuel : nat) (h : heap) (n : Z) : option heap :=
  nd ← h !! n; mark_levels (Z.to_nat (toplevel nd)) fuel h n.

(** *** sl_contains *)

(** [malloc(levelmax * sizeof(sl_node_t * ))]: uninitialised, here [NULL]s. *)
Definition new_array : list Z := replicate (Z.to_nat levelmax) NULL.

Definition sl_contains (fuel : nat) (s : state) (tbl : list shift_node)
    (est : estimator) (table_size : Z) (v : Z) : option (Z * state) :=
  '(s, _, succs) ← fraser_search fuel s v None (Some new_array)
                                 tbl est table_size;
  succs ← succs;
  s0 ← succs !! 0%nat;
  n0 ← st_heap s !! s0;
  Some (if (val n0 =? v) && (deleted n0 =? 0) then 1 else 0, s).

(** *** sl_add *)

(** [for (i = 0; i < new_n->toplevel; i++) new_n->next[i] = succs[i];]
    from [i] on, [n] rounds. *)
Fixpoint init_next (n : nat) (h : heap) (new_n : Z) (i : nat)
    (succs : list Z) : option heap :=
  match n with
  | O => Some h
  | S n' =>
    q ← succs !! i;
    h ← write_next h new_n i q;
    init_next n' h new_n (S i) succs
  end.

(** The [while (1)] that links [new_n] at level [i] (lines 323-338). *)
Fixpoint link_level (fuel : nat) (s : state) (v : Z) (new_n : Z) (i : nat)
    (preds succs : list Z) (tbl : list shift_node) (est : estimator)
    (table_size : Z) : option (state * list Z * list Z) :=
  match fuel with
  | O => None
  | S fuel' =>
    pred ← preds !! i;
    succ ← succs !! i;
    new_next ← read_next (st_heap s) new_n i;
    '(ok, h) ← (if new_next =? succ then Some (true, st_heap s)
                else CAS (st_heap s) new_n i (unset_mark new_next) succ);
    if ok : bool then
      sn ← h !! succ;
      let succ := if val sn =? v then unset_mark (succ + NEXT_OFFSET)
                  else succ in
      '(ok, h) ← CAS h pred i succ new_n;
      if ok : bool then Some (with_heap s h, preds, succs)
      else
        '(s, preds, succs) ← fraser_search fuel (with_heap s h) v (Some preds)
                                           (Some succs) tbl est table_size;
        preds ← preds; succs ← succs;
        link_level fuel' s v new_n i preds succs tbl est table_size
    else Some (with_heap s h, preds, succs)
  end.

(** [for (i = 1; i < new_n->toplevel; i++)] from [i] on, [n] rounds. *)
Fixpoint link_levels (n : nat) (fuel : nat) (s : state) (v : Z) (new_n : Z)
    (i : nat) (preds succs : list Z) (tbl : list shift_node)
    (est : estimator) (table_size : Z) : option state :=
  match n with
  | O => Some s
  | S n' =>
    '(s, preds, succs) ← link_level fuel s v new_n i preds succs
                                    tbl est table_size;
    link_levels n' fuel s v new_n (S i) preds succs tbl est table_size
  end.

(** [sl_add] from the label [retry] on. *)
Fixpoint sl_add_retry (fuel : nat) (s : state) (v : Z) (new_n : Z)
    (preds succs : list Z) (tbl : list shift_node) (est : estimator)
    (table_size : Z) : option (Z * state) :=
  match fuel with
  | O => None
  | S fuel' =>
    '(s, preds, succs) ← fraser_search fuel s v (Some preds) (Some succs)
                                       tbl est table_size;
    preds ← preds; succs ← succs;
    s0 ← succs !! 0%nat;
    n0 ← st_heap s !! s0;
    if val n0 =? v then
      if deleted n0 =? 0 then
        Some (0, with_heap s (sl_delete_node (st_heap s) new_n))
      else
        h ← mark_node_ptrs fuel (st_heap s) s0;
        sl_add_retry fuel' (with_heap s h) v new_n preds succs
                     tbl est table_size
    else
      nn ← st_heap s !! new_n;
      h ← init_next (Z.to_nat (toplevel nn)) (st_heap s) new_n 0 succs;
      p0 ← preds !! 0%nat;
      '(ok, h) ← CAS h p0 0 s0 new_n;
      if ok : bool then
        s ← link_levels (Z.to_nat (toplevel nn - 1)) fuel (with_heap s h) v
                        new_n 1 preds succs tbl est table_size;
        Some (1, s)
      else
        sl_add_retry fuel' (with_heap s h) v new_n preds succs
                     tbl est table_size
  end.

(** [new_n = sl_new_simple_node(v, get_rand_level(), 6);] *)
Definition sl_add_alloc (s : state) (v : Z) : Z * state :=
  let '(l, y) := get_rand_level (st_y s) in
  sl_new_simple_node (mk_state (st_heap s) (st_brk s) y (st_iter s)) v l.

Definition sl_add (fuel : nat) (s : state) (tbl : list shift_node)
    (est : estimator) (table_size : Z) (v : Z) : option (Z * state) :=
  let '(new_n, s) := sl_add_alloc s v in
  sl_add_retry fuel s v new_n new_array new_array tbl est table_size.

(** *** sl_remove *)

Definition sl_remove (fuel : nat) (s : state) (tbl : list shift_node)
    (est : estimator) (table_size : Z) (v : Z) : option (Z * state) :=
  '(s, _, succs) ← fraser_search fuel s v None (Some new_array)
                                 tbl est table_size;
  succs ← succs;
  s0 ← succs !! 0%nat;
  n0 ← st_heap s !! s0;
  if val n0 =? v then
    if deleted n0 =? 0 then
      let h := <[s0 := set_deleted n0 (wrap_int (deleted n0 + 1))]> (st_heap s) in
      h ← mark_node_ptrs fuel h s0;
      '(s, _, _) ← fraser_search fuel (with_heap s h) v None None
                                 tbl est table_size;
      Some (1, s)
    else Some (0, s)
  else Some (0, s).

(** *** seq_add *)

(** [while (next->val < val) { node = next; next = node->next[i]; }] *)
Fixpoint seq_walk (fuel : nat) (h : heap) (v : Z) (i : nat) (nd nx : Z)
  : option (Z * Z) :=
  match fuel with
  | O => None
  | S fuel' =>
    n ← h !! nx;
    if val n <? v then
      nx' ← read_next h nx i; seq_walk fuel' h v i nx nx'
    else Some (nd, nx)
  end.

(** [for (i = node->toplevel-1; i >= 0; i--)]; the first argument is
    [i+1]. *)
Fixpoint seq_levels (i1 : nat) (fuel : nat) (h : heap) (v : Z) (nd : Z)
    (preds succs : list Z) : option (Z * list Z * list Z) :=
  match i1 with
  | O => Some (nd, preds, succs)
  | S i =>
    nx ← read_next h nd i;
    '(nd, _) ← seq_walk fuel h v i nd nx;
    preds ← arr_write (Some preds) i nd; preds ← preds;
    q ← read_next h nd i;
    succs ← arr_write (Some succs) i q; succs ← succs;
    seq_levels i fuel h v nd preds succs
  end.

(** [for (i = 0; i < l; i++) { node->next[i] = succs[i];
    preds[i]->next[i] = node; }] from [i] on, [n] rounds. *)
Fixpoint seq_link (n : nat) (h : heap) (nd : Z) (i : nat)
    (preds succs : list Z) : option heap :=
  match n with
  | O => Some h
  | S n' =>
    q ← succs !! i;
    h ← write_next h nd i q;
    p ← preds !! i;
    h ← write_next h p i nd;
    seq_link n' h nd (S i) preds succs
  end.

Definition seq_add (fuel : nat) (s : state) (set : sl_intset) (v : Z)
  : option (Z * state) :=
  hd ← st_heap s !! head set;
  '(nd, preds, succs) ← seq_levels (Z.to_nat (toplevel hd)) fuel (st_heap s)
                                   v (head set) new_array new_array;
  nd ← read_next (st_heap s) nd 0;
  n ← st_heap s !! nd;
  if val n =? v then Some (0, s)
  else
    let '(l, y) := get_rand_level (st_y s) in
    let '(nd, s) :=
      sl_new_simple_node (mk_state (st_heap s) (st_brk s) y (st_iter s)) v l in
    h ← seq_link (Z.to_nat l) (st_heap s) nd 0 preds succs;
    Some (1, with_heap s h).

End Levelmax.

(** *** floor_log_2 *)

(** [floor_log_2] on an [unsigned int]: the five tests in program order,
    then [(n == 0) ? (-1) : pos]. *)
Definition floor_log_2 (n : Z) : Z :=
  let pos := 0 in
  let '(n, pos) := if n >=? 65536 then (Z.shiftr n 16, pos + 16) else (n, pos) in
  let '(n, pos) := if n >=? 256 then (Z.shiftr n 8, pos + 8) else (n, pos) in
  let '(n, pos) := if n >=? 16 then (Z.shiftr n 4, pos + 4) else (n, pos) in
  let '(n, pos) := if n >=? 4 then (Z.shiftr n 2, pos + 2) else (n, pos) in
  let pos := if n >=? 2 then pos + 1 else pos in
  if n =? 0 then -1 else pos.

(** *** sl_set_size *)

(** [while (node->next[0] != NULL) { if (!node->deleted) size++;
    node = node->next[0]; }] with [size] an [unsigned long]. *)
Fixpoint size_loop (fuel : nat) (h : heap) (node : Z) (size : Z)
  : option Z :=
  match fuel with
  | O => None
  | S fuel' =>
    nx ← read_next h node 0;
    if nx =? NULL then Some size
    else
      n ← h !! node;
      size_loop fuel' h nx
        (if deleted n =? 0 then (size + 1) mod 18446744073709551616
         else size)
  end.

Definition sl_set_size (fuel : nat) (h : heap) (set : sl_intset)
  : option Z :=
  node ← read_next h (head set) 0; size_loop fuel h node 0.

(** *** sl_set_delete *)

(** [while (node != NULL) { next = node->next[0]; sl_delete_node(node);
    node = next; }] *)
Fixpoint delete_loop (fuel : nat) (h : heap) (node : Z) : option heap :=
  match fuel with
  | O => None
  | S fuel' =>
    if node =? NULL then Some h
    else nx ← read_next h node 0; delete_loop fuel' (sl_delete_node h node) nx
  end.

(** [sl_set_delete]; the [free(set)] of the descriptor is outside the node
    store. *)
Definition sl_set_delete (fuel : nat) (h : heap) (set : sl_intset)
  : option heap :=
  delete_loop fuel h (head set).

End MLSkiplist.

(** ** ML-list/list.cpp *)

Module MLList.

(** [list.h]: [struct sl_node { val_t val; bool deleted; struct sl_node
    *next; }]. *)
Record sl_node := mk_node {
  val : Z;
  deleted : bool;
  next : Z
}.

Abbreviation heap := (gmap Z sl_node).

Record sl_intset := mk_set { head : Z }.

(** Program state: the node store, the allocation pointer of [malloc] and
    the caller's [*iterations]. *)
Record state := mk_state {
  st_heap : heap;
  st_brk : Z;
  st_iter : Z
}.

(** [sizeof(sl_node_t)]: value, flag (padded) and one reference. *)
Definition NODE_SIZE : Z := 24.

Definition incr_iter (it : Z) : Z := (it + 1) mod 18446744073709551616.

Definition sl_new_node (s : state) (v nx : Z) : Z * state :=
  let p := st_brk s in
  (p, mk_state (<[p := mk_node v false nx]> (st_heap s)) (p + NODE_SIZE)
               (st_iter s)).

Definition sl_set_new (s : state) : sl_intset * state :=
  let '(max, s) := sl_new_node s VAL_MAX NULL in
  let '(min, s) := sl_new_node s VAL_MIN max in
  (mk_set min, s).

(** [pred = shift_table[k].node; while(pred->val > val && k-- > 0) { pred =
    shift_table[k].node; }]: the loop from bucket index [k] on. *)
Fixpoint shortcut_loop (h : heap) (tbl : list shift_node) (v : Z) (k : nat)
    (pred : Z) : option Z :=
  n ← h !! pred;
  if val n >? v then
    match k with
    | O => Some pred
    | S k' => e ← tbl !! k'; shortcut_loop h tbl v k' (node e)
    end
  else Some pred.

Definition shortcut_start (h : heap) (tbl : list shift_node)
    (est : estimator) (table_size : Z) (v : Z) : option Z :=
  let k := bucket est table_size v in
  e ← tbl_get tbl k;
  shortcut_loop h tbl v (Z.to_nat k) (node e).

(** [while (curr->val < val) { pred = curr; curr = curr->next;
    ( *iterations)++; }] *)
Fixpoint scan (fuel : nat) (h : heap) (v : Z) (pred curr : Z) (it : Z)
  : option (Z * Z * Z) :=
  match fuel with
  | O => None
  | S fuel' =>
    c ← h !! curr;
    if val c <? v then scan fuel' h v curr (next c) (incr_iter it)
    else Some (pred, curr, it)
  end.

Definition set_deleted (n : sl_node) (d : bool) : sl_node :=
  mk_node (val n) d (next n).

Definition set_next (n : sl_node) (p : Z) : sl_node :=
  mk_node (val n) (deleted n) p.

Definition sl_add (fuel : nat) (s : state) (set : sl_intset)
    (tbl : list shift_node) (est : estimator) (table_size : Z) (v : Z)
  : option (Z * state) :=
  _ ← shortcut_start (st_heap s) tbl est table_size v;
  hd ← st_heap s !! head set;
  '(pred, curr, it) ← scan fuel (st_heap s) v (head set) (next hd) (st_iter s);
  c ← st_heap s !! curr;
  if val c =? v then
    if deleted c then
      Some (1, mk_state (<[curr := set_deleted c false]> (st_heap s))
                        (st_brk s) it)
    else Some (0, mk_state (st_heap s) (st_brk s) it)
  else
    let '(newnode, s) := sl_new_node (mk_state (st_heap s) (st_brk s) it) v curr in
    p ← st_heap s !! pred;
    Some (1, mk_state (<[pred := set_next p newnode]> (st_heap s))
                      (st_brk s) (st_iter s)).

Definition sl_remove (fuel : nat) (s : state) (set : sl_intset)
    (tbl : list shift_node) (est : estimator) (table_size : Z) (v : Z)
  : option (Z * state) :=
  pred ← shortcut_start (st_heap s) tbl est table_size v;
  p ← st_heap s !! pred;
  '(pred, curr, it) ← scan fuel (st_heap s) v pred (next p) (st_iter s);
  c ← st_heap s !! curr;
  if negb (val c =? v) || deleted c then
    Some (0, mk_state (st_heap s) (st_brk s) it)
  else
    Some (1, mk_state (<[curr := set_deleted c true]> (st_heap s))
                      (st_brk s) it).

Definition seq_add (fuel : nat) (s : state) (set : sl_intset) (v : Z)
  : option (Z * state) :=
  hd ← st_heap s !! head set;
  '(pred, curr, _) ← scan fuel (st_heap s) v (head set) (next hd) 0;
  c ← st_heap s !! curr;
  if val c =? v then Some (0, s)
  else
    let '(newnode, s) := sl_new_node s v curr in
    p ← st_heap s !! pred;
    Some (1, mk_state (<[pred := set_next p newnode]> (st_heap s))
                      (st_brk s) (st_iter s)).

(** [sl_contains]: [while (node->val < val) { ( *iterations)++;
    node = node->next; }] *)
Fixpoint seek (fuel : nat) (h : heap) (v : Z) (node : Z) (it : Z)
  : option (Z * Z) :=
  match fuel with
  | O => None
  | S fuel' =>
    n ← h !! node;
    if val n <? v then seek fuel' h v (next n) (incr_iter it)
    else Some (node, it)
  end.

Definition sl_contains (fuel : nat) (s : state) (set : sl_intset)
    (tbl : list shift_node) (est : estimator) (table_size : Z) (v : Z)
  : option (Z * state) :=
  node ← shortcut_start (st_heap s) tbl est table_size v;
  '(node, it) ← seek fuel (st_heap s) v node (st_iter s);
  n ← st_heap s !! node;
  Some (if (val n =? v) && negb (deleted n) then 1 else 0,
        mk_state (st_heap s) (st_brk s) it).

(** [sl_set_size]: [node = set->head->next; while (node->next != NULL)
    { size++; node = node->next; }] with [size] an [unsigned long]. *)
Fixpoint size_loop (fuel : nat) (h : heap) (node : Z) (size : Z)
  : option Z :=
  match fuel with
  | O => None
  | S fuel' =>
    n ← h !! node;
    if next n =? NULL then Some size
    else size_loop fuel' h (next n) ((size + 1) mod 18446744073709551616)
  end.

Definition sl_set_size (fuel : nat) (h : heap) (set : sl_intset)
  : option Z :=
  hd ← h !! head set; size_loop fuel h (next hd) 0.

Definition sl_delete_node (h : heap) (p : Z) : heap := delete p h.

(** [sl_set_delete]: [while (node != NULL) { next = node->next;
    sl_delete_node(node); node = next; }]; the [free(set)] of the
    descriptor is outside the node store. *)
Fixpoint delete_loop (fuel : nat) (h : heap) (node : Z) : option heap :=
  match fuel with
  | O => None
  | S fuel' =>
    if node =? NULL then Some h
    else n ← h !! node; delete_loop fuel' (sl_delete_node h node) (next n)
  end.

Definition sl_set_delete (fuel : nat) (h : heap) (set : sl_intset)
  : option heap :=
  delete_loop fuel h (head set).

(** [populate_shift_table]: the walk
    [while (node->next->next != NULL) { node = node->next; ... j++; }]. *)
Fixpoint populate_walk (fuel : nat) (h : heap) (est : estimator)
    (table_size : Z) (nd : Z) (j : Z) (tbl : list shift_node)
  : option (list shift_node) :=
  match fuel with
  | O => None
  | S fuel' =>
    n ← h !! nd;
    nn ← h !! next n;
    if next nn =? NULL then Some tbl
    else
      let k := bucket est table_size (val nn) in
      let d := wrap_int (j - k) in
      e ← tbl_get tbl k;
      let e1 := if d <=? delta e then mk_shift (count e) d (next n) else e in
      let e2 := mk_shift (wrap_int (count e1 + 1)) (delta e1) (node e1) in
      tbl' ← tbl_set tbl k e2;
      populate_walk fuel' h est table_size (next n) (wrap_int (j + 1)) tbl'
  end.

(** [populate_shift_table], with the index trace of its final loop (see
    [backfill]). *)
Definition populate_shift_table_trace (fuel : nat) (h : heap)
    (set : sl_intset) (tbl : list shift_node) (est : estimator)
    (table_size : Z) : option (list Z * option (list shift_node)) :=
  tbl1 ← populate_walk fuel h est table_size (head set) 0 tbl;
  Some (backfill (Z.to_nat table_size) tbl1).

Definition populate_shift_table (fuel : nat) (h : heap) (set : sl_intset)
    (tbl : list shift_node) (est : estimator) (table_size : Z)
  : option (list shift_node) :=
  r ← populate_shift_table_trace fuel h set tbl est table_size; r.2.

End MLList.

(** * Specification-level definitions *)

(** ** Shape of the linked structure *)

Module Shape.
Import MLSkiplist.

(** [a] points to [b] at level [i] (raw stored reference). *)
Definition nxt (h : heap) (i : nat) (a b : Z) : Prop :=
  read_next h a i = Some b.

(** [a -> l1 -> ... -> ln -> z] at level [i]. *)
Fixpoint path (h : heap) (i : nat) (a : Z) (l : list Z) (z : Z) : Prop :=
  match l with
  | [] => nxt h i a z
  | b :: l' => nxt h i a b ∧ path h i b l' z
  end.

(** A quiescent level-0 chain: [hd], the nodes [l] in order, then [tl],
    whose own forward reference is [NULL]; no marked reference on it. *)
Definition chain0 (h : heap) (hd : Z) (l : list Z) (tl : Z) : Prop :=
  path h 0 hd l tl ∧ nxt h 0 tl NULL ∧ Forall (λ a, a ≠ NULL) (hd :: l ++ [tl]).

(** From [m], following marked references at level [i] leads to [r]: every
    node passed on the way is being excised. *)
Inductive mchain (h : heap) (i : nat) : Z → Z → Prop :=
  | mchain_refl r : mchain h i r r
  | mchain_step m p r :
      read_next h m i = Some p → is_marked p ≠ 0 →
      mchain h i (unset_mark p) r → mchain h i m r.

(** What no operation of the engine changes in a node. *)
Definition node_stable (n n' : sl_node) : Prop :=
  val n' = val n ∧ deleted n' = deleted n ∧ toplevel n' = toplevel n
  ∧ length (next n') = length (next n).

(** A marked forward reference stays as it is. *)
Definition keeps_marks (n n' : sl_node) : Prop :=
  ∀ (i : nat) p, next n !! i = Some p → is_marked p ≠ 0 → next n' !! i = Some p.

(** From [h] to [h']: every node is still there with the same value, flag
    and height, and, except possibly at address [x], with its marked
    references. *)
Definition evolves (x : Z) (h h' : heap) : Prop :=
  ∀ a n, h !! a = Some n →
    ∃ n', h' !! a = Some n' ∧ node_stable n n' ∧ (a ≠ x → keeps_marks n n').

(** Level-0 successor with the mark stripped, and [n] such steps. *)
Definition succ0 (h : heap) (a : Z) : option Z :=
  unset_mark <$> read_next h a 0.

Fixpoint walk0 (h : heap) (n : nat) (a : Z) : option Z :=
  match n with
  | O => Some a
  | S n' => b ← succ0 h a; walk0 h n' b
  end.

Definition reach0 (h : heap) (a b : Z) : Prop := ∃ n, walk0 h n a = Some b.

(** [v] is a live member of the level-0 chain that starts at [a0]: a node
    reached from [a0] holds [v], is not flagged deleted and its own level-0
    reference is unmarked. *)
Definition live0 (h : heap) (a0 : Z) (v : Z) : Prop :=
  ∃ a n p, reach0 h a0 a ∧ h !! a = Some n ∧ val n = v ∧ deleted n = 0
           ∧ next n !! 0%nat = Some p ∧ is_marked p = 0.

(** No forward reference of the store is marked. *)
Definition no_marks (h : heap) : Prop :=
  ∀ a n (i : nat) p, h !! a = Some n → next n !! i = Some p → is_marked p = 0.

(** No node refers to [x]. *)
Definition no_ref (x : Z) (h : heap) : Prop :=
  ∀ a n (i : nat) p, h !! a = Some n → next n !! i = Some p → unset_mark p ≠ x.

(** [x] is neither allocated nor referred to by any node. *)
Definition fresh_addr (x : Z) (h : heap) : Prop :=
  h !! x = None ∧ no_ref x h.

(** No entry of a predecessor or successor array carries a mark. *)
Definition arr_unmarked (a : option (list Z)) : Prop :=
  ∀ l, a = Some l → Forall (λ p, is_marked p = 0) l.

(** One helping step of [fraser_search]: the successful
    [ATOMIC_CAS_MB(&left->next[i], left_next, right)] that unlinks the marked
    nodes between [left_next] and [right]. *)
Definition unlink_step (h h' : heap) : Prop :=
  ∃ lft (i : nat) left_next rgt n,
    h !! lft = Some n ∧ next n !! i = Some left_next
    ∧ is_marked left_next = 0 ∧ is_marked rgt = 0 ∧ left_next ≠ rgt
    ∧ mchain h i left_next rgt
    ∧ h' = <[lft := set_next n i rgt]> h.

(** One store to a forward reference: of the node at [x], or one that
    replaces an unmarked reference. *)
Definition upd_step (x : Z) (h h' : heap) : Prop :=
  ∃ a (i : nat) q n,
    h !! a = Some n ∧ (i < length (next n))%nat
    ∧ h' = <[a := set_next n i q]> h
    ∧ (a = x ∨ ∃ p, next n !! i = Some p ∧ is_marked p = 0).

(** The node at address [av.1] holds the value [av.2]. *)
Definition has_val (h : heap) (av : Z * Z) : Prop :=
  ∃ n, h !! av.1 = Some n ∧ val n = av.2.

End Shape.

(** ** The shift table builder on a traversal *)

(** The walk of [populate_shift_table] replayed on the list of (address,
    value) pairs of the nodes it visits. *)
Fixpoint walk_nodes (est : estimator) (table_size : Z) (l : list (Z * Z))
    (j : Z) (tbl : list shift_node) : option (list shift_node) :=
  match l with
  | [] => Some tbl
  | (a, v) :: l' =>
    let k := bucket est table_size v in
    let d := wrap_int (j - k) in
    e ← tbl_get tbl k;
    let e1 := if d <=? delta e then mk_shift (count e) d a else e in
    let e2 := mk_shift (wrap_int (count e1 + 1)) (delta e1) (node e1) in
    tbl' ← tbl_set tbl k e2;
    walk_nodes est table_size l' (wrap_int (j + 1)) tbl'
  end.

(** The reference algorithm of the specification (section 4.3), on exact
    integers, with [+infinity] as a value of its own. *)
Module ShiftSpec.

Inductive ext := Fin (z : Z) | PInf.

Record entry := mk_entry { count : Z; delta : ext; node : Z }.

Definition le_ext (d : Z) (x : ext) : bool :=
  match x with Fin z => d <=? z | PInf => true end.

Definition succ_ext (x : ext) : ext :=
  match x with Fin z => Fin (z + 1) | PInf => PInf end.

(** Step 1: [T] entries [count=0, delta=+infinity, node=null]. *)
Definition allocate (T : nat) : list entry := replicate T (mk_entry 0 PInf NULL).

(** Step 2: bucket 0 holds the head sentinel, bucket [T-1] the tail
    sentinel, each with [count=1, delta=0]. *)
Definition seed (hd tl : Z) (T : nat) (tbl : list entry) : list entry :=
  <[(T - 1)%nat := mk_entry 1 (Fin 0) tl]> (<[0%nat := mk_entry 1 (Fin 0) hd]> tbl).

(** Step 3: the nodes of the chain in rank order [j], [j+1], ... *)
Fixpoint walk (est : estimator) (T : nat) (l : list (Z * Z)) (j : Z)
    (tbl : list entry) : list entry :=
  match l with
  | [] => tbl
  | (a, v) :: l' =>
    let k := Z.to_nat (Qfloor (est v * inject_Z (Z.of_nat T - 1))) in
    match tbl !! k with
    | None => walk est T l' (j + 1) tbl
    | Some e =>
      let d := j - Z.of_nat k in
      let e1 := if le_ext d (delta e) then mk_entry (count e) (Fin d) a else e in
      let e2 := mk_entry (count e1 + 1) (delta e1) (node e1) in
      walk est T l' (j + 1) (<[k := e2]> tbl)
    end
  end.

(** Step 4: from [j1 - 1] down to [0], an empty bucket copies its right
    neighbour's node and count and takes its delta plus one. *)
Fixpoint fill (j1 : nat) (tbl : list entry) : list entry :=
  match j1 with
  | O => tbl
  | S j =>
    match tbl !! j, tbl !! S j with
    | Some e, Some r =>
      if count e =? 0
      then fill j (<[j := mk_entry (count r) (succ_ext (delta r)) (node r)]> tbl)
      else fill j tbl
    | _, _ => fill j tbl
    end
  end.

Definition build (hd : Z) (l : list (Z * Z)) (tl : Z) (est : estimator)
    (T : nat) : list entry :=
  fill T (walk est T l 0 (seed hd tl T (allocate T))).

End ShiftSpec.

(** An entry of the program read as an entry of the specification. *)
Definition embed (e : shift_node) : ShiftSpec.entry :=
  ShiftSpec.mk_entry (count e) (ShiftSpec.Fin (delta e)) (node e).

(** ** Shape of the single-level list *)

Module ListShape.
Import MLList.

(** [a -> l1 -> ... -> ln -> z] following [next]. *)
Fixpoint path (h : heap) (a : Z) (l : list Z) (z : Z) : Prop :=
  match l with
  | [] => ∃ n, h !! a = Some n ∧ next n = z
  | b :: l' => (∃ n, h !! a = Some n ∧ next n = b) ∧ path h b l' z
  end.


End ListShape.

(** ** Sequential runs and the reference model *)

Inductive op := Add (v : Z) | Remove (v : Z) | Contains (v : Z).

Definition op_val (o : op) : Z :=
  match o with Add v | Remove v | Contains v => v end.

(** The reference ordered set: one operation, its outcome and the new
    set. *)
Definition ref_step (S : gset Z) (o : op) : Z * gset Z :=
  match o with
  | Add v => if decide (v ∈ S) then (0, S) else (1, {[v]} ∪ S)
  | Remove v => if decide (v ∈ S) then (1, S ∖ {[v]}) else (0, S)
  | Contains v => (if decide (v ∈ S) then 1 else 0, S)
  end.

Fixpoint ref_run (S : gset Z) (ops : list op) : list Z :=
  match ops with
  | [] => []
  | o :: ops' => (ref_step S o).1 :: ref_run (ref_step S o).2 ops'
  end.

(** The same operations on the skip list, with one shift table. *)
Definition impl_step (levelmax : Z) (fuel : nat) (s : MLSkiplist.state)
    (tbl : list shift_node) (est : estimator) (T : Z) (o : op)
  : option (Z * MLSkiplist.state) :=
  match o with
  | Add v => MLSkiplist.sl_add levelmax fuel s tbl est T v
  | Remove v => MLSkiplist.sl_remove levelmax fuel s tbl est T v
  | Contains v => MLSkiplist.sl_contains levelmax fuel s tbl est T v
  end.

Fixpoint impl_run (levelmax : Z) (fuel : nat) (s : MLSkiplist.state)
    (tbl : list shift_node) (est : estimator) (T : Z) (ops : list op)
  : option (list Z) :=
  match ops with
  | [] => Some []
  | o :: ops' =>
    '(r, s) ← impl_step levelmax fuel s tbl est T o;
    rs ← impl_run levelmax fuel s tbl est T ops';
    Some (r :: rs)
  end.

(** A run that starts from a freshly created set: [sl_set_new], the shift
    table built on it, then the operations. *)
Definition fresh_run (levelmax : Z) (fuel : nat) (s0 : MLSkiplist.state)
    (est : estimator) (T : Z) (ops : list op) : option (list Z) :=
  '(set, s) ← MLSkiplist.sl_set_new levelmax s0;
  tbl ← MLSkiplist.populate_shift_table fuel (MLSkiplist.st_heap s) set
                                        (new_shift_table T) est T;
  impl_run levelmax fuel s tbl est T ops.

(** The state a run of operations ends in. *)
Fixpoint impl_exec (levelmax : Z) (fuel : nat) (s : MLSkiplist.state)
    (tbl : list shift_node) (est : estimator) (T : Z) (ops : list op)
  : option MLSkiplist.state :=
  match ops with
  | [] => Some s
  | o :: ops' =>
    '(_, s) ← impl_step levelmax fuel s tbl est T o;
    impl_exec levelmax fuel s tbl est T ops'
  end.

(** [sl_set_new], the shift table built on the new set, then the
    operations: the set, the final state and the table. *)
Definition fresh_exec (levelmax : Z) (fuel : nat) (s0 : MLSkiplist.state)
    (est : estimator) (T : Z) (ops : list op)
  : option (MLSkiplist.sl_intset * MLSkiplist.state * list shift_node) :=
  '(set, s) ← MLSkiplist.sl_set_new levelmax s0;
  tbl ← MLSkiplist.populate_shift_table fuel (MLSkiplist.st_heap s) set
                                        (new_shift_table T) est T;
  s' ← impl_exec levelmax fuel s tbl est T ops;
  Some (set, s', tbl).

(** The bulk loader: [sl_set_new], then one [seq_add] per value. *)
Fixpoint seq_run (levelmax : Z) (fuel : nat) (s : MLSkiplist.state)
    (set : MLSkiplist.sl_intset) (vs : list Z)
  : option (list Z * MLSkiplist.state) :=
  match vs with
  | [] => Some ([], s)
  | v :: vs' =>
    '(r, s) ← MLSkiplist.seq_add levelmax fuel s set v;
    '(rs, s) ← seq_run levelmax fuel s set vs';
    Some (r :: rs, s)
  end.

Definition bulk_exec (levelmax : Z) (fuel : nat) (s0 : MLSkiplist.state)
    (vs : list Z)
  : option (MLSkiplist.sl_intset * list Z * MLSkiplist.state) :=
  '(set, s) ← MLSkiplist.sl_set_new levelmax s0;
  '(rs, s') ← seq_run levelmax fuel s set vs;
  Some (set, rs, s').

(** The same operations on the single-level list. *)
Definition list_step (fuel : nat) (s : MLList.state) (set : MLList.sl_intset)
    (tbl : list shift_node) (est : estimator) (T : Z) (o : op)
  : option (Z * MLList.state) :=
  match o with
  | Add v => MLList.sl_add fuel s set tbl est T v
  | Remove v => MLList.sl_remove fuel s set tbl est T v
  | Contains v => MLList.sl_contains fuel s set tbl est T v
  end.

(** The bulk loader of the single-level list. *)
Fixpoint list_seq_run (fuel : nat) (s : MLList.state)
    (set : MLList.sl_intset) (vs : list Z)
  : option (list Z * MLList.state) :=
  match vs with
  | [] => Some ([], s)
  | v :: vs' =>
    '(r, s) ← MLList.seq_add fuel s set v;
    '(rs, s) ← list_seq_run fuel s set vs';
    Some (r :: rs, s)
  end.

Definition list_bulk_exec (fuel : nat) (s0 : MLList.state) (vs : list Z)
  : option (MLList.sl_intset * list Z * MLList.state) :=
  let '(set, s) := MLList.sl_set_new s0 in
  '(rs, s') ← list_seq_run fuel s set vs;
  Some (set, rs, s').

(** The reference set after the same operations. *)
Fixpoint ref_exec (S : gset Z) (ops : list op) : gset Z :=
  match ops with
  | [] => S
  | o :: ops' => ref_exec (ref_step S o).2 ops'
  end.

(** The allocator has handed out only addresses below its pointer, which
    is a non-null even address. *)
Definition alloc_ok (h : MLSkiplist.heap) (brk : Z) : Prop :=
  is_marked brk = 0 ∧ 0 < brk ∧ ∀ a, is_Some (h !! a) → a < brk.

(** ** The single-level list as a sorted list of cells *)

Module ListSeq.
Import MLList.

(** One node of the chain: its address, its value and its flag. *)
Record cell := mk_cell { c_addr : Z; c_val : Z; c_del : bool }.

Definition addrs (L : list cell) : list Z := c_addr <$> L.
Definition vals (L : list cell) : list Z := c_val <$> L.

(** The values of the nodes that are not flagged. *)
Definition live (L : list cell) : gset Z :=
  list_to_set (vals (filter (λ c, c_del c = false) L)).

(** Every cell of [L] is a node of the store whose [next] is the address
    of the cell that follows, [z] for the last one. *)
Fixpoint lseg (h : heap) (L : list cell) (z : Z) : Prop :=
  match L with
  | [] => True
  | c :: L' =>
    h !! c_addr c
    = Some (mk_node (c_val c) (c_del c) (List.hd z (addrs L')))
    ∧ lseg h L' z
  end.

(** The list between its sentinels. *)
Record LSL (hd tl : Z) (L : list cell) (h : heap) (brk : Z) : Prop := {
  l_seg : lseg h (mk_cell hd VAL_MIN false :: L ++ [mk_cell tl VAL_MAX false])
               NULL;
  l_sorted : StronglySorted Z.lt (vals L);
  l_range : Forall (λ v, VAL_MIN < v < VAL_MAX) (vals L);
  l_addr : NoDup (hd :: addrs L ++ [tl]);
  l_null : h !! NULL = None;
  l_brk : 0 < brk ∧ ∀ a, is_Some (h !! a) → a < brk
}.

(** The node at [p] comes before every node that holds [v] or more: it is
    the head, or holds less than [v]. *)
Definition starts_before (hd : Z) (L : list cell) (v : Z) (p : Z) : Prop :=
  p = hd ∨ ∃ c, c ∈ L ∧ c_addr c = p ∧ c_val c < v.

End ListSeq.

(** ** The skip list as a sorted list of towers *)

Module Seq.
Import MLSkiplist.

(** A node of the set: its address, value and height. *)
Record tower := mk_tower { t_addr : Z; t_val : Z; t_height : nat }.

Definition addrs (L : list tower) : list Z := t_addr <$> L.
Definition vals (L : list tower) : list Z := t_val <$> L.

(** The towers that reach level [i]. *)
Definition level (i : nat) (L : list tower) : list tower :=
  filter (λ t, (i < t_height t)%nat) L.

(** Consecutive addresses of [l] are linked at level [i]. *)
Fixpoint linked (h : heap) (i : nat) (l : list Z) : Prop :=
  match l with
  | a :: r => match r with
              | b :: _ => read_next h a i = Some b ∧ linked h i r
              | [] => True
              end
  | [] => True
  end.

Definition node_ok (M : nat) (h : heap) (t : tower) : Prop :=
  ∃ n, h !! t_addr t = Some n ∧ val n = t_val t ∧ deleted n = 0
       ∧ toplevel n = Z.of_nat (t_height t) ∧ length (next n) = t_height t
       ∧ (1 ≤ t_height t ≤ M)%nat ∧ VAL_MIN < t_val t < VAL_MAX.

(** What holds of the store whatever is linked where. *)
Record base (M : nat) (hd tl : Z) (L : list tower) (h : heap) (brk : Z)
  : Prop := mk_base {
  b_M : (1 ≤ M)%nat;
  b_head : ∃ n, h !! hd = Some n ∧ val n = VAL_MIN
                ∧ toplevel n = Z.of_nat M ∧ length (next n) = M;
  b_tail : ∃ n, h !! tl = Some n ∧ val n = VAL_MAX
                ∧ next n = replicate M NULL;
  b_nodes : Forall (node_ok M h) L;
  b_sorted : StronglySorted Z.lt (vals L);
  b_nodup : NoDup (hd :: tl :: addrs L);
  b_addr : Forall (λ a, is_marked a = 0 ∧ a ≠ NULL) (hd :: tl :: addrs L);
  b_brk : alloc_ok h brk
}.

(** The quiescent skip list that holds the towers [L]. *)
Definition SL (M : nat) (hd tl : Z) (L : list tower) (h : heap) (brk : Z)
  : Prop :=
  base M hd tl L h brk
  ∧ ∀ i, (i < M)%nat → linked h i (hd :: addrs (level i L) ++ [tl]).

(** Level-[i] predecessor and successor of a value that is above the
    towers [L1] and not above the towers [L2]. *)
Definition pred_at (hd : Z) (L1 : list tower) (i : nat) : Z :=
  List.last (addrs (level i L1)) hd.
Definition succ_at (tl : Z) (L2 : list tower) (i : nat) : Z :=
  List.hd tl (addrs (level i L2)).

Definition preds_of (hd : Z) (L1 : list tower) (M : nat) : list Z :=
  pred_at hd L1 <$> seq 0 M.
Definition succs_of (tl : Z) (L2 : list tower) (M : nat) : list Z :=
  succ_at tl L2 <$> seq 0 M.

(** The lowest [k] entries of an array overwritten by those of [X]. *)
Definition fill (k : nat) (X : list Z) (a : option (list Z))
  : option (list Z) :=
  (λ l, take k X ++ drop k l) <$> a.

(** [a->next[i] = q] on an allocated node. *)
Definition upd (h : heap) (a : Z) (i : nat) (q : Z) : heap :=
  match h !! a with
  | Some n => <[a := set_next n i q]> h
  | None => h
  end.


(** The store after the search has unlinked, at the levels below [k], a
    marked node of height [ht] that sits between [L1] and [L2]. *)
Fixpoint unlinked (hd tl : Z) (L1 L2 : list tower) (ht : nat) (k : nat)
    (h : heap) : heap :=
  match k with
  | O => h
  | S i =>
    unlinked hd tl L1 L2 ht i
      (if decide (i < ht)%nat then upd h (pred_at hd L1 i) i (succ_at tl L2 i)
       else h)
  end.

(** The skip list that holds [L1 ++ L2] while a marked node [x] of height
    [ht] is still linked between them at the levels below [k]. *)
Definition GSL (M : nat) (hd tl : Z) (L1 L2 : list tower) (x : Z)
    (ht k : nat) (h : heap) (brk : Z) : Prop :=
  base M hd tl (L1 ++ L2) h brk
  ∧ (is_marked x = 0 ∧ x ∉ hd :: tl :: addrs (L1 ++ L2))
  ∧ ∀ i, (i < M)%nat →
      if decide (i < k ∧ i < ht)%nat
      then linked h i ((hd :: addrs (level i L1)) ++ [x])
           ∧ read_next h x i = Some (set_mark (succ_at tl L2 i))
           ∧ linked h i (addrs (level i L2) ++ [tl])
      else linked h i ((hd :: addrs (level i L1)) ++ addrs (level i L2) ++ [tl]).

(** The skip list that holds [L1 ++ L2] while the new node [x] of value
    [v], whose own references are set up to its height [ht], has been
    linked at the levels below [k]. *)
Definition PSL (M : nat) (hd tl : Z) (L1 L2 : list tower) (x v : Z)
    (ht k : nat) (h : heap) (brk : Z) : Prop :=
  base M hd tl (L1 ++ mk_tower x v ht :: L2) h brk
  ∧ ∀ i, (i < M)%nat →
      ((i < ht)%nat → read_next h x i = Some (succ_at tl L2 i))
      ∧ if decide (i < k)%nat
        then linked h i ((hd :: addrs (level i L1))
                         ++ x :: addrs (level i L2) ++ [tl])
        else linked h i ((hd :: addrs (level i L1))
                         ++ addrs (level i L2) ++ [tl]).

(** A table whose shortcut loop ends on the head sentinel. *)
Definition head_start (hd tl : Z) (tbl : list shift_node) : Prop :=
  (∃ e, tbl !! 0%nat = Some e ∧ node e = hd)
  ∧ Forall (λ e, node e = hd ∨ node e = tl) tbl.

End Seq.

(** ** A concrete run *)

(** The values of the level-0 chain from [a] on: nodes whose own level-0
    reference is marked are passed over. *)
Fixpoint chain_vals (fuel : nat) (h : MLSkiplist.heap) (a : Z) : list Z :=
  match fuel with
  | O => []
  | S fuel' =>
    match h !! a with
    | None => []
    | Some n =>
      match MLSkiplist.next n !! 0%nat with
      | None => [MLSkiplist.val n]
      | Some p =>
        if is_marked p =? 0
        then MLSkiplist.val n :: chain_vals fuel' h (unset_mark p)
        else chain_vals fuel' h (unset_mark p)
      end
    end
  end.

Fixpoint increasing (l : list Z) : bool :=
  match l with
  | a :: (b :: _) as r => (a <? b) && increasing r
  | _ => true
  end.

Module Scenario.
Import MLSkiplist.

(** [MAXLEVEL]: "results are hardwired to p=0.5, min=1, max=32". *)
Definition MAXLEVEL : Z := 32.

(** The start of the program: nothing allocated, [y = 2463534242UL]. *)
Definition s_start : state := mk_state ∅ 4096 2463534242 0.

(** A monotonic estimator with values in [[0,1)]: linear on [1..9]. *)
Definition est_lin : estimator :=
  λ v, if v <? 1 then 0%Q else if v <=? 9 then ((v - 1) # 10)%Q else (9 # 10)%Q.

Definition fuel : nat := 64.

(** [CreateSet(); BulkLoad 5, 1, 9, 3]. *)
Definition bulk : option (sl_intset * state) :=
  '(set, s) ← sl_set_new MAXLEVEL s_start;
  '(_, s) ← seq_add MAXLEVEL fuel s set 5;
  '(_, s) ← seq_add MAXLEVEL fuel s set 1;
  '(_, s) ← seq_add MAXLEVEL fuel s set 9;
  '(_, s) ← seq_add MAXLEVEL fuel s set 3;
  Some (set, s).

Definition bulk_set : sl_intset := default (mk_set NULL) (fst <$> bulk).
Definition bulk_state : state := default s_start (snd <$> bulk).

(** [CreateSet(); BulkLoad 5]. *)
Definition single : option (sl_intset * state) :=
  '(set, s) ← sl_set_new MAXLEVEL s_start;
  '(_, s) ← seq_add MAXLEVEL fuel s set 5;
  Some (set, s).

Definition single_set : sl_intset := default (mk_set NULL) (fst <$> single).
Definition single_state : state := default s_start (snd <$> single).

(** An estimator of one third for every value: what the call returns is
    the [double] nearest to it. *)
Definition est_third : estimator := λ _, (1 # 3)%Q.

(** [... ; BuildShiftTable(table_size = 4)]. *)
Definition loaded : option (sl_intset * state * list shift_node) :=
  '(set, s) ← bulk;
  tbl ← populate_shift_table fuel (st_heap s) set (new_shift_table 4) est_lin 4;
  Some (set, s, tbl).

Definition loaded_table : list shift_node := default [] (snd <$> loaded).

(** The values of the level-0 chain of [loaded]. *)
Definition loaded_chain : option (list Z) :=
  '(set, s, _) ← loaded; Some (chain_vals fuel (st_heap s) (head set)).



(** What the search of [sl_add(3)] returns in [bulk_state] with the table
    of [loaded], and in [flagged_state] with [fresh_table]: the state, the
    predecessors and the successors. *)
Definition found (s : state) (tbl : list shift_node) (v : Z)
  : state * list Z * list Z :=
  default (s, [], [])
    ('(s', preds, succs) ←
       fraser_search fuel (sl_add_alloc MAXLEVEL s v).2 v
         (Some (new_array MAXLEVEL)) (Some (new_array MAXLEVEL)) tbl est_lin 4;
     preds ← preds; succs ← succs; Some (s', preds, succs)).

Definition found_node (s : state) (tbl : list shift_node) (v : Z)
  : Z * sl_node :=
  default (NULL, mk_node 0 0 0 [])
    (s0 ← (found s tbl v).2 !! 0%nat;
     n0 ← st_heap (found s tbl v).1.1 !! s0; Some (s0, n0)).


(** The result and the state of one operation, with the table of size 4. *)
Definition after_op (s : state) (tbl : list shift_node) (o : op) : Z * state :=
  default (0, s) (impl_step MAXLEVEL fuel s tbl est_lin 4 o).

(** The value of the shortcut-start node for target [v], then the values of
    the level-0 predecessor and successor that [fraser_search] returns. *)
Definition search_from_table (v : Z) : option (Z * Z * Z) :=
  '(set, s, tbl) ← loaded;
  '(start, _) ← shortcut_start (st_heap s) tbl est_lin 4 v (st_iter s);
  n ← st_heap s !! start;
  '(s', preds, succs) ← fraser_search fuel s v (Some (new_array MAXLEVEL))
                           (Some (new_array MAXLEVEL)) tbl est_lin 4;
  preds ← preds; succs ← succs;
  p ← preds !! 0%nat; np ← st_heap s' !! p;
  q ← succs !! 0%nat; nq ← st_heap s' !! q;
  Some (val n, val np, val nq).

(** The level-0 chain before and after [sl_add(v)], and its result. *)
Definition add_from_table (v : Z) : option (list Z * Z * list Z) :=
  '(set, s, tbl) ← loaded;
  '(r, s') ← sl_add MAXLEVEL fuel s tbl est_lin 4 v;
  Some (chain_vals fuel (st_heap s) (head set), r,
        chain_vals fuel (st_heap s') (head set)).

(** [sl_contains(v)] with the table of [loaded]. *)
Definition contains_from_table (v : Z) : option Z :=
  '(set, s, tbl) ← loaded;
  '(r, _) ← sl_contains MAXLEVEL fuel s tbl est_lin 4 v;
  Some r.

End Scenario.

(** The same for the single-level list. *)
Module ListScenario.
Import MLList.

Definition s_start : state := mk_state ∅ 4096 0.

Definition fuel : nat := 64.

(** A one-entry table that holds the head sentinel. *)
Definition head_table (set : sl_intset) : list shift_node := [mk_shift 1 0 (head set)].

(** [CreateSet(); BulkLoad 5, 3; Remove(3)]. *)
Definition removed : option (sl_intset * state) :=
  let '(set, s) := sl_set_new s_start in
  '(_, s) ← seq_add fuel s set 5;
  '(_, s) ← seq_add fuel s set 3;
  '(_, s) ← sl_remove fuel s set (head_table set) (λ _, 0%Q) 1 3;
  Some (set, s).

Definition removed_set : sl_intset := default (mk_set NULL) (fst <$> removed).
Definition removed_state : state := default s_start (snd <$> removed).

(** [CreateSet(); BulkLoad 5, 3], then the one-bucket table that
    [populate_shift_table] builds on it. *)
Definition loaded : option (sl_intset * state * list shift_node) :=
  let '(set, s) := sl_set_new s_start in
  '(_, s) ← seq_add fuel s set 5;
  '(_, s) ← seq_add fuel s set 3;
  tbl ← populate_shift_table fuel (st_heap s) set (new_shift_table 1)
                             (λ _, 0%Q) 1;
  Some (set, s, tbl).

Definition loaded_state : state :=
  default s_start ((λ x, x.1.2) <$> loaded).
Definition loaded_table : list shift_node := default [] (snd <$> loaded).

End ListScenario.

(** Executable forms of [Shape.no_ref]. *)
Definition no_ref_b (x : Z) (h : MLSkiplist.heap) : bool :=
  forallb (λ an, forallb (λ p, negb (unset_mark p =? x)) (MLSkiplist.next an.2))
          (map_to_list h).


(** * Rounding to [double] *)

Module DoubleFacts.

Lemma pow2_pos (e : Z) : (0 < 2 ^ e)%Q.
Proof. by apply Qpower_0_lt. Qed.

Lemma pow2_add (a b : Z) : (2 ^ (a + b) == 2 ^ a * 2 ^ b)%Q.
Proof. by apply Qpower_plus. Qed.

Lemma pow2_mono (a b : Z) : a <= b → (2 ^ a <= 2 ^ b)%Q.
Proof. intros H. apply Qpower_le_compat_l; [done|]. by compute. Qed.

Lemma pow2_Z (e : Z) : 0 <= e → (2 ^ e == inject_Z (2 ^ e))%Q.
Proof. intros H. symmetry. by apply (Zpower_Qpower 2 e). Qed.

Lemma Qlog2_spec (a : Q) :
  (0 < a)%Q → (2 ^ Qlog2 a <= a)%Q ∧ (a < 2 ^ (Qlog2 a + 1))%Q.
Proof.
  intros Ha. destruct a as [n d]. unfold Qlog2. cbn [Qnum Qden].
  assert (Hn : 0 < n).
  { unfold Qlt in Ha. simpl in Ha. lia. }
  pose proof (Z.log2_spec n Hn) as [Hn1 Hn2].
  pose proof (Z.log2_spec (Z.pos d) ltac:(lia)) as [Hd1 Hd2].
  pose proof (Z.log2_nonneg n) as Hln.
  pose proof (Z.log2_nonneg (Z.pos d)) as Hld.
  set (ln := Z.log2 n) in *. set (ld := Z.log2 (Z.pos d)) in *.
  assert (E : (n # d == inject_Z n / inject_Z (Z.pos d))%Q)
    by apply Qmake_Qdiv.
  assert (HD : (0 < inject_Z (Z.pos d))%Q).
  { change 0%Q with (inject_Z 0). rewrite <- Zlt_Qlt. lia. }
  assert (EN : ((n # d) * inject_Z (Z.pos d) == inject_Z n)%Q).
  { rewrite E. field. intros H0. rewrite H0 in HD. by apply Qlt_irrefl in HD. }
  rewrite Zle_Qle, <- pow2_Z in Hn1, Hd1 by lia.
  rewrite Zlt_Qlt, <- pow2_Z in Hn2, Hd2 by lia.
  replace (Z.succ ln) with (ln + 1) in * by lia.
  replace (Z.succ ld) with (ld + 1) in * by lia.
  pose proof (pow2_pos ld) as Pd. pose proof (pow2_pos (ln - ld)) as Pk.
  pose proof (pow2_pos (ln - ld - 1)) as Pk1.
  assert (E1 : (2 ^ ln == 2 ^ (ln - ld) * 2 ^ ld)%Q).
  { rewrite <- pow2_add. by replace (ln - ld + ld) with ln by lia. }
  assert (E2 : (2 ^ (ln + 1) == 2 ^ (ln - ld + 1) * 2 ^ ld)%Q).
  { rewrite <- pow2_add. by replace (ln - ld + 1 + ld) with (ln + 1) by lia. }
  assert (E3 : (2 ^ ln == 2 ^ (ln - ld - 1) * 2 ^ (ld + 1))%Q).
  { rewrite <- pow2_add. by replace (ln - ld - 1 + (ld + 1)) with ln by lia. }
  destruct (Qle_bool (2 ^ (ln - ld)) (n # d)) eqn:Eb.
  - apply Qle_bool_iff in Eb. split; [done|].
    set (A := (2 ^ (ln - ld + 1))%Q) in *. set (B := (2 ^ ld)%Q) in *.
    set (x := (n # d)%Q) in *. set (D := inject_Z (Z.pos d)) in *.
    set (N := inject_Z n) in *. set (C := (2 ^ (ln + 1))%Q) in *.
    pose proof (pow2_pos (ln - ld + 1)) as PA. fold A in PA.
    apply Qnot_le_lt. intros Hc.
    assert ((A * B <= x * D)%Q).
    { apply Qle_trans with (A * D)%Q.
      - apply Qmult_le_l; [done|done].
      - apply Qmult_le_r; [done|done]. }
    lra.
  - assert (Hlt : ((n # d) < 2 ^ (ln - ld))%Q).
    { apply Qnot_le_lt. intros Hc. apply Qle_bool_iff in Hc. congruence. }
    replace (ln - ld - 1 + 1) with (ln - ld) by lia. split; [|done].
    set (A := (2 ^ (ln - ld - 1))%Q) in *. set (B := (2 ^ (ld + 1))%Q) in *.
    set (x := (n # d)%Q) in *. set (D := inject_Z (Z.pos d)) in *.
    set (N := inject_Z n) in *.
    apply Qnot_lt_le. intros Hc.
    assert ((x * D < A * B)%Q).
    { apply Qlt_trans with (A * D)%Q.
      - apply Qmult_lt_r; [done|done].
      - apply Qmult_lt_l; [done|done]. }
    lra.
Qed.

Lemma rhe_bounds (z : Q) :
  (z - (1 # 2) <= inject_Z (round_half_even z))%Q
  ∧ (inject_Z (round_half_even z) <= z + (1 # 2))%Q.
Proof.
  unfold round_half_even.
  pose proof (Qfloor_le z) as H1. pose proof (Qlt_floor z) as H2.
  rewrite inject_Z_plus in H2. change (inject_Z 1) with 1%Q in H2.
  set (f := Qfloor z) in *.
  destruct (Qcompare_spec (z - inject_Z f) (1 # 2)) as [E|E|E].
  - destruct (Z.even f); rewrite ?inject_Z_plus;
      change (inject_Z 1) with 1%Q; lra.
  - lra.
  - rewrite inject_Z_plus. change (inject_Z 1) with 1%Q. lra.
Qed.

Lemma rhe_nonneg (z : Q) : (0 <= z)%Q → 0 <= round_half_even z.
Proof.
  intros Hz. unfold round_half_even.
  assert (0 <= Qfloor z).
  { change 0 with (Qfloor (inject_Z 0)) at 1. by apply Qfloor_resp_le. }
  destruct (_ ?= _)%Q; [destruct (Z.even _)|..]; lia.
Qed.

Lemma round_double_pos (q : Q) :
  (0 < q)%Q →
  round_double q
  = (inject_Z (round_half_even (q / 2 ^ double_exp q)) * 2 ^ double_exp q)%Q.
Proof.
  intros Hq. destruct q as [[|p|p] d]; [by compute in Hq| |by compute in Hq].
  unfold round_double. cbn [Qabs Z.abs Qnum Qden].
  destruct (Qeq_bool (Z.pos p # d) 0) eqn:E.
  { apply Qeq_bool_iff in E. rewrite E in Hq. by apply Qlt_irrefl in Hq. }
  destruct (Qle_bool 0 (Z.pos p # d)) eqn:E'; [done|].
  assert (Qle_bool 0 (Z.pos p # d) = true); [|congruence].
  apply Qle_bool_iff. by apply Qlt_le_weak.
Qed.

Lemma round_double_0 (q : Q) : (q == 0)%Q → round_double q = 0%Q.
Proof.
  intros Hq. unfold round_double.
  assert (E : Qeq_bool (Qabs q) 0 = true).
  { apply Qeq_bool_iff. rewrite Hq. reflexivity. }
  by rewrite E.
Qed.

Lemma round_double_nonneg (q : Q) : (0 <= q)%Q → (0 <= round_double q)%Q.
Proof.
  intros Hq. destruct (Qlt_le_dec 0 q) as [Hlt|Hle].
  - rewrite round_double_pos by done.
    apply Qmult_le_0_compat; [|apply Qlt_le_weak, pow2_pos].
    change 0%Q with (inject_Z 0). rewrite <- Zle_Qle. apply rhe_nonneg.
    apply Qle_shift_div_l; [apply pow2_pos|]. lra.
  - rewrite round_double_0; [apply Qle_refl|]. lra.
Qed.

Lemma round_double_nonpos (q : Q) : (q <= 0)%Q → (round_double q <= 0)%Q.
Proof.
  intros Hq. destruct (Qlt_le_dec q 0) as [Hlt|Hle].
  - unfold round_double.
    destruct (Qeq_bool (Qabs q) 0); [apply Qle_refl|].
    destruct (Qle_bool 0 q) eqn:E.
    { apply Qle_bool_iff in E. lra. }
    assert ((0 <= inject_Z (round_half_even (Qabs q / 2 ^ double_exp (Qabs q)))
                  * 2 ^ double_exp (Qabs q))%Q); [|lra].
    apply Qmult_le_0_compat; [|apply Qlt_le_weak, pow2_pos].
    change 0%Q with (inject_Z 0). rewrite <- Zle_Qle. apply rhe_nonneg.
    apply Qle_shift_div_l; [apply pow2_pos|].
    pose proof (Qabs_nonneg q). lra.
  - rewrite round_double_0; [apply Qle_refl|]. lra.
Qed.

(** Rounding moves a positive value up by at most half a unit in the last
    place. *)
Lemma round_double_upper (y : Q) :
  (0 < y)%Q →
  (round_double y <= y * (1 + 2 ^ (-53)) + 2 ^ (-1075))%Q.
Proof.
  intros Hy. rewrite round_double_pos by done.
  destruct (Qlog2_spec y Hy) as [Hk _].
  pose proof (rhe_bounds (y / 2 ^ double_exp y)) as [_ Hm].
  pose proof (pow2_pos (double_exp y)) as Pe.
  set (e := double_exp y) in *. set (m := inject_Z (round_half_even _)) in *.
  assert (Hme : (m * 2 ^ e <= y + 2 ^ e * (1 # 2))%Q).
  { assert (E : ((y / 2 ^ e + (1 # 2)) * 2 ^ e == y + 2 ^ e * (1 # 2))%Q)
      by (field; lra).
    rewrite <- E. by apply Qmult_le_r. }
  assert (He : (2 ^ e * (1 # 2) <= y * 2 ^ (-53) + 2 ^ (-1075))%Q); [|lra].
  pose proof (pow2_pos (-53)) as P53. pose proof (pow2_pos (-1075)) as P1075.
  unfold e, double_exp.
  destruct (Z.max_spec (Qlog2 y - 52) (-1074)) as [[_ ->]|[_ ->]].
  - assert (E : (2 ^ (-1074) * (1 # 2) == 2 ^ (-1075))%Q).
    { change (1 # 2)%Q with (2 ^ (-1))%Q. rewrite <- pow2_add. reflexivity. }
    rewrite E. assert (0 <= y * 2 ^ (-53))%Q; [|lra].
    apply Qmult_le_0_compat; lra.
  - assert (E : (2 ^ (Qlog2 y - 52) * (1 # 2) == 2 ^ Qlog2 y * 2 ^ (-53))%Q).
    { change (1 # 2)%Q with (2 ^ (-1))%Q. rewrite <- !pow2_add.
      by replace (Qlog2 y - 52 + -1) with (Qlog2 y + -53) by lia. }
    rewrite E.
    assert ((2 ^ Qlog2 y * 2 ^ (-53) <= y * 2 ^ (-53))%Q); [|lra].
    apply Qmult_le_compat_r; lra.
Qed.

(** A binary64 value below 1 is at most the largest of them,
    [1 - 2^-53]. *)
Lemma round_double_below_1 (q : Q) :
  (round_double q < 1)%Q → (round_double q <= 1 - 2 ^ (-53))%Q.
Proof.
  intros Hx. pose proof (pow2_pos (-53)) as P53.
  assert (H53 : (2 ^ (-53) <= 1 # 2)%Q) by (by compute).
  destruct (Qlt_le_dec 0 q) as [Hq|Hq].
  2:{ pose proof (round_double_nonpos q Hq). lra. }
  rewrite round_double_pos in * by done.
  destruct (Qlog2_spec q Hq) as [_ Hk].
  pose proof (rhe_bounds (q / 2 ^ double_exp q)) as [_ Hm].
  pose proof (rhe_nonneg (q / 2 ^ double_exp q)) as Hm0.
  pose proof (pow2_pos (double_exp q)) as Pe.
  set (e := double_exp q) in *.
  set (m := round_half_even (q / 2 ^ e)) in *.
  destruct (Z_lt_le_dec e (-53)) as [He|He].
  - (* the value is at most 1/2 *)
    assert (Hk' : Qlog2 q + 1 <= e + 53).
    { unfold e, double_exp. lia. }
    pose proof (pow2_mono _ _ Hk') as Hmono.
    assert (Hq53 : (q / 2 ^ e < 2 ^ 53)%Q).
    { apply Qlt_shift_div_r; [done|].
      pose proof (pow2_add e 53) as E. lra. }
    assert (Hm53 : m <= 2 ^ 53).
    { assert ((inject_Z m < inject_Z (2 ^ 53 + 1))%Q); [|rewrite <- Zlt_Qlt in *; lia].
      rewrite inject_Z_plus, <- pow2_Z by lia.
      change (inject_Z 1) with 1%Q. lra. }
    assert ((inject_Z m * 2 ^ e <= 2 ^ 53 * 2 ^ e)%Q).
    { apply Qmult_le_compat_r; [|lra]. rewrite pow2_Z by lia.
      by rewrite <- Zle_Qle. }
    assert ((2 ^ 53 * 2 ^ e <= 1 # 2)%Q); [|lra].
    rewrite <- pow2_add. change (1 # 2)%Q with (2 ^ (-1))%Q.
    apply pow2_mono. lia.
  - destruct (Z_lt_le_dec e 0) as [He0|He0].
    + (* a multiple of [2^e] below 1 *)
      assert (E1 : (2 ^ (- e) * 2 ^ e == 1)%Q).
      { rewrite <- pow2_add. by replace (- e + e) with 0 by lia. }
      assert (Hlt : m < 2 ^ (- e)).
      { rewrite Zlt_Qlt, <- pow2_Z by lia.
        apply Qnot_le_lt. intros Hc.
        assert ((2 ^ (- e) * 2 ^ e <= inject_Z m * 2 ^ e)%Q); [|lra].
        apply Qmult_le_compat_r; lra. }
      assert (Hle : (inject_Z m <= 2 ^ (- e) - 1)%Q).
      { assert (Hle' : (inject_Z (m + 1) <= inject_Z (2 ^ (- e)))%Q)
          by (rewrite <- Zle_Qle; lia).
        rewrite inject_Z_plus, <- pow2_Z in Hle' by lia.
        change (inject_Z 1) with 1%Q in Hle'. lra. }
      assert ((inject_Z m * 2 ^ e <= (2 ^ (- e) - 1) * 2 ^ e)%Q).
      { apply Qmult_le_compat_r; lra. }
      assert ((2 ^ (-53) <= 2 ^ e)%Q) by (apply pow2_mono; lia).
      lra.
    + (* an integer below 1 *)
      assert (H1 : (1 <= 2 ^ e)%Q).
      { change 1%Q with (2 ^ 0)%Q. by apply pow2_mono. }
      assert (Hm1 : m < 1).
      { rewrite Zlt_Qlt. change (inject_Z 1) with 1%Q.
        apply Qnot_le_lt. intros Hc.
        assert ((1 * 1 <= inject_Z m * 2 ^ e)%Q); [|lra].
        apply Qmult_le_compat_nonneg; lra. }
      assert (E0 : m = 0).
      { assert (0 <= m); [|lia]. apply Hm0.
        apply Qle_shift_div_l; [done|lra]. }
      rewrite E0 in *. change (inject_Z 0) with 0%Q in *. lra.
Qed.

Lemma rhe_int (z : Q) (k : Z) : (z == inject_Z k)%Q → round_half_even z = k.
Proof.
  intros E. unfold round_half_even.
  assert (Ef : Qfloor z = k) by (rewrite E; apply Qfloor_Z).
  rewrite Ef.
  destruct (Qcompare_spec (z - inject_Z k) (1 # 2)) as [H|H|H]; [|done|];
    exfalso; lra.
Qed.

(** A binary64 value is rounded to itself: [m * 2^e] with a significand
    [m] of at most 53 bits and [e] not below the least exponent. *)
Lemma round_double_exact (m e : Z) :
  0 <= m < 2 ^ 53 → -1074 <= e →
  (round_double (inject_Z m * 2 ^ e) == inject_Z m * 2 ^ e)%Q.
Proof.
  intros [Hm0 Hm] He. pose proof (pow2_pos e) as Pe.
  destruct (decide (m = 0)) as [->|Hne].
  { rewrite round_double_0; [|ring]. ring. }
  set (q := (inject_Z m * 2 ^ e)%Q).
  assert (Hm1 : (1 <= inject_Z m)%Q).
  { change 1%Q with (inject_Z 1). rewrite <- Zle_Qle. lia. }
  assert (Hm2 : (inject_Z m < 2 ^ 53)%Q).
  { rewrite (pow2_Z 53) by lia. rewrite <- Zlt_Qlt. lia. }
  assert (Hq : (0 < q)%Q) by (unfold q; nra).
  rewrite round_double_pos by done.
  destruct (Qlog2_spec q Hq) as [HL _].
  set (L := Qlog2 q) in *.
  assert (HLe : L < e + 53).
  { destruct (Z_lt_le_dec L (e + 53)) as [|Hge]; [done|exfalso].
    pose proof (pow2_mono _ _ Hge) as Hmono.
    pose proof (pow2_add e 53) as Ea.
    assert ((q < 2 ^ e * 2 ^ 53)%Q) by (unfold q; nra).
    lra. }
  unfold double_exp. fold L. set (e' := Z.max (L - 52) (-1074)).
  assert (He' : e' <= e) by lia.
  pose proof (pow2_pos e') as Pe'.
  pose proof (pow2_add (e - e') e') as Ea.
  replace (e - e' + e') with e in Ea by lia.
  pose proof (pow2_Z (e - e') ltac:(lia)) as Ez.
  assert (Eq : (q / 2 ^ e' == inject_Z (m * 2 ^ (e - e')))%Q).
  { rewrite inject_Z_mult, <- Ez. unfold q. rewrite Ea. field. lra. }
  rewrite (rhe_int _ _ Eq). rewrite inject_Z_mult, <- Ez. unfold q.
  rewrite Ea. ring.
Qed.

End DoubleFacts.


(** * Properties of the shift table builder *)

Section Backfill.

(** Below the last entry the loop reads [j] and possibly [j+1], both inside
    the array. *)
Lemma backfill_interior (j1 : nat) :
  ∀ (tbl : list shift_node), (j1 < length tbl)%nat →
    ∃ tr tbl', backfill j1 tbl = (tr, Some tbl')
      ∧ length tbl' = length tbl
      ∧ Forall (λ i, 0 <= i <= Z.of_nat j1) tr.
Proof.
  induction j1 as [|j IH]; intros tbl Hlen; simpl.
  - exists [], tbl. auto.
  - destruct (lookup_lt_is_Some_2 tbl j ltac:(lia)) as [e He]. rewrite He.
    destruct (count e =? 0).
    + destruct (lookup_lt_is_Some_2 tbl (S j) Hlen) as [r Hr]. rewrite Hr.
      set (tbl1 := <[j := _]> tbl).
      destruct (IH tbl1) as (tr & tbl' & E & L & F).
      { unfold tbl1. rewrite length_insert. lia. }
      rewrite E. exists (Z.of_nat j :: Z.of_nat (S j) :: tr), tbl'.
      split; [done|]. split.
      { rewrite L. unfold tbl1. by rewrite length_insert. }
      repeat constructor; try lia.
      eapply Forall_impl; [exact F|]. simpl. intros; lia.
    + destruct (IH tbl) as (tr & tbl' & E & L & F); [lia|].
      rewrite E. exists (Z.of_nat j :: tr), tbl'. split; [done|]. split; [done|].
      constructor; [lia|]. eapply Forall_impl; [exact F|]. simpl. intros; lia.
Qed.

(** When the last entry has a non-zero count the loop never reads past it. *)
Lemma backfill_top (j : nat) (tbl : list shift_node) (e : shift_node) :
  tbl !! j = Some e → count e ≠ 0 →
  ∃ tr tbl', backfill (S j) tbl = (tr, Some tbl')
    ∧ length tbl' = length tbl
    ∧ Forall (λ i, 0 <= i <= Z.of_nat j) tr.
Proof.
  intros He Hc. simpl. rewrite He.
  destruct (count e =? 0) eqn:E; [apply Z.eqb_eq in E; done|].
  destruct (backfill_interior j tbl) as (tr & tbl' & E' & L & F).
  { by eapply lookup_lt_Some. }
  rewrite E'. exists (Z.of_nat j :: tr), tbl'. split; [done|]. split; [done|].
  constructor; [lia|done].
Qed.

End Backfill.

Lemma tbl_set_Some tbl k e tbl' :
  tbl_set tbl k e = Some tbl' →
  0 <= k < Z.of_nat (length tbl) ∧ tbl' = <[Z.to_nat k := e]> tbl.
Proof.
  unfold tbl_set. destruct (0 <=? k) eqn:E1; simpl; [|done].
  destruct (k <? _) eqn:E2; [|done]. intros [= <-]. split; [lia|done].
Qed.

Lemma tbl_set_lookup tbl k e tbl' :
  tbl_set tbl k e = Some tbl' → tbl' !! Z.to_nat k = Some e.
Proof.
  intros H. apply tbl_set_Some in H as [Hk ->].
  apply list_lookup_insert_eq. lia.
Qed.

(** C8.  In the skip-list variant of [populate_shift_table], whenever
    execution reaches the backward-fill loop, every index of the shift table
    the loop reads or writes lies in [0, table_size - 1], and the loop
    completes: the tail sentinel stored at bucket [table_size - 1] with
    [count = 1] makes the branch that reads entry [j + 1] unreachable at
    [j = table_size - 1]. *)
Theorem C8_backfill_in_bounds (fuel : nat)
    (h : MLSkiplist.heap) (set : MLSkiplist.sl_intset)
    (tbl : list shift_node) (est : estimator) (table_size : Z)
    (tr : list Z) (res : option (list shift_node)) :
  MLSkiplist.populate_shift_table_trace fuel h set tbl est table_size
    = Some (tr, res) →
  Forall (λ i, 0 <= i <= table_size - 1) tr ∧ is_Some res.
Proof.
  unfold MLSkiplist.populate_shift_table_trace. intros H.
  destruct (tbl_set tbl 0 _) as [tbl1|]; simpl in H; [|done].
  destruct (MLSkiplist.populate_walk _ _ _ _ _ _ _) as [[nd tbl2]|];
    simpl in H; [|done].
  destruct (MLSkiplist.read_next h nd 0) as [tl|]; simpl in H; [|done].
  destruct (tbl_set tbl2 _ _) as [tbl3|] eqn:E3; simpl in H; [|done].
  pose proof (tbl_set_lookup _ _ _ _ E3) as Hl.
  apply tbl_set_Some in E3 as [Hk _].
  replace (Z.to_nat table_size) with (S (Z.to_nat (table_size - 1))) in H by lia.
  destruct (backfill_top _ _ _ Hl) as (tr' & tbl' & E & _ & F); [done|].
  rewrite E in H. injection H as <- <-. split; [|eauto].
  eapply Forall_impl; [exact F|]. simpl. intros; lia.
Qed.

(** * Node construction *)

Import MLSkiplist.

Lemma write_next_Some h p i q h' :
  write_next h p i q = Some h' →
  ∃ n, h !! p = Some n ∧ (i < length (next n))%nat
       ∧ h' = <[p := set_next n i q]> h.
Proof.
  unfold write_next. destruct (h !! p) as [n|]; simpl; [|done].
  case_decide; [|done]. intros [= <-]. eauto.
Qed.

Lemma write_next_is_Some h p i q n :
  h !! p = Some n → (i < length (next n))%nat →
  write_next h p i q = Some (<[p := set_next n i q]> h).
Proof.
  intros H L. unfold write_next. rewrite H. simpl. by rewrite decide_True.
Qed.

Lemma fill_next_is_Some (n : nat) :
  ∀ h p i q nd, h !! p = Some nd →
    (is_Some (fill_next n h p i q) ↔ n = 0%nat ∨ (i + n ≤ length (next nd))%nat).
Proof.
  induction n as [|n IH]; intros h p i q nd Hp; simpl.
  - split; eauto.
  - unfold write_next at 1. rewrite Hp. simpl. case_decide as Hi; simpl.
    + rewrite (IH _ p (S i) q (set_next nd i q)); [|by rewrite lookup_insert_eq].
      simpl. rewrite length_insert. split; [intros [->|?]; right; lia|].
      intros [?|?]; [done|]. destruct n; [by left|right; lia].
    + split; [by intros [? ?]|]. intros [?|?]; [done|lia].
Qed.

(** What the loop of [sl_new_node] has written when every write was in
    bounds: [n] slots from [i] on, nothing else. *)
Lemma fill_next_written p q :
  ∀ n i h nd R,
    h !! p = Some nd → next nd = replicate i q ++ R → (n ≤ length R)%nat →
    fill_next n h p i q
    = Some (<[p := mk_node (val nd) (deleted nd) (toplevel nd)
                           (replicate (i + n) q ++ drop n R)]> h).
Proof.
  induction n as [|n IH]; intros i h nd R Hp Hnx HR.
  - simpl. f_equal. rewrite Nat.add_0_r, drop_0, <- Hnx. symmetry.
    apply insert_id. by destruct nd.
  - destruct R as [|r R]; [simpl in HR; lia|]. simpl in HR.
    cbn [fill_next].
    rewrite (write_next_is_Some _ _ _ _ nd Hp)
      by (rewrite Hnx, length_app, length_replicate; simpl; lia).
    cbn [mbind option_bind].
    rewrite (IH (S i) _ (set_next nd i q) R).
    + rewrite insert_insert_eq. simpl. by rewrite Nat.add_succ_r.
    + by rewrite lookup_insert_eq.
    + simpl. rewrite Hnx.
      rewrite insert_app_r_alt by (rewrite length_replicate; lia).
      rewrite length_replicate, Nat.sub_diag. cbn [insert list_insert].
      change (replicate i q ++ q :: R) with (replicate i q ++ [q] ++ R).
      by rewrite app_assoc, <- replicate_S_end.
    + lia.
Qed.

(** C10, with the exact bound.  [sl_new_node] writes the slots [0 .. levelmax-1] of a
    node that [sl_new_simple_node] allocated with [toplevel] slots.  For a
    height [toplevel >= 0] all writes are in bounds (the call returns)
    exactly when [levelmax <= toplevel]; the call then leaves, at the
    allocation pointer, a node with the given value, flag 0, the given
    height, its first [levelmax] slots set to [next] and the
    [toplevel - levelmax] slots above them as allocated.  Only for
    [toplevel = levelmax] is every allocated slot written; both calls in
    [sl_set_new] pass [levelmax], so it builds a tail whose [levelmax]
    slots are null and a head whose [levelmax] slots refer to the tail. *)
Theorem C10_new_node_in_bounds (levelmax : Z) (s : state)
    (v nx toplevel : Z) :
  0 <= toplevel →
  (is_Some (sl_new_node levelmax s v nx toplevel) ↔ levelmax <= toplevel)
  ∧ (levelmax <= toplevel →
     sl_new_node levelmax s v nx toplevel
     = Some (st_brk s,
             mk_state
               (<[st_brk s :=
                    mk_node v 0 toplevel
                      (replicate (Z.to_nat levelmax) nx
                       ++ replicate (Z.to_nat toplevel - Z.to_nat levelmax)
                                    NULL)]> (st_heap s))
               (st_brk s + node_size toplevel) (st_y s) (st_iter s)))
  ∧ (0 <= levelmax →
     let tl := st_brk s in
     let hd := st_brk s + node_size levelmax in
     sl_set_new levelmax s
     = Some (mk_set hd,
             mk_state
               (<[hd := mk_node VAL_MIN 0 levelmax
                          (replicate (Z.to_nat levelmax) tl)]>
                  (<[tl := mk_node VAL_MAX 0 levelmax
                             (replicate (Z.to_nat levelmax) NULL)]>
                     (st_heap s)))
               (hd + node_size levelmax) (st_y s) (st_iter s))).
Proof.
  intros Hr.
  assert (Hw : ∀ s v nx t, 0 <= t → levelmax <= t →
    sl_new_node levelmax s v nx t
    = Some (st_brk s,
            mk_state
              (<[st_brk s :=
                   mk_node v 0 t
                     (replicate (Z.to_nat levelmax) nx
                      ++ replicate (Z.to_nat t - Z.to_nat levelmax) NULL)]>
                 (st_heap s))
              (st_brk s + node_size t) (st_y s) (st_iter s))).
  { intros s' v' nx' t Ht Hle. unfold sl_new_node, sl_new_simple_node.
    rewrite (fill_next_written (st_brk s') nx' (Z.to_nat levelmax) 0 _
               (mk_node v' 0 t (replicate (Z.to_nat t) NULL))
               (replicate (Z.to_nat t) NULL)).
    - cbn [mbind option_bind st_heap val deleted MLSkiplist.toplevel Nat.add
             with_heap st_brk st_y st_iter].
      rewrite insert_insert_eq. by rewrite drop_replicate.
    - cbn [st_heap]. by rewrite lookup_insert_eq.
    - done.
    - rewrite length_replicate. lia. }
  split; [|split].
  - split.
    + intros [r E]. unfold sl_new_node, sl_new_simple_node in E.
      cbn [st_heap] in E.
      destruct (fill_next _ _ _ _ _) as [h'|] eqn:Ef; [|done].
      assert (Hs : is_Some (fill_next (Z.to_nat levelmax)
                    (<[st_brk s := mk_node v 0 toplevel
                         (replicate (Z.to_nat toplevel) NULL)]> (st_heap s))
                    (st_brk s) 0 nx)) by eauto.
      rewrite (fill_next_is_Some _ _ _ _ _
                 (mk_node v 0 toplevel (replicate (Z.to_nat toplevel) NULL)))
        in Hs by (by rewrite lookup_insert_eq).
      cbn [next] in Hs. rewrite length_replicate in Hs.
      destruct Hs; lia.
    + intros Hle. rewrite (Hw s v nx toplevel Hr Hle). eauto.
  - intros Hle. by apply Hw.
  - intros Hl tl hd. unfold sl_set_new.
    rewrite (Hw s VAL_MAX NULL levelmax Hl ltac:(lia)).
    cbn [mbind option_bind].
    rewrite (Hw _ VAL_MIN (st_brk s) levelmax Hl ltac:(lia)).
    cbn [mbind option_bind st_heap st_brk st_y st_iter].
    rewrite Nat.sub_diag. cbn [replicate]. by rewrite !app_nil_r.
Qed.

(** * The shift table after [populate_shift_table] *)

Import Shape.

Lemma wrap_int_range z : INT_MIN <= wrap_int z <= INT_MAX.
Proof.
  unfold wrap_int, INT_MIN, INT_MAX.
  pose proof (Z.mod_pos_bound (z + 2147483648) 4294967296 ltac:(lia)). lia.
Qed.

Lemma wrap_int_id z : INT_MIN <= z <= INT_MAX → wrap_int z = z.
Proof.
  unfold wrap_int, INT_MIN, INT_MAX. intros H.
  rewrite Z.mod_small by lia. lia.
Qed.

Lemma Qtrunc_nonneg q : (0 <= q)%Q → Qtrunc q = Qfloor q.
Proof.
  intros H. unfold Qtrunc. destruct (Qlt_le_dec q 0) as [Hlt|]; [|done].
  exfalso. by apply (Qlt_not_le _ _ Hlt).
Qed.

(** An estimate in [[0,1)] selects a bucket in [0 .. T-1], and never the
    last one when there are at least two: the largest [double] below 1 is
    [1 - 2^-53], and rounding the product cannot reach [T-1] from there. *)
Lemma bucket_range (est : estimator) (T v : Z) :
  (0 <= estimate est v)%Q → (estimate est v < 1)%Q → 1 <= T →
  0 <= bucket est T v <= T - 1 ∧ (2 <= T → bucket est T v <= T - 2).
Proof.
  intros H0 H1 HT. unfold bucket.
  pose proof (DoubleFacts.round_double_below_1 (est v) H1) as Hx.
  fold (estimate est v) in Hx. set (x := estimate est v) in *.
  set (n := inject_Z (T - 1)).
  assert (Hn : (0 <= n)%Q).
  { unfold n. change 0%Q with (inject_Z 0). rewrite <- Zle_Qle. lia. }
  assert (Hy : (0 <= x * n)%Q) by (by apply Qmult_le_0_compat).
  pose proof (DoubleFacts.round_double_nonneg _ Hy) as Hr0.
  rewrite Qtrunc_nonneg by done.
  assert (Hlo : 0 <= Qfloor (round_double (x * n))).
  { change 0 with (Qfloor (inject_Z 0)) at 1. by apply Qfloor_resp_le. }
  assert (Hup : 2 <= T → Qfloor (round_double (x * n)) < T - 1).
  { intros HT2. rewrite Zlt_Qlt. fold n.
    eapply Qle_lt_trans; [apply Qfloor_le|].
    assert (Hn1 : (1 <= n)%Q).
    { unfold n. change 1%Q with (inject_Z 1). rewrite <- Zle_Qle. lia. }
    destruct (Qlt_le_dec 0 (x * n)) as [Hpos|Hle].
    2:{ rewrite DoubleFacts.round_double_0 by lra. lra. }
    pose proof (DoubleFacts.round_double_upper _ Hpos) as Hr.
    pose proof (DoubleFacts.pow2_pos (-53)) as Pc.
    assert (Hd : (2 ^ (-1075) < 2 ^ (-53) * 2 ^ (-53))%Q) by (by compute).
    set (c := (2 ^ (-53))%Q) in *. set (d := (2 ^ (-1075))%Q) in *.
    assert (Ha : (x * n <= (1 - c) * n)%Q) by (by apply Qmult_le_compat_r).
    assert (Hb : (x * n * (1 + c) <= (1 - c) * n * (1 + c))%Q).
    { apply Qmult_le_compat_r; [done|lra]. }
    assert (E : ((1 - c) * n * (1 + c) == n - c * c * n)%Q) by ring.
    assert (Hc : (c * c * 1 <= c * c * n)%Q).
    { apply Qmult_le_l; [|done]. apply Qmult_lt_0_compat; done. }
    set (cc := (c * c)%Q) in *. set (y := (x * n)%Q) in *.
    set (r := round_double y) in *. lra. }
  destruct (decide (T = 1)) as [->|Hne].
  - assert (E : (x * n == 0)%Q)
      by (unfold n; change (inject_Z (1 - 1)) with 0%Q; ring).
    rewrite (DoubleFacts.round_double_0 _ E). change (Qfloor 0) with 0. lia.
  - specialize (Hup ltac:(lia)). lia.
Qed.

Lemma path_has_val h i : ∀ l a z, path h i a l z →
  ∃ lv : list (Z * Z), lv.*1 = l ∧ Forall (has_val h) lv.
Proof.
  induction l as [|b l IH]; intros a z Hp; simpl in Hp.
  - exists []. auto.
  - destruct Hp as [_ Hp]. destruct (IH _ _ Hp) as (lv & E & F).
    assert (∃ n, h !! b = Some n) as [n Hn].
    { destruct l; simpl in Hp; [|destruct Hp as [Hp _]];
        unfold nxt, read_next in Hp; destruct (h !! b); eauto; done. }
    exists ((b, val n) :: lv). subst l. split; [done|].
    constructor; [|done]. exists n. auto.
Qed.

Lemma path_first h i a l z :
  path h i a l z → nxt h i a (List.hd z l).
Proof. destruct l; simpl; [done|by intros [? _]]. Qed.

Lemma last_cons_default {A} (l : list A) (x d d' : A) :
  List.last (x :: l) d = List.last (x :: l) d'.
Proof. revert x. induction l as [|y l IH]; intros x; [done|]. apply (IH y). Qed.

(** On a quiescent chain the walk of [populate_shift_table] visits exactly
    the nodes between the sentinels and stops on the last of them. *)
Lemma populate_walk_nodes h est T tl :
  ∀ (l : list (Z * Z)) fuel nd j tbl,
    path h 0 nd (l.*1) tl → nxt h 0 tl NULL →
    Forall (λ a, a ≠ NULL) (l.*1 ++ [tl]) →
    Forall (has_val h) l →
    (length l < fuel)%nat →
    populate_walk fuel h est T nd j tbl
    = (tbl' ← walk_nodes est T l j tbl; Some (List.last (l.*1) nd, tbl')).
Proof.
  induction l as [|[a v] l IH]; intros fuel nd j tbl Hp Htl Hnn Hv Hf;
    (destruct fuel as [|fuel]; [simpl in Hf; lia|]).
  - simpl in *. unfold nxt in *. rewrite Hp. simpl. rewrite Htl. done.
  - simpl in Hp. destruct Hp as [Hna Hp]. unfold nxt in Hna.
    cbn [populate_walk walk_nodes]. rewrite Hna. simpl.
    pose proof (path_first _ _ _ _ _ Hp) as Hfst. unfold nxt in Hfst.
    rewrite Hfst. simpl.
    assert (List.hd tl l.*1 ≠ NULL) as Hne.
    { simpl in Hnn. apply Forall_cons in Hnn as [_ Hnn].
      destruct l as [|[] ?]; simpl in *; by apply Forall_cons in Hnn as [? _]. }
    match goal with |- context [?x =? NULL] =>
      destruct (Z.eqb_spec x NULL) as [E|_]; [done|] end.
    apply Forall_cons in Hv as [(n & Hn & Hval) Hv]. simpl in Hn, Hval.
    rewrite Hn. simpl. rewrite Hval.
    destruct (tbl_get tbl _) as [e|]; simpl; [|done].
    destruct (tbl_set tbl _ _) as [tbl'|]; simpl; [|done].
    rewrite (IH fuel a (wrap_int (j + 1)) tbl'); try done.
    + destruct (walk_nodes _ _ _ _ _); simpl; [|done].
      destruct l as [|[b w] l]; [done|]. do 2 f_equal.
      change (List.last (b :: l.*1) a = List.last (b :: l.*1) nd).
      apply last_cons_default.
    + simpl in Hnn. by apply Forall_cons in Hnn as [_ ?].
    + simpl in Hf. lia.
Qed.

Lemma path_last h i : ∀ l a z, path h i a l z → nxt h i (List.last l a) z.
Proof.
  induction l as [|b l IH]; intros a z Hp; simpl in Hp; [done|].
  destruct Hp as [_ Hp]. apply IH in Hp.
  destruct l; [done|]. by rewrite (last_cons_default _ _ a b).
Qed.

Lemma tbl_get_Some tbl k :
  0 <= k < Z.of_nat (length tbl) → ∃ e, tbl_get tbl k = Some e
    ∧ tbl !! Z.to_nat k = Some e.
Proof.
  intros Hk. unfold tbl_get.
  destruct (lookup_lt_is_Some_2 tbl (Z.to_nat k) ltac:(lia)) as [e He].
  exists e. destruct (0 <=? k) eqn:E; [done|lia].
Qed.

Lemma tbl_set_is_Some tbl k e :
  0 <= k < Z.of_nat (length tbl) →
  tbl_set tbl k e = Some (<[Z.to_nat k := e]> tbl).
Proof.
  intros Hk. unfold tbl_set.
  destruct (0 <=? k) eqn:E1; [|lia]. destruct (k <? _) eqn:E2; [done|lia].
Qed.

Section NodesOfTable.

Variable C : list Z.

(** Invariant of the walk: an entry either refers to a node of the chain
    or is still as [new_shift_table] made it. *)
Local Abbreviation tinv := (Forall (λ e : shift_node,
  node e ∈ C ∨ (count e = 0 ∧ delta e = INT_MAX))).

Lemma walk_nodes_tinv est T :
  (∀ v, (0 <= estimate est v)%Q ∧ (estimate est v < 1)%Q) → 1 <= T →
  ∀ (l : list (Z * Z)) j tbl,
    length tbl = Z.to_nat T → Forall (λ av, av.1 ∈ C) l → tinv tbl →
    ∃ tbl', walk_nodes est T l j tbl = Some tbl'
      ∧ length tbl' = length tbl ∧ tinv tbl'.
Proof.
  intros Hest HT. induction l as [|[a v] l IH]; intros j tbl Hlen HC Hinv.
  - exists tbl. auto.
  - cbn [walk_nodes].
    destruct (Hest v) as [H0 H1].
    destruct (bucket_range est T v H0 H1 HT) as [Hk _].
    destruct (tbl_get_Some tbl (bucket est T v) ltac:(lia)) as (e & -> & He).
    simpl. rewrite tbl_set_is_Some by lia. simpl.
    apply Forall_cons in HC as [Ha HC]. simpl in Ha.
    edestruct IH as (tbl' & E & L & I); [| exact HC | | ].
    3:{ exists tbl'. split; [exact E|]. split; [|exact I].
        rewrite L. by rewrite length_insert. }
    + by rewrite length_insert.
    + apply Forall_insert; [done|]. left.
      destruct (wrap_int _ <=? delta e) eqn:Ed; simpl; [done|].
      rewrite Forall_lookup in Hinv. destruct (Hinv _ _ He) as [?|[_ Hd]]; [done|].
      pose proof (wrap_int_range (j - bucket est T v)). lia.
Qed.

Lemma backfill_nodes (j1 : nat) :
  ∀ tbl, (j1 < length tbl)%nat →
    (∀ i e, (j1 ≤ i)%nat → tbl !! i = Some e → node e ∈ C) → tinv tbl →
    ∃ tr tbl', backfill j1 tbl = (tr, Some tbl')
      ∧ length tbl' = length tbl ∧ Forall (λ e, node e ∈ C) tbl'.
Proof.
  induction j1 as [|j IH]; intros tbl Hlen Hdone Hinv.
  - exists [], tbl. split; [done|]. split; [done|].
    apply Forall_lookup. intros i e. apply Hdone. lia.
  - cbn [backfill].
    destruct (lookup_lt_is_Some_2 tbl j ltac:(lia)) as [e He]. rewrite He.
    destruct (Z.eqb_spec (count e) 0) as [Hc|Hc].
    + destruct (lookup_lt_is_Some_2 tbl (S j) Hlen) as [r Hr]. rewrite Hr.
      assert (Hrn : node r ∈ C) by (eapply (Hdone (S j)); [lia|done]).
      edestruct (IH (<[j := mk_shift (count r) (wrap_int (delta r + 1)) (node r)]> tbl))
        as (tr & tbl' & E & L & F).
      * rewrite length_insert. lia.
      * intros i x Hi. destruct (decide (i = j)) as [->|Hne].
        -- rewrite list_lookup_insert_eq by lia. by intros [= <-].
        -- rewrite list_lookup_insert_ne by done. apply Hdone. lia.
      * apply Forall_insert; [done|]. by left.
      * rewrite E. do 2 eexists. split; [done|]. split; [|done].
        rewrite L. by rewrite length_insert.
    + edestruct (IH tbl) as (tr & tbl' & E & L & F); [lia| |done|].
      * intros i x Hi Hx. destruct (decide (i = j)) as [->|Hne].
        -- rewrite He in Hx. injection Hx as <-.
           rewrite Forall_lookup in Hinv.
           destruct (Hinv _ _ He) as [?|[? _]]; done.
        -- eapply Hdone; [|done]. lia.
      * rewrite E. do 2 eexists. done.
Qed.

End NodesOfTable.

(** C5.  After [new_shift_table] followed by [populate_shift_table] on a
    quiescent list (any table size of at least one entry, hence any
    [T >= 2], and any estimator with values in [[0,1)]), the build completes
    and every one of the [T] entries holds a non-null reference to a node of
    the level-0 chain: a real node, the head sentinel or the tail
    sentinel. *)
Theorem C5_every_bucket_resolves (fuel : nat) (h : heap) (set : sl_intset)
    (l : list Z) (tl : Z) (est : estimator) (T : Z) :
  chain0 h (head set) l tl →
  (∀ v, (0 <= estimate est v)%Q ∧ (estimate est v < 1)%Q) →
  1 <= T →
  (length l < fuel)%nat →
  ∃ tbl, populate_shift_table fuel h set (new_shift_table T) est T = Some tbl
    ∧ Z.of_nat (length tbl) = T
    ∧ Forall (λ e, node e ≠ NULL ∧ node e ∈ head set :: l ++ [tl]) tbl.
Proof.
  intros (Hp & Htl & Hnn) Hest HT Hfuel.
  set (C := head set :: l ++ [tl]).
  destruct (path_has_val _ _ _ _ _ Hp) as (lv & <- & Hv).
  unfold populate_shift_table, populate_shift_table_trace.
  assert (Hl0 : length (new_shift_table T) = Z.to_nat T)
    by (unfold new_shift_table; by rewrite length_replicate).
  rewrite tbl_set_is_Some by lia. simpl. change (Z.to_nat 0) with 0%nat.
  rewrite (populate_walk_nodes h est T tl lv); try done.
  2:{ by apply Forall_cons in Hnn as [_ ?]. }
  2:{ by rewrite length_fmap in Hfuel. }
  destruct (walk_nodes_tinv C est T Hest HT lv 0
              (<[0%nat := mk_shift 1 0 (head set)]> (new_shift_table T)))
    as (tbl2 & -> & L2 & I2).
  { by rewrite length_insert. }
  { apply Forall_forall. intros [a v] Hin. simpl. unfold C.
    apply elem_of_cons. right. apply elem_of_app. left.
    apply list_elem_of_fmap. by exists (a, v). }
  { apply Forall_insert.
    - apply Forall_forall. intros e He. apply elem_of_replicate in He as [-> _].
      by right.
    - left. simpl. unfold C. apply elem_of_cons. by left. }
  simpl. rewrite length_insert, Hl0 in L2.
  pose proof (path_last _ _ _ _ _ Hp) as Hlast. unfold nxt in Hlast.
  rewrite Hlast. simpl.
  rewrite tbl_set_is_Some by lia. simpl.
  set (tbl3 := <[Z.to_nat (T - 1) := mk_shift 1 0 tl]> tbl2).
  assert (Hin_tl : tl ∈ C).
  { unfold C. apply elem_of_cons. right. apply elem_of_app. right.
    by apply list_elem_of_singleton. }
  assert (L3 : length tbl3 = Z.to_nat T) by (unfold tbl3; by rewrite length_insert).
  assert (H3 : tbl3 !! Z.to_nat (T - 1) = Some (mk_shift 1 0 tl))
    by (unfold tbl3; apply list_lookup_insert_eq; lia).
  replace (Z.to_nat T) with (S (Z.to_nat (T - 1))) by lia.
  cbn [backfill]. rewrite H3. cbn [count Z.eqb].
  destruct (backfill_nodes C (Z.to_nat (T - 1)) tbl3) as (tr & tbl' & E & L & F).
  - lia.
  - intros i e Hi He. assert (i = Z.to_nat (T - 1)) as ->.
    { apply lookup_lt_Some in He. lia. }
    rewrite H3 in He. by injection He as <-.
  - unfold tbl3. apply Forall_insert; [done|]. by left.
  - rewrite E. simpl. exists tbl'. split; [done|]. split; [lia|].
    eapply Forall_impl; [exact F|]. intros e He. split; [|done].
    intros Hnull. simpl in He. rewrite Hnull in He. rewrite Forall_forall in Hnn.
    by apply (Hnn NULL).
Qed.

(** * Refinement of the reference algorithm *)

Section Refinement.

Variable est : estimator.
Variable T : Z.
Hypothesis Hest : ∀ v, (0 <= estimate est v)%Q ∧ (estimate est v < 1)%Q.
Hypothesis HT : 2 <= T.
Hypothesis HTmax : T <= INT_MAX.

(** Entry [e] of the program and entry [se] of the reference algorithm
    agree after [J] nodes have been walked. *)
Local Abbreviation rel J e se :=
  (count e = ShiftSpec.count se ∧ node e = ShiftSpec.node se
   ∧ 0 <= count e <= J + 1
   ∧ ((ShiftSpec.delta se = ShiftSpec.Fin (delta e) ∧ - T <= delta e <= J)
      ∨ (ShiftSpec.delta se = ShiftSpec.PInf ∧ delta e = INT_MAX
         ∧ count e = 0))).

(** The bucket of the reference algorithm is the one of the program when
    rounding the product leaves its integer part alone. *)
Lemma spec_bucket v :
  bucket est T v = Qfloor (estimate est v * inject_Z (T - 1)) →
  Z.to_nat (Qfloor (estimate est v * inject_Z (Z.of_nat (Z.to_nat T) - 1)))
  = Z.to_nat (bucket est T v).
Proof. intros ->. by rewrite Z2Nat.id by lia. Qed.

Lemma walk_rel :
  ∀ (l : list (Z * Z)) (j : Z) (tbl : list shift_node)
    (stbl : list ShiftSpec.entry),
    Forall (λ av, bucket est T av.2
                  = Qfloor (estimate est av.2 * inject_Z (T - 1))) l →
    0 <= j → j + Z.of_nat (length l) < INT_MAX →
    length tbl = Z.to_nat T → length stbl = Z.to_nat T →
    (∀ i e se, i ≠ Z.to_nat (T - 1) → tbl !! i = Some e →
       stbl !! i = Some se → rel j e se) →
    ∃ tbl', walk_nodes est T l j tbl = Some tbl'
      ∧ length tbl' = Z.to_nat T
      ∧ tbl' !! Z.to_nat (T - 1) = tbl !! Z.to_nat (T - 1)
      ∧ ShiftSpec.walk (estimate est) (Z.to_nat T) l j stbl !! Z.to_nat (T - 1)
        = stbl !! Z.to_nat (T - 1)
      ∧ length (ShiftSpec.walk (estimate est) (Z.to_nat T) l j stbl) = Z.to_nat T
      ∧ (∀ i e se, i ≠ Z.to_nat (T - 1) → tbl' !! i = Some e →
           ShiftSpec.walk (estimate est) (Z.to_nat T) l j stbl !! i = Some se →
           rel (j + Z.of_nat (length l)) e se).
Proof.
  induction l as [|[a v] l IH]; intros j tbl stbl Hex Hj Hb Hlen Hslen Hrel.
  - exists tbl. simpl. rewrite Z.add_0_r. auto 10.
  - apply Forall_cons in Hex as [Hex1 Hex]. cbn [snd] in Hex1.
    cbn [walk_nodes ShiftSpec.walk]. unfold estimate at 1.
    fold (estimate est v). rewrite (spec_bucket v Hex1).
    destruct (Hest v) as [H0 H1].
    destruct (bucket_range est T v H0 H1 ltac:(lia)) as [Hk Hk2].
    specialize (Hk2 HT). set (k := bucket est T v) in *.
    destruct (tbl_get_Some tbl k ltac:(lia)) as (e & -> & He).
    destruct (lookup_lt_is_Some_2 stbl (Z.to_nat k) ltac:(lia)) as [se Hse].
    rewrite Hse. simpl. rewrite tbl_set_is_Some by lia. simpl.
    destruct (Hrel (Z.to_nat k) e se ltac:(lia) He Hse) as (Hc & Hn & Hcb & Hd).
    simpl in Hb.
    rewrite (wrap_int_id (j - k)) by (unfold INT_MIN, INT_MAX in *; lia).
    rewrite (wrap_int_id (j + 1)) by (unfold INT_MIN, INT_MAX in *; lia).
    rewrite Z2Nat.id by lia.
    set (e1 := if j - k <=? delta e then mk_shift (count e) (j - k) a else e).
    set (se1 := if ShiftSpec.le_ext (j - k) (ShiftSpec.delta se)
                then ShiftSpec.mk_entry (ShiftSpec.count se)
                                        (ShiftSpec.Fin (j - k)) a
                else se).
    assert (Hrel1 : count e1 = ShiftSpec.count se1
              ∧ node e1 = ShiftSpec.node se1 ∧ 0 <= count e1 <= j + 1
              ∧ ShiftSpec.delta se1 = ShiftSpec.Fin (delta e1)
              ∧ - T <= delta e1 <= j).
    { unfold e1, se1. destruct Hd as [[Hd Hdb]|[Hd [Hdm Hc0]]]; rewrite Hd; simpl.
      - destruct (j - k <=? delta e) eqn:E; simpl; repeat split; try done; lia.
      - rewrite Hdm. destruct (j - k <=? INT_MAX) eqn:E;
          [|unfold INT_MAX in *; lia]. simpl.
        repeat split; try done; lia. }
    destruct Hrel1 as (Hc1 & Hn1 & Hcb1 & Hd1 & Hdb1).
    rewrite (wrap_int_id (count e1 + 1))
      by (unfold INT_MIN, INT_MAX in *; unfold e1 in *;
          destruct (j - k <=? delta e); simpl in *; lia).
    edestruct (IH (j + 1)
      (<[Z.to_nat k := mk_shift (count e1 + 1) (delta e1) (node e1)]> tbl)
      (<[Z.to_nat k := ShiftSpec.mk_entry (ShiftSpec.count se1 + 1)
                         (ShiftSpec.delta se1) (ShiftSpec.node se1)]> stbl))
      as (tbl' & E & L & Hlast & Hslast & Hsl & Hr).
    + done.
    + lia.
    + lia.
    + by rewrite length_insert.
    + by rewrite length_insert.
    + intros i x sx Hi. destruct (decide (i = Z.to_nat k)) as [->|Hne].
      * rewrite !list_lookup_insert_eq by lia. intros [= <-] [= <-]. simpl.
        repeat split; try lia. left. split; [done|lia].
      * rewrite !list_lookup_insert_ne by done. intros Hx Hsx.
        destruct (Hrel _ _ _ Hi Hx Hsx) as (? & ? & ? & Hdd).
        repeat split; try lia.
        destruct Hdd as [[? ?]|[? ?]]; [left|right]; split; try done; lia.
    + exists tbl'. split; [exact E|]. split; [exact L|].
      split; [rewrite Hlast; apply list_lookup_insert_ne; lia|].
      split; [rewrite Hslast; apply list_lookup_insert_ne; lia|].
      split; [exact Hsl|].
      intros i x sx Hi Hx Hsx.
      replace (j + Z.of_nat (S (length l))) with (j + 1 + Z.of_nat (length l))
        by lia.
      by apply (Hr i).
Qed.

Lemma fill_rel (n : nat) (len : Z) :
  0 <= len → len + Z.of_nat n <= INT_MAX →
  ∀ (j1 : nat) (tbl : list shift_node) (stbl : list ShiftSpec.entry),
    (j1 < n)%nat → length tbl = n → length stbl = n →
    (∀ i e se, (i < j1)%nat → tbl !! i = Some e → stbl !! i = Some se →
       rel len e se) →
    (∀ i e se, (j1 ≤ i)%nat → tbl !! i = Some e → stbl !! i = Some se →
       embed e = se ∧ - T <= delta e <= len + (Z.of_nat n - 1 - Z.of_nat i)) →
    ∃ tr tbl', backfill j1 tbl = (tr, Some tbl')
      ∧ embed <$> tbl' = ShiftSpec.fill j1 stbl.
Proof.
  intros Hlen0 Hbound.
  induction j1 as [|j IH]; intros tbl stbl Hj Hl Hsl Hrel Hproc.
  - exists [], tbl. split; [done|]. simpl.
    apply list_eq. intros i. rewrite list_lookup_fmap.
    destruct (tbl !! i) as [e|] eqn:He; simpl.
    + destruct (lookup_lt_is_Some_2 stbl i) as [se Hse].
      { apply lookup_lt_Some in He. lia. }
      rewrite Hse. f_equal. by apply (Hproc i e se ltac:(lia)).
    + symmetry. apply lookup_ge_None. apply lookup_ge_None in He. lia.
  - cbn [backfill ShiftSpec.fill].
    destruct (lookup_lt_is_Some_2 tbl j ltac:(lia)) as [e He].
    destruct (lookup_lt_is_Some_2 stbl j ltac:(lia)) as [se Hse].
    destruct (lookup_lt_is_Some_2 tbl (S j) ltac:(lia)) as [r Hr].
    destruct (lookup_lt_is_Some_2 stbl (S j) ltac:(lia)) as [sr Hsr].
    rewrite He, Hse, Hr, Hsr.
    destruct (Hrel j e se ltac:(lia) He Hse) as (Hc & Hn & Hcb & Hd).
    destruct (Hproc (S j) r sr ltac:(lia) Hr Hsr) as [Er Hrb].
    rewrite <- Hc.
    destruct (Z.eqb_spec (count e) 0) as [Hc0|Hc0].
    + edestruct (IH (<[j := mk_shift (count r) (wrap_int (delta r + 1)) (node r)]> tbl)
        (<[j := ShiftSpec.mk_entry (ShiftSpec.count sr)
                 (ShiftSpec.succ_ext (ShiftSpec.delta sr)) (ShiftSpec.node sr)]> stbl))
        as (tr & tbl' & E & F).
      * lia.
      * by rewrite length_insert.
      * by rewrite length_insert.
      * intros i x sx Hi. rewrite !list_lookup_insert_ne by lia.
        apply Hrel. lia.
      * intros i x sx Hi. destruct (decide (i = j)) as [->|Hne].
        -- rewrite !list_lookup_insert_eq by lia. intros [= <-] [= <-].
           subst sr. unfold embed. simpl.
           rewrite wrap_int_id by (unfold INT_MIN, INT_MAX in *; lia).
           split; [done|]. simpl. lia.
        -- rewrite !list_lookup_insert_ne by done. apply Hproc. lia.
      * rewrite E. eauto.
    + edestruct (IH tbl stbl) as (tr & tbl' & E & F); [lia|done|done| | |].
      * intros i x sx Hi. apply Hrel. lia.
      * intros i x sx Hi Hx Hsx. destruct (decide (i = j)) as [->|Hne].
        -- rewrite He in Hx. rewrite Hse in Hsx.
           injection Hx as <-. injection Hsx as <-.
           destruct Hd as [[Hd Hdb]|[_ [_ ?]]]; [|done].
           split; [|lia]. destruct se. unfold embed. simpl in *. congruence.
        -- apply (Hproc i); [lia|done|done].
      * rewrite E. eauto.
Qed.

End Refinement.

(** C4, where rounding does not change the bucket.  For a quiescent list
    (the nodes [l] between the sentinels, with their values), an estimator
    that returns values in [[0,1)] (monotonic or not) and a table size
    [T >= 2] (list and table small enough for [int]), provided that for
    every node of the list the [double] product [estimate * (T-1)] the
    program truncates has the same integer part as the exact product the
    specification floors,
    [populate_shift_table] completes and computes the table of the reference
    algorithm run in the order the specification states: seed bucket [0]
    with the head sentinel and bucket [T-1] with the tail sentinel, walk the
    chain with the overwrite rule, then fill the empty buckets backwards. *)
Theorem C4_populate_refines_reference (fuel : nat) (h : heap)
    (set : sl_intset) (l : list (Z * Z)) (tl : Z) (est : estimator) (T : Z) :
  chain0 h (head set) (l.*1) tl →
  Forall (has_val h) l →
  (∀ v, (0 <= estimate est v)%Q ∧ (estimate est v < 1)%Q) →
  2 <= T →
  Z.of_nat (length l) + T <= INT_MAX →
  (length l < fuel)%nat →
  Forall (λ av, bucket est T av.2
                = Qfloor (estimate est av.2 * inject_Z (T - 1))) l →
  ∃ tbl, populate_shift_table fuel h set (new_shift_table T) est T = Some tbl
    ∧ embed <$> tbl
      = ShiftSpec.build (head set) l tl (estimate est) (Z.to_nat T).
Proof.
  intros (Hp & Htl & Hnn) Hv Hest HT Hb Hfuel Hex.
  unfold populate_shift_table, populate_shift_table_trace, ShiftSpec.build.
  assert (Hl0 : length (new_shift_table T) = Z.to_nat T)
    by (unfold new_shift_table; by rewrite length_replicate).
  rewrite tbl_set_is_Some by lia. simpl. change (Z.to_nat 0) with 0%nat.
  rewrite (populate_walk_nodes h est T tl l); try done.
  2:{ by apply Forall_cons in Hnn as [_ ?]. }
  set (tbl1 := <[0%nat := mk_shift 1 0 (head set)]> (new_shift_table T)).
  set (stbl1 := ShiftSpec.seed (head set) tl (Z.to_nat T)
                  (ShiftSpec.allocate (Z.to_nat T))).
  assert (Hsl1 : length stbl1 = Z.to_nat T).
  { unfold stbl1, ShiftSpec.seed, ShiftSpec.allocate.
    by rewrite !length_insert, length_replicate. }
  destruct (walk_rel est T Hest HT ltac:(lia) l 0 tbl1 stbl1 Hex)
    as (tbl2 & -> & L2 & Hlast & Hslast & Hsl2 & Hrel); try lia.
  { unfold tbl1. by rewrite length_insert. }
  { intros i e se Hi. unfold tbl1, stbl1, ShiftSpec.seed, ShiftSpec.allocate.
    replace (Z.to_nat T - 1)%nat with (Z.to_nat (T - 1)) by lia.
    rewrite (list_lookup_insert_ne _ (Z.to_nat (T - 1))) by done.
    destruct (decide (i = 0%nat)) as [->|Hne].
    - rewrite !list_lookup_insert_eq
        by (unfold new_shift_table; rewrite length_replicate; lia).
      intros [= <-] [= <-]. simpl. repeat split; try lia.
      left. split; [done|lia].
    - rewrite !list_lookup_insert_ne by done. unfold new_shift_table.
      intros [-> _]%lookup_replicate [-> _]%lookup_replicate. simpl.
      repeat split; try lia. by right. }
  simpl.
  pose proof (path_last _ _ _ _ _ Hp) as Hlast'. unfold nxt in Hlast'.
  rewrite Hlast'. simpl. rewrite tbl_set_is_Some by lia. simpl.
  set (stbl2 := ShiftSpec.walk (estimate est) (Z.to_nat T) l 0 stbl1) in *.
  set (tbl3 := <[Z.to_nat (T - 1) := mk_shift 1 0 tl]> tbl2).
  assert (L3 : length tbl3 = Z.to_nat T) by (unfold tbl3; by rewrite length_insert).
  assert (H3 : tbl3 !! Z.to_nat (T - 1) = Some (mk_shift 1 0 tl))
    by (unfold tbl3; apply list_lookup_insert_eq; lia).
  assert (Hs3 : stbl2 !! Z.to_nat (T - 1)
                = Some (ShiftSpec.mk_entry 1 (ShiftSpec.Fin 0) tl)).
  { rewrite Hslast. unfold stbl1, ShiftSpec.seed.
    replace (Z.to_nat T - 1)%nat with (Z.to_nat (T - 1)) by lia.
    apply list_lookup_insert_eq. rewrite length_insert.
    unfold ShiftSpec.allocate. rewrite length_replicate. lia. }
  assert (EqT : Z.to_nat T = S (Z.to_nat (T - 1))) by lia.
  rewrite EqT.
  cbn [backfill ShiftSpec.fill]. rewrite H3, Hs3. cbn [count Z.eqb].
  replace (stbl2 !! S (Z.to_nat (T - 1))) with (@None ShiftSpec.entry).
  2:{ symmetry. apply lookup_ge_None. lia. }
  destruct (fill_rel T ltac:(lia) (Z.to_nat T) (Z.of_nat (length l))
              ltac:(lia) ltac:(lia) (Z.to_nat (T - 1)) tbl3 stbl2)
    as (tr & tbl' & E & F); try done; try lia.
  - intros i e se Hi Hx Hsx. unfold tbl3 in Hx.
    rewrite list_lookup_insert_ne in Hx by lia.
    specialize (Hrel i e se ltac:(lia) Hx Hsx). simpl in Hrel.
    exact Hrel.
  - intros i e se Hi Hx Hsx. assert (i = Z.to_nat (T - 1)) as ->.
    { apply lookup_lt_Some in Hx. lia. }
    rewrite H3 in Hx. rewrite Hs3 in Hsx. injection Hx as <-.
    injection Hsx as <-. split; [done|]. simpl. lia.
  - rewrite E. simpl. exists tbl'. done.
Qed.


(** * The single-level list variant *)

Module ListFacts.
Import MLList ListShape.


End ListFacts.

(** C9.  The list variant's [sl_add] does not depend on the shift table:
    for any two tables, estimators and table sizes on which the shortcut
    loop runs to its end, the two runs on the same state and value return
    the same result, the same resulting list and the same iteration
    count. *)
Theorem C9_list_add_ignores_shift_table (fuel : nat) (s : MLList.state)
    (set : MLList.sl_intset) (tbl1 tbl2 : list shift_node)
    (est1 est2 : estimator) (T1 T2 v : Z) :
  is_Some (MLList.shortcut_start (MLList.st_heap s) tbl1 est1 T1 v) →
  is_Some (MLList.shortcut_start (MLList.st_heap s) tbl2 est2 T2 v) →
  MLList.sl_add fuel s set tbl1 est1 T1 v
  = MLList.sl_add fuel s set tbl2 est2 T2 v.
Proof.
  intros [p1 H1] [p2 H2]. unfold MLList.sl_add. by rewrite H1, H2.
Qed.


(** * The search engine on an arbitrary store *)

Module Engine.
Import MLSkiplist Shape.

(** ** Mark bits *)

Lemma is_marked_unset x : is_marked (unset_mark x) = 0.
Proof.
  unfold is_marked, unset_mark. apply Z.bits_inj'. intros n Hn.
  rewrite !Z.land_spec, Z.lnot_spec, Z.bits_0 by lia.
  by destruct (Z.testbit x n), (Z.testbit 1 n).
Qed.

Lemma is_marked_set x : is_marked (set_mark x) = 1.
Proof.
  unfold is_marked, set_mark. apply Z.bits_inj'. intros n Hn.
  rewrite Z.land_spec, Z.lor_spec.
  by destruct (Z.testbit x n), (Z.testbit 1 n).
Qed.

Lemma unset_mark_unmarked x : is_marked x = 0 → unset_mark x = x.
Proof.
  unfold is_marked, unset_mark. intros H. apply Z.bits_inj'. intros n Hn.
  assert (Hb : Z.testbit (Z.land x 1) n = false) by (by rewrite H, Z.bits_0).
  rewrite Z.land_spec in Hb. rewrite Z.land_spec, Z.lnot_spec by lia.
  by destruct (Z.testbit x n), (Z.testbit 1 n).
Qed.

Lemma is_marked_NULL : is_marked NULL = 0.
Proof. reflexivity. Qed.

(** ** Stores *)

Lemma read_next_Some h p i q :
  read_next h p i = Some q ↔ ∃ n, h !! p = Some n ∧ next n !! i = Some q.
Proof.
  unfold read_next. destruct (h !! p) as [n|]; simpl.
  - split; [eauto|]. by intros (? & [= <-] & ?).
  - split; [done|]. by intros (? & ? & ?).
Qed.

Lemma CAS_inv h p i old new b h' :
  CAS h p i old new = Some (b, h') →
  (b = false ∧ h' = h ∧ ∃ cur, read_next h p i = Some cur ∧ cur ≠ old)
  ∨ (b = true ∧ ∃ n, h !! p = Some n ∧ next n !! i = Some old
       ∧ h' = <[p := set_next n i new]> h).
Proof.
  unfold CAS. destruct (read_next h p i) as [cur|] eqn:E; simpl; [|done].
  destruct (Z.eqb_spec cur old) as [->|Hne].
  - destruct (write_next h p i new) as [h1|] eqn:W; simpl; [|done].
    intros [= <- <-]. right. split; [done|].
    apply write_next_Some in W as (n & Hn & _ & ->).
    apply read_next_Some in E as (n' & Hn' & Hi). exists n.
    rewrite Hn in Hn'. injection Hn' as <-. done.
  - intros [= <- <-]. left. eauto.
Qed.

Lemma CAS_success h p i old new n :
  h !! p = Some n → next n !! i = Some old →
  CAS h p i old new = Some (true, <[p := set_next n i new]> h).
Proof.
  intros Hn Hi. unfold CAS, read_next. rewrite Hn. simpl. rewrite Hi. simpl.
  rewrite Z.eqb_refl. rewrite (write_next_is_Some _ _ _ _ n); [done|done|].
  by eapply lookup_lt_Some.
Qed.

Lemma mchain_trans h i a b c :
  mchain h i a b → mchain h i b c → mchain h i a c.
Proof.
  induction 1 as [|m p r Hr Hm _ IH]; [done|]. intros Hc.
  eapply mchain_step; eauto.
Qed.

(** ** The inner loops *)

Lemma skip_marked_spec h i :
  ∀ fuel r r' rn, skip_marked fuel h i r = Some (r', rn) →
    mchain h i r r' ∧ read_next h r' i = Some rn ∧ is_marked rn = 0
    ∧ (is_marked r = 0 → is_marked r' = 0).
Proof.
  induction fuel as [|fuel IH]; intros r r' rn; simpl; [done|].
  destruct (read_next h r i) as [p|] eqn:E; simpl; [|done].
  destruct (Z.eqb_spec (is_marked p) 0) as [Hm|Hm].
  - intros [= <- <-]. repeat split; try done. constructor.
  - intros H. apply IH in H as (Hc & Hr & Hrn & Hu).
    repeat split; try done.
    + by eapply mchain_step.
    + intros _. apply Hu, is_marked_unset.
Qed.

Lemma find_pair_spec h i v :
  ∀ fuel l ln r l' ln' r',
    find_pair fuel h i v l ln r = Some (l', ln', r') →
    read_next h l i = Some ln → is_marked ln = 0 → mchain h i ln r →
    is_marked l = 0 → is_marked r = 0 →
    read_next h l' i = Some ln' ∧ is_marked ln' = 0 ∧ mchain h i ln' r'
    ∧ is_marked l' = 0 ∧ is_marked r' = 0
    ∧ ∃ n, h !! r' = Some n ∧ v <= val n.
Proof.
  induction fuel as [|fuel IH]; intros l ln r l' ln' r'; [done|].
  cbn [find_pair].
  destruct (skip_marked (S fuel) h i r) as [[r1 rn]|] eqn:E; [|done].
  cbn [mbind option_bind].
  destruct (h !! r1) as [n|] eqn:Hn; [|done]. cbn [mbind option_bind].
  apply skip_marked_spec in E as (Hc & Hr & Hrn & Hu).
  intros H Hl Hln Hch Hlm Hrm.
  destruct (Z.geb_spec (val n) v) as [Hge|Hlt].
  - injection H as <- <- <-.
    split; [done|]. split; [done|]. split; [by eapply mchain_trans|].
    split; [done|]. split; [by apply Hu|]. exists n. split; [done|lia].
  - apply IH in H; try done; [constructor|by apply Hu].
Qed.

Lemma arr_write_unmarked a i p a' :
  arr_write a i p = Some a' → is_marked p = 0 →
  arr_unmarked a → arr_unmarked a'.
Proof.
  unfold arr_write. destruct a as [l|]; [|by intros [= <-]].
  case_decide; [|done]. intros [= <-] Hp Ha l' [= <-].
  apply Forall_insert; [by apply Ha|done].
Qed.

Lemma search_levels_spec v fuel :
  ∀ i1 h l ll rl ex h' ll' rl',
    search_levels i1 fuel h v l ll rl = Some (ex, h', ll', rl') →
    is_marked l = 0 → arr_unmarked ll → arr_unmarked rl →
    rtc unlink_step h h' ∧ arr_unmarked ll' ∧ arr_unmarked rl'.
Proof.
  induction i1 as [|i IH]; intros h l ll rl ex h' ll' rl'.
  - intros [= <- <- <- <-]. split; [constructor|done].
  - cbn [search_levels].
    destruct (read_next h l i) as [ln|] eqn:El; [|done].
    cbn [mbind option_bind].
    destruct (Z.eqb_spec (is_marked ln) 0) as [Hln|Hln].
    2:{ intros [= <- <- <- <-]. split; [constructor|done]. }
    destruct (find_pair fuel h i v l ln ln) as [[[l1 ln1] r1]|] eqn:Ef; [|done].
    cbn [mbind option_bind]. intros H Hl Hll Hrl.
    apply find_pair_spec in Ef as (Hr1 & Hln1 & Hch & Hl1 & Hr1m & _);
      try done; [|constructor].
    destruct (Z.eqb_spec ln1 r1) as [->|Hne]; cbn [mbind option_bind] in H.
    + destruct (arr_write ll i l1) as [ll1|] eqn:E1; [|done].
      destruct (arr_write rl i r1) as [rl1|] eqn:E2; [|done].
      cbn [mbind option_bind] in H. apply IH in H; try done.
      * by eapply arr_write_unmarked.
      * by eapply arr_write_unmarked.
    + apply read_next_Some in Hr1 as (n & Hn & Hi).
      rewrite (CAS_success _ _ _ _ _ n) in H by done.
      cbn [mbind option_bind] in H.
      destruct (arr_write ll i l1) as [ll1|] eqn:E1; [|done].
      destruct (arr_write rl i r1) as [rl1|] eqn:E2; [|done].
      cbn [mbind option_bind] in H. apply IH in H as (Hrtc & ? & ?); try done.
      * split; [|done]. eapply rtc_l; [|exact Hrtc].
        exists l1, i, ln1, r1, n. done.
      * by eapply arr_write_unmarked.
      * by eapply arr_write_unmarked.
Qed.

Lemma shortcut_loop_unmarked h tbl v :
  ∀ k l it l' it', shortcut_loop h tbl v k l it = Some (l', it') →
    is_marked l = 0 → is_marked l' = 0.
Proof.
  induction k as [|k IH]; intros l it l' it'; simpl;
    destruct (h !! l) as [n|]; simpl; try done;
    destruct (val n >? v); try (by intros [= <- <-]).
  destruct (tbl !! k) as [e|]; simpl; [|done].
  intros H _. eapply IH; [exact H|]. apply is_marked_unset.
Qed.

Lemma fraser_search_spec v tbl est T :
  ∀ fuel s ll rl s' ll' rl',
    fraser_search fuel s v ll rl tbl est T = Some (s', ll', rl') →
    arr_unmarked ll → arr_unmarked rl →
    rtc unlink_step (st_heap s) (st_heap s')
    ∧ arr_unmarked ll' ∧ arr_unmarked rl'
    ∧ st_brk s' = st_brk s ∧ st_y s' = st_y s.
Proof.
  induction fuel as [|fuel IH]; intros s ll rl s' ll' rl'; [done|].
  cbn [fraser_search].
  destruct (shortcut_start _ _ _ _ _ _) as [[l it]|] eqn:Es; [|done].
  cbn [mbind option_bind].
  destruct (st_heap s !! l) as [n|]; [|done]. cbn [mbind option_bind].
  destruct (search_levels _ _ _ _ _ _ _) as [[[[ex h] ll1] rl1]|] eqn:E; [|done].
  cbn [mbind option_bind]. intros H Hll Hrl.
  apply search_levels_spec in E as (Hrtc & Hll1 & Hrl1); try done.
  2:{ unfold shortcut_start in Es.
      destruct (tbl_get _ _) as [e|]; simpl in Es; [|done].
      eapply shortcut_loop_unmarked; [exact Es|apply is_marked_unset]. }
  destruct ex.
  - apply IH in H as (Hrtc' & ? & ? & ? & ?); try done. simpl in *.
    split; [by etrans|done].
  - injection H as <- <- <-. done.
Qed.

(** ** What a helping step preserves *)

Lemma unset_mark_idem p : unset_mark (unset_mark p) = unset_mark p.
Proof. apply unset_mark_unmarked, is_marked_unset. Qed.

Lemma set_next_lookup_eq n (i : nat) q p :
  next n !! i = Some p → next (set_next n i q) !! i = Some q.
Proof.
  intros H. simpl. apply list_lookup_insert_eq. by eapply lookup_lt_Some.
Qed.

Lemma set_next_lookup_ne n (i j : nat) q :
  i ≠ j → next (set_next n i q) !! j = next n !! j.
Proof. intros H. simpl. by apply list_lookup_insert_ne. Qed.

Lemma unlink_upd x h h' : unlink_step h h' → upd_step x h h'.
Proof.
  intros (l & i & ln & r & n & Hn & Hi & Hln & Hr & Hne & Hc & ->).
  exists l, i, r, n. split; [done|]. split; [by eapply lookup_lt_Some|].
  split; [done|]. right. eauto.
Qed.

Lemma evolves_refl x h : evolves x h h.
Proof.
  intros a n Hn. exists n. split; [done|]. split; [by repeat split|].
  by intros _ i p Hp _.
Qed.

Lemma evolves_trans x h1 h2 h3 :
  evolves x h1 h2 → evolves x h2 h3 → evolves x h1 h3.
Proof.
  intros H12 H23 a n Hn.
  destruct (H12 _ _ Hn) as (n2 & Hn2 & (?&?&?&?) & K2).
  destruct (H23 _ _ Hn2) as (n3 & Hn3 & (?&?&?&?) & K3).
  exists n3. split; [done|]. split; [repeat split; congruence|].
  intros Hx i p Hp Hm. apply K3; [done| |done]. by apply K2.
Qed.

Lemma upd_evolves x h h' : upd_step x h h' → evolves x h h'.
Proof.
  intros (a & i & q & n & Hn & Hi & -> & Hor) b nb Hb.
  destruct (decide (b = a)) as [->|Hne].
  - rewrite Hn in Hb. injection Hb as <-. rewrite lookup_insert_eq.
    eexists. split; [done|]. split.
    + repeat split. simpl. by rewrite length_insert.
    + intros Hx j p Hp Hm. destruct Hor as [?|(p0 & Hp0 & Hm0)]; [done|].
      destruct (decide (i = j)) as [->|Hij]; [congruence|].
      by rewrite set_next_lookup_ne.
  - rewrite lookup_insert_ne by done. exists nb.
    split; [done|]. split; [by repeat split|]. by intros _ j p Hp _.
Qed.

Lemma rtc_upd_evolves x h h' : rtc (upd_step x) h h' → evolves x h h'.
Proof.
  induction 1 as [|h1 h2 h3 H12 _ IH]; [apply evolves_refl|].
  eapply evolves_trans; [by apply upd_evolves|done].
Qed.

Lemma rtc_unlink_upd x h h' : rtc unlink_step h h' → rtc (upd_step x) h h'.
Proof.
  induction 1 as [|h1 h2 h3 H12 _ IH]; [constructor|].
  eapply rtc_l; [by apply unlink_upd|done].
Qed.

Lemma mchain_no_marks h i m r : no_marks h → mchain h i m r → m = r.
Proof.
  intros Hnm. induction 1 as [|m p r Hr Hm _ _]; [done|].
  apply read_next_Some in Hr as (n & Hn & Hi). by rewrite (Hnm _ _ _ _ Hn Hi) in Hm.
Qed.

Lemma rtc_unlink_no_marks h h' : no_marks h → rtc unlink_step h h' → h' = h.
Proof.
  intros Hnm. destruct 1 as [|h1 h2 h3 H12 _]; [done|].
  destruct H12 as (l & i & ln & r & n & Hn & Hi & Hln & Hr & Hne & Hc & ->).
  by apply (mchain_no_marks _ _ _ _ Hnm) in Hc.
Qed.

Lemma mchain_no_ref x h i m r :
  no_ref x h → mchain h i m r → unset_mark m ≠ x → unset_mark r ≠ x.
Proof.
  intros Hnr. induction 1 as [|m p r Hr Hm _ IH]; [done|]. intros _.
  apply IH. rewrite unset_mark_idem.
  apply read_next_Some in Hr as (n & Hn & Hi). by eapply Hnr.
Qed.

Lemma unlink_no_ref x h h' : unlink_step h h' → no_ref x h → no_ref x h'.
Proof.
  intros (l & i & ln & r & n & Hn & Hi & Hln & Hr & Hne & Hc & ->) Hnr.
  intros a na j p Ha Hp.
  destruct (decide (a = l)) as [->|Hal].
  - rewrite lookup_insert_eq in Ha. injection Ha as <-.
    destruct (decide (i = j)) as [->|Hij].
    + rewrite (set_next_lookup_eq _ _ _ _ Hi) in Hp. injection Hp as <-.
      eapply mchain_no_ref; [done|exact Hc|]. by eapply Hnr.
    + rewrite set_next_lookup_ne in Hp by done. by eapply Hnr.
  - rewrite lookup_insert_ne in Ha by done. by eapply Hnr.
Qed.

Lemma rtc_unlink_no_ref x h h' :
  rtc unlink_step h h' → no_ref x h → no_ref x h'.
Proof.
  induction 1 as [|h1 h2 h3 H12 _ IH]; [done|]. intros H.
  apply IH. by eapply unlink_no_ref.
Qed.

(** ** Level-0 membership *)

Lemma reach0_refl h a : reach0 h a a.
Proof. by exists 0%nat. Qed.

Lemma walk0_app h n m a b c :
  walk0 h n a = Some b → walk0 h m b = Some c → walk0 h (n + m) a = Some c.
Proof.
  revert a. induction n as [|n IH]; intros a; simpl.
  - by intros [= ->].
  - destruct (succ0 h a) as [x|]; simpl; [|done]. apply IH.
Qed.

Lemma reach0_trans h a b c : reach0 h a b → reach0 h b c → reach0 h a c.
Proof. intros [n Hn] [m Hm]. exists (n + m)%nat. by eapply walk0_app. Qed.

Lemma reach0_step h a b c : succ0 h a = Some b → reach0 h b c → reach0 h a c.
Proof. intros Hs [n Hn]. exists (S n). simpl. by rewrite Hs. Qed.

Lemma mchain_reach0 h m r : mchain h 0 m r → reach0 h m r.
Proof.
  induction 1 as [|m p r Hr Hm _ IH]; [apply reach0_refl|].
  eapply reach0_step; [|exact IH]. unfold succ0. by rewrite Hr.
Qed.

(** A walk that starts inside a marked stretch and ends on an unmarked
    node passes the end of the stretch. *)
Lemma mchain_walk0 h m r :
  mchain h 0 m r →
  ∀ k b pb, walk0 h k m = Some b → read_next h b 0 = Some pb →
    is_marked pb = 0 → ∃ k', (k' ≤ k)%nat ∧ walk0 h k' r = Some b.
Proof.
  induction 1 as [|m p r Hr Hm _ IH]; intros k b pb Hw Hb Hpb; [eauto|].
  destruct k as [|k]; simpl in Hw.
  - injection Hw as <-. rewrite Hr in Hb. injection Hb as <-. done.
  - unfold succ0 in Hw. rewrite Hr in Hw. simpl in Hw.
    destruct (IH _ _ _ Hw Hb Hpb) as (k' & ? & ?). exists k'. split; [lia|done].
Qed.

Section Unlink0.

Variables (h : heap) (lft ln rgt : Z) (n : sl_node).
Hypothesis Hn : h !! lft = Some n.
Hypothesis Hi : next n !! 0%nat = Some ln.
Hypothesis Hln : is_marked ln = 0.
Hypothesis Hr : is_marked rgt = 0.
Hypothesis Hc : mchain h 0 ln rgt.

Local Abbreviation h' := (<[lft := set_next n 0 rgt]> h).

Lemma unlink0_succ_ne a : a ≠ lft → succ0 h' a = succ0 h a.
Proof. intros Ha. unfold succ0, read_next. by rewrite lookup_insert_ne. Qed.

Lemma unlink0_succ_new : succ0 h' lft = Some rgt.
Proof.
  unfold succ0, read_next. rewrite lookup_insert_eq. simpl.
  rewrite list_lookup_insert_eq by (by eapply lookup_lt_Some). simpl.
  by rewrite unset_mark_unmarked.
Qed.

Lemma unlink0_succ_old : succ0 h lft = Some ln.
Proof.
  unfold succ0, read_next. rewrite Hn. simpl. rewrite Hi. simpl.
  by rewrite unset_mark_unmarked.
Qed.

Lemma unlink0_reach_old a b : reach0 h' a b → reach0 h a b.
Proof.
  intros [k Hk]. revert a Hk. induction k as [|k IH]; intros a; simpl.
  - intros [= ->]. apply reach0_refl.
  - destruct (decide (a = lft)) as [->|Ha].
    + rewrite unlink0_succ_new. simpl. intros Hw.
      eapply reach0_step; [apply unlink0_succ_old|].
      eapply reach0_trans; [by apply mchain_reach0|by apply IH].
    + rewrite unlink0_succ_ne by done.
      destruct (succ0 h a) as [c|] eqn:Ec; simpl; [|done]. intros Hw.
      eapply reach0_step; [done|by apply IH].
Qed.

Lemma unlink0_reach_new k :
  ∀ a b pb, walk0 h k a = Some b → read_next h b 0 = Some pb →
    is_marked pb = 0 → reach0 h' a b.
Proof.
  induction (lt_wf k) as [k _ IH]. intros a b pb Hw Hb Hpb.
  destruct k as [|k]; simpl in Hw.
  - injection Hw as <-. apply reach0_refl.
  - destruct (decide (a = lft)) as [->|Ha].
    + rewrite unlink0_succ_old in Hw. simpl in Hw.
      destruct (mchain_walk0 _ _ _ Hc _ _ _ Hw Hb Hpb) as (k' & Hk' & Hw').
      eapply reach0_step; [apply unlink0_succ_new|].
      eapply (IH k'); [lia|done..].
    + destruct (succ0 h a) as [c|] eqn:Ec; simpl in Hw; [|done].
      eapply reach0_step; [by rewrite unlink0_succ_ne|].
      eapply (IH k); [lia|done..].
Qed.

Lemma unlink0_live a0 v : live0 h' a0 v ↔ live0 h a0 v.
Proof.
  split.
  - intros (a & na & p & Hre & Ha & Hv & Hd & Hp & Hm).
    apply unlink0_reach_old in Hre.
    destruct (decide (a = lft)) as [->|Hne].
    + rewrite lookup_insert_eq in Ha. injection Ha as <-.
      exists lft, n, ln. done.
    + rewrite lookup_insert_ne in Ha by done. exists a, na, p. done.
  - intros (a & na & p & [k Hre] & Ha & Hv & Hd & Hp & Hm).
    assert (Hre' : reach0 h' a0 a).
    { eapply unlink0_reach_new; [done| |done].
      apply read_next_Some. eauto. }
    destruct (decide (a = lft)) as [->|Hne].
    + rewrite Hn in Ha. injection Ha as <-.
      exists lft, (set_next n 0 rgt), rgt.
      split; [done|]. split; [by rewrite lookup_insert_eq|].
      split; [done|]. split; [done|]. split; [|done].
      by eapply set_next_lookup_eq.
    + exists a, na, p. split; [done|].
      split; [by rewrite lookup_insert_ne|done].
Qed.

End Unlink0.

Lemma walk0_ext h h' :
  (∀ a, succ0 h' a = succ0 h a) → ∀ k a, walk0 h' k a = walk0 h k a.
Proof.
  intros He. induction k as [|k IH]; intros a; simpl; [done|].
  rewrite He. destruct (succ0 h a); simpl; [apply IH|done].
Qed.

Lemma unlink_live h h' a0 v :
  unlink_step h h' → (live0 h' a0 v ↔ live0 h a0 v).
Proof.
  intros (l & i & ln & r & n & Hn & Hi & Hln & Hr & Hne & Hc & ->).
  destruct i as [|i]; [by eapply unlink0_live|].
  assert (Hs : ∀ a, succ0 (<[l := set_next n (S i) r]> h) a = succ0 h a).
  { intros a. unfold succ0, read_next.
    destruct (decide (a = l)) as [->|Ha].
    - rewrite lookup_insert_eq, Hn. simpl.
      by rewrite list_lookup_insert_ne.
    - by rewrite lookup_insert_ne. }
  unfold live0, reach0. split.
  - intros (a & na & p & [k Hre] & Ha & Hv & Hd & Hp & Hm).
    rewrite (walk0_ext _ _ Hs) in Hre.
    destruct (decide (a = l)) as [->|Hal].
    + rewrite lookup_insert_eq in Ha. injection Ha as <-.
      simpl in Hp. rewrite list_lookup_insert_ne in Hp by done.
      exists l, n, p. eauto 10.
    + rewrite lookup_insert_ne in Ha by done. exists a, na, p. eauto 10.
  - intros (a & na & p & [k Hre] & Ha & Hv & Hd & Hp & Hm).
    rewrite <- (walk0_ext _ _ Hs) in Hre.
    destruct (decide (a = l)) as [->|Hal].
    + rewrite Hn in Ha. injection Ha as <-.
      exists l, (set_next n (S i) r), p.
      split; [eauto|]. split; [by rewrite lookup_insert_eq|].
      split; [done|]. split; [done|]. split; [|done].
      simpl. by rewrite list_lookup_insert_ne.
    + exists a, na, p. split; [eauto|].
      split; [by rewrite lookup_insert_ne|done].
Qed.

Lemma rtc_unlink_live h h' a0 v :
  rtc unlink_step h h' → (live0 h' a0 v ↔ live0 h a0 v).
Proof.
  induction 1 as [|h1 h2 h3 H12 _ IH]; [done|].
  rewrite IH. by apply unlink_live.
Qed.

(** Allocating (or freeing) a node nobody refers to does not change the
    membership seen from another node. *)
Lemma insert_fresh_live h x nd a0 v :
  h !! x = None → no_ref x h → a0 ≠ x →
  (live0 (<[x := nd]> h) a0 v ↔ live0 h a0 v).
Proof.
  intros Hx Hnr Ha0.
  assert (Hw : ∀ k a b, a ≠ x →
    (walk0 (<[x := nd]> h) k a = Some b ↔ walk0 h k a = Some b)
    ∧ (walk0 h k a = Some b → b ≠ x)).
  { induction k as [|k IH]; intros a b Ha; simpl.
    - split; [done|]. by intros [= <-].
    - unfold succ0, read_next. rewrite lookup_insert_ne by done.
      destruct (h !! a) as [na|] eqn:Hna; simpl; [|done].
      destruct (next na !! 0%nat) as [p|] eqn:Hp; simpl; [|done].
      apply IH. by eapply Hnr. }
  unfold live0, reach0. split.
  - intros (a & na & p & [k Hre] & Ha & Hv & Hd & Hp & Hm).
    apply Hw in Hre as Hre'; [|done].
    assert (a ≠ x) by (by eapply Hw).
    rewrite lookup_insert_ne in Ha by done. exists a, na, p. eauto 10.
  - intros (a & na & p & [k Hre] & Ha & Hv & Hd & Hp & Hm).
    assert (a ≠ x) by (by eapply Hw).
    exists a, na, p. split; [exists k; by apply Hw|].
    split; [by rewrite lookup_insert_ne|done].
Qed.

End Engine.


(** * Insertion of a value that is already there *)

Module AddFacts.
Import MLSkiplist Shape Engine.

Lemma sl_add_alloc_spec levelmax s v :
  ∃ l y, sl_add_alloc levelmax s v
         = (st_brk s,
            mk_state (<[st_brk s := mk_node v 0 l (replicate (Z.to_nat l) NULL)]>
                        (st_heap s))
                     (st_brk s + node_size l) y (st_iter s)).
Proof.
  unfold sl_add_alloc. destruct (get_rand_level levelmax (st_y s)) as [l y].
  by exists l, y.
Qed.

Lemma no_ref_insert_fresh x h v l :
  x ≠ NULL → no_ref x h →
  no_ref x (<[x := mk_node v 0 l (replicate (Z.to_nat l) NULL)]> h).
Proof.
  intros Hx Hnr a n i p Ha Hp. destruct (decide (a = x)) as [->|Hne].
  - rewrite lookup_insert_eq in Ha. injection Ha as <-. simpl in Hp.
    apply lookup_replicate in Hp as [-> _]. done.
  - rewrite lookup_insert_ne in Ha by done. by eapply Hnr.
Qed.

Lemma no_marks_insert_fresh x h v l :
  no_marks h → no_marks (<[x := mk_node v 0 l (replicate (Z.to_nat l) NULL)]> h).
Proof.
  intros Hnm a n i p Ha Hp. destruct (decide (a = x)) as [->|Hne].
  - rewrite lookup_insert_eq in Ha. injection Ha as <-. simpl in Hp.
    apply lookup_replicate in Hp as [-> _]. done.
  - rewrite lookup_insert_ne in Ha by done. by eapply Hnm.
Qed.

Lemma no_ref_delete x y h : no_ref x h → no_ref x (delete y h).
Proof.
  intros Hnr a n i p Ha Hp. apply lookup_delete_Some in Ha as [_ Ha].
  by eapply Hnr.
Qed.

End AddFacts.

(** C6.  In sequential execution, when the search of [sl_add] finds [v] as
    a live node at level 0 (value [v], flag clear), [sl_add] returns 0
    (already present), frees the node it allocated, and leaves the set
    unchanged: the live members of the level-0 chain are the same from any
    start node, and in a store without marked references the whole store
    is identical before and after the call. *)
Theorem C6_add_already_present (levelmax : Z) (fuel : nat)
    (s : MLSkiplist.state) (tbl : list shift_node) (est : estimator)
    (T v : Z) (s2 : MLSkiplist.state) (preds succs : list Z) (s0 : Z)
    (n0 : MLSkiplist.sl_node) :
  Shape.fresh_addr (MLSkiplist.st_brk s) (MLSkiplist.st_heap s) →
  MLSkiplist.st_brk s ≠ NULL →
  MLSkiplist.fraser_search fuel (MLSkiplist.sl_add_alloc levelmax s v).2 v
      (Some (MLSkiplist.new_array levelmax))
      (Some (MLSkiplist.new_array levelmax)) tbl est T
    = Some (s2, Some preds, Some succs) →
  succs !! 0%nat = Some s0 →
  MLSkiplist.st_heap s2 !! s0 = Some n0 →
  MLSkiplist.val n0 = v → MLSkiplist.deleted n0 = 0 →
  ∃ s', MLSkiplist.sl_add levelmax fuel s tbl est T v = Some (0, s')
    ∧ MLSkiplist.st_heap s' !! MLSkiplist.st_brk s = None
    ∧ (∀ a0 w, a0 ≠ MLSkiplist.st_brk s →
         Shape.live0 (MLSkiplist.st_heap s') a0 w
         ↔ Shape.live0 (MLSkiplist.st_heap s) a0 w)
    ∧ (Shape.no_marks (MLSkiplist.st_heap s) →
         MLSkiplist.st_heap s' = MLSkiplist.st_heap s).
Proof.
  intros [Hfree Hnr] Hnn Hs Hs0 Hn0 Hv Hd.
  destruct (AddFacts.sl_add_alloc_spec levelmax s v) as (l & y & Ea).
  unfold MLSkiplist.sl_add. rewrite Ea in Hs |- *. simpl in Hs.
  set (x := MLSkiplist.st_brk s) in *.
  set (nd := MLSkiplist.mk_node v 0 l _) in *.
  set (s1 := MLSkiplist.mk_state _ _ _ _) in *.
  destruct fuel as [|fuel]; [done|].
  cbn [MLSkiplist.sl_add_retry]. rewrite Hs. cbn [mbind option_bind].
  rewrite Hs0. cbn [mbind option_bind]. rewrite Hn0. cbn [mbind option_bind].
  rewrite Hv, Z.eqb_refl, Hd. cbn [Z.eqb].
  eexists. split; [done|]. simpl. unfold MLSkiplist.sl_delete_node.
  apply Engine.fraser_search_spec in Hs as (Hrtc & _ & _ & _ & _).
  2,3: (intros ? [= <-]; apply Forall_forall;
        intros ? [-> _]%elem_of_replicate; done).
  simpl in Hrtc.
  split; [apply lookup_delete_eq|]. split.
  - intros a0 w Ha0.
    assert (Hx2 : is_Some (MLSkiplist.st_heap s2 !! x)).
    { destruct (Engine.rtc_upd_evolves x _ _
                  (Engine.rtc_unlink_upd x _ _ Hrtc) x nd) as (n' & Hn' & _).
      - apply lookup_insert_eq.
      - eauto. }
    destruct Hx2 as [n2 Hn2].
    assert (Hnr2 : Shape.no_ref x (MLSkiplist.st_heap s2)).
    { eapply Engine.rtc_unlink_no_ref; [exact Hrtc|].
      by apply AddFacts.no_ref_insert_fresh. }
    rewrite <- (Engine.insert_fresh_live
                  (delete x (MLSkiplist.st_heap s2)) x n2 a0 w);
      [|apply lookup_delete_eq|by apply AddFacts.no_ref_delete|done].
    rewrite insert_delete_id by done.
    rewrite (Engine.rtc_unlink_live _ _ a0 w Hrtc).
    by apply Engine.insert_fresh_live.
  - intros Hnm.
    rewrite (Engine.rtc_unlink_no_marks _ _
               (AddFacts.no_marks_insert_fresh x _ v l Hnm) Hrtc).
    rewrite delete_insert_eq. by apply delete_id.
Qed.

(** * Insertion over a logically deleted node *)

Module RetryFacts.
Import MLSkiplist Shape Engine.

Lemma CAS_upd x h p i old new b h' :
  CAS h p i old new = Some (b, h') → is_marked old = 0 ∨ p = x →
  rtc (upd_step x) h h'.
Proof.
  intros H Hor. apply CAS_inv in H as [(_ & -> & _)|(_ & n & Hn & Hi & ->)];
    [constructor|].
  apply rtc_once. exists p, i, new, n. split; [done|].
  split; [by eapply lookup_lt_Some|]. split; [done|].
  destruct Hor; [right|left]; eauto.
Qed.

Lemma write_next_upd h p i q h' :
  write_next h p i q = Some h' → rtc (upd_step p) h h'.
Proof.
  intros H. apply write_next_Some in H as (n & Hn & Hi & ->).
  apply rtc_once. exists p, i, q, n. eauto.
Qed.

Lemma mark_level_spec x h n i :
  ∀ fuel h', mark_level fuel h n i = Some h' →
    rtc (upd_step x) h h'
    ∧ ∃ nd p, h' !! n = Some nd ∧ next nd !! i = Some p ∧ is_marked p ≠ 0.
Proof.
  intros fuel. revert h. induction fuel as [|fuel IH]; intros h h'; [done|].
  cbn [mark_level].
  destruct (read_next h n i) as [p|] eqn:E; [|done]. cbn [mbind option_bind].
  destruct (Z.eqb_spec (is_marked p) 0) as [Hm|Hm].
  - apply read_next_Some in E as (nd & Hnd & Hi).
    rewrite (CAS_success _ _ _ _ _ nd) by done. cbn [mbind option_bind].
    intros [= <-]. split.
    + apply rtc_once. exists n, i, (set_mark p), nd. split; [done|].
      split; [by eapply lookup_lt_Some|]. split; [done|]. right. eauto.
    + exists (set_next nd i (set_mark p)), (set_mark p).
      rewrite lookup_insert_eq. split; [done|].
      split; [by eapply set_next_lookup_eq|]. by rewrite is_marked_set.
  - intros [= <-]. split; [constructor|].
    apply read_next_Some in E as (nd & Hnd & Hi). eauto.
Qed.

Lemma mark_levels_spec fuel n :
  ∀ i1 h h', mark_levels i1 fuel h n = Some h' →
    (∀ x, rtc (upd_step x) h h')
    ∧ ∀ i, (i < i1)%nat →
        ∃ nd p, h' !! n = Some nd ∧ next nd !! i = Some p ∧ is_marked p ≠ 0.
Proof.
  induction i1 as [|i1 IH]; intros h h'.
  - intros [= <-]. split; [constructor|]. intros; lia.
  - cbn [mark_levels].
    destruct (mark_level fuel h n i1) as [h1|] eqn:E; [|done].
    cbn [mbind option_bind]. intros H.
    destruct (IH _ _ H) as [Hrtc' Hall]. split.
    + intros x. apply (mark_level_spec x) in E as (Hrtc & _).
      etrans; [exact Hrtc|apply Hrtc'].
    + intros i Hi.
      destruct (decide (i = i1)) as [->|Hne]; [|apply Hall; lia].
      apply (mark_level_spec n) in E as (_ & nd & p & Hnd & Hp & Hm).
      destruct (rtc_upd_evolves (n + 1) _ _ (Hrtc' (n + 1)) _ _ Hnd)
        as (nd' & Hnd' & _ & Hk).
      exists nd', p. split; [done|]. split; [|done]. apply Hk; [lia|done..].
Qed.

Lemma mark_node_ptrs_spec fuel h n nd h' :
  mark_node_ptrs fuel h n = Some h' → h !! n = Some nd →
  (∀ x, rtc (upd_step x) h h')
  ∧ ∀ i, (i < Z.to_nat (toplevel nd))%nat →
      ∃ nd' p, h' !! n = Some nd' ∧ next nd' !! i = Some p ∧ is_marked p ≠ 0.
Proof.
  unfold mark_node_ptrs. intros H Hn. rewrite Hn in H. simpl in H.
  by eapply mark_levels_spec.
Qed.

Lemma init_next_spec new_n succs :
  ∀ k h i h', init_next k h new_n i succs = Some h' →
    rtc (upd_step new_n) h h'.
Proof.
  induction k as [|k IH]; intros h i h'; cbn [init_next].
  - intros [= <-]. constructor.
  - destruct (succs !! i) as [q|]; [|done]. cbn [mbind option_bind].
    destruct (write_next h new_n i q) as [h1|] eqn:E; [|done].
    cbn [mbind option_bind]. intros H. etrans; [by eapply write_next_upd|].
    by eapply IH.
Qed.

Lemma arr_unmarked_lookup l (i : nat) p :
  arr_unmarked (Some l) → l !! i = Some p → is_marked p = 0.
Proof.
  intros H Hp. specialize (H l eq_refl). rewrite Forall_lookup in H. eauto.
Qed.

Lemma link_level_spec v new_n i tbl est T :
  ∀ fuel s preds succs s' preds' succs',
    link_level fuel s v new_n i preds succs tbl est T
      = Some (s', preds', succs') →
    arr_unmarked (Some preds) → arr_unmarked (Some succs) →
    rtc (upd_step new_n) (st_heap s) (st_heap s')
    ∧ arr_unmarked (Some preds') ∧ arr_unmarked (Some succs').
Proof.
  induction fuel as [|fuel IH]; intros s preds succs s' preds' succs'; [done|].
  cbn [link_level].
  destruct (preds !! i) as [pred|] eqn:Ep; [|done]. cbn [mbind option_bind].
  destruct (succs !! i) as [succ|] eqn:Es; [|done]. cbn [mbind option_bind].
  destruct (read_next (st_heap s) new_n i) as [new_next|]; [|done].
  cbn [mbind option_bind].
  intros H Hp Hs.
  set (c1 := if new_next =? succ then Some (true, st_heap s)
             else CAS (st_heap s) new_n i (unset_mark new_next) succ) in H.
  destruct c1 as [[ok h1]|] eqn:E1; [|done]. cbn [mbind option_bind] in H.
  assert (R1 : rtc (upd_step new_n) (st_heap s) h1).
  { unfold c1 in E1. destruct (new_next =? succ).
    - injection E1 as <- <-. constructor.
    - eapply CAS_upd; [exact E1|by right]. }
  destruct ok.
  2:{ injection H as <- <- <-. done. }
  destruct (h1 !! succ) as [sn|]; [|done]. cbn [mbind option_bind] in H.
  set (succ' := if val sn =? v then unset_mark (succ + NEXT_OFFSET) else succ) in H.
  assert (Hsu : is_marked succ' = 0).
  { unfold succ'. destruct (val sn =? v); [apply is_marked_unset|].
    by eapply (arr_unmarked_lookup succs i). }
  destruct (CAS h1 pred i succ' new_n) as [[ok2 h2]|] eqn:E2; [|done].
  cbn [mbind option_bind] in H.
  assert (R2 : rtc (upd_step new_n) h1 h2) by (eapply CAS_upd; eauto).
  destruct ok2.
  - injection H as <- <- <-. simpl. split; [by etrans|done].
  - destruct (fraser_search _ _ _ _ _ _ _ _) as [[[s3 p3] q3]|] eqn:E3; [|done].
    cbn [mbind option_bind] in H.
    destruct p3 as [p3|]; [|done]. destruct q3 as [q3|]; [|done].
    cbn [mbind option_bind] in H.
    apply fraser_search_spec in E3 as (R3 & ? & ? & _); [|done..].
    apply IH in H as (R4 & ? & ?); [|done..].
    split; [|done]. simpl in R3.
    etrans; [exact R1|]. etrans; [exact R2|].
    etrans; [by apply rtc_unlink_upd|done].
Qed.

Lemma link_levels_spec v new_n tbl est T fuel :
  ∀ k s i preds succs s',
    link_levels k fuel s v new_n i preds succs tbl est T = Some s' →
    arr_unmarked (Some preds) → arr_unmarked (Some succs) →
    rtc (upd_step new_n) (st_heap s) (st_heap s').
Proof.
  induction k as [|k IH]; intros s i preds succs s'; cbn [link_levels].
  - intros [= <-]. constructor.
  - destruct (link_level _ _ _ _ _ _ _ _ _ _) as [[[s1 p1] q1]|] eqn:E; [|done].
    cbn [mbind option_bind]. intros H Hp Hs.
    apply link_level_spec in E as (R1 & ? & ?); [|done..].
    etrans; [exact R1|]. by eapply IH.
Qed.

(** Whatever [sl_add] does after the allocation is a sequence of stores
    that never touch a marked reference of an older node, followed, when it
    reports "already present", by the release of the new node. *)
Lemma sl_add_retry_spec v new_n tbl est T :
  ∀ fuel s preds succs r s',
    sl_add_retry fuel s v new_n preds succs tbl est T = Some (r, s') →
    arr_unmarked (Some preds) → arr_unmarked (Some succs) →
    ∃ h', rtc (upd_step new_n) (st_heap s) h'
      ∧ ((r = 1 ∧ st_heap s' = h') ∨ (r = 0 ∧ st_heap s' = delete new_n h')).
Proof.
  induction fuel as [|fuel IH]; intros s preds succs r s'; [done|].
  cbn [sl_add_retry].
  destruct (fraser_search _ _ _ _ _ _ _ _) as [[[s1 p1] q1]|] eqn:E; [|done].
  cbn [mbind option_bind].
  destruct p1 as [p1|]; [|done]. destruct q1 as [q1|]; [|done].
  cbn [mbind option_bind].
  destruct (q1 !! 0%nat) as [s0|] eqn:E0; [|done]. cbn [mbind option_bind].
  destruct (st_heap s1 !! s0) as [n0|] eqn:En0; [|done].
  cbn [mbind option_bind]. intros H Hp Hs.
  apply fraser_search_spec in E as (R1 & Hp1 & Hq1 & _); [|done..].
  apply (rtc_unlink_upd new_n) in R1.
  destruct (val n0 =? v).
  - destruct (deleted n0 =? 0).
    + injection H as <- <-. exists (st_heap s1). split; [done|]. by right.
    + destruct (mark_node_ptrs _ _ _) as [h2|] eqn:Em; [|done].
      cbn [mbind option_bind] in H.
      eapply mark_node_ptrs_spec in Em as [R2 _]; [|done].
      apply IH in H as (h' & R3 & Hor); [|done..]. simpl in R3.
      exists h'. split; [|done]. etrans; [exact R1|]. etrans; [apply R2|done].
  - destruct (st_heap s1 !! new_n) as [nn|]; [|done].
    cbn [mbind option_bind] in H.
    destruct (init_next _ _ _ _ _) as [h2|] eqn:Ei; [|done].
    cbn [mbind option_bind] in H.
    destruct (p1 !! 0%nat) as [p0|]; [|done]. cbn [mbind option_bind] in H.
    destruct (CAS h2 p0 0 s0 new_n) as [[ok h3]|] eqn:Ec; [|done].
    cbn [mbind option_bind] in H.
    apply init_next_spec in Ei.
    apply (CAS_upd new_n) in Ec; [|left; by eapply (arr_unmarked_lookup q1 0)].
    destruct ok.
    + destruct (link_levels _ _ _ _ _ _ _ _ _ _ _) as [s4|] eqn:El; [|done].
      cbn [mbind option_bind] in H. injection H as <- <-.
      apply link_levels_spec in El; [|done..]. simpl in El.
      exists (st_heap s4). split; [|by left].
      etrans; [exact R1|]. etrans; [exact Ei|]. by etrans.
    + apply IH in H as (h' & R3 & Hor); [|done..]. simpl in R3.
      exists h'. split; [|done].
      etrans; [exact R1|]. etrans; [exact Ei|]. by etrans.
Qed.

End RetryFacts.

Lemma new_array_unmarked levelmax :
  Shape.arr_unmarked (Some (MLSkiplist.new_array levelmax)).
Proof.
  intros ? [= <-]. apply Forall_forall.
  by intros ? [-> _]%elem_of_replicate.
Qed.





(** * The shift table against a loaded set *)

Lemma est_lin_range v :
  (0 <= estimate Scenario.est_lin v)%Q ∧ (estimate Scenario.est_lin v < 1)%Q.
Proof.
  unfold estimate, Scenario.est_lin. destruct (Z.ltb_spec v 1); [done|].
  destruct (Z.leb_spec v 9); [|done].
  assert (Hv : v = 1 ∨ v = 2 ∨ v = 3 ∨ v = 4 ∨ v = 5 ∨ v = 6 ∨ v = 7
               ∨ v = 8 ∨ v = 9) by lia.
  repeat (destruct Hv as [->|Hv]; [by vm_compute|]). subst v. by vm_compute.
Qed.

Lemma no_ref_b_sound x h : no_ref_b x h = true → Shape.no_ref x h.
Proof.
  unfold no_ref_b. intros H a n i p Ha Hp.
  rewrite forallb_forall in H.
  specialize (H (a, n)). simpl in H.
  assert (Hin : In (a, n) (map_to_list h)).
  { apply list_elem_of_In. by apply elem_of_map_to_list. }
  specialize (H Hin). rewrite forallb_forall in H.
  assert (Hp' : In p (MLSkiplist.next n)).
  { apply list_elem_of_In. by eapply list_elem_of_lookup_2. }
  specialize (H p Hp'). apply negb_true_iff in H. by apply Z.eqb_neq in H.
Qed.

(** C3 (the code at the failing input).  The set holds 1, 3, 5, 9 and the
    table was built by [populate_shift_table] on it (4 buckets, linear
    estimator).  For the target 0 the shortcut loop stops on the node that
    holds 1, after the position of 0, and the search that starts there
    returns the nodes 1 and 3 as level-0 predecessor and successor instead
    of the head sentinel and the node 1: the first real node, of rank 0 in
    bucket 0, has replaced the head sentinel stored in bucket 0. *)
Theorem C3_shortcut_start_after_target :
  Scenario.loaded_chain = Some [VAL_MIN; 1; 3; 5; 9; VAL_MAX]
  ∧ Scenario.search_from_table 0 = Some (1, 1, 3).
Proof. split; vm_compute; reflexivity. Qed.

(** C2 (the code at the failing input).  In the same state [sl_add(0)]
    reports an insertion and leaves the level-0 chain
    [MIN, 1, 0, 3, 5, 9, MAX]: increasing before the call, not after. *)
Theorem C2_add_breaks_sortedness :
  Scenario.add_from_table 0
  = Some ([VAL_MIN; 1; 3; 5; 9; VAL_MAX], 1, [VAL_MIN; 1; 0; 3; 5; 9; VAL_MAX])
  ∧ increasing [VAL_MIN; 1; 3; 5; 9; VAL_MAX] = true
  ∧ increasing [VAL_MIN; 1; 0; 3; 5; 9; VAL_MAX] = false.
Proof. split_and!; vm_compute; reflexivity. Qed.

(** With the same table a present value that is the first of its bucket
    is not found either. *)
Lemma contains_misses_bucket_head :
  Scenario.contains_from_table 5 = Some 0
  ∧ Scenario.contains_from_table 3 = Some 1.
Proof. split; vm_compute; reflexivity. Qed.

(** * Instances *)

Lemma bulk_chain0 :
  Shape.chain0 (MLSkiplist.st_heap Scenario.bulk_state)
    (MLSkiplist.head Scenario.bulk_set) [4672; 4728; 4640; 4704] 4096.
Proof.
  vm_compute. split_and!; try reflexivity.
  repeat apply Forall_cons_2; try apply Forall_nil_2; discriminate.
Qed.

Lemma C8_witness :
  ∃ tr res,
    MLSkiplist.populate_shift_table_trace Scenario.fuel
      (MLSkiplist.st_heap Scenario.bulk_state) Scenario.bulk_set
      (new_shift_table 4) Scenario.est_lin 4 = Some (tr, res)
    ∧ Forall (λ i, 0 <= i <= 4 - 1) tr ∧ is_Some res.
Proof.
  eexists _, _. split; [vm_compute; reflexivity|].
  apply (C8_backfill_in_bounds Scenario.fuel
           (MLSkiplist.st_heap Scenario.bulk_state) Scenario.bulk_set
           (new_shift_table 4) Scenario.est_lin 4).
  vm_compute. reflexivity.
Defined.

Lemma C10_witness :
  (is_Some (MLSkiplist.sl_new_node 3 Scenario.s_start 7 NULL 5) ↔ 3 <= 5)
  ∧ (3 <= 5 →
     MLSkiplist.sl_new_node 3 Scenario.s_start 7 NULL 5
     = Some (4096,
             MLSkiplist.mk_state
               (<[4096 := MLSkiplist.mk_node 7 0 5
                            (replicate (Z.to_nat 3) NULL
                             ++ replicate (Z.to_nat 5 - Z.to_nat 3) NULL)]>
                  (MLSkiplist.st_heap Scenario.s_start))
               (4096 + MLSkiplist.node_size 5) 2463534242 0))
  ∧ (0 <= 3 →
     let tl := 4096 in
     let hd := 4096 + MLSkiplist.node_size 3 in
     MLSkiplist.sl_set_new 3 Scenario.s_start
     = Some (MLSkiplist.mk_set hd,
             MLSkiplist.mk_state
               (<[hd := MLSkiplist.mk_node VAL_MIN 0 3
                          (replicate (Z.to_nat 3) tl)]>
                  (<[tl := MLSkiplist.mk_node VAL_MAX 0 3
                             (replicate (Z.to_nat 3) NULL)]>
                     (MLSkiplist.st_heap Scenario.s_start)))
               (hd + MLSkiplist.node_size 3) 2463534242 0)).
Proof. apply (C10_new_node_in_bounds 3 Scenario.s_start 7 NULL 5). lia. Defined.

(** [toplevel = levelmax] is not the exact condition of C10: for a node
    taller than [levelmax], here [levelmax = 2] and [toplevel = 5], the two
    writes of [sl_new_node] are inside the five allocated slots although
    [toplevel] is not [levelmax]; the three slots above are left as
    allocated. *)
Lemma C10_counterexample :
  MLSkiplist.sl_new_node 2 Scenario.s_start 7 4200 5
  = Some (4096,
          MLSkiplist.mk_state
            (<[4096 := MLSkiplist.mk_node 7 0 5 [4200; 4200; NULL; NULL; NULL]]>
               ∅)
            (4096 + MLSkiplist.node_size 5) 2463534242 0)
  ∧ 5 ≠ 2.
Proof. split; [vm_compute; reflexivity|lia]. Qed.

Lemma C5_witness :
  ∃ tbl,
    MLSkiplist.populate_shift_table Scenario.fuel
      (MLSkiplist.st_heap Scenario.bulk_state) Scenario.bulk_set
      (new_shift_table 4) Scenario.est_lin 4 = Some tbl
    ∧ Z.of_nat (length tbl) = 4
    ∧ Forall (λ e, node e ≠ NULL
                   ∧ node e ∈ MLSkiplist.head Scenario.bulk_set
                              :: [4672; 4728; 4640; 4704] ++ [4096]) tbl.
Proof.
  apply (C5_every_bucket_resolves Scenario.fuel
           (MLSkiplist.st_heap Scenario.bulk_state) Scenario.bulk_set
           [4672; 4728; 4640; 4704] 4096 Scenario.est_lin 4).
  - exact bulk_chain0.
  - exact est_lin_range.
  - lia.
  - vm_compute. lia.
Defined.

Lemma C4_witness :
  ∃ tbl,
    MLSkiplist.populate_shift_table Scenario.fuel
      (MLSkiplist.st_heap Scenario.bulk_state) Scenario.bulk_set
      (new_shift_table 4) Scenario.est_lin 4 = Some tbl
    ∧ embed <$> tbl
      = ShiftSpec.build (MLSkiplist.head Scenario.bulk_set)
          [(4672, 1); (4728, 3); (4640, 5); (4704, 9)] 4096
          (estimate Scenario.est_lin) (Z.to_nat 4).
Proof.
  apply (C4_populate_refines_reference Scenario.fuel
           (MLSkiplist.st_heap Scenario.bulk_state) Scenario.bulk_set
           [(4672, 1); (4728, 3); (4640, 5); (4704, 9)] 4096
           Scenario.est_lin 4).
  - exact bulk_chain0.
  - repeat apply Forall_cons_2; try apply Forall_nil_2;
      (vm_compute; eexists; split; reflexivity).
  - exact est_lin_range.
  - lia.
  - vm_compute. discriminate.
  - vm_compute. lia.
  - repeat apply Forall_cons_2; try apply Forall_nil_2;
      (vm_compute; reflexivity).
Defined.

(** C4 does not extend to estimates for which rounding the product reaches
    the next integer: with the estimate [double] nearest to 1/3 and four
    buckets, the exact product [3 * estimate] is [1 - 2^-54], which the
    specification floors to bucket 0 and the program rounds to [1.0] and
    truncates to bucket 1.  On the set [{5}] the program builds
    [(1,0,head); (1,-1,node 5); (1,1,tail); (1,0,tail)], the reference
    algorithm [(2,0,node 5); (1,2,tail); (1,1,tail); (1,0,tail)]. *)
Lemma C4_counterexample :
  let h := MLSkiplist.st_heap Scenario.single_state in
  let set := Scenario.single_set in
  Shape.chain0 h (MLSkiplist.head set) [4640] 4096
  ∧ Forall (Shape.has_val h) [(4640, 5)]
  ∧ (∀ v, (0 <= estimate Scenario.est_third v)%Q
          ∧ (estimate Scenario.est_third v < 1)%Q)
  ∧ MLSkiplist.populate_shift_table Scenario.fuel h set (new_shift_table 4)
      Scenario.est_third 4
    = Some [mk_shift 1 0 4368; mk_shift 1 (-1) 4640; mk_shift 1 1 4096;
            mk_shift 1 0 4096]
  ∧ ShiftSpec.build (MLSkiplist.head set) [(4640, 5)] 4096
      (estimate Scenario.est_third) (Z.to_nat 4)
    = [ShiftSpec.mk_entry 2 (ShiftSpec.Fin 0) 4640;
       ShiftSpec.mk_entry 1 (ShiftSpec.Fin 2) 4096;
       ShiftSpec.mk_entry 1 (ShiftSpec.Fin 1) 4096;
       ShiftSpec.mk_entry 1 (ShiftSpec.Fin 0) 4096]
  ∧ bucket Scenario.est_third 4 5 = 1
  ∧ Qfloor (estimate Scenario.est_third 5 * inject_Z (4 - 1)) = 0.
Proof.
  split_and!.
  - vm_compute. split_and!; try reflexivity.
    repeat apply Forall_cons_2; try apply Forall_nil_2; discriminate.
  - repeat apply Forall_cons_2; try apply Forall_nil_2;
      (vm_compute; eexists; split; reflexivity).
  - intros v. by vm_compute.
  - vm_compute. reflexivity.
  - vm_compute. reflexivity.
  - vm_compute. reflexivity.
  - vm_compute. reflexivity.
Qed.

Lemma C9_witness :
  MLList.sl_add ListScenario.fuel ListScenario.removed_state
    ListScenario.removed_set
    (ListScenario.head_table ListScenario.removed_set) (λ _, 0%Q) 1 4
  = MLList.sl_add ListScenario.fuel ListScenario.removed_state
      ListScenario.removed_set
      [mk_shift 1 0 4144; mk_shift 1 0 4096] (λ _, (1 # 2)%Q) 2 4.
Proof.
  apply (C9_list_add_ignores_shift_table ListScenario.fuel
           ListScenario.removed_state ListScenario.removed_set).
  - vm_compute. eexists. reflexivity.
  - vm_compute. eexists. reflexivity.
Defined.

Lemma C6_witness :
  ∃ s', MLSkiplist.sl_add Scenario.MAXLEVEL Scenario.fuel Scenario.bulk_state
          Scenario.loaded_table Scenario.est_lin 4 3 = Some (0, s')
    ∧ MLSkiplist.st_heap s' !! MLSkiplist.st_brk Scenario.bulk_state = None
    ∧ (∀ a0 w, a0 ≠ MLSkiplist.st_brk Scenario.bulk_state →
         Shape.live0 (MLSkiplist.st_heap s') a0 w
         ↔ Shape.live0 (MLSkiplist.st_heap Scenario.bulk_state) a0 w)
    ∧ (Shape.no_marks (MLSkiplist.st_heap Scenario.bulk_state) →
         MLSkiplist.st_heap s' = MLSkiplist.st_heap Scenario.bulk_state).
Proof.
  apply (C6_add_already_present Scenario.MAXLEVEL Scenario.fuel
           Scenario.bulk_state Scenario.loaded_table Scenario.est_lin 4 3
           (Scenario.found Scenario.bulk_state Scenario.loaded_table 3).1.1
           (Scenario.found Scenario.bulk_state Scenario.loaded_table 3).1.2
           (Scenario.found Scenario.bulk_state Scenario.loaded_table 3).2
           (Scenario.found_node Scenario.bulk_state Scenario.loaded_table 3).1
           (Scenario.found_node Scenario.bulk_state Scenario.loaded_table 3).2).
  - split; [vm_compute; reflexivity|].
    apply no_ref_b_sound. vm_compute. reflexivity.
  - vm_compute. discriminate.
  - vm_compute. reflexivity.
  - vm_compute. reflexivity.
  - vm_compute. reflexivity.
  - vm_compute. reflexivity.
  - vm_compute. reflexivity.
Defined.



(** * Sequential runs from a freshly created set *)

Module SeqFacts.
Import MLSkiplist Shape Engine Seq.

(** ** Lists *)

Lemma last_cons_eq {A} (l : list A) (b d : A) :
  List.last (b :: l) d = List.last l b.
Proof.
  destruct l as [|c l]; [done|].
  change (List.last (c :: l) d = List.last (c :: l) b).
  apply last_cons_default.
Qed.

Lemma last_snoc {A} (l : list A) (a d : A) : List.last (l ++ [a]) d = a.
Proof. apply last_last. Qed.

Lemma last_elem {A} (l : list A) (d : A) : List.last l d ∈ d :: l.
Proof.
  revert d. induction l as [|a l IH]; intros d.
  - apply elem_of_cons. by left.
  - rewrite last_cons_eq. apply elem_of_cons. right. apply IH.
Qed.

Lemma last_split {A} (l : list A) (d : A) :
  ∃ X, d :: l = X ++ [List.last l d].
Proof.
  revert d. induction l as [|a l IH]; intros d.
  - by exists [].
  - rewrite last_cons_eq. destruct (IH a) as [X ->]. by exists (d :: X).
Qed.

Lemma hd_split {A} (l : list A) (d : A) :
  ∃ Y, l ++ [d] = List.hd d l :: Y.
Proof. destruct l as [|a l]; simpl; eauto. Qed.

(** ** Linked lists of addresses *)

Lemma linked_cons2 h i a b r :
  linked h i (a :: b :: r) ↔ read_next h a i = Some b ∧ linked h i (b :: r).
Proof. done. Qed.

Lemma linked_app_r h i X Y : linked h i (X ++ Y) → linked h i Y.
Proof.
  induction X as [|a X IH]; [done|]. intros H. apply IH.
  destruct X as [|b X]; simpl in *.
  - destruct Y; [done|]. by destruct H.
  - by destruct H.
Qed.

Lemma linked_app_l h i X Y : linked h i (X ++ Y) → linked h i X.
Proof.
  induction X as [|a X IH]; [done|]. intros H.
  destruct X as [|b X]; [done|].
  change (linked h i (a :: b :: (X ++ Y))) in H.
  apply linked_cons2 in H as [H1 H2]. apply linked_cons2. split; [done|].
  by apply IH.
Qed.

Lemma linked_join h i X a Y :
  linked h i (X ++ [a]) → linked h i (a :: Y) → linked h i (X ++ a :: Y).
Proof.
  induction X as [|b X IH]; [done|]. intros H1 H2.
  destruct X as [|c X].
  - simpl in *. by destruct H1.
  - change (linked h i (b :: c :: (X ++ [a]))) in H1.
    apply linked_cons2 in H1 as [H1 H1'].
    change (linked h i (b :: c :: (X ++ a :: Y))).
    apply linked_cons2. split; [done|]. by apply IH.
Qed.

Lemma linked_split h i X a Y :
  linked h i (X ++ a :: Y) → linked h i (X ++ [a]) ∧ linked h i (a :: Y).
Proof.
  intros H. split.
  - replace (X ++ a :: Y) with ((X ++ [a]) ++ Y) in H
      by (by rewrite <- app_assoc).
    by eapply linked_app_l.
  - by eapply linked_app_r.
Qed.

Lemma linked_ext_snoc h h' i X p :
  linked h i (X ++ [p]) →
  (∀ a, a ∈ X → read_next h' a i = read_next h a i) →
  linked h' i (X ++ [p]).
Proof.
  induction X as [|a X IH]; [done|]. intros H Hext.
  assert (Ha : read_next h' a i = read_next h a i)
    by (apply Hext, elem_of_cons; by left).
  assert (IH' : linked h i (X ++ [p]) → linked h' i (X ++ [p])).
  { intros H'. apply IH; [done|]. intros b Hb. apply Hext, elem_of_cons.
    by right. }
  destruct X as [|b X].
  - simpl in *. by rewrite Ha.
  - change (linked h i (a :: b :: (X ++ [p]))) in H.
    apply linked_cons2 in H as [H1 H2].
    change (linked h' i (a :: b :: (X ++ [p]))).
    apply linked_cons2. split; [by rewrite Ha|]. by apply IH'.
Qed.

Lemma linked_ext h h' i l :
  linked h i l →
  (∀ a, a ∈ l → read_next h' a i = read_next h a i) →
  linked h' i l.
Proof.
  destruct (decide (l = [])) as [->|Hne]; [done|].
  assert (∃ X p, l = X ++ [p]) as (X & p & ->).
  { destruct l as [|a l]; [done|]. destruct (last_split l a) as [X E].
    rewrite E. eauto. }
  intros H Hext. eapply linked_ext_snoc; [done|].
  intros a Ha. apply Hext, elem_of_app. by left.
Qed.

(** ** Levels *)

Lemma level_app i L1 L2 : level i (L1 ++ L2) = level i L1 ++ level i L2.
Proof. apply filter_app. Qed.

Lemma addrs_app L1 L2 : addrs (L1 ++ L2) = addrs L1 ++ addrs L2.
Proof. apply fmap_app. Qed.

Lemma level_elem i L t : t ∈ level i L ↔ (i < t_height t)%nat ∧ t ∈ L.
Proof. unfold level. by rewrite list_elem_of_filter. Qed.

Lemma addrs_level_sub i L a : a ∈ addrs (level (S i) L) → a ∈ addrs (level i L).
Proof.
  intros (t & -> & Ht)%list_elem_of_fmap. apply list_elem_of_fmap.
  exists t. split; [done|]. apply level_elem in Ht as [? ?].
  apply level_elem. split; [lia|done].
Qed.

Lemma addrs_level_elem i L a : a ∈ addrs (level i L) → a ∈ addrs L.
Proof.
  intros (t & -> & Ht)%list_elem_of_fmap. apply list_elem_of_fmap.
  exists t. split; [done|]. by apply level_elem in Ht as [? ?].
Qed.

Lemma level_0 M h L : Forall (node_ok M h) L → level 0 L = L.
Proof.
  intros H. unfold level. induction H as [|t L Ht _ IH]; [done|].
  rewrite filter_cons. destruct Ht as (n & _ & _ & _ & _ & _ & Hh & _).
  rewrite decide_True by lia. by rewrite IH.
Qed.

Lemma level_top M h L : Forall (node_ok M h) L → level M L = [].
Proof.
  intros H. unfold level. induction H as [|t L Ht _ IH]; [done|].
  rewrite filter_cons. destruct Ht as (n & _ & _ & _ & _ & _ & Hh & _).
  rewrite decide_False by lia. done.
Qed.

(** ** One level of the search *)

Lemma unset_set_mark z : is_marked z = 0 → unset_mark (set_mark z) = z.
Proof.
  unfold is_marked, unset_mark, set_mark. intros H. apply Z.bits_inj'.
  intros n Hn.
  assert (Hb : Z.testbit (Z.land z 1) n = false) by (by rewrite H, Z.bits_0).
  rewrite Z.land_spec in Hb.
  rewrite Z.land_spec, Z.lor_spec, Z.lnot_spec by lia.
  by destruct (Z.testbit z n), (Z.testbit 1 n).
Qed.

Lemma skip_marked_plain h i b bn fuel :
  read_next h b i = Some bn → is_marked bn = 0 →
  skip_marked (S fuel) h i b = Some (b, bn).
Proof. intros H Hm. simpl. rewrite H. simpl. by rewrite Hm. Qed.

Lemma skip_marked_one h i x z zn fuel :
  read_next h x i = Some (set_mark z) → is_marked z = 0 →
  read_next h z i = Some zn → is_marked zn = 0 →
  skip_marked (S (S fuel)) h i x = Some (z, zn).
Proof.
  intros Hx Hz Hzn Hm. cbn [skip_marked]. rewrite Hx. cbn [mbind option_bind].
  rewrite is_marked_set. cbn [Z.eqb]. rewrite unset_set_mark by done.
  rewrite Hzn. cbn [mbind option_bind]. by rewrite Hm.
Qed.

(** From [a], over the nodes [l] that hold values below [v], to the node
    [m] where the level-[i] walk stops; [z] is [m] itself, or what follows
    the marked node [m]. *)
Lemma find_pair_walk h i v m z zn :
  (∀ f, skip_marked (S (S f)) h i m = Some (z, zn)) →
  (∃ nz, h !! z = Some nz ∧ v <= val nz) →
  is_marked m = 0 →
  ∀ l a fuel,
    linked h i (a :: l ++ [m]) →
    Forall (λ b, is_marked b = 0 ∧ ∃ n, h !! b = Some n ∧ val n < v) l →
    (length l + 2 ≤ fuel)%nat →
    find_pair fuel h i v a (List.hd m l) (List.hd m l)
    = Some (List.last l a, m, z).
Proof.
  intros Hend (nz & Hnz & Hv) Hm.
  induction l as [|b l IH]; intros a fuel Hl Hb Hf.
  - destruct fuel as [|[|fuel]]; [simpl in Hf; lia..|].
    cbn [find_pair List.hd List.last]. rewrite Hend. cbn [mbind option_bind].
    rewrite Hnz. cbn [mbind option_bind].
    destruct (Z.geb_spec (val nz) v); [done|lia].
  - destruct fuel as [|fuel]; [simpl in Hf; lia|].
    apply Forall_cons in Hb as [(Hbm & nb & Hnb & Hlt) Hb].
    change (linked h i (a :: b :: (l ++ [m]))) in Hl.
    apply linked_cons2 in Hl as [_ Hl].
    assert (Hnx : read_next h b i = Some (List.hd m l)).
    { destruct l; simpl in Hl; by destruct Hl. }
    assert (Hnm : is_marked (List.hd m l) = 0).
    { destruct l; [done|]. by apply Forall_cons in Hb as [[? _] _]. }
    cbn [find_pair List.hd].
    rewrite (skip_marked_plain _ _ _ _ _ Hnx Hnm). cbn [mbind option_bind].
    rewrite Hnb. cbn [mbind option_bind].
    destruct (Z.geb_spec (val nb) v); [lia|].
    rewrite last_cons_eq. apply IH; [done|done|simpl in Hf; lia].
Qed.

(** ** Single stores *)

Lemma upd_lookup_ne h a i q b : a ≠ b → upd h a i q !! b = h !! b.
Proof.
  intros H. unfold upd. destruct (h !! a); [|done]. by rewrite lookup_insert_ne.
Qed.

Lemma upd_lookup_eq h a i q n :
  h !! a = Some n → upd h a i q !! a = Some (set_next n i q).
Proof. intros H. unfold upd. rewrite H. by rewrite lookup_insert_eq. Qed.

Lemma upd_is_Some h a i q b : is_Some (upd h a i q !! b) ↔ is_Some (h !! b).
Proof.
  destruct (decide (a = b)) as [->|Hne]; [|by rewrite upd_lookup_ne].
  unfold upd. destruct (h !! b) as [n|] eqn:E.
  - rewrite lookup_insert_eq. split; eauto.
  - by rewrite E.
Qed.

Lemma read_next_upd_eq h a i q p :
  read_next h a i = Some p → read_next (upd h a i q) a i = Some q.
Proof.
  intros (n & Hn & Hi)%read_next_Some. unfold read_next.
  rewrite (upd_lookup_eq h a i q n Hn). simpl.
  apply list_lookup_insert_eq. by eapply lookup_lt_Some.
Qed.

Lemma read_next_upd_ne h a i q b j :
  a ≠ b ∨ i ≠ j → read_next (upd h a i q) b j = read_next h b j.
Proof.
  intros Hor. unfold read_next.
  destruct (decide (a = b)) as [->|Hne]; [|by rewrite upd_lookup_ne].
  destruct Hor as [?|Hij]; [done|].
  destruct (h !! b) as [n|] eqn:E.
  - rewrite (upd_lookup_eq h b i q n E). simpl.
    by apply list_lookup_insert_ne.
  - unfold upd. rewrite E. by rewrite E.
Qed.

Lemma CAS_upd_success h a i old new :
  read_next h a i = Some old → CAS h a i old new = Some (true, upd h a i new).
Proof.
  intros (n & Hn & Hi)%read_next_Some.
  rewrite (CAS_success _ _ _ _ _ n) by done. unfold upd. by rewrite Hn.
Qed.

Lemma node_ok_upd M h a i q t : node_ok M h t → node_ok M (upd h a i q) t.
Proof.
  intros (n & Hn & ?). destruct (decide (a = t_addr t)) as [->|Hne].
  - exists (set_next n i q). rewrite (upd_lookup_eq h _ i q n Hn).
    split; [done|]. simpl. by rewrite length_insert.
  - exists n. by rewrite upd_lookup_ne.
Qed.

Lemma alloc_ok_upd h brk a i q : alloc_ok h brk → alloc_ok (upd h a i q) brk.
Proof.
  intros (? & ? & H). split; [done|]. split; [done|].
  intros b Hb. apply H. by apply upd_is_Some in Hb.
Qed.

Lemma base_upd M hd tl L h brk a i q :
  a ≠ tl → base M hd tl L h brk → base M hd tl L (upd h a i q) brk.
Proof.
  intros Ha [HM Hh Ht Hn Hs Hd Had Hb]. split; try done.
  - destruct Hh as (n & Hn' & ?). destruct (decide (a = hd)) as [->|Hne].
    + exists (set_next n i q). rewrite (upd_lookup_eq h hd i q n Hn').
      split; [done|]. simpl. by rewrite length_insert.
    + exists n. by rewrite upd_lookup_ne.
  - destruct Ht as (n & Hn' & ?). exists n. by rewrite upd_lookup_ne.
  - eapply Forall_impl; [exact Hn|]. intros t. apply node_ok_upd.
  - by apply alloc_ok_upd.
Qed.

Lemma NoDup_addrs_level i L : NoDup (addrs L) → NoDup (addrs (level i L)).
Proof.
  induction L as [|t L IH]; [done|]. unfold addrs, level in *.
  rewrite fmap_cons, NoDup_cons. intros [Ht HL]. rewrite filter_cons.
  destruct (decide (i < t_height t)%nat); [|by apply IH].
  rewrite fmap_cons, NoDup_cons. split; [|by apply IH].
  intros Hin. apply Ht. by eapply (addrs_level_elem i).
Qed.

Lemma last_app_cons {A} (P R : list A) (a d : A) :
  List.last (P ++ a :: R) d = List.last R a.
Proof.
  induction P as [|b P IH]; simpl app.
  - apply last_cons_eq.
  - rewrite last_cons_eq. destruct P; simpl app in *; [apply last_cons_eq|].
    rewrite <- IH. apply last_cons_default.
Qed.

Lemma fill_0 X a : fill 0 X a = a.
Proof. destruct a; [|done]. simpl. by rewrite drop_0. Qed.

Lemma fill_write (i : nat) X a p :
  X !! i = Some p → (∀ l, a = Some l → (i < length l)%nat) →
  ∃ a', arr_write a i p = Some a' ∧ fill i X a' = fill (S i) X a
        ∧ (∀ l', a' = Some l' → ∃ l, a = Some l ∧ length l' = length l).
Proof.
  intros HX Hlen. destruct a as [l|]; simpl.
  - specialize (Hlen l eq_refl). rewrite decide_True by done.
    eexists. split; [done|]. split.
    + simpl. f_equal. rewrite (take_S_r _ _ p) by done.
      rewrite <- app_assoc. f_equal. simpl.
      rewrite insert_take_drop by done.
      rewrite drop_app_length'; [done|]. rewrite length_take. lia.
    + intros l' [= <-]. exists l. split; [done|]. by rewrite length_insert.
  - exists None. split; [done|]. split; [done|]. intros ? [=].
Qed.

(** ** The level loop on a skip list *)

Section Search.

Variables (M : nat) (hd tl : Z) (L1 L2 : list tower) (x : Z) (ht : nat).
Variable v : Z.
Hypothesis Hv : VAL_MIN < v < VAL_MAX.
Hypothesis Hlo : Forall (λ t, t_val t < v) L1.
Hypothesis Hhi : Forall (λ t, v <= t_val t) L2.

Local Abbreviation A i := (hd :: addrs (level i L1)).
Local Abbreviation B i := (addrs (level i L2) ++ [tl]).
Local Abbreviation prd := (pred_at hd L1).
Local Abbreviation suc := (succ_at tl L2).

Lemma pred_split i : ∃ X, A i = X ++ [prd i].
Proof. apply last_split. Qed.

Lemma succ_split i : ∃ Y, B i = suc i :: Y.
Proof. apply hd_split. Qed.

Lemma pred_in_A i : prd (S i) ∈ A i.
Proof.
  pose proof (last_elem (addrs (level (S i) L1)) hd) as H.
  apply elem_of_cons in H as [H|H]; apply elem_of_cons; [by left|right].
  by apply addrs_level_sub.
Qed.

Section Store.

Variables (h : heap) (brk : Z).
Hypothesis Hbase : base M hd tl (L1 ++ L2) h brk.

Lemma addr_ok a :
  a ∈ hd :: tl :: addrs (L1 ++ L2) → is_marked a = 0 ∧ a ≠ NULL.
Proof.
  intros Ha. pose proof (b_addr _ _ _ _ _ _ Hbase) as H.
  rewrite Forall_forall in H. by apply H.
Qed.

Lemma in_A_addr i a : a ∈ A i → a ∈ hd :: tl :: addrs (L1 ++ L2).
Proof.
  intros [->|Ha]%elem_of_cons; [apply elem_of_cons; by left|].
  apply elem_of_cons. right. apply elem_of_cons. right.
  rewrite addrs_app. apply elem_of_app. left. by eapply addrs_level_elem.
Qed.

Lemma in_B_addr i a : a ∈ B i → a ∈ hd :: tl :: addrs (L1 ++ L2).
Proof.
  intros [Ha|Ha%list_elem_of_singleton]%elem_of_app.
  - apply elem_of_cons. right. apply elem_of_cons. right.
    rewrite addrs_app. apply elem_of_app. right. by eapply addrs_level_elem.
  - subst. apply elem_of_cons. right. apply elem_of_cons. by left.
Qed.

Lemma node_of t :
  t ∈ L1 ++ L2 → node_ok M h t.
Proof.
  intros Ht. pose proof (b_nodes _ _ _ _ _ _ Hbase) as H.
  rewrite Forall_forall in H. by apply H.
Qed.

Lemma node_below a :
  a ∈ addrs L1 → is_marked a = 0 ∧ ∃ n, h !! a = Some n ∧ val n < v.
Proof.
  intros Ha. split.
  - apply addr_ok. apply elem_of_cons. right. apply elem_of_cons. right.
    rewrite addrs_app. apply elem_of_app. by left.
  - apply list_elem_of_fmap in Ha as (t & -> & Ht).
    destruct (node_of t) as (n & Hn & Hval & _).
    { apply elem_of_app. by left. }
    exists n. split; [done|]. rewrite Hval.
    rewrite Forall_forall in Hlo. by apply Hlo.
Qed.

Lemma node_above a :
  a ∈ addrs L2 ++ [tl] → ∃ n, h !! a = Some n ∧ v <= val n.
Proof.
  intros [Ha|Ha%list_elem_of_singleton]%elem_of_app.
  - apply list_elem_of_fmap in Ha as (t & -> & Ht).
    destruct (node_of t) as (n & Hn & Hval & _).
    { apply elem_of_app. by right. }
    exists n. split; [done|]. rewrite Hval.
    rewrite Forall_forall in Hhi. by apply Hhi.
  - subst. destruct (b_tail _ _ _ _ _ _ Hbase) as (n & Hn & Hval & _).
    exists n. split; [done|]. lia.
Qed.

Lemma succ_in i : suc i ∈ addrs L2 ++ [tl].
Proof.
  unfold succ_at. destruct (addrs (level i L2)) as [|a l] eqn:E; simpl.
  - apply elem_of_app. right. by apply list_elem_of_singleton.
  - apply elem_of_app. left. apply (addrs_level_elem i). rewrite E.
    apply elem_of_cons. by left.
Qed.

Lemma succ_in_B i : suc i ∈ B i.
Proof.
  destruct (succ_split i) as [Y ->]. apply elem_of_cons. by left.
Qed.

Lemma tail_next i : (i < M)%nat → read_next h tl i = Some NULL.
Proof.
  intros Hi. destruct (b_tail _ _ _ _ _ _ Hbase) as (n & Hn & _ & Hnx).
  unfold read_next. rewrite Hn. simpl. rewrite Hnx.
  by apply lookup_replicate_2.
Qed.

(** The successor itself has an unmarked reference at its level. *)
Lemma succ_next i :
  (i < M)%nat → linked h i (B i) →
  ∃ zn, read_next h (suc i) i = Some zn ∧ is_marked zn = 0.
Proof.
  intros Hi Hl. unfold succ_at in *.
  destruct (addrs (level i L2)) as [|a l] eqn:E; simpl in *.
  - exists NULL. split; [by apply tail_next|done].
  - assert (Hin : ∀ b, b ∈ l ++ [tl] → is_marked b = 0).
    { intros b Hb. apply addr_ok, (in_B_addr i). rewrite E.
      simpl. apply elem_of_cons. by right. }
    destruct l as [|b l]; simpl in Hl; destruct Hl as [Hl _].
    + exists tl. split; [done|]. apply Hin. by apply list_elem_of_singleton.
    + exists b. split; [done|]. apply Hin. apply elem_of_cons. by left.
Qed.

Lemma nodup_level i : NoDup (A i ++ B i).
Proof.
  pose proof (b_nodup _ _ _ _ _ _ Hbase) as H.
  apply NoDup_cons in H as [Hh H]. apply NoDup_cons in H as [Ht H].
  assert (Hs : ∀ a, a ∈ addrs (level i L1) ++ addrs (level i L2) →
                    a ∈ addrs (L1 ++ L2)).
  { intros a. rewrite <- addrs_app, <- level_app. apply addrs_level_elem. }
  simpl. apply NoDup_cons. split.
  - rewrite app_assoc. intros [Ha|Ha%list_elem_of_singleton]%elem_of_app.
    + apply Hh. apply elem_of_cons. right. by apply Hs.
    + apply Hh. subst. apply elem_of_cons. by left.
  - rewrite app_assoc. apply NoDup_app. split; [|split].
    + rewrite <- addrs_app, <- level_app. by apply NoDup_addrs_level.
    + intros a Ha ->%list_elem_of_singleton. apply Ht. by apply Hs.
    + apply NoDup_singleton.
Qed.

Lemma pred_ne_A i X a : A i = X ++ [prd i] → a ∈ X → a ≠ prd i.
Proof.
  intros E Ha ->. pose proof (nodup_level i) as H. rewrite E in H.
  apply NoDup_app in H as (H & _ & _). apply NoDup_app in H as (_ & H & _).
  apply (H _ Ha). by apply list_elem_of_singleton.
Qed.

Lemma pred_ne_B i a : a ∈ B i → a ≠ prd i.
Proof.
  intros Ha ->. pose proof (nodup_level i) as H.
  apply NoDup_app in H as (_ & H & _). apply (H (prd i)); [|done].
  destruct (pred_split i) as [X ->]. apply elem_of_app. right.
  by apply list_elem_of_singleton.
Qed.

Lemma pred_ne_tl i : prd i ≠ tl.
Proof.
  intros E. apply (pred_ne_B i tl); [|done]. apply elem_of_app. right.
  by apply list_elem_of_singleton.
Qed.

Lemma pred_in i : prd i ∈ A i.
Proof.
  destruct (pred_split i) as [X ->]. apply elem_of_app. right.
  by apply list_elem_of_singleton.
Qed.

Lemma GSL_step i :
  (i < M)%nat → GSL M hd tl L1 L2 x ht (S i) h brk →
  GSL M hd tl L1 L2 x ht i
      (if decide (i < ht)%nat then upd h (prd i) i (suc i) else h) brk.
Proof.
  intros Hi (_ & Hx & Hl). destruct (decide (i < ht)%nat) as [Hht|Hht].
  - split; [apply base_upd; [apply pred_ne_tl|done]|]. split; [done|].
    intros j Hj. specialize (Hl j Hj).
    destruct (decide (j = i)) as [->|Hne].
    + rewrite decide_True in Hl by lia. rewrite decide_False by lia.
      destruct Hl as (H1 & H2 & H3).
      destruct (pred_split i) as [X EX]. rewrite EX in H1 |- *.
      destruct (succ_split i) as [Y EY]. rewrite EY in H3 |- *.
      rewrite <- app_assoc. apply linked_join.
      * apply linked_app_l in H1.
        eapply linked_ext_snoc; [exact H1|]. intros a Ha.
        apply read_next_upd_ne. left. intros E. by apply (pred_ne_A i X a).
      * apply linked_cons2. split.
        -- rewrite <- app_assoc in H1. apply linked_app_r in H1.
           simpl in H1. destruct H1 as [H1 _].
           by eapply read_next_upd_eq.
        -- eapply linked_ext; [exact H3|]. intros a Ha.
           apply read_next_upd_ne. left. intros E.
           apply (pred_ne_B i a); [by rewrite EY|done].
    + assert (Hext : ∀ a, read_next (upd h (prd i) i (suc i)) a j
                          = read_next h a j).
      { intros a. apply read_next_upd_ne. by right. }
      destruct (decide (j < S i ∧ j < ht)%nat) as [Hd|Hd].
      * rewrite decide_True by lia. destruct Hl as (H1 & H2 & H3).
        split; [|split].
        -- eapply linked_ext; [exact H1|]. intros; apply Hext.
        -- by rewrite Hext.
        -- eapply linked_ext; [exact H3|]. intros; apply Hext.
      * rewrite decide_False by lia.
        eapply linked_ext; [exact Hl|]. intros; apply Hext.
  - split; [done|]. split; [done|]. intros j Hj. specialize (Hl j Hj).
    destruct (decide (j < S i ∧ j < ht)%nat) as [Hd|Hd].
    + by rewrite decide_True by lia.
    + by rewrite decide_False by lia.
Qed.

Lemma x_fresh i :
  GSL M hd tl L1 L2 x ht (S i) h brk → (x ∉ A i) ∧ (x ∉ B i) ∧ is_marked x = 0.
Proof.
  intros (_ & [Hm Hx] & _). split; [|split; [|done]].
  - intros Hin. by apply Hx, (in_A_addr i).
  - intros Hin. by apply Hx, (in_B_addr i).
Qed.

Lemma linked_to_mid i :
  (i < M)%nat → GSL M hd tl L1 L2 x ht (S i) h brk →
  linked h i (A i ++ [if decide (i < ht)%nat then x else suc i])
  ∧ linked h i (B i).
Proof.
  intros Hi (_ & _ & Hl). specialize (Hl i Hi).
  destruct (decide (i < ht)%nat) as [Hht|Hht].
  - rewrite decide_True in Hl by lia. by destruct Hl as (? & ? & ?).
  - rewrite decide_False in Hl by lia.
    destruct (succ_split i) as [Y EY]. rewrite EY in Hl |- *.
    by apply linked_split in Hl.
Qed.

Lemma suffix_of_A i X a l :
  A i = X ++ a :: l →
  (∀ b, b ∈ l → b ∈ addrs L1) ∧ (length l ≤ length L1)%nat.
Proof.
  intros E.
  assert (∃ Z', addrs (level i L1) = Z' ++ l) as [Z' EZ].
  { destruct X as [|c X]; simpl in E; injection E as _ E.
    - by exists [].
    - exists (X ++ [a]). by rewrite <- app_assoc. }
  split.
  - intros b Hb. apply (addrs_level_elem i). rewrite EZ. apply elem_of_app.
    by right.
  - assert (length (addrs (level i L1)) ≤ length L1)%nat.
    { unfold addrs, level. rewrite length_fmap. apply length_filter. }
    rewrite EZ, length_app in H. lia.
Qed.

(** One level of the search: from the predecessor of the level above to
    the pair of this level. *)
Lemma level_step i fuel :
  (i < M)%nat → (length L1 + 2 ≤ fuel)%nat →
  GSL M hd tl L1 L2 x ht (S i) h brk →
  let m := if decide (i < ht)%nat then x else suc i in
  ∃ left_next,
    read_next h (prd (S i)) i = Some left_next ∧ is_marked left_next = 0
    ∧ find_pair fuel h i v (prd (S i)) left_next left_next
      = Some (prd i, m, suc i)
    ∧ read_next h (prd i) i = Some m.
Proof.
  intros Hi Hf G m.
  destruct (linked_to_mid i Hi G) as [HA HB]. fold m in HA.
  destruct (x_fresh i G) as (HxA & HxB & Hxm).
  destruct (succ_next i Hi HB) as (zn & Hzn & Hznm).
  assert (Hsm : is_marked (suc i) = 0).
  { apply addr_ok, (in_B_addr i), succ_in_B. }
  assert (Hmm : is_marked m = 0) by (unfold m; by destruct (decide _)).
  assert (Hend : ∀ f, skip_marked (S (S f)) h i m = Some (suc i, zn)).
  { intros f. unfold m. destruct (decide (i < ht)%nat) as [Hht|Hht].
    - destruct G as (_ & _ & Hl). specialize (Hl i Hi).
      rewrite decide_True in Hl by lia. destruct Hl as (_ & Hx & _).
      by apply skip_marked_one.
    - by apply skip_marked_plain. }
  destruct (list_elem_of_split _ _ (pred_in_A i)) as (X & l & E).
  destruct (suffix_of_A i X _ l E) as [Hsub Hlen].
  assert (Hlast : List.last l (prd (S i)) = prd i).
  { unfold pred_at at 2. rewrite <- (last_cons_eq _ hd hd), E.
    symmetry. apply last_app_cons. }
  assert (Hl : linked h i (prd (S i) :: l ++ [m])).
  { rewrite E, <- app_assoc in HA. by apply linked_app_r in HA. }
  assert (Hbelow : Forall (λ b, is_marked b = 0
                              ∧ ∃ n, h !! b = Some n ∧ val n < v) l).
  { apply Forall_forall. intros b Hb. by apply node_below, Hsub. }
  exists (List.hd m l). split; [|split; [|split]].
  - destruct l; simpl in Hl; by destruct Hl.
  - destruct l as [|b l]; [done|]. by apply Forall_cons in Hbelow as [[? _] _].
  - rewrite <- Hlast. apply (find_pair_walk h i v m (suc i) zn Hend).
    + apply node_above, succ_in.
    + done.
    + done.
    + done.
    + lia.
  - destruct (pred_split i) as [X' EX]. rewrite EX, <- app_assoc in HA.
    apply linked_app_r in HA. simpl in HA. by destruct HA.
Qed.

End Store.

Lemma preds_of_lookup i : (i < M)%nat → preds_of hd L1 M !! i = Some (prd i).
Proof.
  intros Hi. unfold preds_of. rewrite list_lookup_fmap.
  by rewrite lookup_seq_lt.
Qed.

Lemma succs_of_lookup i : (i < M)%nat → succs_of tl L2 M !! i = Some (suc i).
Proof.
  intros Hi. unfold succs_of. rewrite list_lookup_fmap.
  by rewrite lookup_seq_lt.
Qed.

(** The level loop from level [k] down: it unlinks the marked node where
    it is still linked, records the pairs and leaves a quiescent list. *)
Lemma search_levels_G fuel brk :
  (length L1 + 2 ≤ fuel)%nat →
  ∀ k h ll rl,
    (k ≤ M)%nat → GSL M hd tl L1 L2 x ht k h brk →
    (∀ l, ll = Some l → length l = M) → (∀ l, rl = Some l → length l = M) →
    search_levels k fuel h v (prd k) ll rl
    = Some (LevelsDone, unlinked hd tl L1 L2 ht k h,
            fill k (preds_of hd L1 M) ll, fill k (succs_of tl L2 M) rl)
    ∧ GSL M hd tl L1 L2 x ht 0 (unlinked hd tl L1 L2 ht k h) brk.
Proof.
  intros Hf. induction k as [|i IH]; intros h ll rl Hk G Hll Hrl.
  - simpl. by rewrite !fill_0.
  - pose proof G as (Hb & _).
    assert (Hi : (i < M)%nat) by lia.
    destruct (level_step h brk Hb i fuel Hi Hf G)
      as (ln & Hln & Hlnm & Hfp & Hpi).
    pose proof (GSL_step h brk Hb i Hi G) as G'.
    destruct (x_fresh h brk i G) as (_ & HxB & _).
    set (h' := if decide (i < ht)%nat then upd h (prd i) i (suc i) else h)
      in *.
    set (m := if decide (i < ht)%nat then x else suc i) in *.
    assert (Hcas : (if m =? suc i then Some (true, h)
                    else CAS h (prd i) i m (suc i)) = Some (true, h')).
    { unfold m, h' in *. destruct (decide (i < ht)%nat).
      - destruct (Z.eqb_spec x (suc i)) as [E|_].
        + exfalso. apply HxB. rewrite E. apply succ_in_B.
        + by eapply CAS_upd_success.
      - by rewrite Z.eqb_refl. }
    destruct (fill_write i (preds_of hd L1 M) ll (prd i))
      as (ll' & Hw1 & Hf1 & Hl1).
    { by apply preds_of_lookup. }
    { intros l Hl. rewrite (Hll l Hl). lia. }
    destruct (fill_write i (succs_of tl L2 M) rl (suc i))
      as (rl' & Hw2 & Hf2 & Hl2).
    { by apply succs_of_lookup. }
    { intros l Hl. rewrite (Hrl l Hl). lia. }
    cbn [search_levels]. rewrite Hln. cbn [mbind option_bind].
    rewrite Hlnm. cbn [Z.eqb]. rewrite Hfp. cbn [mbind option_bind].
    rewrite Hcas. cbn [mbind option_bind]. rewrite Hw1.
    cbn [mbind option_bind]. rewrite Hw2. cbn [mbind option_bind].
    rewrite <- Hf1, <- Hf2. apply IH; [lia|done| |].
    + intros l' Hl'. destruct (Hl1 l' Hl') as (l & El & ->). by apply Hll.
    + intros l' Hl'. destruct (Hl2 l' Hl') as (l & El & ->). by apply Hrl.
Qed.

(** ** The whole search *)

Lemma shortcut_loop_head h brk tbl :
  base M hd tl (L1 ++ L2) h brk → head_start hd tl tbl →
  ∀ k e it, tbl !! k = Some e →
    ∃ it', shortcut_loop h tbl v k (unset_mark (node e)) it = Some (hd, it').
Proof.
  intros Hb [(e0 & He0 & Hn0) Hall].
  destruct (b_head _ _ _ _ _ _ Hb) as (nh & Hnh & Hvh & _).
  destruct (b_tail _ _ _ _ _ _ Hb) as (nt & Hnt & Hvt & _).
  assert (Hmh : unset_mark hd = hd).
  { apply unset_mark_unmarked, (addr_ok h brk Hb), elem_of_cons. by left. }
  assert (Hmt : unset_mark tl = tl).
  { apply unset_mark_unmarked, (addr_ok h brk Hb), elem_of_cons. right.
    apply elem_of_cons. by left. }
  assert (Hhd : ∀ k it, shortcut_loop h tbl v k hd it = Some (hd, it)).
  { intros k it. destruct k; simpl; rewrite Hnh; simpl;
      destruct (Z.gtb_spec (val nh) v); try lia; done. }
  rewrite Forall_forall in Hall.
  induction k as [|k IH]; intros e it He.
  - rewrite He in He0. injection He0 as ->. rewrite Hn0, Hmh. eauto.
  - destruct (Hall e) as [E|E].
    { by eapply list_elem_of_lookup_2. }
    + rewrite E, Hmh. eauto.
    + rewrite E, Hmt. simpl. rewrite Hnt. simpl.
      destruct (Z.gtb_spec (val nt) v); [|lia].
      destruct (lookup_lt_is_Some_2 tbl k) as [e' He'].
      { apply lookup_lt_Some in He. lia. }
      rewrite He'. simpl. apply IH. done.
Qed.

Lemma shortcut_start_head h brk tbl est T it :
  base M hd tl (L1 ++ L2) h brk → head_start hd tl tbl →
  (∀ w, (0 <= estimate est w)%Q ∧ (estimate est w < 1)%Q) → 1 <= T →
  length tbl = Z.to_nat T →
  ∃ it', shortcut_start h tbl est T v it = Some (hd, it').
Proof.
  intros Hb Hs Hest HT Hlen. unfold shortcut_start.
  destruct (bucket_range est T v) as [Hk _]; [apply Hest..|done|].
  destruct (tbl_get_Some tbl (bucket est T v)) as (e & -> & He); [lia|].
  simpl. by eapply shortcut_loop_head.
Qed.

Lemma GSL_0_SL h brk :
  GSL M hd tl L1 L2 x ht 0 h brk → SL M hd tl (L1 ++ L2) h brk.
Proof.
  intros (Hb & _ & Hl). split; [done|]. intros i Hi. specialize (Hl i Hi).
  rewrite decide_False in Hl by lia.
  by rewrite level_app, addrs_app, <- app_assoc.
Qed.

Lemma pred_top h brk : base M hd tl (L1 ++ L2) h brk → prd M = hd.
Proof.
  intros Hb. unfold pred_at. pose proof (b_nodes _ _ _ _ _ _ Hb) as H.
  apply Forall_app in H as [H _]. by rewrite (level_top _ _ _ H).
Qed.

Lemma fraser_search_G fuel s tbl est T ll rl :
  (∀ w, (0 <= estimate est w)%Q ∧ (estimate est w < 1)%Q) → 1 <= T →
  length tbl = Z.to_nat T → head_start hd tl tbl →
  (length L1 + 2 ≤ fuel)%nat →
  GSL M hd tl L1 L2 x ht M (st_heap s) (st_brk s) →
  (∀ l, ll = Some l → length l = M) → (∀ l, rl = Some l → length l = M) →
  ∃ it,
    fraser_search fuel s v ll rl tbl est T
    = Some (mk_state (unlinked hd tl L1 L2 ht M (st_heap s)) (st_brk s)
                     (st_y s) it,
            fill M (preds_of hd L1 M) ll, fill M (succs_of tl L2 M) rl)
    ∧ SL M hd tl (L1 ++ L2) (unlinked hd tl L1 L2 ht M (st_heap s)) (st_brk s).
Proof.
  intros Hest HT Hlen Hs Hf G Hll Hrl. pose proof G as (Hb & _).
  destruct fuel as [|fuel]; [lia|].
  destruct (shortcut_start_head (st_heap s) (st_brk s) tbl est T (st_iter s)
              Hb Hs Hest HT Hlen) as (it & Hit).
  destruct (b_head _ _ _ _ _ _ Hb) as (nh & Hnh & _ & Htop & _).
  destruct (search_levels_G (S fuel) (st_brk s) Hf M (st_heap s) ll rl)
    as [Hsl G0]; [lia|done..|].
  rewrite (pred_top _ _ Hb) in Hsl.
  exists it. split; [|by apply GSL_0_SL].
  cbn [fraser_search]. rewrite Hit. cbn [mbind option_bind]. rewrite Hnh.
  cbn [mbind option_bind]. rewrite Htop, Nat2Z.id, Hsl. done.
Qed.

End Search.

(** ** The search on a quiescent list *)

Lemma unlinked_0 hd tl L1 L2 k h : unlinked hd tl L1 L2 0 k h = h.
Proof.
  revert h. induction k as [|k IH]; intros h; cbn [unlinked]; [done|].
  rewrite decide_False by lia. apply IH.
Qed.

Lemma base_allocated M hd tl L h brk a :
  base M hd tl L h brk → a ∈ hd :: tl :: addrs L → is_Some (h !! a).
Proof.
  intros Hb Ha. apply elem_of_cons in Ha as [->|Ha].
  { destruct (b_head _ _ _ _ _ _ Hb) as (n & -> & _). eauto. }
  apply elem_of_cons in Ha as [->|Ha].
  { destruct (b_tail _ _ _ _ _ _ Hb) as (n & -> & _). eauto. }
  apply list_elem_of_fmap in Ha as (t & -> & Ht).
  pose proof (b_nodes _ _ _ _ _ _ Hb) as H. rewrite Forall_forall in H.
  destruct (H t Ht) as (n & -> & _). eauto.
Qed.

Lemma brk_fresh M hd tl L h brk :
  base M hd tl L h brk →
  is_marked brk = 0 ∧ brk ≠ NULL ∧ h !! brk = None
  ∧ brk ∉ hd :: tl :: addrs L.
Proof.
  intros Hb. destruct (b_brk _ _ _ _ _ _ Hb) as (Hm & Hpos & Hall).
  assert (Hnone : h !! brk = None).
  { destruct (h !! brk) as [n|] eqn:E; [|done].
    assert (brk < brk) by (apply Hall; eauto). lia. }
  split; [done|]. split; [unfold NULL; lia|]. split; [done|].
  intros Hin. destruct (base_allocated _ _ _ _ _ _ _ Hb Hin) as [n Hn].
  by rewrite Hnone in Hn.
Qed.

Lemma SL_GSL M hd tl L1 L2 h brk k :
  SL M hd tl (L1 ++ L2) h brk → GSL M hd tl L1 L2 brk 0 k h brk.
Proof.
  intros [Hb Hl]. split; [done|].
  destruct (brk_fresh _ _ _ _ _ _ Hb) as (Hm & _ & _ & Hnin).
  split; [done|]. intros i Hi. rewrite decide_False by lia.
  specialize (Hl i Hi). by rewrite level_app, addrs_app, <- app_assoc in Hl.
Qed.

Lemma fraser_search_SL M hd tl L1 L2 v fuel s tbl est T ll rl :
  VAL_MIN < v < VAL_MAX →
  Forall (λ t, t_val t < v) L1 → Forall (λ t, v <= t_val t) L2 →
  (∀ w, (0 <= estimate est w)%Q ∧ (estimate est w < 1)%Q) → 1 <= T →
  length tbl = Z.to_nat T → head_start hd tl tbl →
  (length L1 + 2 ≤ fuel)%nat →
  SL M hd tl (L1 ++ L2) (st_heap s) (st_brk s) →
  (∀ l, ll = Some l → length l = M) → (∀ l, rl = Some l → length l = M) →
  ∃ it,
    fraser_search fuel s v ll rl tbl est T
    = Some (mk_state (st_heap s) (st_brk s) (st_y s) it,
            fill M (preds_of hd L1 M) ll, fill M (succs_of tl L2 M) rl).
Proof.
  intros Hv Hlo Hhi Hest HT Hlen Hs Hf HSL Hll Hrl.
  destruct (fraser_search_G M hd tl L1 L2 (st_brk s) 0 v Hv Hlo Hhi fuel s
              tbl est T ll rl Hest HT Hlen Hs Hf) as (it & E & _);
    [by apply SL_GSL|done..|].
  exists it. by rewrite unlinked_0 in E.
Qed.

(** ** Where a value sits in the sorted list of towers *)

Lemma sorted_split L v :
  StronglySorted Z.lt (vals L) →
  ∃ L1 L2, L = L1 ++ L2 ∧ Forall (λ t, t_val t < v) L1
           ∧ Forall (λ t, v <= t_val t) L2.
Proof.
  induction L as [|t L IH]; intros Hs.
  - exists [], []. by repeat split.
  - unfold vals in Hs. rewrite fmap_cons in Hs.
    apply StronglySorted_cons in Hs as [Hall Hs].
    destruct (decide (t_val t < v)) as [Hlt|Hge].
    + destruct (IH Hs) as (L1 & L2 & -> & H1 & H2).
      exists (t :: L1), L2. split; [done|]. split; [|done].
      by apply Forall_cons.
    + exists [], (t :: L). split; [done|]. split; [done|].
      apply Forall_cons. split; [lia|]. apply Forall_forall. intros t' Ht'.
      rewrite Forall_forall in Hall.
      assert (t_val t < t_val t'); [|lia].
      apply Hall, list_elem_of_fmap. eauto.
Qed.

Lemma succ_cases M hd tl L1 L2 h brk v :
  VAL_MIN < v < VAL_MAX →
  Forall (λ t, t_val t < v) L1 → Forall (λ t, v <= t_val t) L2 →
  base M hd tl (L1 ++ L2) h brk →
  (v ∈ vals (L1 ++ L2)
   ∧ ∃ t L2', L2 = t :: L2' ∧ t_val t = v ∧ succ_at tl L2 0 = t_addr t
              ∧ Forall (λ t', v < t_val t') L2')
  ∨ ((v ∉ vals (L1 ++ L2))
     ∧ Forall (λ t', v < t_val t') L2
     ∧ ∀ a, a ∈ addrs L2 ++ [tl] → ∃ n, h !! a = Some n ∧ v < val n).
Proof.
  intros Hv Hlo Hhi Hb.
  pose proof (b_sorted _ _ _ _ _ _ Hb) as Hs. unfold vals in Hs.
  rewrite fmap_app in Hs. apply StronglySorted_app in Hs as (_ & _ & Hs2).
  assert (H1 : v ∉ vals L1).
  { intros (t & E & Ht)%list_elem_of_fmap. rewrite Forall_forall in Hlo.
    specialize (Hlo t Ht). lia. }
  assert (Hnodes : ∀ t, t ∈ L2 → node_ok M h t).
  { intros t Ht. pose proof (b_nodes _ _ _ _ _ _ Hb) as H.
    rewrite Forall_forall in H. apply H, elem_of_app. by right. }
  assert (Hcase : (∃ t L2', L2 = t :: L2' ∧ t_val t = v
                            ∧ Forall (λ t', v < t_val t') L2')
                  ∨ Forall (λ t', v < t_val t') L2).
  { destruct L2 as [|t L2']; [by right|].
    rewrite fmap_cons in Hs2. apply StronglySorted_cons in Hs2 as [Hall _].
    apply Forall_cons in Hhi as [Ht _].
    assert (Hrest : ∀ d, t_val t = d ∨ t_val t > d →
                         Forall (λ t', d < t_val t') L2').
    { intros d Hd. apply Forall_forall. intros t' Ht'.
      rewrite Forall_forall in Hall.
      assert (t_val t < t_val t'); [|lia].
      apply Hall, list_elem_of_fmap. eauto. }
    destruct (decide (t_val t = v)) as [Ev|Nv].
    - left. exists t, L2'. split; [done|]. split; [done|]. apply Hrest. lia.
    - right. apply Forall_cons. split; [lia|]. apply Hrest. lia. }
  destruct Hcase as [(t & L2' & -> & Ev & Hgt)|Hgt].
  - left. split.
    + unfold vals. rewrite fmap_app, fmap_cons, Ev. apply elem_of_app. right.
      apply elem_of_cons. by left.
    + exists t, L2'. split; [done|]. split; [done|]. split; [|done].
      unfold succ_at, level. rewrite filter_cons.
      destruct (Hnodes t) as (n & _ & _ & _ & _ & _ & Hh & _).
      { apply elem_of_cons. by left. }
      rewrite decide_True by lia. done.
  - right. split; [|split; [done|]].
    + unfold vals. rewrite fmap_app. intros [Hin|Hin]%elem_of_app; [done|].
      apply list_elem_of_fmap in Hin as (t' & E & Ht').
      rewrite Forall_forall in Hgt. specialize (Hgt t' Ht'). lia.
    + intros a [Ha|Ha%list_elem_of_singleton]%elem_of_app.
      * apply list_elem_of_fmap in Ha as (t' & -> & Ht').
        destruct (Hnodes t' Ht') as (n & Hn & Hval & _).
        exists n. split; [done|]. rewrite Hval.
        rewrite Forall_forall in Hgt. by apply Hgt.
      * subst. destruct (b_tail _ _ _ _ _ _ Hb) as (n & Hn & Hval & _).
        exists n. split; [done|]. lia.
Qed.

(** ** Stores that leave the list alone *)

Lemma is_marked_mod a : is_marked a = a mod 2.
Proof. unfold is_marked. apply (Z.land_ones a 1). lia. Qed.

Lemma is_marked_node_size a l : is_marked a = 0 → is_marked (a + node_size l) = 0.
Proof.
  rewrite !is_marked_mod. unfold node_size, NEXT_OFFSET. intros H.
  replace (a + (16 + 8 * Z.max l 0)) with (a + (8 + 4 * Z.max l 0) * 2) by lia.
  by rewrite Z.mod_add.
Qed.

Lemma node_size_pos l : 0 < node_size l.
Proof. unfold node_size, NEXT_OFFSET. lia. Qed.

Lemma alloc_ok_grow h brk brk' :
  alloc_ok h brk → brk <= brk' → is_marked brk' = 0 → alloc_ok h brk'.
Proof.
  intros (_ & Hp & Hall) Hle Hm. split; [done|]. split; [lia|].
  intros a Ha. specialize (Hall a Ha). lia.
Qed.

Lemma alloc_ok_insert h brk nd brk' :
  alloc_ok h brk → brk < brk' → is_marked brk' = 0 →
  alloc_ok (<[brk := nd]> h) brk'.
Proof.
  intros (_ & Hp & Hall) Hle Hm. split; [done|]. split; [lia|].
  intros a Ha. destruct (decide (a = brk)) as [->|Hne]; [done|].
  rewrite lookup_insert_ne in Ha by done. specialize (Hall a Ha). lia.
Qed.

Lemma node_ok_ext M h h' t :
  h' !! t_addr t = h !! t_addr t → node_ok M h t → node_ok M h' t.
Proof. intros E (n & Hn & ?). exists n. by rewrite E. Qed.

Lemma base_heap_ext M hd tl L h h' brk brk' :
  base M hd tl L h brk →
  (∀ a, a ∈ hd :: tl :: addrs L → h' !! a = h !! a) →
  alloc_ok h' brk' → base M hd tl L h' brk'.
Proof.
  intros [HM Hh Ht Hn Hs Hd Ha Hb] Hext Hal. split; try done.
  - rewrite Hext; [done|]. apply elem_of_cons. by left.
  - rewrite Hext; [done|]. apply elem_of_cons. right. apply elem_of_cons.
    by left.
  - rewrite Forall_forall in Hn |- *. intros t Ht'.
    apply (node_ok_ext M h); [|by apply Hn]. apply Hext.
    apply elem_of_cons. right. apply elem_of_cons. right.
    apply list_elem_of_fmap. eauto.
Qed.

Lemma linked_heap_ext h h' i l :
  linked h i l → (∀ a, a ∈ l → h' !! a = h !! a) → linked h' i l.
Proof.
  intros H Hext. eapply linked_ext; [exact H|]. intros a Ha.
  unfold read_next. by rewrite Hext.
Qed.

Lemma level_list_sub i hd tl L a :
  a ∈ hd :: addrs (level i L) ++ [tl] → a ∈ hd :: tl :: addrs L.
Proof.
  intros [->|Ha]%elem_of_cons; [apply elem_of_cons; by left|].
  apply elem_of_cons. right.
  apply elem_of_app in Ha as [Ha|Ha%list_elem_of_singleton].
  - apply elem_of_cons. right. by eapply addrs_level_elem.
  - apply elem_of_cons. by left.
Qed.

Lemma SL_heap_ext M hd tl L h h' brk brk' :
  SL M hd tl L h brk →
  (∀ a, a ∈ hd :: tl :: addrs L → h' !! a = h !! a) →
  alloc_ok h' brk' → SL M hd tl L h' brk'.
Proof.
  intros [Hb Hl] Hext Hal. split; [by eapply base_heap_ext|].
  intros i Hi. eapply linked_heap_ext; [by apply Hl|].
  intros a Ha. by apply Hext, (level_list_sub i).
Qed.

Lemma fill_None k X : fill k X None = None.
Proof. done. Qed.

(** ** Marking the references of a node *)

Lemma mark_levels_fwd x fuel :
  (1 ≤ fuel)%nat →
  ∀ k h,
    (∀ i, (i < k)%nat → ∃ p, read_next h x i = Some p ∧ is_marked p = 0) →
    ∃ h', mark_levels k fuel h x = Some h'
      ∧ (∀ a, a ≠ x → h' !! a = h !! a)
      ∧ (∀ a, is_Some (h' !! a) ↔ is_Some (h !! a))
      ∧ (∀ i, (i < k)%nat → read_next h' x i = set_mark <$> read_next h x i)
      ∧ (∀ i, (k ≤ i)%nat → read_next h' x i = read_next h x i).
Proof.
  intros Hf. destruct fuel as [|fuel]; [lia|].
  induction k as [|i IH]; intros h Hun.
  - exists h. split; [done|]. split; [done|]. split; [done|].
    split; [intros; lia|done].
  - destruct (Hun i) as (p & Hp & Hm); [lia|].
    destruct (IH (upd h x i (set_mark p))) as (h' & E & H1 & H2 & H3 & H4).
    { intros j Hj. destruct (Hun j) as (q & Hq & Hqm); [lia|].
      exists q. split; [|done]. rewrite <- Hq. apply read_next_upd_ne.
      right. lia. }
    exists h'. split; [|split; [|split; [|split]]].
    + cbn [mark_levels mark_level]. rewrite Hp. cbn [mbind option_bind].
      rewrite Hm. cbn [Z.eqb].
      rewrite (CAS_upd_success _ _ _ _ _ Hp). cbn [mbind option_bind].
      exact E.
    + intros a Ha. rewrite H1 by done. by apply upd_lookup_ne.
    + intros a. rewrite H2. apply upd_is_Some.
    + intros j Hj. destruct (decide (j = i)) as [->|Hne].
      * rewrite H4 by lia. rewrite Hp. simpl. by eapply read_next_upd_eq.
      * rewrite H3 by lia. f_equal. apply read_next_upd_ne. right. lia.
    + intros j Hj. rewrite H4 by lia. apply read_next_upd_ne. right. lia.
Qed.

(** ** Taking a tower out of the list *)

Lemma nodup_mid {A} (P X : list A) (x : A) (Y : list A) :
  NoDup (P ++ X ++ x :: Y) → (x ∉ P ++ X ++ Y) ∧ NoDup (P ++ X ++ Y).
Proof.
  rewrite !app_assoc. intros H.
  apply (NoDup_Permutation_proper _ (x :: (P ++ X) ++ Y)) in H.
  - by apply NoDup_cons in H.
  - symmetry. apply Permutation_middle.
Qed.

Lemma sorted_mid (X : list Z) (a : Z) (Y : list Z) :
  StronglySorted Z.lt (X ++ a :: Y) → StronglySorted Z.lt (X ++ Y).
Proof.
  intros (H1 & H2 & H3)%StronglySorted_app.
  apply StronglySorted_cons in H3 as [H3 H4].
  apply StronglySorted_app_2; [|done..].
  intros x1 x2 Hx1 Hx2. apply H1; [done|]. apply elem_of_cons. by right.
Qed.

Lemma base_remove M hd tl L1 t L2 h brk :
  base M hd tl (L1 ++ t :: L2) h brk →
  base M hd tl (L1 ++ L2) h brk
  ∧ is_marked (t_addr t) = 0
  ∧ t_addr t ∉ hd :: tl :: addrs (L1 ++ L2).
Proof.
  intros [HM Hh Ht Hn Hs Hd Ha Hb].
  unfold vals, addrs in *. rewrite fmap_app, fmap_cons in Hs, Hd, Ha.
  destruct (nodup_mid [hd; tl] (t_addr <$> L1) (t_addr t) (t_addr <$> L2) Hd)
    as [Hx Hd'].
  split; [split; try done|split]; unfold vals, addrs.
  - apply Forall_app in Hn as [H1 H2]. apply Forall_cons in H2 as [_ H2].
    by apply Forall_app.
  - rewrite fmap_app. by eapply sorted_mid.
  - by rewrite fmap_app.
  - rewrite fmap_app. rewrite !Forall_cons in Ha |- *.
    destruct Ha as (? & ? & Ha). split; [done|]. split; [done|].
    apply Forall_app in Ha as [H1 H2]. apply Forall_cons in H2 as [_ H2].
    by apply Forall_app.
  - rewrite !Forall_cons in Ha. destruct Ha as (_ & _ & Ha).
    apply Forall_app in Ha as [_ H2]. by apply Forall_cons in H2 as [[? _] _].
  - by rewrite fmap_app.
Qed.

Lemma level_cons i t L :
  level i (t :: L)
  = if decide (i < t_height t)%nat then t :: level i L else level i L.
Proof. unfold level. by rewrite filter_cons. Qed.

(** The list in which the references of the tower [t] have just been
    marked. *)
Lemma GSL_marked M hd tl L1 t L2 h h2 brk :
  SL M hd tl (L1 ++ t :: L2) h brk →
  (∀ a, a ≠ t_addr t → h2 !! a = h !! a) →
  (∀ a, is_Some (h2 !! a) ↔ is_Some (h !! a)) →
  (∀ i, (i < t_height t)%nat →
        read_next h2 (t_addr t) i = set_mark <$> read_next h (t_addr t) i) →
  GSL M hd tl L1 L2 (t_addr t) (t_height t) M h2 brk.
Proof.
  intros [Hb Hl] Hne Hsome Hmk.
  destruct (base_remove _ _ _ _ _ _ _ _ Hb) as (Hb' & Hxm & Hx).
  assert (Hext : ∀ a, a ∈ hd :: tl :: addrs (L1 ++ L2) → h2 !! a = h !! a).
  { intros a Ha. apply Hne. intros ->. done. }
  split; [|split; [done|]].
  - eapply base_heap_ext; [exact Hb'|exact Hext|].
    destruct (b_brk _ _ _ _ _ _ Hb) as (? & ? & Hall).
    split; [done|]. split; [done|]. intros a Ha. by apply Hall, Hsome.
  - intros i Hi. specialize (Hl i Hi).
    rewrite level_app, level_cons, addrs_app in Hl.
    assert (HA : ∀ a, a ∈ hd :: addrs (level i L1) → h2 !! a = h !! a).
    { intros a Ha. by apply Hext, (in_A_addr hd tl L1 L2 i). }
    assert (HB : ∀ a, a ∈ addrs (level i L2) ++ [tl] → h2 !! a = h !! a).
    { intros a Ha. by apply Hext, (in_B_addr hd tl L1 L2 i). }
    destruct (decide (i < t_height t)%nat) as [Hht|Hht].
    + rewrite decide_True by lia.
      assert (E : hd :: (addrs (level i L1) ++ addrs (t :: level i L2)) ++ [tl]
                  = (hd :: addrs (level i L1))
                      ++ t_addr t :: (addrs (level i L2) ++ [tl])).
      { simpl. by rewrite <- app_assoc. }
      rewrite E in Hl. apply linked_split in Hl as [H1 H2].
      destruct (hd_split (addrs (level i L2)) tl) as [Y EY].
      unfold succ_at. rewrite EY in H2 |- *. apply linked_cons2 in H2 as [H2 H3].
      split; [|split].
      * eapply linked_ext_snoc; [exact H1|]. intros a Ha.
        unfold read_next. by rewrite HA.
      * by rewrite Hmk, H2.
      * rewrite <- EY in H3 |- *. by eapply linked_heap_ext.
    + rewrite decide_False by lia.
      rewrite <- app_assoc in Hl.
      eapply linked_heap_ext; [exact Hl|]. intros a Ha.
      change (a ∈ (hd :: addrs (level i L1)) ++ addrs (level i L2) ++ [tl])
        in Ha.
      apply elem_of_app in Ha as [Ha|Ha]; [by apply HA|by apply HB].
Qed.

Lemma tower_next M hd tl L1 t L2 h brk i :
  SL M hd tl (L1 ++ t :: L2) h brk → (i < t_height t)%nat →
  read_next h (t_addr t) i = Some (succ_at tl L2 i)
  ∧ is_marked (succ_at tl L2 i) = 0.
Proof.
  intros [Hb Hl] Hi.
  destruct (base_remove _ _ _ _ _ _ _ _ Hb) as (Hb' & _ & _).
  assert (HiM : (i < M)%nat).
  { pose proof (b_nodes _ _ _ _ _ _ Hb) as Hn.
    apply Forall_app in Hn as [_ Hn]. apply Forall_cons in Hn as [Hn _].
    destruct Hn as (n & _ & _ & _ & _ & _ & ? & _). lia. }
  specialize (Hl i HiM).
  rewrite level_app, level_cons, addrs_app, decide_True in Hl by done.
  assert (E : hd :: (addrs (level i L1) ++ addrs (t :: level i L2)) ++ [tl]
              = (hd :: addrs (level i L1))
                  ++ t_addr t :: (addrs (level i L2) ++ [tl])).
  { simpl. by rewrite <- app_assoc. }
  rewrite E in Hl. apply linked_split in Hl as [_ H2].
  destruct (hd_split (addrs (level i L2)) tl) as [Y EY].
  unfold succ_at. rewrite EY in H2. apply linked_cons2 in H2 as [H2 _].
  split; [done|].
  apply (addr_ok M hd tl L1 L2 h brk Hb'), (in_B_addr hd tl L1 L2 i).
  rewrite EY. apply elem_of_cons. by left.
Qed.

Lemma remove_set (L1 L2 : list tower) t v :
  t_val t = v → Forall (λ t, t_val t < v) L1 →
  Forall (λ t', v < t_val t') L2 →
  (list_to_set (vals (L1 ++ t :: L2)) : gset Z) ∖ {[v]}
  = list_to_set (vals (L1 ++ L2)).
Proof.
  intros Ev Hlo Hgt. apply set_eq. intros w.
  rewrite elem_of_difference, !elem_of_list_to_set, not_elem_of_singleton.
  unfold vals. rewrite !fmap_app, fmap_cons, !elem_of_app, elem_of_cons.
  rewrite Forall_forall in Hlo. rewrite Forall_forall in Hgt.
  split.
  - intros [[H|[H|H]] Hne]; [by left|congruence|by right].
  - intros [H|H]; (split; [tauto|]);
      apply list_elem_of_fmap in H as (t' & -> & Ht').
    + specialize (Hlo t' Ht'). lia.
    + specialize (Hgt t' Ht'). lia.
Qed.

(** ** Putting a tower into the list *)

Lemma count_level_ge n : ∀ temp level, level <= count_level n temp level.
Proof.
  induction n as [|n IH]; intros temp level; simpl; [lia|].
  destruct (_ =? 0); [lia|]. specialize (IH (Z.shiftr temp 1) (level + 1)).
  lia.
Qed.

Lemma get_rand_level_range levelmax y :
  1 <= levelmax → 1 <= (get_rand_level levelmax y).1 <= levelmax.
Proof.
  intros H. unfold get_rand_level. cbn [fst].
  pose proof (count_level_ge 32 (xorshift y) 1).
  destruct (Z.gtb_spec (count_level 32 (xorshift y) 1) levelmax); lia.
Qed.

Lemma init_next_fwd p succs :
  ∀ n i h nd R,
    h !! p = Some nd → next nd = take i succs ++ R → length R = n →
    (i + n ≤ length succs)%nat →
    init_next n h p i succs
    = Some (<[p := mk_node (val nd) (deleted nd) (toplevel nd)
                           (take (i + n) succs)]> h).
Proof.
  induction n as [|n IH]; intros i h nd R Hp Hnx HR Hlen.
  - destruct R; [|done]. rewrite app_nil_r in Hnx. simpl. f_equal.
    rewrite Nat.add_0_r, <- Hnx. symmetry. apply insert_id.
    by destruct nd.
  - destruct (lookup_lt_is_Some_2 succs i) as [q Hq]; [lia|].
    destruct R as [|r R]; [done|]. simpl in HR.
    assert (Hti : length (take i succs) = i) by (rewrite length_take; lia).
    cbn [init_next]. rewrite Hq. cbn [mbind option_bind].
    rewrite (write_next_is_Some _ _ _ _ nd Hp)
      by (rewrite Hnx, length_app; simpl; lia).
    cbn [mbind option_bind].
    rewrite (IH (S i) _ (set_next nd i q) R).
    + rewrite insert_insert_eq. simpl.
      by replace (S (i + n))%nat with (i + S n)%nat by lia.
    + by rewrite lookup_insert_eq.
    + simpl. rewrite Hnx. rewrite (take_S_r _ _ q) by done.
      rewrite <- app_assoc. simpl.
      rewrite insert_app_r_alt by lia. rewrite Hti, Nat.sub_diag. done.
    + lia.
    + lia.
Qed.

Lemma base_insert M hd tl L1 L2 h brk v ht nx brk' :
  base M hd tl (L1 ++ L2) h brk →
  Forall (λ t, t_val t < v) L1 → Forall (λ t, v < t_val t) L2 →
  VAL_MIN < v < VAL_MAX → (1 ≤ ht ≤ M)%nat → length nx = ht →
  brk < brk' → is_marked brk' = 0 →
  base M hd tl (L1 ++ mk_tower brk v ht :: L2)
       (<[brk := mk_node v 0 (Z.of_nat ht) nx]> h) brk'.
Proof.
  intros Hb Hlo Hgt Hv Hht Hnx Hlt Hm.
  destruct (brk_fresh _ _ _ _ _ _ Hb) as (Hbm & Hb0 & Hnone & Hnin).
  assert (Hext : ∀ a, a ∈ hd :: tl :: addrs (L1 ++ L2) →
                      <[brk := mk_node v 0 (Z.of_nat ht) nx]> h !! a = h !! a).
  { intros a Ha. apply lookup_insert_ne. by intros ->. }
  destruct Hb as [HM Hh Ht Hn Hs Hd Ha Hal].
  split; try done.
  - rewrite Hext; [done|]. apply elem_of_cons. by left.
  - rewrite Hext; [done|]. apply elem_of_cons. right. apply elem_of_cons.
    by left.
  - assert (Hold : Forall (node_ok M (<[brk := mk_node v 0 (Z.of_nat ht) nx]> h))
                          (L1 ++ L2)).
    { rewrite Forall_forall in Hn |- *. intros t Ht'.
      apply (node_ok_ext M h); [|by apply Hn]. apply Hext.
      apply elem_of_cons. right. apply elem_of_cons. right.
      apply list_elem_of_fmap. eauto. }
    apply Forall_app in Hold as [H1 H2]. apply Forall_app. split; [done|].
    apply Forall_cons. split; [|done].
    eexists. split; [apply lookup_insert_eq|]. simpl. done.
  - unfold vals in *. rewrite fmap_app in Hs. rewrite fmap_app, fmap_cons.
    apply StronglySorted_app in Hs as (H1 & H2 & H3).
    apply StronglySorted_app_2; [|done|].
    + intros x1 x2 (t1 & -> & Ht1)%list_elem_of_fmap Hx2.
      rewrite Forall_forall in Hlo. specialize (Hlo t1 Ht1).
      apply elem_of_cons in Hx2 as [->|Hx2]; [done|].
      apply list_elem_of_fmap in Hx2 as (t2 & -> & Ht2).
      rewrite Forall_forall in Hgt. specialize (Hgt t2 Ht2). simpl. lia.
    + apply StronglySorted_cons. split; [|done]. by apply Forall_fmap.
  - unfold addrs in *. rewrite fmap_app in Hd, Hnin.
    rewrite fmap_app, fmap_cons.
    apply (NoDup_Permutation_proper
             (brk :: hd :: tl :: (t_addr <$> L1) ++ (t_addr <$> L2))).
    + apply (Permutation_middle (hd :: tl :: (t_addr <$> L1))).
    + by apply NoDup_cons.
  - unfold addrs in *. rewrite fmap_app in Ha. rewrite fmap_app, fmap_cons.
    rewrite !Forall_cons in Ha |- *. destruct Ha as (? & ? & Ha).
    split; [done|]. split; [done|]. apply Forall_app in Ha as [? ?].
    apply Forall_app. split; [done|]. apply Forall_cons. by split.
  - by apply alloc_ok_insert.
Qed.

Lemma PSL_ht_SL M hd tl L1 L2 x v ht h brk :
  PSL M hd tl L1 L2 x v ht ht h brk →
  SL M hd tl (L1 ++ mk_tower x v ht :: L2) h brk.
Proof.
  intros [Hb Hl]. split; [done|]. intros i Hi.
  destruct (Hl i Hi) as [_ H]. rewrite level_app, level_cons, addrs_app.
  cbn [t_height]. destruct (decide (i < ht)%nat).
  - simpl. rewrite <- app_assoc. exact H.
  - rewrite <- app_assoc. exact H.
Qed.

Lemma PSL_step M hd tl L1 L2 x v ht k h brk :
  (k < ht)%nat → (k < M)%nat → PSL M hd tl L1 L2 x v ht k h brk →
  read_next h (pred_at hd L1 k) k = Some (succ_at tl L2 k)
  ∧ PSL M hd tl L1 L2 x v ht (S k) (upd h (pred_at hd L1 k) k x) brk.
Proof.
  intros Hk HkM [Hb Hl].
  set (t := mk_tower x v ht) in *.
  pose proof (pred_ne_B M hd tl L1 (t :: L2) h brk Hb k) as HneB.
  rewrite level_cons in HneB. cbn [t_height t] in HneB.
  rewrite decide_True in HneB by done.
  assert (Hxp : x ≠ pred_at hd L1 k).
  { apply HneB. apply elem_of_cons. by left. }
  assert (HB : ∀ a, a ∈ addrs (level k L2) ++ [tl] → a ≠ pred_at hd L1 k).
  { intros a Ha. apply HneB. apply elem_of_cons. by right. }
  destruct (pred_split hd L1 k) as [X EX].
  destruct (hd_split (addrs (level k L2)) tl) as [Y EY].
  assert (Hrd : read_next h (pred_at hd L1 k) k = Some (succ_at tl L2 k)).
  { destruct (Hl k HkM) as [_ H]. rewrite decide_False in H by lia.
    rewrite EX, <- app_assoc in H. apply linked_app_r in H.
    rewrite EY in H. apply (linked_cons2 h k _ _ Y) in H as [H _].
    exact H. }
  split; [done|]. split.
  - apply base_upd; [|done].
    apply (pred_ne_tl M hd tl L1 (t :: L2) h brk Hb k).
  - intros j Hj. destruct (Hl j Hj) as [Hr H].
    destruct (decide (j = k)) as [->|Hne].
    + rewrite decide_False in H by lia. rewrite decide_True by lia. split.
      * intros _. rewrite <- (Hr Hk). apply read_next_upd_ne. by left.
      * rewrite EX in H |- *. rewrite <- app_assoc in H |- *.
        apply linked_split in H as [H1 H2]. apply linked_join.
        -- eapply linked_ext_snoc; [exact H1|]. intros a Ha.
           apply read_next_upd_ne. left. intros E.
           by apply (pred_ne_A M hd tl L1 (t :: L2) h brk Hb k X a).
        -- apply linked_cons2. split; [by eapply read_next_upd_eq|].
           simpl in H2. rewrite EY in H2 |- *.
           apply linked_cons2. split.
           ++ transitivity (read_next h x k); [|exact (Hr Hk)].
              apply read_next_upd_ne. by left.
           ++ apply linked_cons2 in H2 as [_ H2].
              eapply linked_ext; [exact H2|]. intros a Ha.
              apply read_next_upd_ne. left. intros E.
              apply (HB a); [|done]. rewrite EY. done.
    + assert (Hext : ∀ a, read_next (upd h (pred_at hd L1 k) k x) a j
                          = read_next h a j).
      { intros a. apply read_next_upd_ne. by right. }
      split; [intros Hjh; by rewrite Hext, Hr|].
      destruct (decide (j < k)%nat).
      * rewrite decide_True by lia.
        eapply linked_ext; [exact H|]. intros; apply Hext.
      * rewrite decide_False by lia.
        eapply linked_ext; [exact H|]. intros; apply Hext.
Qed.

Lemma above_nodes M hd tl L L2 h brk v a :
  base M hd tl L h brk → (∀ t, t ∈ L2 → t ∈ L) →
  Forall (λ t, v < t_val t) L2 → v < VAL_MAX →
  a ∈ addrs L2 ++ [tl] → ∃ n, h !! a = Some n ∧ v < val n.
Proof.
  intros Hb Hsub Hgt Hv [Ha|Ha%list_elem_of_singleton]%elem_of_app.
  - apply list_elem_of_fmap in Ha as (t & -> & Ht).
    pose proof (b_nodes _ _ _ _ _ _ Hb) as Hn. rewrite Forall_forall in Hn.
    destruct (Hn t (Hsub t Ht)) as (n & Hn' & Hval & _).
    exists n. split; [done|]. rewrite Hval.
    rewrite Forall_forall in Hgt. by apply Hgt.
  - subst. destruct (b_tail _ _ _ _ _ _ Hb) as (n & Hn & Hval & _).
    exists n. split; [done|]. lia.
Qed.

Lemma add_set (L1 L2 : list tower) t :
  (list_to_set (vals (L1 ++ t :: L2)) : gset Z)
  = {[t_val t]} ∪ list_to_set (vals (L1 ++ L2)).
Proof.
  apply set_eq. intros w.
  rewrite elem_of_union, !elem_of_list_to_set, elem_of_singleton.
  unfold vals. rewrite !fmap_app, fmap_cons, !elem_of_app, elem_of_cons.
  tauto.
Qed.

(** ** The three operations on a quiescent list *)

Section Ops.

Variables (levelmax : Z) (M : nat) (hd tl : Z).
Variables (tbl : list shift_node) (est : estimator) (T : Z).
Hypothesis HM : levelmax = Z.of_nat M.
Hypothesis Hest : ∀ w, (0 <= estimate est w)%Q ∧ (estimate est w < 1)%Q.
Hypothesis HT : 1 <= T.
Hypothesis Hlen : length tbl = Z.to_nat T.
Hypothesis Hstart : head_start hd tl tbl.

Lemma new_array_length : length (new_array levelmax) = M.
Proof. unfold new_array. by rewrite length_replicate, HM, Nat2Z.id. Qed.

Lemma preds_of_length L1 : length (preds_of hd L1 M) = M.
Proof. unfold preds_of. by rewrite length_fmap, length_seq. Qed.

Lemma succs_of_length L2 : length (succs_of tl L2 M) = M.
Proof. unfold succs_of. by rewrite length_fmap, length_seq. Qed.

Lemma fill_new X :
  length X = M → fill M X (Some (new_array levelmax)) = Some X.
Proof.
  intros HX. unfold fill. simpl. f_equal.
  rewrite take_ge by lia. rewrite drop_ge by (rewrite new_array_length; lia).
  apply app_nil_r.
Qed.

Lemma new_array_len l : Some (new_array levelmax) = Some l → length l = M.
Proof. intros [= <-]. apply new_array_length. Qed.

Lemma sl_contains_SL fuel s L v :
  VAL_MIN < v < VAL_MAX → SL M hd tl L (st_heap s) (st_brk s) →
  (length L + 2 ≤ fuel)%nat →
  ∃ it,
    sl_contains levelmax fuel s tbl est T v
    = Some (if decide (v ∈ vals L) then 1 else 0,
            mk_state (st_heap s) (st_brk s) (st_y s) it).
Proof.
  intros Hv HSL Hf. pose proof HSL as [Hb _].
  destruct (sorted_split L v (b_sorted _ _ _ _ _ _ Hb))
    as (L1 & L2 & -> & Hlo & Hhi).
  destruct (fraser_search_SL M hd tl L1 L2 v fuel s tbl est T None
              (Some (new_array levelmax)) Hv Hlo Hhi Hest HT Hlen Hstart)
    as (it & E); [rewrite length_app in Hf; lia|done|done|apply new_array_len|].
  exists it. unfold sl_contains. rewrite E. cbn [mbind option_bind].
  rewrite fill_new by apply succs_of_length. cbn [mbind option_bind].
  rewrite succs_of_lookup by (pose proof (b_M _ _ _ _ _ _ Hb); lia).
  cbn [mbind option_bind st_heap].
  destruct (succ_cases M hd tl L1 L2 (st_heap s) (st_brk s) v Hv Hlo Hhi Hb)
    as [(Hin & t & L2' & -> & Ev & Es & _)|(Hnin & _ & Hab)].
  - rewrite decide_True by done. rewrite Es.
    pose proof (b_nodes _ _ _ _ _ _ Hb) as Hn. rewrite Forall_forall in Hn.
    destruct (Hn t) as (n & -> & Hval & Hdel & _).
    { apply elem_of_app. right. apply elem_of_cons. by left. }
    cbn [mbind option_bind]. rewrite Hval, Hdel, Ev, Z.eqb_refl. done.
  - rewrite decide_False by done.
    destruct (Hab (succ_at tl L2 0)) as (n & -> & Hgt); [apply succ_in|].
    cbn [mbind option_bind]. destruct (Z.eqb_spec (val n) v); [lia|done].
Qed.

Lemma sl_remove_SL fuel s L v :
  VAL_MIN < v < VAL_MAX → SL M hd tl L (st_heap s) (st_brk s) →
  (length L + 2 ≤ fuel)%nat →
  ∃ s' L',
    sl_remove levelmax fuel s tbl est T v
    = Some (if decide (v ∈ vals L) then 1 else 0, s')
    ∧ SL M hd tl L' (st_heap s') (st_brk s')
    ∧ (list_to_set (vals L') : gset Z)
      = (if decide (v ∈ vals L) then list_to_set (vals L) ∖ {[v]}
         else list_to_set (vals L))
    ∧ (length L' ≤ length L)%nat.
Proof.
  intros Hv HSL Hf. pose proof HSL as [Hb _].
  destruct (sorted_split L v (b_sorted _ _ _ _ _ _ Hb))
    as (L1 & L2 & -> & Hlo & Hhi).
  assert (Hf1 : (length L1 + 2 ≤ fuel)%nat) by (rewrite length_app in Hf; lia).
  destruct (fraser_search_SL M hd tl L1 L2 v fuel s tbl est T None
              (Some (new_array levelmax)) Hv Hlo Hhi Hest HT Hlen Hstart)
    as (it & E); [done|done|done|apply new_array_len|].
  unfold sl_remove. rewrite E. cbn [mbind option_bind].
  rewrite fill_new by apply succs_of_length. cbn [mbind option_bind].
  rewrite succs_of_lookup by (pose proof (b_M _ _ _ _ _ _ Hb); lia).
  cbn [mbind option_bind st_heap].
  destruct (succ_cases M hd tl L1 L2 (st_heap s) (st_brk s) v Hv Hlo Hhi Hb)
    as [(Hin & t & L2' & -> & Ev & Es & Hgt)|(Hnin & _ & Hab)].
  - rewrite !decide_True by done. rewrite Es.
    pose proof (b_nodes _ _ _ _ _ _ Hb) as Hn. rewrite Forall_forall in Hn.
    destruct (Hn t) as (n & Hn0 & Hval & Hdel & Htop & _).
    { apply elem_of_app. right. apply elem_of_cons. by left. }
    rewrite Hn0. cbn [mbind option_bind].
    rewrite Hval, Ev, Z.eqb_refl, Hdel, Z.eqb_refl.
    set (h1 := <[t_addr t := set_deleted n (wrap_int (0 + 1))]> (st_heap s)).
    assert (Hrd : ∀ i, read_next h1 (t_addr t) i
                       = read_next (st_heap s) (t_addr t) i).
    { intros i. unfold read_next, h1. by rewrite lookup_insert_eq, Hn0. }
    destruct (mark_levels_fwd (t_addr t) fuel ltac:(lia) (t_height t) h1)
      as (h2 & Emk & H1 & H2 & H3 & _).
    { intros i Hi. rewrite Hrd.
      destruct (tower_next _ _ _ _ _ _ _ _ i HSL Hi) as [? ?]. eauto. }
    assert (G : GSL M hd tl L1 L2' (t_addr t) (t_height t) M h2 (st_brk s)).
    { eapply GSL_marked; [exact HSL| | |].
      - intros a Ha. rewrite H1 by done. unfold h1.
        by rewrite lookup_insert_ne.
      - intros a. rewrite H2. unfold h1.
        destruct (decide (a = t_addr t)) as [->|Hne].
        + rewrite lookup_insert_eq, Hn0. split; eauto.
        + by rewrite lookup_insert_ne.
      - intros i Hi. by rewrite H3, Hrd. }
    assert (Hhi' : Forall (λ t', v <= t_val t') L2').
    { eapply Forall_impl; [exact Hgt|]. simpl. intros; lia. }
    destruct (fraser_search_G M hd tl L1 L2' (t_addr t) (t_height t) v Hv
                Hlo Hhi' fuel
                (mk_state h2 (st_brk s) (st_y s) it) tbl est T None None
                Hest HT Hlen Hstart Hf1 G) as (it' & E2 & HSL'); [done..|].
    assert (Emn : mark_node_ptrs fuel h1 (t_addr t) = Some h2).
    { unfold mark_node_ptrs.
      assert (Hx : h1 !! t_addr t
                   = Some (set_deleted n (wrap_int (0 + 1))))
        by (unfold h1; apply lookup_insert_eq).
      rewrite Hx. cbn [mbind option_bind set_deleted toplevel].
      by rewrite Htop, Nat2Z.id. }
    rewrite Emn. cbn [mbind option_bind].
    unfold with_heap. cbn [st_brk st_y st_iter].
    rewrite E2. cbn [mbind option_bind].
    eexists _, (L1 ++ L2'). split; [done|]. split; [exact HSL'|]. split.
    + symmetry. by apply remove_set.
    + rewrite !length_app. simpl. lia.
  - rewrite !decide_False by done.
    destruct (Hab (succ_at tl L2 0)) as (n & -> & Hgt); [apply succ_in|].
    cbn [mbind option_bind]. destruct (Z.eqb_spec (val n) v); [lia|].
    eexists _, (L1 ++ L2). split; [done|]. split; [exact HSL|]. done.
Qed.

Lemma link_level_fwd fuel s L1 L2 x v ht i :
  (1 ≤ fuel)%nat → (i < ht)%nat → (i < M)%nat →
  Forall (λ t, v < t_val t) L2 → v < VAL_MAX →
  PSL M hd tl L1 L2 x v ht i (st_heap s) (st_brk s) →
  link_level fuel s v x i (preds_of hd L1 M) (succs_of tl L2 M) tbl est T
  = Some (with_heap s (upd (st_heap s) (pred_at hd L1 i) i x),
          preds_of hd L1 M, succs_of tl L2 M).
Proof.
  intros Hf Hi HiM Hgt Hv HP. destruct fuel as [|fuel]; [lia|].
  destruct (PSL_step _ _ _ _ _ _ _ _ _ _ _ Hi HiM HP) as [Hrd _].
  destruct HP as [Hb Hl]. destruct (Hl i HiM) as [Hx _]. specialize (Hx Hi).
  destruct (above_nodes M hd tl _ L2 (st_heap s) (st_brk s) v
              (succ_at tl L2 i) Hb) as (sn & Hsn & Hlt);
    [|done|done|apply succ_in|].
  { intros t Ht. apply elem_of_app. right. apply elem_of_cons. by right. }
  cbn [link_level]. rewrite preds_of_lookup, succs_of_lookup by done.
  cbn [mbind option_bind]. rewrite Hx. cbn [mbind option_bind].
  rewrite Z.eqb_refl. cbn [mbind option_bind]. rewrite Hsn.
  cbn [mbind option_bind]. destruct (Z.eqb_spec (val sn) v); [lia|].
  rewrite (CAS_upd_success _ _ _ _ _ Hrd). done.
Qed.

Lemma link_levels_fwd fuel L1 L2 x v ht :
  (1 ≤ fuel)%nat → (ht ≤ M)%nat →
  Forall (λ t, v < t_val t) L2 → v < VAL_MAX →
  ∀ n i s,
    (i + n = ht)%nat → PSL M hd tl L1 L2 x v ht i (st_heap s) (st_brk s) →
    ∃ s', link_levels n fuel s v x i (preds_of hd L1 M) (succs_of tl L2 M)
                      tbl est T = Some s'
      ∧ PSL M hd tl L1 L2 x v ht ht (st_heap s') (st_brk s').
Proof.
  intros Hf Hht Hgt Hv. induction n as [|n IH]; intros i s Hin HP.
  - exists s. split; [done|]. assert (E : i = ht) by lia. by subst i.
  - assert (Hi : (i < ht)%nat) by lia. assert (HiM : (i < M)%nat) by lia.
    destruct (PSL_step _ _ _ _ _ _ _ _ _ _ _ Hi HiM HP) as [_ HP'].
    cbn [link_levels].
    rewrite (link_level_fwd fuel s L1 L2 x v ht i Hf Hi HiM Hgt Hv HP).
    cbn [mbind option_bind]. apply IH; [lia|]. exact HP'.
Qed.

Lemma sl_add_SL fuel s L v :
  VAL_MIN < v < VAL_MAX → SL M hd tl L (st_heap s) (st_brk s) →
  (length L + 2 ≤ fuel)%nat →
  ∃ s' L',
    sl_add levelmax fuel s tbl est T v
    = Some (if decide (v ∈ vals L) then 0 else 1, s')
    ∧ SL M hd tl L' (st_heap s') (st_brk s')
    ∧ (list_to_set (vals L') : gset Z)
      = (if decide (v ∈ vals L) then list_to_set (vals L)
         else {[v]} ∪ list_to_set (vals L))
    ∧ (length L' ≤ length L + 1)%nat.
Proof.
  intros Hv HSL Hf. pose proof HSL as [Hb Hlk].
  pose proof (b_M _ _ _ _ _ _ Hb) as HM1.
  destruct (brk_fresh _ _ _ _ _ _ Hb) as (Hbm & Hb0 & Hnone & Hnin).
  destruct (sorted_split L v (b_sorted _ _ _ _ _ _ Hb))
    as (L1 & L2 & -> & Hlo & Hhi).
  assert (Hf1 : (length L1 + 2 ≤ fuel)%nat) by (rewrite length_app in Hf; lia).
  unfold sl_add, sl_add_alloc.
  pose proof (get_rand_level_range levelmax (st_y s) ltac:(lia)) as Hl.
  destruct (get_rand_level levelmax (st_y s)) as [l y]. cbn [fst] in Hl.
  unfold sl_new_simple_node. cbn [st_heap st_brk st_y st_iter].
  set (x := st_brk s) in *. set (h0 := st_heap s) in *.
  set (ht := Z.to_nat l).
  assert (Hht : (1 ≤ ht ≤ M)%nat) by lia.
  assert (El : l = Z.of_nat ht) by lia.
  set (brk' := x + node_size l).
  assert (Hlt : x < brk') by (pose proof (node_size_pos l); lia).
  assert (Hm' : is_marked brk' = 0) by by apply is_marked_node_size.
  set (h1 := <[x := mk_node v 0 l (replicate ht NULL)]> h0).
  assert (Hext : ∀ a, a ∈ hd :: tl :: addrs (L1 ++ L2) → h1 !! a = h0 !! a).
  { intros a Ha. apply lookup_insert_ne. by intros ->. }
  assert (HSL1 : SL M hd tl (L1 ++ L2) h1 brk').
  { eapply SL_heap_ext; [exact HSL|exact Hext|].
    apply alloc_ok_insert; [|done..]. apply (b_brk _ _ _ _ _ _ Hb). }
  destruct fuel as [|fuel]; [lia|].
  destruct (fraser_search_SL M hd tl L1 L2 v (S fuel)
              (mk_state h1 brk' y (st_iter s)) tbl est T
              (Some (new_array levelmax)) (Some (new_array levelmax))
              Hv Hlo Hhi Hest HT Hlen Hstart Hf1 HSL1)
    as (it & E); [apply new_array_len..|].
  cbn [st_heap st_brk st_y] in E.
  cbn [sl_add_retry]. rewrite E. cbn [mbind option_bind].
  rewrite !fill_new by (apply succs_of_length || apply preds_of_length).
  cbn [mbind option_bind].
  rewrite succs_of_lookup by lia. cbn [mbind option_bind st_heap].
  destruct HSL1 as [Hb1 Hlk1].
  destruct (succ_cases M hd tl L1 L2 h1 brk' v Hv Hlo Hhi Hb1)
    as [(Hin & t & L2' & -> & Ev & Es & Hgt)|(Hnin' & Hgt & Hab)].
  - rewrite !decide_True by done. rewrite Es.
    pose proof (b_nodes _ _ _ _ _ _ Hb1) as Hn. rewrite Forall_forall in Hn.
    destruct (Hn t) as (n & Hn0 & Hval & Hdel & _).
    { apply elem_of_app. right. apply elem_of_cons. by left. }
    rewrite Hn0. cbn [mbind option_bind].
    rewrite Hval, Ev, Z.eqb_refl, Hdel, Z.eqb_refl.
    eexists _, (L1 ++ t :: L2'). split; [done|].
    unfold with_heap, sl_delete_node. cbn [st_heap st_brk].
    unfold h1. rewrite delete_insert_id by done.
    split; [|split; [done|lia]].
    eapply SL_heap_ext; [exact HSL|done|].
    eapply alloc_ok_grow; [apply (b_brk _ _ _ _ _ _ Hb)|lia|done].
  - rewrite !decide_False by done.
    destruct (Hab (succ_at tl L2 0)) as (n0 & Hn0 & Hgt0); [apply succ_in|].
    rewrite Hn0. cbn [mbind option_bind].
    destruct (Z.eqb_spec (val n0) v); [lia|].
    assert (Hx1 : h1 !! x = Some (mk_node v 0 l (replicate ht NULL)))
      by apply lookup_insert_eq.
    rewrite Hx1. cbn [mbind option_bind toplevel]. fold ht.
    rewrite (init_next_fwd x (succs_of tl L2 M) ht 0 h1 _ (replicate ht NULL)
               Hx1);
      [|done|apply length_replicate|rewrite succs_of_length; lia].
    cbn [mbind option_bind val deleted toplevel]. unfold h1.
    rewrite insert_insert_eq. rewrite preds_of_lookup by lia.
    cbn [mbind option_bind Nat.add].
    set (h2 := <[x := mk_node v 0 l (take ht (succs_of tl L2 M))]> h0).
    assert (HP0 : PSL M hd tl L1 L2 x v ht 0 h2 brk').
    { split.
      - unfold h2. rewrite El. apply base_insert; try done.
        rewrite length_take, succs_of_length. lia.
      - intros i Hi. split.
        + intros Hih. unfold read_next, h2. rewrite lookup_insert_eq.
          cbn [mbind option_bind next]. rewrite lookup_take_lt by done.
          by apply succs_of_lookup.
        + rewrite decide_False by lia. specialize (Hlk i Hi).
          rewrite level_app, addrs_app, <- app_assoc in Hlk.
          eapply linked_heap_ext; [exact Hlk|]. intros a Ha.
          apply lookup_insert_ne. intros ->. apply Hnin.
          apply (level_list_sub i). rewrite level_app, addrs_app.
          by rewrite <- app_assoc. }
    assert (H0ht : (0 < ht)%nat) by lia. assert (H0M : (0 < M)%nat) by lia.
    destruct (PSL_step _ _ _ _ _ _ _ _ _ _ _ H0ht H0M HP0) as [Hrd HP1].
    rewrite (CAS_upd_success _ _ _ _ _ Hrd). cbn [mbind option_bind].
    assert (HSf : (1 ≤ S fuel)%nat) by lia.
    assert (HhtM : (ht ≤ M)%nat) by lia.
    assert (HvM : v < VAL_MAX) by lia.
    destruct (link_levels_fwd (S fuel) L1 L2 x v ht HSf HhtM
                Hgt HvM (Z.to_nat (l - 1)) 1%nat
                (with_heap (mk_state h1 brk' y it)
                           (upd h2 (pred_at hd L1 0) 0 x)))
      as (s' & Els & HPh); [lia|exact HP1|].
    unfold h1 in Els. rewrite Els. cbn [mbind option_bind].
    eexists s', (L1 ++ mk_tower x v ht :: L2). split; [done|].
    split; [by apply PSL_ht_SL|]. split; [apply add_set|].
    rewrite !length_app. simpl. lia.
Qed.

(** One operation against the reference set. *)
Lemma impl_step_SL fuel s L o :
  VAL_MIN < op_val o < VAL_MAX → SL M hd tl L (st_heap s) (st_brk s) →
  (length L + 2 ≤ fuel)%nat →
  ∃ s' L',
    impl_step levelmax fuel s tbl est T o
    = Some ((ref_step (list_to_set (vals L)) o).1, s')
    ∧ SL M hd tl L' (st_heap s') (st_brk s')
    ∧ (ref_step (list_to_set (vals L)) o).2 = list_to_set (vals L')
    ∧ (length L' ≤ length L + 1)%nat.
Proof.
  intros Hv HSL Hf.
  assert (Hdec : ∀ (v : Z) (A : Type) (a b : A),
            (if decide (v ∈ (list_to_set (vals L) : gset Z)) then a else b)
            = (if decide (v ∈ vals L) then a else b)).
  { intros v A a b. destruct (decide (v ∈ vals L)) as [H|H].
    - rewrite decide_True; [done|]. by apply elem_of_list_to_set.
    - rewrite decide_False; [done|]. by rewrite elem_of_list_to_set. }
  destruct o as [v|v|v]; cbn [op_val] in Hv; unfold impl_step, ref_step.
  - destruct (sl_add_SL fuel s L v Hv HSL Hf) as (s' & L' & E & H1 & H2 & H3).
    exists s', L'. rewrite E, H2. rewrite <- !Hdec.
    destruct (decide (v ∈ list_to_set (vals L))); done.
  - destruct (sl_remove_SL fuel s L v Hv HSL Hf)
      as (s' & L' & E & H1 & H2 & H3).
    exists s', L'. rewrite E, H2. rewrite <- !Hdec.
    destruct (decide (v ∈ list_to_set (vals L))); cbn [fst snd];
      (split; [done|]); (split; [done|]); (split; [done|lia]).
  - destruct (sl_contains_SL fuel s L v Hv HSL Hf) as (it & E).
    eexists _, L. rewrite E. rewrite <- !Hdec. cbn [fst snd st_heap st_brk].
    split; [done|]. split; [done|]. split; [done|lia].
Qed.

Lemma impl_run_SL fuel :
  ∀ ops L s,
    Forall (λ o, VAL_MIN < op_val o < VAL_MAX) ops →
    SL M hd tl L (st_heap s) (st_brk s) →
    (length L + length ops + 2 ≤ fuel)%nat →
    impl_run levelmax fuel s tbl est T ops
    = Some (ref_run (list_to_set (vals L)) ops).
Proof.
  induction ops as [|o ops IH]; intros L s Hops HSL Hf; [done|].
  apply Forall_cons in Hops as [Ho Hops]. simpl in Hf.
  destruct (impl_step_SL fuel s L o Ho HSL) as (s' & L' & E & H1 & H2 & H3);
    [lia|].
  cbn [impl_run ref_run]. rewrite E. cbn [mbind option_bind].
  rewrite (IH L' s' Hops H1) by lia. cbn [mbind option_bind].
  by rewrite H2.
Qed.

End Ops.

(** ** The freshly created set and its shift table *)

Lemma fill_next_fwd p q :
  ∀ n i h nd R,
    h !! p = Some nd → next nd = replicate i q ++ R → length R = n →
    fill_next n h p i q
    = Some (<[p := mk_node (val nd) (deleted nd) (toplevel nd)
                           (replicate (i + n) q)]> h).
Proof.
  induction n as [|n IH]; intros i h nd R Hp Hnx HR.
  - destruct R; [|done]. rewrite app_nil_r in Hnx. simpl. f_equal.
    rewrite Nat.add_0_r, <- Hnx. symmetry. apply insert_id.
    by destruct nd.
  - destruct R as [|r R]; [done|]. simpl in HR.
    cbn [fill_next].
    rewrite (write_next_is_Some _ _ _ _ nd Hp)
      by (rewrite Hnx, length_app, length_replicate; simpl; lia).
    cbn [mbind option_bind].
    rewrite (IH (S i) _ (set_next nd i q) R).
    + rewrite insert_insert_eq. simpl. by rewrite Nat.add_succ_r.
    + by rewrite lookup_insert_eq.
    + simpl. rewrite Hnx.
      rewrite insert_app_r_alt by (rewrite length_replicate; lia).
      rewrite length_replicate, Nat.sub_diag. cbn [insert list_insert].
      change (replicate i q ++ q :: R) with (replicate i q ++ [q] ++ R).
      by rewrite app_assoc, <- replicate_S_end.
    + lia.
Qed.

Lemma sl_new_node_fwd levelmax (M : nat) s v nx :
  levelmax = Z.of_nat M →
  sl_new_node levelmax s v nx levelmax
  = Some (st_brk s,
          mk_state (<[st_brk s := mk_node v 0 levelmax (replicate M nx)]>
                      (st_heap s))
                   (st_brk s + node_size levelmax) (st_y s) (st_iter s)).
Proof.
  intros HM. unfold sl_new_node, sl_new_simple_node.
  rewrite (fill_next_fwd (st_brk s) nx (Z.to_nat levelmax) 0 _
             (mk_node v 0 levelmax (replicate (Z.to_nat levelmax) NULL))
             (replicate (Z.to_nat levelmax) NULL)).
  - cbn [mbind option_bind st_heap val deleted toplevel Nat.add with_heap
           st_brk st_y st_iter].
    rewrite insert_insert_eq. by rewrite HM, Nat2Z.id.
  - cbn [st_heap]. apply lookup_insert_eq.
  - done.
  - apply length_replicate.
Qed.

Lemma sl_set_new_SL levelmax (M : nat) s0 :
  levelmax = Z.of_nat M → (1 ≤ M)%nat →
  alloc_ok (st_heap s0) (st_brk s0) →
  ∃ hd tl s, sl_set_new levelmax s0 = Some (mk_set hd, s)
    ∧ SL M hd tl [] (st_heap s) (st_brk s).
Proof.
  intros HM HM1 Hal. pose proof Hal as (Hm & Hpos & Hall).
  unfold sl_set_new. rewrite (sl_new_node_fwd levelmax M _ _ _ HM).
  cbn [mbind option_bind]. rewrite (sl_new_node_fwd levelmax M _ _ _ HM).
  cbn [mbind option_bind st_heap st_brk st_y st_iter].
  set (tl := st_brk s0). set (hd := tl + node_size levelmax).
  pose proof (node_size_pos levelmax) as Hsz.
  assert (Hne : hd ≠ tl) by (unfold hd; lia).
  assert (Hmh : is_marked hd = 0) by by apply is_marked_node_size.
  exists hd, tl. eexists. split; [done|]. cbn [st_heap st_brk].
  split; [split|].
  - done.
  - eexists. split; [apply lookup_insert_eq|]. simpl.
    by rewrite length_replicate.
  - eexists. split.
    + rewrite lookup_insert_ne by done. apply lookup_insert_eq.
    + done.
  - done.
  - constructor.
  - apply NoDup_cons. split; [|apply NoDup_singleton].
    by intros ->%list_elem_of_singleton.
  - apply Forall_cons. split; [split; [done|unfold NULL, hd, tl; lia]|].
    apply Forall_cons. split; [split; [done|unfold NULL, tl; lia]|].
    constructor.
  - apply alloc_ok_insert; [|lia|by apply is_marked_node_size].
    apply alloc_ok_insert; [done|fold hd; lia|done].
  - intros i Hi. simpl. split; [|done]. unfold read_next.
    rewrite lookup_insert_eq. simpl. by apply lookup_replicate_2.
Qed.

Lemma backfill_keeps j1 :
  ∀ tbl tr tbl' (i : nat) e,
    backfill j1 tbl = (tr, Some tbl') → tbl !! i = Some e → count e ≠ 0 →
    tbl' !! i = Some e.
Proof.
  induction j1 as [|j IH]; intros tbl tr tbl' i e H Hi Hc; simpl in H.
  - by injection H as _ <-.
  - destruct (tbl !! j) as [e0|] eqn:E0; [|done].
    destruct (count e0 =? 0) eqn:Ec.
    + destruct (tbl !! S j) as [r|]; [|done].
      destruct (backfill j (<[j := _]> tbl)) as [tr0 res] eqn:Eb.
      injection H as _ ->. eapply IH; [exact Eb| |done].
      rewrite list_lookup_insert_ne; [done|]. intros <-.
      rewrite E0 in Hi. injection Hi as ->. apply Z.eqb_eq in Ec. done.
    + destruct (backfill j tbl) as [tr0 res] eqn:Eb.
      injection H as _ ->. by eapply IH.
Qed.

Lemma populate_fresh M hd tl h brk fuel est T :
  SL M hd tl [] h brk → 2 <= T → (1 ≤ fuel)%nat →
  ∃ tbl, populate_shift_table fuel h (mk_set hd) (new_shift_table T) est T
         = Some tbl
    ∧ head_start hd tl tbl ∧ length tbl = Z.to_nat T.
Proof.
  intros [Hb Hl] HT Hf. pose proof (b_M _ _ _ _ _ _ Hb) as HM1.
  assert (Hhd : read_next h hd 0 = Some tl).
  { specialize (Hl 0%nat ltac:(lia)). simpl in Hl. by destruct Hl. }
  assert (Htl : read_next h tl 0 = Some NULL).
  { apply (tail_next M hd tl [] [] h brk Hb). lia. }
  set (t0 := new_shift_table T).
  assert (Hlen0 : length t0 = Z.to_nat T) by apply length_replicate.
  set (t1 := <[0%nat := mk_shift 1 0 hd]> t0).
  set (j := Z.to_nat (T - 1)).
  set (t3 := <[j := mk_shift 1 0 tl]> t1).
  assert (Hlen3 : length t3 = S j).
  { unfold t3, t1. rewrite !length_insert, Hlen0. unfold j. lia. }
  assert (Hj : t3 !! j = Some (mk_shift 1 0 tl)).
  { apply list_lookup_insert_eq. unfold t1. rewrite length_insert, Hlen0.
    unfold j. lia. }
  assert (H0 : t3 !! 0%nat = Some (mk_shift 1 0 hd)).
  { unfold t3. rewrite list_lookup_insert_ne by (unfold j; lia).
    apply list_lookup_insert_eq. rewrite Hlen0. lia. }
  destruct (backfill_nodes [hd; tl] j t3) as (tr & tbl' & Eb & Hlen' & Hall).
  { rewrite Hlen3. lia. }
  { intros i e Hi He. assert (i = j) as ->.
    { apply lookup_lt_Some in He. rewrite Hlen3 in He. lia. }
    rewrite Hj in He. injection He as <-. simpl.
    apply elem_of_cons. right. apply elem_of_cons. by left. }
  { unfold t3, t1. apply Forall_insert; [apply Forall_insert|].
    - apply Forall_forall. intros e He. right.
      apply elem_of_replicate in He as [-> _]. done.
    - left. apply elem_of_cons. by left.
    - left. apply elem_of_cons. right. apply elem_of_cons. by left. }
  exists tbl'. split; [|split].
  - unfold populate_shift_table, populate_shift_table_trace. cbn [head].
    rewrite tbl_set_is_Some by (fold t0; rewrite Hlen0; lia).
    cbn [mbind option_bind]. change (Z.to_nat 0) with 0%nat. fold t0 t1.
    destruct fuel as [|fuel]; [lia|]. cbn [populate_walk].
    rewrite Hhd. cbn [mbind option_bind]. rewrite Htl.
    cbn [mbind option_bind]. rewrite Z.eqb_refl. cbn [mbind option_bind].
    rewrite Hhd. cbn [mbind option_bind].
    rewrite tbl_set_is_Some
      by (unfold t1; rewrite length_insert, Hlen0; lia).
    cbn [mbind option_bind]. fold j t3.
    replace (Z.to_nat T) with (S j) by (unfold j; lia).
    cbn [backfill]. rewrite Hj. cbn [count Z.eqb]. rewrite Eb. done.
  - split.
    + exists (mk_shift 1 0 hd). split; [|done].
      by eapply backfill_keeps.
    + eapply Forall_impl; [exact Hall|]. intros e He. simpl in He.
      apply elem_of_cons in He as [?|He]; [by left|].
      apply list_elem_of_singleton in He. by right.
  - rewrite Hlen', Hlen3. unfold j. lia.
Qed.

End SeqFacts.


(** * Sequential runs against the reference set *)

(** C1, for values strictly between the sentinels.  Under single-threaded
    sequential execution that starts from a freshly created set
    ([sl_set_new]) with the shift table built on that set (table size at
    least 2, estimator with values in [[0,1)]), every sequence of [sl_add],
    [sl_remove] and [sl_contains] calls whose values lie strictly between
    [VAL_MIN] and [VAL_MAX] runs to completion and returns exactly the
    outcomes of the same sequence replayed against the reference ordered
    set: [sl_add v] returns 1 iff [v] was not a member, [sl_remove v]
    returns 1 iff [v] was a member, and [sl_contains v] returns 1 iff [v] is
    a member.  The loops need no more fuel than the number of operations
    plus two. *)
Theorem C1_fresh_run_matches_model (levelmax : Z) (fuel : nat)
    (s0 : MLSkiplist.state) (est : estimator) (T : Z) (ops : list op) :
  1 <= levelmax → 2 <= T → (∀ w, (0 <= estimate est w)%Q ∧ (estimate est w < 1)%Q) →
  alloc_ok (MLSkiplist.st_heap s0) (MLSkiplist.st_brk s0) →
  Forall (λ o, VAL_MIN < op_val o < VAL_MAX) ops →
  (length ops + 2 ≤ fuel)%nat →
  fresh_run levelmax fuel s0 est T ops = Some (ref_run ∅ ops).
Proof.
  intros Hl HT Hest Hal Hops Hf.
  destruct (SeqFacts.sl_set_new_SL levelmax (Z.to_nat levelmax) s0)
    as (hd & tl & s & Enew & HSL); [lia|lia|done|].
  destruct (SeqFacts.populate_fresh _ hd tl _ _ fuel est T HSL HT)
    as (tbl & Etbl & Hstart & Hlen); [lia|].
  unfold fresh_run. rewrite Enew. cbn [mbind option_bind]. rewrite Etbl.
  cbn [mbind option_bind].
  assert (HM : levelmax = Z.of_nat (Z.to_nat levelmax)) by lia.
  assert (HT1 : 1 <= T) by lia.
  assert (Hf' : (length (@nil Seq.tower) + length ops + 2 ≤ fuel)%nat)
    by (simpl; lia).
  exact (SeqFacts.impl_run_SL levelmax (Z.to_nat levelmax) hd tl tbl est T
           HM Hest HT1 Hlen Hstart fuel ops [] s Hops HSL Hf').
Qed.

(** The run [add 5, add 1, add 9, add 3, contains 3, remove 3, contains 3,
    contains 0, add 0, contains 0, contains 5] from the start of the program,
    with the table of size 4 built on the empty set. *)
Lemma C1_witness :
  fresh_run Scenario.MAXLEVEL 16 Scenario.s_start Scenario.est_lin 4
    [Add 5; Add 1; Add 9; Add 3; Contains 3; Remove 3; Contains 3;
     Contains 0; Add 0; Contains 0; Contains 5]
  = Some (ref_run ∅
            [Add 5; Add 1; Add 9; Add 3; Contains 3; Remove 3; Contains 3;
             Contains 0; Add 0; Contains 0; Contains 5]).
Proof.
  apply (C1_fresh_run_matches_model Scenario.MAXLEVEL 16 Scenario.s_start
           Scenario.est_lin 4).
  - vm_compute. discriminate.
  - lia.
  - exact est_lin_range.
  - split; [reflexivity|]. split; [reflexivity|].
    intros a [n Hn]. unfold Scenario.s_start in Hn.
    cbn [MLSkiplist.st_heap] in Hn. by rewrite lookup_empty in Hn.
  - repeat apply Forall_cons_2; try apply Forall_nil_2;
      (vm_compute; split; reflexivity).
  - simpl. lia.
Defined.

(** C1 does not extend to the sentinel values: on the freshly created
    (empty) set [sl_contains VAL_MAX] finds the tail sentinel and returns 1,
    where the reference set answers 0. *)
Lemma C1_counterexample :
  fresh_run Scenario.MAXLEVEL 16 Scenario.s_start (λ _, 0%Q) 4
    [Contains VAL_MAX] = Some [1]
  ∧ ref_run ∅ [Contains VAL_MAX] = [0].
Proof. split; vm_compute; reflexivity. Qed.


(** * Further properties of the skip list code *)

Module WordFacts.

(** One test of [floor_log_2]: a word below [c * c] is brought below [c],
    and its logarithm is accounted for. *)
Lemma flog_step (n k c : Z) (b : bool) :
  0 < k → c = 2 ^ k → 0 <= n < c * c → (n >=? c) = b →
  let n' := if b then Z.shiftr n k else n in
  let p := if b then k else 0 in
  0 <= n' < c ∧ (n' = 0 ↔ n = 0) ∧ (0 < n → Z.log2 n = Z.log2 n' + p).
Proof.
  intros Hk -> Hn Hb. rewrite Z.geb_leb in Hb.
  assert (Hc : 0 < 2 ^ k) by (apply Z.pow_pos_nonneg; lia).
  destruct b; cbn zeta.
  - apply Z.leb_le in Hb. rewrite Z.shiftr_div_pow2 by lia.
    assert (H1 : 1 <= n / 2 ^ k) by (apply Z.div_le_lower_bound; lia).
    split; [|split].
    + split; [lia|]. apply Z.div_lt_upper_bound; lia.
    + lia.
    + intros Hpos. rewrite <- Z.shiftr_div_pow2 by lia.
      rewrite Z.log2_shiftr by lia.
      assert (k <= Z.log2 n) by (apply Z.log2_le_pow2; lia). lia.
  - apply Z.leb_gt in Hb. split; [lia|]. split; [done|]. lia.
Qed.

Lemma lxor_word (a b : Z) :
  0 <= a < 4294967296 → 0 <= b < 4294967296 →
  0 <= Z.lxor a b < 4294967296.
Proof.
  intros Ha Hb. assert (H0 : 0 <= Z.lxor a b) by (apply Z.lxor_nonneg; lia).
  split; [done|].
  destruct (decide (Z.lxor a b = 0)) as [->|Hne]; [lia|].
  change 4294967296 with (2 ^ 32). apply Z.log2_lt_pow2; [lia|].
  pose proof (Z.log2_lxor a b ltac:(lia) ltac:(lia)) as Hl.
  assert (Z.log2 a < 32).
  { destruct (decide (a = 0)) as [->|?]; [done|].
    apply Z.log2_lt_pow2; lia. }
  assert (Z.log2 b < 32).
  { destruct (decide (b = 0)) as [->|?]; [done|].
    apply Z.log2_lt_pow2; lia. }
  lia.
Qed.

Lemma xorshift_word (y : Z) :
  0 <= y < 4294967296 → 0 <= MLSkiplist.xorshift y < 4294967296.
Proof.
  intros Hy. unfold MLSkiplist.xorshift. cbn zeta.
  assert (Hsl : ∀ z k, 0 <= Z.shiftl z k mod 4294967296 < 4294967296).
  { intros. apply Z.mod_pos_bound. lia. }
  assert (Hsr : ∀ z, 0 <= z < 4294967296 → 0 <= Z.shiftr z 17 < 4294967296).
  { intros z Hz. rewrite Z.shiftr_div_pow2 by lia. split.
    - apply Z.div_pos; lia.
    - apply Z.div_lt_upper_bound; lia. }
  apply lxor_word; [|apply Hsl].
  apply lxor_word; [|apply Hsr]; apply lxor_word; (done || apply Hsl).
Qed.

End WordFacts.

(** X1.  [floor_log_2] returns -1 on 0 and the position of the highest set
    bit of any other 32-bit word. *)
Theorem X1_floor_log_2_is_log2 (n : Z) :
  0 <= n < 4294967296 →
  MLSkiplist.floor_log_2 n = if n =? 0 then -1 else Z.log2 n.
Proof.
  intros Hn. unfold MLSkiplist.floor_log_2. cbn zeta.
  destruct (n >=? 65536) eqn:E1;
    pose proof (WordFacts.flog_step n 16 65536 _ ltac:(lia) eq_refl
                  ltac:(lia) E1) as (B1 & Z1 & L1); cbn zeta in B1, Z1, L1;
  match goal with |- context [?m >=? 256] =>
    destruct (m >=? 256) eqn:E2;
    pose proof (WordFacts.flog_step m 8 256 _ ltac:(lia) eq_refl
                  ltac:(lia) E2) as (B2 & Z2 & L2); cbn zeta in B2, Z2, L2
  end;
  match goal with |- context [?m >=? 16] =>
    destruct (m >=? 16) eqn:E3;
    pose proof (WordFacts.flog_step m 4 16 _ ltac:(lia) eq_refl
                  ltac:(lia) E3) as (B3 & Z3 & L3); cbn zeta in B3, Z3, L3
  end;
  match goal with |- context [?m >=? 4] =>
    destruct (m >=? 4) eqn:E4;
    pose proof (WordFacts.flog_step m 2 4 _ ltac:(lia) eq_refl
                  ltac:(lia) E4) as (B4 & Z4 & L4); cbn zeta in B4, Z4, L4
  end;
  repeat match goal with
    | H : context [Z.shiftr ?a ?k] |- _ =>
      is_var a; let x := fresh "x" in
      set (x := Z.shiftr a k) in *; clearbody x
    end;
  match goal with |- context [?m >=? 2] =>
    assert (Hm : m = 0 ∨ m = 1 ∨ m = 2 ∨ m = 3) by lia;
    destruct (Z.eqb_spec n 0) as [En|En];
    [ assert (Hm0 : m = 0) by tauto; try rewrite Hm0; reflexivity
    | destruct Hm as [Hm|[Hm|[Hm|Hm]]]; [tauto| | |];
      rewrite Hm in *;
      change (Z.log2 1) with 0 in *; change (Z.log2 2) with 1 in *;
      change (Z.log2 3) with 1 in *; cbn; lia ]
  end.
Qed.

(** X2.  With [levelmax] at least 1, [get_rand_level] returns a level between
    1 and [levelmax] (the comment of the source: [1 <= level <= levelmax]),
    and its generator state stays a 32-bit word. *)
Theorem X2_get_rand_level_in_range (levelmax y : Z) :
  1 <= levelmax → 0 <= y < 4294967296 →
  1 <= (MLSkiplist.get_rand_level levelmax y).1 <= levelmax
  ∧ 0 <= (MLSkiplist.get_rand_level levelmax y).2 < 4294967296.
Proof.
  intros Hl Hy. split.
  - unfold MLSkiplist.get_rand_level. cbn [fst].
    pose proof (SeqFacts.count_level_ge 32 (MLSkiplist.xorshift y) 1).
    destruct (Z.gtb_spec (MLSkiplist.count_level 32 (MLSkiplist.xorshift y) 1)
                levelmax); lia.
  - unfold MLSkiplist.get_rand_level. cbn [snd].
    by apply WordFacts.xorshift_word.
Qed.

(** X3.  The mark bit of a reference: [set_mark] sets it, [unset_mark]
    clears it, neither touches the address bits, and on an unmarked
    reference [unset_mark] undoes [set_mark]. *)
Theorem X3_mark_bit_round_trip (p : Z) :
  is_marked (set_mark p) = 1
  ∧ is_marked (unset_mark p) = 0
  ∧ unset_mark (set_mark p) = unset_mark p
  ∧ set_mark (unset_mark p) = set_mark p
  ∧ (is_marked p = 0 → unset_mark (set_mark p) = p)
  ∧ (is_marked p = 1 → set_mark (unset_mark p) = p)
  ∧ (is_marked p = 0 ∨ is_marked p = 1).
Proof.
  split; [apply Engine.is_marked_set|]. split; [apply Engine.is_marked_unset|].
  split; [|split; [|split; [|split]]].
  - unfold unset_mark, set_mark. apply Z.bits_inj'. intros n Hn.
    rewrite !Z.land_spec, Z.lor_spec, Z.lnot_spec by lia.
    by destruct (Z.testbit p n), (Z.testbit 1 n).
  - unfold unset_mark, set_mark. apply Z.bits_inj'. intros n Hn.
    rewrite !Z.lor_spec, Z.land_spec, Z.lnot_spec by lia.
    by destruct (Z.testbit p n), (Z.testbit 1 n).
  - apply SeqFacts.unset_set_mark.
  - unfold is_marked, unset_mark, set_mark. intros H. apply Z.bits_inj'.
    intros n Hn.
    assert (Hb : Z.testbit (Z.land p 1) n = Z.testbit 1 n) by (by rewrite H).
    rewrite Z.land_spec in Hb.
    rewrite Z.lor_spec, Z.land_spec, Z.lnot_spec by lia.
    by destruct (Z.testbit p n), (Z.testbit 1 n).
  - rewrite SeqFacts.is_marked_mod.
    pose proof (Z.mod_pos_bound p 2 ltac:(lia)). lia.
Qed.

Module MarkFacts.
Import MLSkiplist.

Lemma set_mark_marked p : is_marked p ≠ 0 → set_mark p = p.
Proof.
  unfold is_marked, set_mark. intros H. apply Z.bits_inj'. intros n Hn.
  rewrite Z.lor_spec.
  destruct (Z.testbit 1 n) eqn:E1; [|by rewrite orb_false_r].
  rewrite orb_true_r.
  assert (n = 0) as ->.
  { destruct (decide (n = 0)) as [|Hne]; [done|].
    rewrite (Z.bits_above_log2 1 n) in E1 by (simpl; lia). done. }
  rewrite Z.bit0_odd. rewrite <- Z.bit0_odd.
  destruct (Z.testbit p 0) eqn:Ep; [done|]. exfalso. apply H.
  apply Z.bits_inj'. intros m Hm. rewrite Z.land_spec, Z.bits_0.
  destruct (decide (m = 0)) as [->|Hne]; [by rewrite Ep|].
  rewrite (Z.bits_above_log2 1 m) by (simpl; lia). apply andb_false_r.
Qed.

Lemma set_mark_idem p : set_mark (set_mark p) = set_mark p.
Proof. apply set_mark_marked. by rewrite Engine.is_marked_set. Qed.

Lemma mark_level_fwd fuel h n nd i p :
  (1 ≤ fuel)%nat → h !! n = Some nd → next nd !! i = Some p →
  mark_level fuel h n i = Some (<[n := set_next nd i (set_mark p)]> h).
Proof.
  intros Hf Hn Hp. destruct fuel as [|fuel]; [lia|]. cbn [mark_level].
  unfold read_next at 1. rewrite Hn. cbn [mbind option_bind]. rewrite Hp.
  cbn [mbind option_bind].
  destruct (Z.eqb_spec (is_marked p) 0) as [Hm|Hm].
  - by rewrite (Engine.CAS_success _ _ _ _ _ nd Hn Hp).
  - f_equal. symmetry. apply insert_id. rewrite Hn. f_equal.
    rewrite (set_mark_marked p Hm). unfold set_next.
    rewrite list_insert_id by done. by destruct nd.
Qed.

Lemma mark_prefix_S (N : list Z) (i : nat) p :
  N !! i = Some p →
  (set_mark <$> take i (<[i := set_mark p]> N))
    ++ drop i (<[i := set_mark p]> N)
  = (set_mark <$> take (S i) N) ++ drop (S i) N.
Proof.
  intros Hp. assert (Hi : (i < length N)%nat) by by eapply lookup_lt_Some.
  rewrite insert_take_drop by done.
  assert (Hl : length (take i N) = i) by (rewrite length_take; lia).
  rewrite take_app_length' by done. rewrite drop_app_length' by done.
  rewrite (take_S_r _ _ p) by done. rewrite fmap_app, <- app_assoc. done.
Qed.

Lemma mark_levels_all fuel n :
  (1 ≤ fuel)%nat →
  ∀ k h nd,
    h !! n = Some nd → (k ≤ length (next nd))%nat →
    mark_levels k fuel h n
    = Some (<[n := mk_node (val nd) (deleted nd) (toplevel nd)
                    ((set_mark <$> take k (next nd)) ++ drop k (next nd))]> h).
Proof.
  intros Hf. induction k as [|i IH]; intros h nd Hn Hk.
  - simpl. f_equal. symmetry. apply insert_id. rewrite Hn. f_equal.
    rewrite drop_0. by destruct nd.
  - destruct (lookup_lt_is_Some_2 (next nd) i) as [p Hp]; [lia|].
    cbn [mark_levels]. rewrite (mark_level_fwd fuel h n nd i p Hf Hn Hp).
    cbn [mbind option_bind].
    rewrite (IH _ (set_next nd i (set_mark p))).
    + rewrite insert_insert_eq. cbn [set_next val deleted toplevel next].
      by rewrite mark_prefix_S.
    + apply lookup_insert_eq.
    + cbn [set_next next]. rewrite length_insert. lia.
Qed.

Lemma mark_node_ptrs_all fuel h n nd :
  (1 ≤ fuel)%nat → h !! n = Some nd →
  length (next nd) = Z.to_nat (toplevel nd) →
  mark_node_ptrs fuel h n
  = Some (<[n := mk_node (val nd) (deleted nd) (toplevel nd)
                         (set_mark <$> next nd)]> h).
Proof.
  intros Hf Hn Hl. unfold mark_node_ptrs. rewrite Hn.
  cbn [mbind option_bind]. rewrite <- Hl.
  rewrite (mark_levels_all fuel n Hf _ h nd Hn) by lia.
  by rewrite take_ge, drop_ge, app_nil_r by lia.
Qed.

End MarkFacts.

(** X4.  [mark_node_ptrs] sets the mark bit of every forward reference of the
    node and changes nothing else: not the addresses referred to, not the
    value or the flag, no other node.  Run again on its own result it does
    nothing. *)
Theorem X4_mark_node_ptrs_marks_all (fuel : nat) (h : MLSkiplist.heap)
    (n : Z) (nd : MLSkiplist.sl_node) :
  (1 ≤ fuel)%nat → h !! n = Some nd →
  length (MLSkiplist.next nd) = Z.to_nat (MLSkiplist.toplevel nd) →
  let h' := <[n := MLSkiplist.mk_node (MLSkiplist.val nd)
                     (MLSkiplist.deleted nd) (MLSkiplist.toplevel nd)
                     (set_mark <$> MLSkiplist.next nd)]> h in
  MLSkiplist.mark_node_ptrs fuel h n = Some h'
  ∧ MLSkiplist.mark_node_ptrs fuel h' n = Some h'.
Proof.
  intros Hf Hn Hlen h'.
  split; [by apply MarkFacts.mark_node_ptrs_all|].
  rewrite (MarkFacts.mark_node_ptrs_all fuel h' n _ Hf (lookup_insert_eq _ _ _)).
  - unfold h'. rewrite insert_insert_eq. cbn. do 3 f_equal.
    rewrite <- list_fmap_compose. apply list_fmap_ext. intros i p _.
    apply MarkFacts.set_mark_idem.
  - cbn. by rewrite length_fmap.
Qed.


(** * The states that sequential runs reach *)

Module RunFacts.
Import MLSkiplist Shape Engine Seq SeqFacts.

Lemma impl_exec_SL levelmax M hd tl tbl est T fuel :
  levelmax = Z.of_nat M → (∀ w, (0 <= estimate est w)%Q ∧ (estimate est w < 1)%Q) → 1 <= T →
  length tbl = Z.to_nat T → head_start hd tl tbl →
  ∀ ops L s,
    Forall (λ o, VAL_MIN < op_val o < VAL_MAX) ops →
    SL M hd tl L (st_heap s) (st_brk s) →
    (length L + length ops + 2 ≤ fuel)%nat →
    ∃ s' L',
      impl_exec levelmax fuel s tbl est T ops = Some s'
      ∧ SL M hd tl L' (st_heap s') (st_brk s')
      ∧ list_to_set (vals L') = ref_exec (list_to_set (vals L)) ops
      ∧ (length L' ≤ length L + length ops)%nat.
Proof.
  intros HM Hest HT Hlen Hstart.
  induction ops as [|o ops IH]; intros L s Hops HSL Hf.
  - exists s, L. simpl. split; [done|]. split; [done|]. split; [done|lia].
  - apply Forall_cons in Hops as [Ho Hops]. simpl in Hf.
    destruct (impl_step_SL levelmax M hd tl tbl est T HM Hest HT Hlen Hstart
                fuel s L o Ho HSL) as (s1 & L1 & E & H1 & H2 & H3); [lia|].
    destruct (IH L1 s1 Hops H1) as (s' & L' & E' & H1' & H2' & H3'); [lia|].
    exists s', L'. cbn [impl_exec ref_exec]. rewrite E.
    cbn [mbind option_bind]. split; [done|]. split; [done|].
    split; [by rewrite H2', H2|]. simpl. lia.
Qed.

Lemma fresh_exec_SL levelmax fuel s0 est T ops :
  1 <= levelmax → 2 <= T → (∀ w, (0 <= estimate est w)%Q ∧ (estimate est w < 1)%Q) →
  alloc_ok (st_heap s0) (st_brk s0) →
  Forall (λ o, VAL_MIN < op_val o < VAL_MAX) ops →
  (length ops + 2 ≤ fuel)%nat →
  ∃ hd tl s tbl L,
    fresh_exec levelmax fuel s0 est T ops = Some (mk_set hd, s, tbl)
    ∧ SL (Z.to_nat levelmax) hd tl L (st_heap s) (st_brk s)
    ∧ head_start hd tl tbl ∧ length tbl = Z.to_nat T
    ∧ list_to_set (vals L) = ref_exec ∅ ops
    ∧ (length L ≤ length ops)%nat.
Proof.
  intros Hl HT Hest Hal Hops Hf.
  destruct (sl_set_new_SL levelmax (Z.to_nat levelmax) s0)
    as (hd & tl & s & Enew & HSL); [lia|lia|done|].
  destruct (populate_fresh _ hd tl _ _ fuel est T HSL HT)
    as (tbl & Etbl & Hstart & Hlen); [lia|].
  destruct (impl_exec_SL levelmax (Z.to_nat levelmax) hd tl tbl est T fuel
              ltac:(lia) Hest ltac:(lia) Hlen Hstart ops [] s Hops HSL)
    as (s' & L' & E & H1 & H2 & H3); [simpl; lia|].
  exists hd, tl, s', tbl, L'. unfold fresh_exec. rewrite Enew.
  cbn [mbind option_bind]. rewrite Etbl. cbn [mbind option_bind]. rewrite E.
  cbn [mbind option_bind]. split; [done|]. split; [done|]. split; [done|].
  split; [done|]. split; [exact H2|]. simpl in H3. lia.
Qed.

(** ** The level-0 chain of a quiescent list *)

Lemma linked_path h i :
  ∀ l a z, linked h i (a :: l ++ [z]) → path h i a l z.
Proof.
  induction l as [|b l IH]; intros a z H.
  - simpl in H. by destruct H.
  - change (linked h i (a :: b :: (l ++ [z]))) in H.
    apply linked_cons2 in H as [H1 H2]. split; [done|]. by apply IH.
Qed.

Lemma SL_chain0 M hd tl L h brk :
  SL M hd tl L h brk →
  let l := (λ t, (t_addr t, t_val t)) <$> L in
  l.*1 = addrs L ∧ l.*2 = vals L
  ∧ chain0 h hd (l.*1) tl ∧ Forall (has_val h) l
  ∧ has_val h (hd, VAL_MIN) ∧ has_val h (tl, VAL_MAX)
  ∧ StronglySorted Z.lt (l.*2)
  ∧ Forall (λ v, VAL_MIN < v < VAL_MAX) (l.*2).
Proof.
  intros [Hb Hl] l.
  assert (E1 : l.*1 = addrs L).
  { unfold l, addrs. rewrite <- list_fmap_compose. done. }
  assert (E2 : l.*2 = vals L).
  { unfold l, vals. rewrite <- list_fmap_compose. done. }
  pose proof (b_M _ _ _ _ _ _ Hb) as HM.
  pose proof (b_nodes _ _ _ _ _ _ Hb) as Hn.
  split; [done|]. split; [done|]. rewrite E1, E2.
  split; [|split; [|split; [|split; [|split]]]].
  - split; [|split].
    + apply linked_path. specialize (Hl 0%nat ltac:(lia)).
      by rewrite (level_0 _ _ _ Hn) in Hl.
    + apply (tail_next M hd tl [] L h brk Hb). lia.
    + pose proof (b_addr _ _ _ _ _ _ Hb) as Ha.
      rewrite !Forall_cons in Ha. destruct Ha as ([_ ?] & [_ ?] & Ha).
      apply Forall_cons. split; [done|]. apply Forall_app. split.
      * eapply Forall_impl; [exact Ha|]. by intros a [_ ?].
      * by apply Forall_singleton.
  - unfold l. apply Forall_fmap. eapply Forall_impl; [exact Hn|].
    intros t (n & Hn' & Hv & _). by exists n.
  - destruct (b_head _ _ _ _ _ _ Hb) as (n & ? & ? & _). by exists n.
  - destruct (b_tail _ _ _ _ _ _ Hb) as (n & ? & ? & _). by exists n.
  - apply (b_sorted _ _ _ _ _ _ Hb).
  - unfold vals. apply Forall_fmap. eapply Forall_impl; [exact Hn|].
    intros t (n & _ & _ & _ & _ & _ & _ & Hv). exact Hv.
Qed.

(** ** Counting and freeing the nodes of a quiescent list *)

Lemma sorted_nodup (l : list Z) : StronglySorted Z.lt l → NoDup l.
Proof.
  induction 1 as [|a l Hs IH Hall]; [constructor|].
  apply NoDup_cons. split; [|done]. intros Hin.
  rewrite Forall_forall in Hall. specialize (Hall a Hin). lia.
Qed.

Lemma size_loop_SL M h tl :
  read_next h tl 0 = Some NULL →
  ∀ (R : list tower) fuel acc,
    Forall (node_ok M h) R → Forall (λ a, a ≠ NULL) (addrs R ++ [tl]) →
    linked h 0 (addrs R ++ [tl]) →
    0 <= acc < 18446744073709551616 → (length R + 1 ≤ fuel)%nat →
    size_loop fuel h (List.hd tl (addrs R)) acc
    = Some ((acc + Z.of_nat (length R)) mod 18446744073709551616).
Proof.
  intros Htl. induction R as [|t R IH]; intros fuel acc Hn Hnz Hl Hacc Hf;
    (destruct fuel as [|fuel]; [simpl in Hf; lia|]).
  - cbn [size_loop addrs fmap list_fmap List.hd]. rewrite Htl.
    cbn [mbind option_bind]. rewrite Z.eqb_refl. f_equal.
    rewrite Z.add_0_r. symmetry. by apply Z.mod_small.
  - apply Forall_cons in Hn as [(n & Hnt & _ & Hdel & _) Hn].
    assert (Hrd : read_next h (t_addr t) 0 = Some (List.hd tl (addrs R))).
    { destruct R; simpl in Hl; by destruct Hl. }
    assert (Hnz' : Forall (λ a, a ≠ NULL) (addrs R ++ [tl])).
    { simpl in Hnz. by apply Forall_cons in Hnz as [_ ?]. }
    assert (Hne : List.hd tl (addrs R) ≠ NULL).
    { rewrite Forall_forall in Hnz'. apply Hnz'.
      destruct (hd_split (addrs R) tl) as [Y ->]. apply elem_of_cons.
      by left. }
    cbn [size_loop]. change (List.hd tl (addrs (t :: R))) with (t_addr t).
    rewrite Hrd. cbn [mbind option_bind].
    destruct (Z.eqb_spec (List.hd tl (addrs R)) NULL) as [|_]; [done|].
    rewrite Hnt. cbn [mbind option_bind]. rewrite Hdel. cbn [Z.eqb].
    rewrite IH.
    + f_equal. rewrite Z.add_mod_idemp_l by lia. f_equal. simpl length. lia.
    + done.
    + done.
    + destruct R; simpl in Hl |- *; [done|]. by destruct Hl.
    + apply Z.mod_pos_bound. lia.
    + simpl in Hf. lia.
Qed.

Lemma sl_set_size_SL M hd tl L h brk fuel :
  SL M hd tl L h brk → (length L + 1 ≤ fuel)%nat →
  sl_set_size fuel h (mk_set hd)
  = Some (Z.of_nat (length L) mod 18446744073709551616).
Proof.
  intros [Hb Hl] Hf. pose proof (b_M _ _ _ _ _ _ Hb) as HM.
  pose proof (b_nodes _ _ _ _ _ _ Hb) as Hn.
  specialize (Hl 0%nat ltac:(lia)). rewrite (level_0 _ _ _ Hn) in Hl.
  assert (Hrd : read_next h hd 0 = Some (List.hd tl (addrs L))).
  { destruct (hd_split (addrs L) tl) as [Y EY]. rewrite EY in Hl.
    by destruct Hl. }
  unfold sl_set_size. cbn [head]. rewrite Hrd. cbn [mbind option_bind].
  rewrite (size_loop_SL M h tl); [done| |done| | |lia|done].
  - apply (tail_next M hd tl [] L h brk Hb). lia.
  - pose proof (b_addr _ _ _ _ _ _ Hb) as Ha.
    rewrite !Forall_cons in Ha. destruct Ha as (_ & [_ ?] & Ha).
    apply Forall_app. split.
    + eapply Forall_impl; [exact Ha|]. by intros a [_ ?].
    + by apply Forall_singleton.
  - by apply (linked_app_r h 0 [hd]).
Qed.

Lemma delete_loop_chain :
  ∀ (l : list Z) h fuel,
    NoDup l → Forall (λ a, a ≠ NULL) l →
    linked h 0 l → (∀ X z, l = X ++ [z] → read_next h z 0 = Some NULL) →
    (length l + 1 ≤ fuel)%nat →
    ∃ h', delete_loop fuel h (List.hd NULL l) = Some h'
      ∧ ∀ b, h' !! b = if decide (b ∈ l) then None else h !! b.
Proof.
  induction l as [|a l IH]; intros h fuel Hd Hnz Hl Hlast Hf;
    (destruct fuel as [|fuel]; [simpl in Hf; lia|]).
  - exists h. split; [done|]. intros b. rewrite decide_False; [done|].
    by intros ?%elem_of_nil.
  - apply NoDup_cons in Hd as [Ha Hd]. apply Forall_cons in Hnz as [Ha0 Hnz].
    assert (Hrd : read_next h a 0 = Some (List.hd NULL l)).
    { destruct l as [|b l]; [|simpl in Hl; by destruct Hl].
      by apply (Hlast [] a). }
    assert (Hext : ∀ b, b ∈ l →
              read_next (sl_delete_node h a) b 0 = read_next h b 0).
    { intros b Hb. unfold read_next, sl_delete_node.
      rewrite lookup_delete_ne; [done|]. by intros ->. }
    destruct (IH (sl_delete_node h a) fuel) as (h' & E & Hh');
      [done|done| | |simpl in Hf; lia|].
    { eapply linked_ext; [|exact Hext].
      destruct l; [done|]. simpl in Hl. by destruct Hl. }
    { intros X z E. rewrite Hext.
      - apply (Hlast (a :: X) z). by rewrite E.
      - rewrite E. apply elem_of_app. right. by apply list_elem_of_singleton. }
    exists h'. split.
    + cbn [delete_loop List.hd].
      destruct (Z.eqb_spec a NULL) as [|_]; [done|]. rewrite Hrd.
      cbn [mbind option_bind]. exact E.
    + intros b. rewrite Hh'. unfold sl_delete_node.
      destruct (decide (b = a)) as [->|Hne].
      * rewrite decide_False by done. rewrite decide_True
          by (apply elem_of_cons; by left). apply lookup_delete_eq.
      * rewrite lookup_delete_ne by done.
        destruct (decide (b ∈ l)).
        -- rewrite decide_True; [done|]. apply elem_of_cons. by right.
        -- rewrite decide_False; [done|].
           intros [?|?]%elem_of_cons; done.
Qed.

Lemma sl_set_delete_SL M hd tl L h brk fuel :
  SL M hd tl L h brk → (length L + 3 ≤ fuel)%nat →
  ∃ h', sl_set_delete fuel h (mk_set hd) = Some h'
    ∧ ∀ b, h' !! b = if decide (b ∈ hd :: addrs L ++ [tl]) then None
                     else h !! b.
Proof.
  intros [Hb Hl] Hf. pose proof (b_M _ _ _ _ _ _ Hb) as HM.
  pose proof (b_nodes _ _ _ _ _ _ Hb) as Hn.
  specialize (Hl 0%nat ltac:(lia)). rewrite (level_0 _ _ _ Hn) in Hl.
  unfold sl_set_delete. cbn [head].
  apply (delete_loop_chain (hd :: addrs L ++ [tl])).
  - pose proof (b_nodup _ _ _ _ _ _ Hb) as Hd.
    apply (NoDup_Permutation_proper (hd :: tl :: addrs L)); [|done].
    constructor. change (tl :: addrs L) with ([tl] ++ addrs L).
    apply Permutation_app_comm.
  - pose proof (b_addr _ _ _ _ _ _ Hb) as Ha.
    rewrite !Forall_cons in Ha. destruct Ha as ([_ ?] & [_ ?] & Ha).
    apply Forall_cons. split; [done|]. apply Forall_app. split.
    + eapply Forall_impl; [exact Ha|]. by intros a [_ ?].
    + by apply Forall_singleton.
  - done.
  - intros X z E.
    change (hd :: addrs L ++ [tl]) with ((hd :: addrs L) ++ [tl]) in E.
    apply app_inj_tail in E as [_ <-].
    apply (tail_next M hd tl [] L h brk Hb). lia.
  - simpl. rewrite length_app. unfold addrs. rewrite length_fmap. simpl. lia.
Qed.

(** ** What the search returns on a quiescent list *)

Lemma search_pairs levelmax M hd tl tbl est T fuel s L v :
  levelmax = Z.of_nat M → (∀ w, (0 <= estimate est w)%Q ∧ (estimate est w < 1)%Q) → 1 <= T →
  length tbl = Z.to_nat T → head_start hd tl tbl →
  VAL_MIN < v < VAL_MAX → SL M hd tl L (st_heap s) (st_brk s) →
  (length L + 2 ≤ fuel)%nat →
  ∃ it preds succs,
    fraser_search fuel s v (Some (new_array levelmax))
                  (Some (new_array levelmax)) tbl est T
    = Some (mk_state (st_heap s) (st_brk s) (st_y s) it,
            Some preds, Some succs)
    ∧ length preds = M ∧ length succs = M
    ∧ ∀ i, (i < M)%nat →
        ∃ p q np nq,
          preds !! i = Some p ∧ succs !! i = Some q
          ∧ read_next (st_heap s) p i = Some q
          ∧ st_heap s !! p = Some np ∧ st_heap s !! q = Some nq
          ∧ val np < v ∧ v <= val nq.
Proof.
  intros HM Hest HT Hlen Hstart Hv HSL Hf. pose proof HSL as [Hb _].
  destruct (sorted_split L v (b_sorted _ _ _ _ _ _ Hb))
    as (L1 & L2 & -> & Hlo & Hhi).
  assert (Hf1 : (length L1 + 2 ≤ fuel)%nat) by (rewrite length_app in Hf; lia).
  destruct (fraser_search_SL M hd tl L1 L2 v fuel s tbl est T
              (Some (new_array levelmax)) (Some (new_array levelmax))
              Hv Hlo Hhi Hest HT Hlen Hstart Hf1 HSL)
    as (it & E); [by apply new_array_len..|].
  rewrite !(fill_new levelmax M tbl T HM Hlen) in E
    by (apply preds_of_length || apply succs_of_length).
  exists it, (preds_of hd L1 M), (succs_of tl L2 M).
  split; [done|]. split; [apply preds_of_length|].
  split; [apply succs_of_length|]. intros i Hi.
  destruct (level_step M hd tl L1 L2 (st_brk s) 0 v Hv Hlo Hhi (st_heap s)
              (st_brk s) Hb i fuel Hi Hf1) as (_ & _ & _ & _ & Hrd).
  { by apply SL_GSL. }
  rewrite decide_False in Hrd by lia.
  destruct (node_above M hd tl L1 L2 v Hv Hhi (st_heap s) (st_brk s) Hb
              (succ_at tl L2 i) (succ_in tl L2 i)) as (nq & Hnq & Hq).
  assert (∃ np, st_heap s !! pred_at hd L1 i = Some np ∧ val np < v)
    as (np & Hnp & Hp).
  { pose proof (pred_in hd L1 i) as Hin.
    apply elem_of_cons in Hin as [->|Hin].
    - destruct (b_head _ _ _ _ _ _ Hb) as (n & ? & Hval & _).
      exists n. split; [done|]. lia.
    - apply (addrs_level_elem i) in Hin.
      by destruct (node_below M hd tl L1 L2 v Hlo (st_heap s) (st_brk s) Hb
                     _ Hin) as [_ ?]. }
  exists (pred_at hd L1 i), (succ_at tl L2 i), np, nq.
  rewrite preds_of_lookup, succs_of_lookup by done. done.
Qed.

(** ** What a removal leaves behind *)

Lemma unlinked_lookup_ne hd tl L1 L2 ht a :
  (∀ i, pred_at hd L1 i ≠ a) →
  ∀ k h, unlinked hd tl L1 L2 ht k h !! a = h !! a.
Proof.
  intros Ha. induction k as [|k IH]; intros h; cbn [unlinked]; [done|].
  rewrite IH. destruct (decide (k < ht)%nat); [|done].
  by apply upd_lookup_ne.
Qed.

Lemma sl_remove_node levelmax M hd tl tbl est T fuel s L v :
  levelmax = Z.of_nat M → (∀ w, (0 <= estimate est w)%Q ∧ (estimate est w < 1)%Q) → 1 <= T →
  length tbl = Z.to_nat T → head_start hd tl tbl →
  VAL_MIN < v < VAL_MAX → SL M hd tl L (st_heap s) (st_brk s) →
  (length L + 2 ≤ fuel)%nat → v ∈ vals L →
  ∃ s' L' x n,
    sl_remove levelmax fuel s tbl est T v = Some (1, s')
    ∧ SL M hd tl L' (st_heap s') (st_brk s')
    ∧ st_brk s' = st_brk s
    ∧ (x ∉ hd :: tl :: addrs L')
    ∧ st_heap s !! x = Some n ∧ val n = v ∧ deleted n = 0
    ∧ st_heap s' !! x
      = Some (mk_node v 1 (toplevel n) (set_mark <$> next n))
    ∧ ∃ L1 L2 t, L = L1 ++ t :: L2 ∧ L' = L1 ++ L2 ∧ t_addr t = x.
Proof.
  intros HM Hest HT Hlen Hstart Hv HSL Hf Hin. pose proof HSL as [Hb _].
  destruct (sorted_split L v (b_sorted _ _ _ _ _ _ Hb))
    as (L1 & L2 & -> & Hlo & Hhi).
  assert (Hf1 : (length L1 + 2 ≤ fuel)%nat) by (rewrite length_app in Hf; lia).
  destruct (fraser_search_SL M hd tl L1 L2 v fuel s tbl est T None
              (Some (new_array levelmax)) Hv Hlo Hhi Hest HT Hlen Hstart)
    as (it & E); [done|done|done|by apply new_array_len|].
  rewrite (fill_new levelmax M tbl T HM Hlen) in E by apply succs_of_length.
  destruct (succ_cases M hd tl L1 L2 (st_heap s) (st_brk s) v Hv Hlo Hhi Hb)
    as [(_ & t & L2' & -> & Ev & Es & Hgt)|(Hnin & _)]; [|done].
  pose proof (b_nodes _ _ _ _ _ _ Hb) as Hn. rewrite Forall_forall in Hn.
  destruct (Hn t) as (n & Hn0 & Hval & Hdel & Htop & Hnl & _).
  { apply elem_of_app. right. apply elem_of_cons. by left. }
  destruct (base_remove _ _ _ _ _ _ _ _ Hb) as (Hb' & Hxm & Hx).
  set (x := t_addr t) in *.
  set (n1 := set_deleted n (wrap_int (0 + 1))).
  set (h1 := <[x := n1]> (st_heap s)).
  set (h2 := <[x := mk_node (val n1) (deleted n1) (toplevel n1)
                            (set_mark <$> next n1)]> h1).
  assert (Emn : mark_node_ptrs fuel h1 x = Some h2).
  { apply MarkFacts.mark_node_ptrs_all; [lia|apply lookup_insert_eq|].
    cbn. rewrite Hnl, Htop. lia. }
  assert (G : GSL M hd tl L1 L2' x (t_height t) M h2 (st_brk s)).
  { eapply GSL_marked; [exact HSL| | |].
    - intros a Ha. unfold h2, h1. by rewrite !lookup_insert_ne.
    - intros a. unfold h2, h1.
      destruct (decide (a = x)) as [->|Hne].
      + rewrite lookup_insert_eq, Hn0. split; eauto.
      + by rewrite !lookup_insert_ne.
    - intros i Hi. fold x. unfold read_next, h2.
      rewrite lookup_insert_eq, Hn0. cbn [mbind option_bind next n1 set_deleted].
      by rewrite list_lookup_fmap. }
  assert (Hhi' : Forall (λ t', v <= t_val t') L2').
  { eapply Forall_impl; [exact Hgt|]. simpl. intros; lia. }
  destruct (fraser_search_G M hd tl L1 L2' x (t_height t) v Hv
              Hlo Hhi' fuel
              (mk_state h2 (st_brk s) (st_y s) it) tbl est T None None
              Hest HT Hlen Hstart Hf1 G) as (it' & E2 & HSL'); [done..|].
  cbn [st_heap st_brk st_y] in E2, HSL'.
  exists (mk_state (unlinked hd tl L1 L2' (t_height t) M h2) (st_brk s)
                   (st_y s) it'), (L1 ++ L2'), x, n.
  split; [|split; [exact HSL'|]].
  - unfold sl_remove. rewrite E. cbn [mbind option_bind].
    rewrite succs_of_lookup by (pose proof (b_M _ _ _ _ _ _ Hb); lia).
    cbn [mbind option_bind st_heap]. rewrite Es. fold x. rewrite Hn0.
    cbn [mbind option_bind]. rewrite Hval, Ev, Z.eqb_refl, Hdel, Z.eqb_refl.
    fold n1 h1. rewrite Emn. cbn [mbind option_bind].
    unfold with_heap. cbn [st_brk st_y st_iter]. rewrite E2. done.
  - cbn [st_heap st_brk]. split; [done|]. split; [done|].
    split; [done|]. split; [congruence|]. split; [done|].
    split; [|by exists L1, L2', t].
    rewrite unlinked_lookup_ne.
    + unfold h2. rewrite lookup_insert_eq. cbn. by rewrite Hval, Ev.
    + intros i E'. apply Hx. rewrite <- E'.
      apply (in_A_addr hd tl L1 L2' i), pred_in.
Qed.

End RunFacts.

(** X5.  After any sequential run from a freshly created set (values
    strictly between the sentinels, the table built on the fresh set) the
    level-0 chain leads from the head, which holds [VAL_MIN], through nodes
    whose values are strictly increasing and are exactly the members of the
    reference set, to the tail, which holds [VAL_MAX] and whose own
    reference is null. *)
Theorem X5_fresh_run_keeps_chain_sorted (levelmax : Z) (fuel : nat)
    (s0 : MLSkiplist.state) (est : estimator) (T : Z) (ops : list op) :
  1 <= levelmax → 2 <= T → (∀ w, (0 <= estimate est w)%Q ∧ (estimate est w < 1)%Q) →
  alloc_ok (MLSkiplist.st_heap s0) (MLSkiplist.st_brk s0) →
  Forall (λ o, VAL_MIN < op_val o < VAL_MAX) ops →
  (length ops + 2 ≤ fuel)%nat →
  ∃ set s tbl (l : list (Z * Z)) tl,
    fresh_exec levelmax fuel s0 est T ops = Some (set, s, tbl)
    ∧ Shape.chain0 (MLSkiplist.st_heap s) (MLSkiplist.head set) (l.*1) tl
    ∧ Forall (Shape.has_val (MLSkiplist.st_heap s)) l
    ∧ Shape.has_val (MLSkiplist.st_heap s) (MLSkiplist.head set, VAL_MIN)
    ∧ Shape.has_val (MLSkiplist.st_heap s) (tl, VAL_MAX)
    ∧ StronglySorted Z.lt (l.*2)
    ∧ Forall (λ v, VAL_MIN < v < VAL_MAX) (l.*2)
    ∧ list_to_set (l.*2) = ref_exec ∅ ops.
Proof.
  intros Hl HT Hest Hal Hops Hf.
  destruct (RunFacts.fresh_exec_SL levelmax fuel s0 est T ops Hl HT Hest Hal
              Hops Hf) as (hd & tl & s & tbl & L & E & HSL & _ & _ & HS & _).
  destruct (RunFacts.SL_chain0 _ _ _ _ _ _ HSL)
    as (E1 & E2 & Hc & Hv & Hh & Ht & Hs & Hr).
  exists (MLSkiplist.mk_set hd), s, tbl, ((λ t, (Seq.t_addr t, Seq.t_val t)) <$> L), tl.
  split; [done|]. split; [done|]. split; [done|]. split; [done|].
  split; [done|]. split; [done|]. split; [done|]. by rewrite E2.
Qed.

(** X6.  After any such run [sl_set_size] returns the number of members of
    the reference set (as an [unsigned long]). *)
Theorem X6_fresh_run_size_matches_model (levelmax : Z) (fuel : nat)
    (s0 : MLSkiplist.state) (est : estimator) (T : Z) (ops : list op) :
  1 <= levelmax → 2 <= T → (∀ w, (0 <= estimate est w)%Q ∧ (estimate est w < 1)%Q) →
  alloc_ok (MLSkiplist.st_heap s0) (MLSkiplist.st_brk s0) →
  Forall (λ o, VAL_MIN < op_val o < VAL_MAX) ops →
  (length ops + 2 ≤ fuel)%nat →
  ∃ set s tbl,
    fresh_exec levelmax fuel s0 est T ops = Some (set, s, tbl)
    ∧ MLSkiplist.sl_set_size fuel (MLSkiplist.st_heap s) set
      = Some (Z.of_nat (size (ref_exec ∅ ops)) mod 18446744073709551616).
Proof.
  intros Hl HT Hest Hal Hops Hf.
  destruct (RunFacts.fresh_exec_SL levelmax fuel s0 est T ops Hl HT Hest Hal
              Hops Hf) as (hd & tl & s & tbl & L & E & HSL & _ & _ & HS & HL).
  exists (MLSkiplist.mk_set hd), s, tbl. split; [done|].
  rewrite (RunFacts.sl_set_size_SL _ _ _ _ _ _ fuel HSL) by lia.
  rewrite <- HS. rewrite size_list_to_set.
  - unfold Seq.vals. by rewrite length_fmap.
  - apply RunFacts.sorted_nodup. destruct HSL as [Hb _].
    apply (Seq.b_sorted _ _ _ _ _ _ Hb).
Qed.

(** X7.  After any such run [sl_set_delete] frees the head, the tail and
    every node of the level-0 chain between them, and nothing else: what was
    allocated off the chain (the nodes of removed values) stays allocated. *)
Theorem X7_fresh_run_delete_frees_chain (levelmax : Z) (fuel : nat)
    (s0 : MLSkiplist.state) (est : estimator) (T : Z) (ops : list op) :
  1 <= levelmax → 2 <= T → (∀ w, (0 <= estimate est w)%Q ∧ (estimate est w < 1)%Q) →
  alloc_ok (MLSkiplist.st_heap s0) (MLSkiplist.st_brk s0) →
  Forall (λ o, VAL_MIN < op_val o < VAL_MAX) ops →
  (length ops + 3 ≤ fuel)%nat →
  ∃ set s tbl l tl h',
    fresh_exec levelmax fuel s0 est T ops = Some (set, s, tbl)
    ∧ Shape.chain0 (MLSkiplist.st_heap s) (MLSkiplist.head set) l tl
    ∧ MLSkiplist.sl_set_delete fuel (MLSkiplist.st_heap s) set = Some h'
    ∧ ∀ b, h' !! b = if decide (b ∈ MLSkiplist.head set :: l ++ [tl])
                     then None else MLSkiplist.st_heap s !! b.
Proof.
  intros Hl HT Hest Hal Hops Hf.
  destruct (RunFacts.fresh_exec_SL levelmax fuel s0 est T ops Hl HT Hest Hal
              Hops ltac:(lia))
    as (hd & tl & s & tbl & L & E & HSL & _ & _ & HS & HL).
  destruct (RunFacts.SL_chain0 _ _ _ _ _ _ HSL) as (E1 & _ & Hc & _).
  destruct (RunFacts.sl_set_delete_SL _ _ _ _ _ _ fuel HSL) as (h' & Ed & Hh');
    [lia|].
  exists (MLSkiplist.mk_set hd), s, tbl, (Seq.addrs L), tl, h'.
  split; [done|]. split; [by rewrite <- E1|]. split; [done|]. exact Hh'.
Qed.

(** X8.  In the state any such run ends in, [fraser_search] for a value
    between the sentinels changes nothing in the node store and records, at
    every level, a node that holds a smaller value and the node it refers to
    at that level, which holds a value that is not smaller. *)
Theorem X8_search_brackets_value (levelmax : Z) (fuel : nat)
    (s0 : MLSkiplist.state) (est : estimator) (T : Z) (ops : list op)
    (v : Z) :
  1 <= levelmax → 2 <= T → (∀ w, (0 <= estimate est w)%Q ∧ (estimate est w < 1)%Q) →
  alloc_ok (MLSkiplist.st_heap s0) (MLSkiplist.st_brk s0) →
  Forall (λ o, VAL_MIN < op_val o < VAL_MAX) ops →
  (length ops + 2 ≤ fuel)%nat → VAL_MIN < v < VAL_MAX →
  ∃ set s tbl it preds succs,
    fresh_exec levelmax fuel s0 est T ops = Some (set, s, tbl)
    ∧ MLSkiplist.fraser_search fuel s v
        (Some (MLSkiplist.new_array levelmax))
        (Some (MLSkiplist.new_array levelmax)) tbl est T
      = Some (MLSkiplist.mk_state (MLSkiplist.st_heap s)
                (MLSkiplist.st_brk s) (MLSkiplist.st_y s) it,
              Some preds, Some succs)
    ∧ ∀ i, (i < Z.to_nat levelmax)%nat →
        ∃ p q np nq,
          preds !! i = Some p ∧ succs !! i = Some q
          ∧ MLSkiplist.read_next (MLSkiplist.st_heap s) p i = Some q
          ∧ MLSkiplist.st_heap s !! p = Some np
          ∧ MLSkiplist.st_heap s !! q = Some nq
          ∧ MLSkiplist.val np < v ∧ v <= MLSkiplist.val nq.
Proof.
  intros Hl HT Hest Hal Hops Hf Hv.
  destruct (RunFacts.fresh_exec_SL levelmax fuel s0 est T ops Hl HT Hest Hal
              Hops Hf)
    as (hd & tl & s & tbl & L & E & HSL & Hstart & Hlen & HS & HL).
  destruct (RunFacts.search_pairs levelmax (Z.to_nat levelmax) hd tl tbl est T
              fuel s L v ltac:(lia) Hest ltac:(lia) Hlen Hstart Hv HSL)
    as (it & preds & succs & Es & _ & _ & Hp); [lia|].
  by exists (MLSkiplist.mk_set hd), s, tbl, it, preds, succs.
Qed.

(** X9.  In the state any such run ends in, [sl_contains] answers like the
    reference set and leaves the node store, the allocator and the level
    generator as they were: only the iteration counter moves. *)
Theorem X9_contains_is_read_only (levelmax : Z) (fuel : nat)
    (s0 : MLSkiplist.state) (est : estimator) (T : Z) (ops : list op)
    (v : Z) :
  1 <= levelmax → 2 <= T → (∀ w, (0 <= estimate est w)%Q ∧ (estimate est w < 1)%Q) →
  alloc_ok (MLSkiplist.st_heap s0) (MLSkiplist.st_brk s0) →
  Forall (λ o, VAL_MIN < op_val o < VAL_MAX) ops →
  (length ops + 2 ≤ fuel)%nat → VAL_MIN < v < VAL_MAX →
  ∃ set s tbl it,
    fresh_exec levelmax fuel s0 est T ops = Some (set, s, tbl)
    ∧ MLSkiplist.sl_contains levelmax fuel s tbl est T v
      = Some (if decide (v ∈ ref_exec ∅ ops) then 1 else 0,
              MLSkiplist.mk_state (MLSkiplist.st_heap s)
                (MLSkiplist.st_brk s) (MLSkiplist.st_y s) it).
Proof.
  intros Hl HT Hest Hal Hops Hf Hv.
  destruct (RunFacts.fresh_exec_SL levelmax fuel s0 est T ops Hl HT Hest Hal
              Hops Hf)
    as (hd & tl & s & tbl & L & E & HSL & Hstart & Hlen & HS & HL).
  destruct (SeqFacts.sl_contains_SL levelmax (Z.to_nat levelmax) hd tl tbl
              est T ltac:(lia) Hest ltac:(lia) Hlen Hstart fuel s L v Hv HSL)
    as (it & Ec); [lia|].
  exists (MLSkiplist.mk_set hd), s, tbl, it. split; [done|]. rewrite Ec.
  rewrite <- HS. do 2 f_equal.
  destruct (decide (v ∈ Seq.vals L)) as [H|H].
  - rewrite decide_True; [done|]. by apply elem_of_list_to_set.
  - rewrite decide_False; [done|]. by rewrite elem_of_list_to_set.
Qed.

(** X10.  In the state a sequential run from a fresh set ends in,
    removing a member is a logical deletion that never gives the storage
    back.  The node [x] that holds the value on the level-0 chain before the
    call (flag 0) is, after [sl_remove] has returned 1, still allocated at
    the same address with the same value and height, its flag set and every
    forward reference marked (the addresses referred to unchanged); the
    level-0 chain is the one before the call without [x]; and the allocator
    has not moved. *)
Theorem X10_remove_unlinks_but_keeps_node (levelmax : Z) (fuel : nat)
    (s0 : MLSkiplist.state) (est : estimator) (T : Z) (ops : list op)
    (v : Z) :
  1 <= levelmax → 2 <= T → (∀ w, (0 <= estimate est w)%Q ∧ (estimate est w < 1)%Q) →
  alloc_ok (MLSkiplist.st_heap s0) (MLSkiplist.st_brk s0) →
  Forall (λ o, VAL_MIN < op_val o < VAL_MAX) ops →
  (length ops + 2 ≤ fuel)%nat → VAL_MIN < v < VAL_MAX →
  v ∈ ref_exec ∅ ops →
  ∃ set s tbl s' x n l1 l2 tl,
    fresh_exec levelmax fuel s0 est T ops = Some (set, s, tbl)
    ∧ Shape.chain0 (MLSkiplist.st_heap s) (MLSkiplist.head set)
        (l1 ++ x :: l2) tl
    ∧ MLSkiplist.st_heap s !! x = Some n
    ∧ MLSkiplist.val n = v ∧ MLSkiplist.deleted n = 0
    ∧ MLSkiplist.sl_remove levelmax fuel s tbl est T v = Some (1, s')
    ∧ MLSkiplist.st_brk s' = MLSkiplist.st_brk s
    ∧ MLSkiplist.st_heap s' !! x
      = Some (MLSkiplist.mk_node v 1 (MLSkiplist.toplevel n)
                (set_mark <$> MLSkiplist.next n))
    ∧ Shape.chain0 (MLSkiplist.st_heap s') (MLSkiplist.head set)
        (l1 ++ l2) tl
    ∧ x ∉ MLSkiplist.head set :: (l1 ++ l2) ++ [tl].
Proof.
  intros Hl HT Hest Hal Hops Hf Hv Hin.
  destruct (RunFacts.fresh_exec_SL levelmax fuel s0 est T ops Hl HT Hest Hal
              Hops Hf)
    as (hd & tl & s & tbl & L & E & HSL & Hstart & Hlen & HS & HL).
  destruct (RunFacts.sl_remove_node levelmax (Z.to_nat levelmax) hd tl tbl
              est T fuel s L v ltac:(lia) Hest ltac:(lia) Hlen Hstart Hv HSL)
    as (s' & L' & x & n & Er & HSL' & Hbrk & Hx & Hn & Hval & Hdel & Hn'
        & L1 & L2 & t & -> & -> & Ht);
    [lia|by rewrite <- HS, elem_of_list_to_set in Hin|].
  destruct (RunFacts.SL_chain0 _ _ _ _ _ _ HSL) as (E0 & _ & Hc0 & _).
  destruct (RunFacts.SL_chain0 _ _ _ _ _ _ HSL') as (E1 & _ & Hc & _).
  rewrite E0 in Hc0. rewrite E1 in Hc.
  unfold Seq.addrs in Hc0, Hc, Hx. rewrite fmap_app in Hc0, Hc, Hx.
  rewrite fmap_cons, Ht in Hc0.
  exists (MLSkiplist.mk_set hd), s, tbl, s', x, n,
    (Seq.t_addr <$> L1), (Seq.t_addr <$> L2), tl.
  split; [done|]. split; [exact Hc0|]. split; [done|]. split; [done|].
  split; [done|]. split; [done|]. split; [done|]. split; [exact Hn'|].
  split; [exact Hc|].
  cbn [MLSkiplist.head]. intros Hin'. apply Hx.
  apply elem_of_cons in Hin' as [->|Hin']; [apply elem_of_cons; by left|].
  apply elem_of_cons. right.
  apply elem_of_app in Hin' as [?|Ht'%list_elem_of_singleton].
  + apply elem_of_cons. by right.
  + rewrite Ht'. apply elem_of_cons. by left.
Qed.

Module SafetyFacts.
Import MLSkiplist Shape Engine.

Lemma upd_step_dom x h h' a :
  upd_step x h h' → (is_Some (h' !! a) ↔ is_Some (h !! a)).
Proof.
  intros (b & i & q & n & Hn & Hi & -> & _).
  destruct (decide (a = b)) as [->|Hne].
  - rewrite lookup_insert_eq, Hn. split; eauto.
  - by rewrite lookup_insert_ne.
Qed.

Lemma rtc_upd_dom x h h' a :
  rtc (upd_step x) h h' → (is_Some (h' !! a) ↔ is_Some (h !! a)).
Proof.
  induction 1 as [|h1 h2 h3 H12 _ IH]; [done|].
  rewrite IH. by eapply upd_step_dom.
Qed.

(** What a run of stores to forward references keeps of every node. *)
Lemma rtc_upd_stable x h h' a n :
  rtc (upd_step x) h h' → h !! a = Some n →
  ∃ n', h' !! a = Some n' ∧ node_stable n n'.
Proof.
  intros H Hn. destruct (rtc_upd_evolves x h h' H a n Hn) as (n' & ? & ? & _).
  eauto.
Qed.

Lemma arr_unmarked_None : arr_unmarked None.
Proof. by intros l. Qed.

Lemma search_stable fuel s v ll rl tbl est T s' ll' rl' :
  fraser_search fuel s v ll rl tbl est T = Some (s', ll', rl') →
  arr_unmarked ll → arr_unmarked rl →
  rtc (upd_step 0) (st_heap s) (st_heap s') ∧ st_brk s' = st_brk s.
Proof.
  intros E Hll Hrl.
  destruct (fraser_search_spec v tbl est T fuel s ll rl s' ll' rl' E Hll Hrl)
    as (H & _ & _ & Hb & _).
  split; [by apply rtc_unlink_upd|done].
Qed.

End SafetyFacts.

(** X11.  Whatever the state and the shift table, an operation that returns
    has returned 0 or 1, has allocated nothing except possibly one node at
    the allocation pointer, and has kept every node that existed: same
    address, value and height; the flag changes only when [sl_remove] sets
    it, from 0 to 1, on a node that holds the removed value. *)
Theorem X11_operations_keep_nodes (levelmax : Z) (fuel : nat)
    (s : MLSkiplist.state) (tbl : list shift_node) (est : estimator) (T : Z)
    (o : op) (r : Z) (s' : MLSkiplist.state) :
  MLSkiplist.st_heap s !! MLSkiplist.st_brk s = None →
  impl_step levelmax fuel s tbl est T o = Some (r, s') →
  (r = 0 ∨ r = 1)
  ∧ (∀ a, is_Some (MLSkiplist.st_heap s' !! a) →
          a = MLSkiplist.st_brk s ∨ is_Some (MLSkiplist.st_heap s !! a))
  ∧ ∀ a n, MLSkiplist.st_heap s !! a = Some n →
      ∃ n', MLSkiplist.st_heap s' !! a = Some n'
        ∧ MLSkiplist.val n' = MLSkiplist.val n
        ∧ MLSkiplist.toplevel n' = MLSkiplist.toplevel n
        ∧ length (MLSkiplist.next n') = length (MLSkiplist.next n)
        ∧ (MLSkiplist.deleted n' = MLSkiplist.deleted n
           ∨ (o = Remove (MLSkiplist.val n) ∧ MLSkiplist.deleted n = 0
              ∧ MLSkiplist.deleted n' = 1)).
Proof.
  intros Hfresh H. destruct o as [v|v|v]; cbn [impl_step] in H.
  - (* sl_add *)
    unfold MLSkiplist.sl_add in H.
    destruct (AddFacts.sl_add_alloc_spec levelmax s v) as (l & y & Ea).
    rewrite Ea in H.
    apply RetryFacts.sl_add_retry_spec in H as (h' & Hrtc & Hr);
      [|apply new_array_unmarked..].
    cbn [MLSkiplist.st_heap] in Hrtc.
    assert (Hold : ∀ a n, MLSkiplist.st_heap s !! a = Some n →
              a ≠ MLSkiplist.st_brk s
              ∧ ∃ n', h' !! a = Some n' ∧ Shape.node_stable n n').
    { intros a n Hn. assert (Hne : a ≠ MLSkiplist.st_brk s).
      { intros ->. by rewrite Hfresh in Hn. }
      split; [done|].
      apply (SafetyFacts.rtc_upd_stable _ _ _ _ _ Hrtc).
      by rewrite lookup_insert_ne. }
    assert (Hdom : ∀ a, is_Some (h' !! a) →
              a = MLSkiplist.st_brk s ∨ is_Some (MLSkiplist.st_heap s !! a)).
    { intros a Ha. apply (SafetyFacts.rtc_upd_dom _ _ _ a Hrtc) in Ha.
      destruct (decide (a = MLSkiplist.st_brk s)) as [|Hne]; [by left|].
      right. by rewrite lookup_insert_ne in Ha. }
    split; [destruct Hr as [[-> _]|[-> _]]; auto|]. split.
    + intros a Ha. destruct Hr as [[_ E]|[_ E]]; rewrite E in Ha.
      * by apply Hdom.
      * apply Hdom. destruct (decide (a = MLSkiplist.st_brk s)) as [->|Hne].
        -- rewrite lookup_delete_eq in Ha. by destruct Ha.
        -- by rewrite lookup_delete_ne in Ha.
    + intros a n Hn. destruct (Hold a n Hn) as (Hne & n' & Hn' & S1 & S2 & S3 & S4).
      exists n'. split.
      * destruct Hr as [[_ E]|[_ E]]; rewrite E; [done|].
        by rewrite lookup_delete_ne.
      * split; [done|]. split; [done|]. split; [done|]. by left.
  - (* sl_remove *)
    unfold MLSkiplist.sl_remove in H.
    destruct (MLSkiplist.fraser_search _ _ _ _ _ _ _ _)
      as [[[s1 ll1] rl1]|] eqn:E1; [|done].
    cbn [mbind option_bind] in H.
    destruct (SafetyFacts.search_stable _ _ _ _ _ _ _ _ _ _ _ E1)
      as [R1 B1]; [apply SafetyFacts.arr_unmarked_None
                  |apply new_array_unmarked|].
    destruct rl1 as [succs|]; [|done]. cbn [mbind option_bind] in H.
    destruct (succs !! 0%nat) as [x|]; [|done]. cbn [mbind option_bind] in H.
    destruct (MLSkiplist.st_heap s1 !! x) as [n0|] eqn:Ex; [|done].
    cbn [mbind option_bind] in H.
    assert (Hsame : ∀ a n, MLSkiplist.st_heap s !! a = Some n →
              ∃ n', MLSkiplist.st_heap s1 !! a = Some n'
                    ∧ Shape.node_stable n n').
    { intros a n. apply (SafetyFacts.rtc_upd_stable _ _ _ _ _ R1). }
    assert (Hd1 : ∀ a, is_Some (MLSkiplist.st_heap s1 !! a) →
              is_Some (MLSkiplist.st_heap s !! a)).
    { intros a. apply (SafetyFacts.rtc_upd_dom _ _ _ a R1). }
    assert (Hkeep : r = 0 → s' = s1 →
      (r = 0 ∨ r = 1)
      ∧ (∀ a, is_Some (MLSkiplist.st_heap s' !! a) →
              a = MLSkiplist.st_brk s ∨ is_Some (MLSkiplist.st_heap s !! a))
      ∧ ∀ a n, MLSkiplist.st_heap s !! a = Some n →
          ∃ n', MLSkiplist.st_heap s' !! a = Some n'
            ∧ MLSkiplist.val n' = MLSkiplist.val n
            ∧ MLSkiplist.toplevel n' = MLSkiplist.toplevel n
            ∧ length (MLSkiplist.next n') = length (MLSkiplist.next n)
            ∧ (MLSkiplist.deleted n' = MLSkiplist.deleted n
               ∨ (Remove v = Remove (MLSkiplist.val n)
                  ∧ MLSkiplist.deleted n = 0
                  ∧ MLSkiplist.deleted n' = 1))).
    { intros -> ->. split; [by left|]. split; [intros a Ha; right; auto|].
      intros a n Hn. destruct (Hsame a n Hn) as (n' & ? & ? & ? & ? & ?).
      exists n'. split; [done|]. split; [done|]. split; [done|].
      split; [done|]. by left. }
    destruct (Z.eqb_spec (MLSkiplist.val n0) v) as [Ev|_]; cbv iota in H;
      [|injection H as Hr Hs; symmetry in Hr, Hs; by apply Hkeep].
    destruct (Z.eqb_spec (MLSkiplist.deleted n0) 0) as [Ed|_]; cbv iota in H;
      [|injection H as Hr Hs; symmetry in Hr, Hs; by apply Hkeep].
    clear Hkeep.
    destruct (MLSkiplist.mark_node_ptrs _ _ _) as [h3|] eqn:Em; [|done].
    cbn [mbind option_bind] in H.
    destruct (MLSkiplist.fraser_search fuel (MLSkiplist.with_heap s1 h3) v
                None None tbl est T)
      as [[[s4 ll4] rl4]|] eqn:E4; [|done].
    cbn [mbind option_bind] in H. injection H as <- <-.
    set (h2 := <[x := MLSkiplist.set_deleted n0
                          (wrap_int (MLSkiplist.deleted n0 + 1))]>
                 (MLSkiplist.st_heap s1)) in *.
    destruct (RetryFacts.mark_node_ptrs_spec fuel h2 x _ h3 Em
                (lookup_insert_eq _ _ _)) as [R3 _].
    destruct (SafetyFacts.search_stable _ _ _ _ _ _ _ _ _ _ _ E4)
      as [R4 B4]; [apply SafetyFacts.arr_unmarked_None..|].
    cbn [MLSkiplist.with_heap MLSkiplist.st_heap] in R4.
    assert (R34 : rtc (Shape.upd_step 0) h2 (MLSkiplist.st_heap s4))
      by (etrans; [apply R3|exact R4]).
    split; [by right|]. split.
    + intros a Ha. right. apply Hd1.
      apply (SafetyFacts.rtc_upd_dom _ _ _ a R34) in Ha. unfold h2 in Ha.
      destruct (decide (a = x)) as [->|Hne]; [by rewrite Ex|].
      by rewrite lookup_insert_ne in Ha.
    + intros a n Hn. destruct (Hsame a n Hn) as (n1 & Hn1 & S1 & S2 & S3 & S4).
      destruct (decide (a = x)) as [->|Hne].
      * rewrite Ex in Hn1. injection Hn1 as ->.
        destruct (SafetyFacts.rtc_upd_stable _ _ _ x _ R34
                    (lookup_insert_eq _ _ _)) as (n' & Hn' & T1 & T2 & T3 & T4).
        exists n'. split; [done|]. cbn in T1, T2, T3, T4.
        split; [congruence|]. split; [congruence|]. split; [congruence|].
        right. split; [congruence|]. split; [congruence|].
        rewrite T2, Ed. done.
      * destruct (SafetyFacts.rtc_upd_stable _ _ _ a n1 R34)
          as (n' & Hn' & T1 & T2 & T3 & T4).
        { unfold h2. by rewrite lookup_insert_ne. }
        exists n'. split; [done|]. split; [congruence|].
        split; [congruence|]. split; [congruence|]. left. congruence.
  - (* sl_contains *)
    unfold MLSkiplist.sl_contains in H.
    destruct (MLSkiplist.fraser_search _ _ _ _ _ _ _ _)
      as [[[s1 ll1] rl1]|] eqn:E1; [|done].
    cbn [mbind option_bind] in H.
    destruct (SafetyFacts.search_stable _ _ _ _ _ _ _ _ _ _ _ E1)
      as [R1 B1]; [apply SafetyFacts.arr_unmarked_None
                  |apply new_array_unmarked|].
    destruct rl1 as [succs|]; [|done]. cbn [mbind option_bind] in H.
    destruct (succs !! 0%nat) as [x|]; [|done]. cbn [mbind option_bind] in H.
    destruct (MLSkiplist.st_heap s1 !! x) as [n0|] eqn:Ex; [|done].
    cbn [mbind option_bind] in H. injection H as <- <-.
    split; [destruct (_ && _); auto|]. split.
    + intros a Ha. right. by apply (SafetyFacts.rtc_upd_dom _ _ _ a R1).
    + intros a n Hn.
      destruct (SafetyFacts.rtc_upd_stable _ _ _ a n R1 Hn)
        as (n' & ? & ? & ? & ? & ?).
      exists n'. split; [done|]. split; [done|]. split; [done|].
      split; [done|]. by left.
Qed.


(** * Concrete instances *)

Lemma s_start_alloc_ok :
  alloc_ok (MLSkiplist.st_heap Scenario.s_start)
           (MLSkiplist.st_brk Scenario.s_start).
Proof.
  split; [reflexivity|]. split; [reflexivity|].
  intros a [n Hn]. unfold Scenario.s_start in Hn.
  cbn [MLSkiplist.st_heap] in Hn. by rewrite lookup_empty in Hn.
Qed.

Lemma X1_witness :
  MLSkiplist.floor_log_2 1000 = (if 1000 =? 0 then -1 else Z.log2 1000).
Proof. apply (X1_floor_log_2_is_log2 1000). lia. Defined.

Lemma X2_witness :
  1 <= (MLSkiplist.get_rand_level 32 2463534242).1 <= 32
  ∧ 0 <= (MLSkiplist.get_rand_level 32 2463534242).2 < 4294967296.
Proof. apply (X2_get_rand_level_in_range 32 2463534242); lia. Defined.

Lemma X4_witness :
  let h : MLSkiplist.heap :=
    <[4096 := MLSkiplist.mk_node 5 0 2 [4200; 4301]]> ∅ in
  let h' := <[4096 := MLSkiplist.mk_node 5 0 2 (set_mark <$> [4200; 4301])]> h in
  MLSkiplist.mark_node_ptrs 1 h 4096 = Some h'
  ∧ MLSkiplist.mark_node_ptrs 1 h' 4096 = Some h'.
Proof.
  apply (X4_mark_node_ptrs_marks_all 1
           (<[4096 := MLSkiplist.mk_node 5 0 2 [4200; 4301]]> ∅) 4096
           (MLSkiplist.mk_node 5 0 2 [4200; 4301])).
  - lia.
  - apply lookup_insert_eq.
  - reflexivity.
Defined.

Lemma X5_witness :
  ∃ set s tbl (l : list (Z * Z)) tl,
    fresh_exec Scenario.MAXLEVEL 16 Scenario.s_start Scenario.est_lin 4
      [Add 5; Add 1; Remove 5; Add 9; Add 3] = Some (set, s, tbl)
    ∧ Shape.chain0 (MLSkiplist.st_heap s) (MLSkiplist.head set) (l.*1) tl
    ∧ Forall (Shape.has_val (MLSkiplist.st_heap s)) l
    ∧ Shape.has_val (MLSkiplist.st_heap s) (MLSkiplist.head set, VAL_MIN)
    ∧ Shape.has_val (MLSkiplist.st_heap s) (tl, VAL_MAX)
    ∧ StronglySorted Z.lt (l.*2)
    ∧ Forall (λ v, VAL_MIN < v < VAL_MAX) (l.*2)
    ∧ list_to_set (l.*2) = ref_exec ∅ [Add 5; Add 1; Remove 5; Add 9; Add 3].
Proof.
  apply (X5_fresh_run_keeps_chain_sorted Scenario.MAXLEVEL 16
           Scenario.s_start Scenario.est_lin 4).
  - vm_compute. discriminate.
  - lia.
  - exact est_lin_range.
  - exact s_start_alloc_ok.
  - repeat apply Forall_cons_2; try apply Forall_nil_2;
      (vm_compute; split; reflexivity).
  - simpl. lia.
Defined.

Lemma X6_witness :
  ∃ set s tbl,
    fresh_exec Scenario.MAXLEVEL 16 Scenario.s_start Scenario.est_lin 4
      [Add 5; Add 1; Remove 5; Add 9; Add 3] = Some (set, s, tbl)
    ∧ MLSkiplist.sl_set_size 16 (MLSkiplist.st_heap s) set
      = Some (Z.of_nat (size (ref_exec ∅ [Add 5; Add 1; Remove 5; Add 9; Add 3]))
              mod 18446744073709551616).
Proof.
  apply (X6_fresh_run_size_matches_model Scenario.MAXLEVEL 16
           Scenario.s_start Scenario.est_lin 4).
  - vm_compute. discriminate.
  - lia.
  - exact est_lin_range.
  - exact s_start_alloc_ok.
  - repeat apply Forall_cons_2; try apply Forall_nil_2;
      (vm_compute; split; reflexivity).
  - simpl. lia.
Defined.

Lemma X7_witness :
  ∃ set s tbl l tl h',
    fresh_exec Scenario.MAXLEVEL 16 Scenario.s_start Scenario.est_lin 4
      [Add 5; Add 1; Remove 5; Add 9; Add 3] = Some (set, s, tbl)
    ∧ Shape.chain0 (MLSkiplist.st_heap s) (MLSkiplist.head set) l tl
    ∧ MLSkiplist.sl_set_delete 16 (MLSkiplist.st_heap s) set = Some h'
    ∧ ∀ b, h' !! b = if decide (b ∈ MLSkiplist.head set :: l ++ [tl])
                     then None else MLSkiplist.st_heap s !! b.
Proof.
  apply (X7_fresh_run_delete_frees_chain Scenario.MAXLEVEL 16
           Scenario.s_start Scenario.est_lin 4).
  - vm_compute. discriminate.
  - lia.
  - exact est_lin_range.
  - exact s_start_alloc_ok.
  - repeat apply Forall_cons_2; try apply Forall_nil_2;
      (vm_compute; split; reflexivity).
  - simpl. lia.
Defined.

Lemma X8_witness :
  ∃ set s tbl it preds succs,
    fresh_exec Scenario.MAXLEVEL 16 Scenario.s_start Scenario.est_lin 4
      [Add 5; Add 1; Remove 5; Add 9; Add 3] = Some (set, s, tbl)
    ∧ MLSkiplist.fraser_search 16 s 4
        (Some (MLSkiplist.new_array Scenario.MAXLEVEL))
        (Some (MLSkiplist.new_array Scenario.MAXLEVEL)) tbl
        Scenario.est_lin 4
      = Some (MLSkiplist.mk_state (MLSkiplist.st_heap s)
                (MLSkiplist.st_brk s) (MLSkiplist.st_y s) it,
              Some preds, Some succs)
    ∧ ∀ i, (i < Z.to_nat Scenario.MAXLEVEL)%nat →
        ∃ p q np nq,
          preds !! i = Some p ∧ succs !! i = Some q
          ∧ MLSkiplist.read_next (MLSkiplist.st_heap s) p i = Some q
          ∧ MLSkiplist.st_heap s !! p = Some np
          ∧ MLSkiplist.st_heap s !! q = Some nq
          ∧ MLSkiplist.val np < 4 ∧ 4 <= MLSkiplist.val nq.
Proof.
  apply (X8_search_brackets_value Scenario.MAXLEVEL 16
           Scenario.s_start Scenario.est_lin 4
           [Add 5; Add 1; Remove 5; Add 9; Add 3] 4).
  - vm_compute. discriminate.
  - lia.
  - exact est_lin_range.
  - exact s_start_alloc_ok.
  - repeat apply Forall_cons_2; try apply Forall_nil_2;
      (vm_compute; split; reflexivity).
  - simpl. lia.
  - vm_compute. split; reflexivity.
Defined.

Lemma X9_witness :
  ∃ set s tbl it,
    fresh_exec Scenario.MAXLEVEL 16 Scenario.s_start Scenario.est_lin 4
      [Add 5; Add 1; Remove 5; Add 9; Add 3] = Some (set, s, tbl)
    ∧ MLSkiplist.sl_contains Scenario.MAXLEVEL 16 s tbl Scenario.est_lin 4 9
      = Some (if decide (9 ∈ ref_exec ∅ [Add 5; Add 1; Remove 5; Add 9; Add 3])
              then 1 else 0,
              MLSkiplist.mk_state (MLSkiplist.st_heap s)
                (MLSkiplist.st_brk s) (MLSkiplist.st_y s) it).
Proof.
  apply (X9_contains_is_read_only Scenario.MAXLEVEL 16
           Scenario.s_start Scenario.est_lin 4
           [Add 5; Add 1; Remove 5; Add 9; Add 3] 9).
  - vm_compute. discriminate.
  - lia.
  - exact est_lin_range.
  - exact s_start_alloc_ok.
  - repeat apply Forall_cons_2; try apply Forall_nil_2;
      (vm_compute; split; reflexivity).
  - simpl. lia.
  - vm_compute. split; reflexivity.
Defined.

Lemma X10_witness :
  ∃ set s tbl s' x n l1 l2 tl,
    fresh_exec Scenario.MAXLEVEL 16 Scenario.s_start Scenario.est_lin 4
      [Add 5; Add 1; Remove 5; Add 9; Add 3] = Some (set, s, tbl)
    ∧ Shape.chain0 (MLSkiplist.st_heap s) (MLSkiplist.head set)
        (l1 ++ x :: l2) tl
    ∧ MLSkiplist.st_heap s !! x = Some n
    ∧ MLSkiplist.val n = 9 ∧ MLSkiplist.deleted n = 0
    ∧ MLSkiplist.sl_remove Scenario.MAXLEVEL 16 s tbl Scenario.est_lin 4 9
      = Some (1, s')
    ∧ MLSkiplist.st_brk s' = MLSkiplist.st_brk s
    ∧ MLSkiplist.st_heap s' !! x
      = Some (MLSkiplist.mk_node 9 1 (MLSkiplist.toplevel n)
                (set_mark <$> MLSkiplist.next n))
    ∧ Shape.chain0 (MLSkiplist.st_heap s') (MLSkiplist.head set)
        (l1 ++ l2) tl
    ∧ x ∉ MLSkiplist.head set :: (l1 ++ l2) ++ [tl].
Proof.
  apply (X10_remove_unlinks_but_keeps_node Scenario.MAXLEVEL 16
           Scenario.s_start Scenario.est_lin 4
           [Add 5; Add 1; Remove 5; Add 9; Add 3] 9).
  - vm_compute. discriminate.
  - lia.
  - exact est_lin_range.
  - exact s_start_alloc_ok.
  - repeat apply Forall_cons_2; try apply Forall_nil_2;
      (vm_compute; split; reflexivity).
  - simpl. lia.
  - vm_compute. split; reflexivity.
  - vm_compute. reflexivity.
Defined.

Lemma X11_witness :
  let s := Scenario.bulk_state in
  let o := Remove 3 in
  let r := (Scenario.after_op s Scenario.loaded_table o).1 in
  let s' := (Scenario.after_op s Scenario.loaded_table o).2 in
  (r = 0 ∨ r = 1)
  ∧ (∀ a, is_Some (MLSkiplist.st_heap s' !! a) →
          a = MLSkiplist.st_brk s ∨ is_Some (MLSkiplist.st_heap s !! a))
  ∧ ∀ a n, MLSkiplist.st_heap s !! a = Some n →
      ∃ n', MLSkiplist.st_heap s' !! a = Some n'
        ∧ MLSkiplist.val n' = MLSkiplist.val n
        ∧ MLSkiplist.toplevel n' = MLSkiplist.toplevel n
        ∧ length (MLSkiplist.next n') = length (MLSkiplist.next n)
        ∧ (MLSkiplist.deleted n' = MLSkiplist.deleted n
           ∨ (o = Remove (MLSkiplist.val n) ∧ MLSkiplist.deleted n = 0
              ∧ MLSkiplist.deleted n' = 1)).
Proof.
  apply (X11_operations_keep_nodes Scenario.MAXLEVEL Scenario.fuel
           Scenario.bulk_state Scenario.loaded_table Scenario.est_lin 4
           (Remove 3)
           (Scenario.after_op Scenario.bulk_state Scenario.loaded_table
              (Remove 3)).1
           (Scenario.after_op Scenario.bulk_state Scenario.loaded_table
              (Remove 3)).2).
  - vm_compute. reflexivity.
  - vm_compute. reflexivity.
Defined.


(** * The shortcut start *)

Module ShortcutFacts.
Import MLSkiplist.

Lemma iter_incr_S (n : nat) it :
  Nat.iter n incr_iter (incr_iter it) = Nat.iter (S n) incr_iter it.
Proof. induction n as [|n IH]; [done|]. simpl in *. by rewrite IH. Qed.

Lemma shortcut_loop_stops h tbl v :
  ∀ k e it,
    tbl !! k = Some e →
    (∀ i, (i ≤ k)%nat →
          ∃ e' n, tbl !! i = Some e' ∧ h !! unset_mark (node e') = Some n) →
    ∃ j ej nj,
      (j ≤ k)%nat ∧ tbl !! j = Some ej
      ∧ h !! unset_mark (node ej) = Some nj
      ∧ shortcut_loop h tbl v k (unset_mark (node e)) it
        = Some (unset_mark (node ej), Nat.iter (k - j) incr_iter it)
      ∧ (val nj <= v ∨ j = 0%nat)
      ∧ ∀ i e' n', (j < i ≤ k)%nat → tbl !! i = Some e' →
                   h !! unset_mark (node e') = Some n' → val n' > v.
Proof.
  induction k as [|k IH]; intros e it He Hall.
  - destruct (Hall 0%nat ltac:(lia)) as (e' & n & He' & Hn).
    rewrite He in He'. injection He' as <-.
    exists 0%nat, e, n. split; [lia|]. split; [done|]. split; [done|].
    split; [|split].
    + simpl. rewrite Hn. simpl. by destruct (val n >? v).
    + by right.
    + intros; lia.
  - destruct (Hall (S k) ltac:(lia)) as (e' & n & He' & Hn).
    rewrite He in He'. injection He' as <-.
    destruct (Z.gtb_spec (val n) v) as [Hgt|Hle].
    + destruct (Hall k ltac:(lia)) as (ek & nk & Hek & Hnk).
      destruct (IH ek (incr_iter it) Hek) as (j & ej & nj & Hj & Hej & Hnj & E & Hv & Hab).
      { intros i Hi. apply Hall. lia. }
      exists j, ej, nj. split; [lia|]. split; [done|]. split; [done|].
      split; [|split; [done|]].
      * cbn [shortcut_loop]. rewrite Hn. cbn [mbind option_bind].
        destruct (Z.gtb_spec (val n) v); [|lia]. rewrite Hek.
        cbn [mbind option_bind]. rewrite E. rewrite iter_incr_S.
        by replace (S k - j)%nat with (S (k - j)) by lia.
      * intros i e' n' Hi He' Hn'. destruct (decide (i = S k)) as [->|Hne].
        -- rewrite He in He'. injection He' as <-. rewrite Hn in Hn'.
           injection Hn' as <-. lia.
        -- apply (Hab i e' n'); [lia|done|done].
    + exists (S k), e, n. split; [lia|]. split; [done|]. split; [done|].
      split; [|split].
      * cbn [shortcut_loop]. rewrite Hn. cbn [mbind option_bind].
        destruct (Z.gtb_spec (val n) v); [lia|].
        by rewrite Nat.sub_diag.
      * by left.
      * intros; lia.
Qed.

End ShortcutFacts.

(** X12.  The shortcut start of [fraser_search]: when the buckets from the
    estimated one down to bucket 0 refer to allocated nodes, the loop stops
    at the first of them, going down, whose node holds a value that does not
    exceed the target, and at bucket 0 if there is none; the iteration
    counter has counted the buckets it looked at. *)
Theorem X12_shortcut_start_stops (h : MLSkiplist.heap) (tbl : list shift_node)
    (est : estimator) (T v it : Z) :
  0 <= bucket est T v →
  (∀ i, (i ≤ Z.to_nat (bucket est T v))%nat →
        ∃ e n, tbl !! i = Some e ∧ h !! unset_mark (node e) = Some n) →
  ∃ (j : nat) e n,
    (j ≤ Z.to_nat (bucket est T v))%nat
    ∧ tbl !! j = Some e ∧ h !! unset_mark (node e) = Some n
    ∧ MLSkiplist.shortcut_start h tbl est T v it
      = Some (unset_mark (node e),
              Nat.iter (Z.to_nat (bucket est T v) - j + 1)
                       MLSkiplist.incr_iter it)
    ∧ (MLSkiplist.val n <= v ∨ j = 0%nat)
    ∧ ∀ i e' n', (j < i ≤ Z.to_nat (bucket est T v))%nat →
        tbl !! i = Some e' → h !! unset_mark (node e') = Some n' →
        MLSkiplist.val n' > v.
Proof.
  intros Hk Hall. set (k := Z.to_nat (bucket est T v)) in *.
  destruct (Hall k ltac:(lia)) as (ek & nk & Hek & Hnk).
  destruct (ShortcutFacts.shortcut_loop_stops h tbl v k ek
              (MLSkiplist.incr_iter it) Hek Hall)
    as (j & e & n & Hj & He & Hn & E & Hv & Hab).
  exists j, e, n. split; [done|]. split; [done|]. split; [done|].
  split; [|split; [done|done]].
  unfold MLSkiplist.shortcut_start, tbl_get.
  destruct (Z.leb_spec 0 (bucket est T v)); [|lia]. fold k. rewrite Hek.
  cbn [mbind option_bind]. rewrite E. rewrite ShortcutFacts.iter_incr_S.
  by replace (k - j + 1)%nat with (S (k - j)) by lia.
Qed.


(** * The sequential bulk loader *)

Module BulkFacts.
Import MLSkiplist Shape Engine Seq SeqFacts.

(** The walk of one level: over the nodes [l] that hold values below [v],
    to the node [m] that does not. *)
Lemma seq_walk_linked h i v m :
  (∃ nm, h !! m = Some nm ∧ v <= val nm) →
  ∀ l a fuel,
    linked h i (a :: l ++ [m]) →
    Forall (λ b, ∃ n, h !! b = Some n ∧ val n < v) l →
    (length l + 1 ≤ fuel)%nat →
    seq_walk fuel h v i a (List.hd m l) = Some (List.last l a, m).
Proof.
  intros (nm & Hnm & Hv).
  induction l as [|b l IH]; intros a fuel Hl Hb Hf;
    (destruct fuel as [|fuel]; [simpl in Hf; lia|]).
  - cbn [seq_walk List.hd List.last]. rewrite Hnm. cbn [mbind option_bind].
    destruct (Z.ltb_spec (val nm) v); [lia|done].
  - apply Forall_cons in Hb as [(nb & Hnb & Hlt) Hb].
    change (linked h i (a :: b :: (l ++ [m]))) in Hl.
    apply linked_cons2 in Hl as [_ Hl].
    assert (Hnx : read_next h b i = Some (List.hd m l)).
    { destruct l; simpl in Hl; by destruct Hl. }
    cbn [seq_walk List.hd]. rewrite Hnb. cbn [mbind option_bind].
    destruct (Z.ltb_spec (val nb) v); [|lia]. rewrite Hnx.
    cbn [mbind option_bind]. rewrite last_cons_eq.
    apply IH; [done|done|simpl in Hf; lia].
Qed.

Section Levels.

Variables (M : nat) (hd tl : Z) (L1 L2 : list tower) (v : Z).
Hypothesis Hv : VAL_MIN < v < VAL_MAX.
Hypothesis Hlo : Forall (λ t, t_val t < v) L1.
Hypothesis Hhi : Forall (λ t, v <= t_val t) L2.
Variables (h : heap) (brk : Z).
Hypothesis HSL : SL M hd tl (L1 ++ L2) h brk.

Lemma seq_level_step i fuel :
  (i < M)%nat → (length L1 + 1 ≤ fuel)%nat →
  ∃ nx,
    read_next h (pred_at hd L1 (S i)) i = Some nx
    ∧ seq_walk fuel h v i (pred_at hd L1 (S i)) nx
      = Some (pred_at hd L1 i, succ_at tl L2 i)
    ∧ read_next h (pred_at hd L1 i) i = Some (succ_at tl L2 i).
Proof.
  intros Hi Hf. pose proof HSL as [Hb _].
  pose proof (SL_GSL M hd tl L1 L2 h brk (S i) HSL) as G.
  destruct (linked_to_mid M hd tl L1 L2 brk 0 h brk i Hi G) as [HA _].
  rewrite decide_False in HA by lia.
  destruct (list_elem_of_split _ _ (pred_in_A hd L1 i)) as (X & l & E).
  destruct (suffix_of_A hd L1 i X _ l E) as [Hsub Hlen].
  assert (Hlast : List.last l (pred_at hd L1 (S i)) = pred_at hd L1 i).
  { unfold pred_at at 2. rewrite <- (last_cons_eq _ hd hd), E.
    symmetry. apply last_app_cons. }
  assert (Hl : linked h i (pred_at hd L1 (S i) :: l ++ [succ_at tl L2 i])).
  { rewrite E, <- app_assoc in HA. by apply linked_app_r in HA. }
  exists (List.hd (succ_at tl L2 i) l). split; [|split].
  - destruct l; simpl in Hl; by destruct Hl.
  - rewrite <- Hlast. apply seq_walk_linked; [| done | | lia].
    + apply (node_above M hd tl L1 L2 v Hv Hhi h brk Hb), succ_in.
    + apply Forall_forall. intros b Hb'.
      by destruct (node_below M hd tl L1 L2 v Hlo h brk Hb b (Hsub b Hb')).
  - destruct (pred_split hd L1 i) as [X' EX]. rewrite EX, <- app_assoc in HA.
    apply linked_app_r in HA. simpl in HA. by destruct HA.
Qed.

Lemma seq_levels_SL fuel :
  (length L1 + 1 ≤ fuel)%nat →
  ∀ k preds succs,
    (k ≤ M)%nat → length preds = M → length succs = M →
    seq_levels k fuel h v (pred_at hd L1 k) preds succs
    = Some (pred_at hd L1 0,
            take k (preds_of hd L1 M) ++ drop k preds,
            take k (succs_of tl L2 M) ++ drop k succs).
Proof.
  intros Hf. induction k as [|i IH]; intros preds succs Hk Hp Hs.
  - simpl. by rewrite !drop_0.
  - assert (Hi : (i < M)%nat) by lia.
    destruct (seq_level_step i fuel Hi Hf) as (nx & Hnx & Hw & Hrd).
    destruct (fill_write i (preds_of hd L1 M) (Some preds) (pred_at hd L1 i))
      as (ll' & Hw1 & Hf1 & Hl1).
    { by apply preds_of_lookup. }
    { intros l [= <-]. lia. }
    destruct (fill_write i (succs_of tl L2 M) (Some succs) (succ_at tl L2 i))
      as (rl' & Hw2 & Hf2 & Hl2).
    { by apply succs_of_lookup. }
    { intros l [= <-]. lia. }
    destruct ll' as [preds'|]; [|done]. destruct rl' as [succs'|]; [|done].
    destruct (Hl1 preds' eq_refl) as (? & [= <-] & Hlp).
    destruct (Hl2 succs' eq_refl) as (? & [= <-] & Hls).
    cbn [seq_levels]. rewrite Hnx. cbn [mbind option_bind]. rewrite Hw.
    cbn [mbind option_bind]. rewrite Hw1. cbn [mbind option_bind].
    rewrite Hrd. cbn [mbind option_bind]. rewrite Hw2.
    cbn [mbind option_bind].
    rewrite IH by lia. unfold fill in Hf1, Hf2. simpl in Hf1, Hf2.
    injection Hf1 as ->. injection Hf2 as ->. done.
Qed.

End Levels.

Lemma write_next_as_upd h p i q old :
  read_next h p i = Some old → write_next h p i q = Some (upd h p i q).
Proof.
  intros (n & Hn & Hi)%read_next_Some. unfold upd. rewrite Hn.
  apply write_next_is_Some; [done|]. by eapply lookup_lt_Some.
Qed.

(** Linking the new node [x] from level [k] on, as [seq_add] does it: its
    own reference first, then its predecessor's. *)
Lemma seq_link_SL M hd tl L1 L2 x v ht :
  (ht ≤ M)%nat →
  ∀ n k h brk,
    (k + n = ht)%nat →
    base M hd tl (L1 ++ mk_tower x v ht :: L2) h brk →
    (∀ i, (i < M)%nat →
       if decide (i < k)%nat
       then linked h i ((hd :: addrs (level i L1))
                        ++ x :: addrs (level i L2) ++ [tl])
       else linked h i ((hd :: addrs (level i L1))
                        ++ addrs (level i L2) ++ [tl])) →
    ∃ h', seq_link n h x k (preds_of hd L1 M) (succs_of tl L2 M) = Some h'
      ∧ base M hd tl (L1 ++ mk_tower x v ht :: L2) h' brk
      ∧ ∀ i, (i < M)%nat →
          if decide (i < ht)%nat
          then linked h' i ((hd :: addrs (level i L1))
                            ++ x :: addrs (level i L2) ++ [tl])
          else linked h' i ((hd :: addrs (level i L1))
                            ++ addrs (level i L2) ++ [tl]).
Proof.
  intros Hht. set (t := mk_tower x v ht).
  induction n as [|n IH]; intros k h brk Hkn Hb Hl.
  - exists h. split; [done|]. split; [done|]. intros i Hi.
    specialize (Hl i Hi). by replace ht with k by lia.
  - assert (Hk : (k < ht)%nat) by lia. assert (HkM : (k < M)%nat) by lia.
    pose proof (pred_ne_B M hd tl L1 (t :: L2) h brk Hb k) as HneB.
    pose proof (nodup_level M hd tl L1 (t :: L2) h brk Hb k) as Hnd.
    rewrite level_cons in HneB, Hnd. cbn [t_height t] in HneB, Hnd.
    rewrite decide_True in HneB, Hnd by done.
    change (addrs (mk_tower x v ht :: level k L2))
      with (x :: addrs (level k L2)) in HneB, Hnd.
    assert (Hxp : x ≠ pred_at hd L1 k).
    { apply HneB. apply elem_of_cons. by left. }
    assert (HB : ∀ a, a ∈ addrs (level k L2) ++ [tl] →
                      a ≠ pred_at hd L1 k ∧ a ≠ x).
    { intros a Ha. split.
      - apply HneB. apply elem_of_cons. by right.
      - intros ->. apply NoDup_app in Hnd as (_ & _ & Hnd).
        apply NoDup_cons in Hnd as [Hnd _]. done. }
    assert (HA : ∀ a, a ∈ hd :: addrs (level k L1) → a ≠ x).
    { intros a Ha ->. apply NoDup_app in Hnd as (_ & Hnd & _).
      apply (Hnd x Ha). apply elem_of_cons. by left. }
    destruct (pred_split hd L1 k) as [X EX].
    destruct (hd_split (addrs (level k L2)) tl) as [Y EY].
    pose proof (Hl k HkM) as Hlk. rewrite decide_False in Hlk by lia.
    assert (Hrd : read_next h (pred_at hd L1 k) k = Some (succ_at tl L2 k)).
    { rewrite EX, <- app_assoc in Hlk. apply linked_app_r in Hlk.
      rewrite EY in Hlk. apply (linked_cons2 h k _ _ Y) in Hlk as [Hlk _].
      exact Hlk. }
    assert (∃ old, read_next h x k = Some old) as [old Hold].
    { pose proof (b_nodes _ _ _ _ _ _ Hb) as Hn.
      apply Forall_app in Hn as [_ Hn]. apply Forall_cons in Hn as [Hn _].
      destruct Hn as (nx & Hnx & _ & _ & _ & Hlen & _). cbn in Hnx, Hlen.
      destruct (lookup_lt_is_Some_2 (next nx) k) as [old Ho]; [lia|].
      exists old. unfold read_next. rewrite Hnx. done. }
    set (h1 := upd h x k (succ_at tl L2 k)).
    set (h2 := upd h1 (pred_at hd L1 k) k x).
    assert (Hrd1 : read_next h1 (pred_at hd L1 k) k = Some (succ_at tl L2 k)).
    { unfold h1. by rewrite read_next_upd_ne by (left; congruence). }
    destruct (IH (S k) h2 brk) as (h' & E & Hb' & Hl'); [lia| | |].
    { apply base_upd; [apply (pred_ne_tl M hd tl L1 (t :: L2) h brk Hb k)|].
      apply base_upd; [|done].
      intros ->. destruct (HB tl) as [_ ?]; [|done].
      apply elem_of_app. right. by apply list_elem_of_singleton. }
    { intros j Hj. specialize (Hl j Hj).
      destruct (decide (j = k)) as [->|Hne].
      - rewrite decide_True by lia.
        rewrite EX in Hlk |- *. rewrite <- app_assoc in Hlk |- *.
        apply linked_split in Hlk as [H1 H2]. apply linked_join.
        + eapply linked_ext_snoc; [exact H1|]. intros a Ha. unfold h2, h1.
          assert (Hax : a ≠ x).
          { apply HA. rewrite EX. apply elem_of_app. by left. }
          assert (Hap : a ≠ pred_at hd L1 k)
            by (by apply (pred_ne_A M hd tl L1 (t :: L2) h brk Hb k X a)).
          by rewrite !read_next_upd_ne by (left; congruence).
        + apply linked_cons2. split.
          { unfold h2. by eapply read_next_upd_eq. }
          simpl in H2. rewrite EY in H2 |- *. apply linked_cons2. split.
          * unfold h2. rewrite read_next_upd_ne by (left; congruence).
            unfold h1. by eapply read_next_upd_eq.
          * apply linked_cons2 in H2 as [_ H2].
            eapply linked_ext; [exact H2|]. intros a Ha. unfold h2, h1.
            destruct (HB a) as [? ?]; [by rewrite EY|].
            by rewrite !read_next_upd_ne by (left; congruence).
      - assert (Hext : ∀ a, read_next h2 a j = read_next h a j).
        { intros a. unfold h2, h1.
          by rewrite !read_next_upd_ne by (right; lia). }
        destruct (decide (j < k)%nat).
        + rewrite decide_True by lia.
          eapply linked_ext; [exact Hl|]. intros; apply Hext.
        + rewrite decide_False by lia.
          eapply linked_ext; [exact Hl|]. intros; apply Hext. }
    exists h'. split; [|done]. cbn [seq_link].
    rewrite succs_of_lookup, preds_of_lookup by done.
    cbn [mbind option_bind].
    rewrite (write_next_as_upd _ _ _ _ _ Hold). cbn [mbind option_bind].
    fold h1. rewrite (write_next_as_upd _ _ _ _ _ Hrd1).
    cbn [mbind option_bind]. exact E.
Qed.

Lemma seq_add_SL levelmax M hd tl fuel s L v :
  levelmax = Z.of_nat M → VAL_MIN < v < VAL_MAX →
  SL M hd tl L (st_heap s) (st_brk s) → (length L + 1 ≤ fuel)%nat →
  ∃ s' L',
    seq_add levelmax fuel s (mk_set hd) v
    = Some (if decide (v ∈ vals L) then 0 else 1, s')
    ∧ SL M hd tl L' (st_heap s') (st_brk s')
    ∧ (list_to_set (vals L') : gset Z) = {[v]} ∪ list_to_set (vals L)
    ∧ (length L' ≤ length L + 1)%nat
    ∧ (v ∈ vals L → s' = s).
Proof.
  intros HM Hv HSL Hf. pose proof HSL as [Hb Hlk].
  pose proof (b_M _ _ _ _ _ _ Hb) as HM1.
  destruct (brk_fresh _ _ _ _ _ _ Hb) as (Hbm & Hb0 & Hnone & Hnin).
  destruct (sorted_split L v (b_sorted _ _ _ _ _ _ Hb))
    as (L1 & L2 & -> & Hlo & Hhi).
  assert (Hf1 : (length L1 + 1 ≤ fuel)%nat) by (rewrite length_app in Hf; lia).
  destruct (b_head _ _ _ _ _ _ Hb) as (nh & Hnh & _ & Htop & _).
  pose proof (seq_levels_SL M hd tl L1 L2 v Hv Hlo Hhi (st_heap s) (st_brk s)
                HSL fuel Hf1 M (new_array levelmax) (new_array levelmax)
                (le_n M)) as Elv.
  rewrite (pred_top M hd tl L1 L2 (st_heap s) (st_brk s) Hb) in Elv.
  pose proof (new_array_length levelmax M HM) as Hna.
  rewrite !take_ge, !drop_ge, !app_nil_r in Elv
    by (rewrite ?preds_of_length, ?succs_of_length, ?Hna; lia).
  specialize (Elv Hna Hna).
  assert (H0M : (0 < M)%nat) by lia.
  destruct (seq_level_step M hd tl L1 L2 v Hv Hlo Hhi (st_heap s) (st_brk s)
              HSL 0%nat fuel H0M Hf1) as (nx0 & _ & _ & Hrd0).
  unfold seq_add. cbn [head]. rewrite Hnh. cbn [mbind option_bind].
  rewrite Htop, Nat2Z.id, Elv. cbn [mbind option_bind]. rewrite Hrd0.
  cbn [mbind option_bind].
  destruct (succ_cases M hd tl L1 L2 (st_heap s) (st_brk s) v Hv Hlo Hhi Hb)
    as [(Hin & t & L2' & -> & Ev & Es & Hgt)|(Hnin' & Hgt & Hab)].
  - rewrite decide_True by done. rewrite Es.
    pose proof (b_nodes _ _ _ _ _ _ Hb) as Hn. rewrite Forall_forall in Hn.
    destruct (Hn t) as (n & Hn0 & Hval & _).
    { apply elem_of_app. right. apply elem_of_cons. by left. }
    rewrite Hn0. cbn [mbind option_bind]. rewrite Hval, Ev, Z.eqb_refl.
    exists s, (L1 ++ t :: L2'). split; [done|]. split; [done|].
    split; [|split; [lia|done]].
    apply set_eq. intros w. rewrite elem_of_union, elem_of_singleton.
    rewrite !elem_of_list_to_set. split; [by right|].
    intros [->|?]; done.
  - rewrite decide_False by done.
    destruct (Hab (succ_at tl L2 0)) as (n0 & Hn0 & Hgt0); [apply succ_in|].
    rewrite Hn0. cbn [mbind option_bind].
    destruct (Z.eqb_spec (val n0) v); [lia|].
    pose proof (get_rand_level_range levelmax (st_y s) ltac:(lia)) as Hl.
    destruct (get_rand_level levelmax (st_y s)) as [l y]. cbn [fst] in Hl.
    unfold sl_new_simple_node. cbn [st_heap st_brk st_y st_iter].
    set (x := st_brk s) in *. set (h0 := st_heap s) in *.
    set (ht := Z.to_nat l).
    assert (Hht : (1 ≤ ht ≤ M)%nat) by lia.
    assert (El : l = Z.of_nat ht) by lia.
    set (brk' := x + node_size l).
    assert (Hlt : x < brk') by (pose proof (node_size_pos l); lia).
    assert (Hm' : is_marked brk' = 0) by by apply is_marked_node_size.
    set (h1 := <[x := mk_node v 0 l (replicate ht NULL)]> h0).
    assert (Hb1 : base M hd tl (L1 ++ mk_tower x v ht :: L2) h1 brk').
    { unfold h1. rewrite El. apply base_insert; try done.
      apply length_replicate. }
    destruct (seq_link_SL M hd tl L1 L2 x v ht ltac:(lia) ht 0%nat h1 brk'
                ltac:(lia) Hb1) as (h' & Elk & Hb' & Hl').
    { intros i Hi. rewrite decide_False by lia. specialize (Hlk i Hi).
      rewrite level_app, addrs_app, <- app_assoc in Hlk.
      eapply linked_heap_ext; [exact Hlk|]. intros a Ha.
      apply lookup_insert_ne. intros ->. apply Hnin.
      apply (level_list_sub i). rewrite level_app, addrs_app.
      by rewrite <- app_assoc. }
    fold ht. rewrite Elk. cbn [mbind option_bind].
    eexists _, (L1 ++ mk_tower x v ht :: L2). split; [done|].
    unfold with_heap. cbn [st_heap st_brk].
    split; [|split; [apply add_set|split]].
    + split; [done|]. intros i Hi. specialize (Hl' i Hi).
      rewrite level_app, level_cons, addrs_app. cbn [t_height].
      destruct (decide (i < ht)%nat).
      * simpl. rewrite <- app_assoc. exact Hl'.
      * rewrite <- app_assoc. exact Hl'.
    + rewrite !length_app. simpl. lia.
    + intros Hin. done.
Qed.

Lemma seq_run_SL levelmax M hd tl fuel :
  levelmax = Z.of_nat M →
  ∀ vs L s,
    Forall (λ v, VAL_MIN < v < VAL_MAX) vs →
    SL M hd tl L (st_heap s) (st_brk s) →
    (length L + length vs + 1 ≤ fuel)%nat →
    ∃ s' L',
      seq_run levelmax fuel s (mk_set hd) vs
      = Some (ref_run (list_to_set (vals L)) (Add <$> vs), s')
      ∧ SL M hd tl L' (st_heap s') (st_brk s')
      ∧ (list_to_set (vals L') : gset Z)
        = list_to_set vs ∪ list_to_set (vals L)
      ∧ (length L' ≤ length L + length vs)%nat.
Proof.
  intros HM. induction vs as [|v vs IH]; intros L s Hvs HSL Hf.
  - exists s, L. split; [done|]. split; [done|].
    simpl. split; [|lia]. by rewrite (left_id_L ∅ (∪)).
  - apply Forall_cons in Hvs as [Hv Hvs]. simpl in Hf.
    destruct (seq_add_SL levelmax M hd tl fuel s L v HM Hv HSL)
      as (s1 & L1 & E & H1 & H2 & H3 & _); [lia|].
    destruct (IH L1 s1 Hvs H1) as (s' & L' & E' & H1' & H2' & H3'); [lia|].
    exists s', L'. cbn [seq_run fmap list_fmap ref_run ref_step].
    rewrite E. cbn [mbind option_bind]. rewrite E'.
    cbn [mbind option_bind]. split; [|split; [done|split; [|simpl; lia]]].
    + f_equal. f_equal. destruct (decide (v ∈ vals L)) as [Hin|Hin].
      * rewrite decide_True by (by apply elem_of_list_to_set).
        cbn [fst snd]. f_equal. f_equal. rewrite H2.
        apply set_eq. intros w. rewrite elem_of_union, elem_of_singleton.
        rewrite !elem_of_list_to_set. split; [|by right].
        intros [->|?]; done.
      * rewrite decide_False by (by rewrite elem_of_list_to_set).
        cbn [fst snd]. by rewrite H2.
    + rewrite H2', H2, list_to_set_cons. apply set_eq. intros w.
      rewrite !elem_of_union. tauto.
Qed.

End BulkFacts.

(** X13.  The bulk loader: [sl_set_new] followed by one [seq_add] per value
    (values strictly between the sentinels) runs to completion, each call
    returns 1 exactly when its value was not loaded before (the results of
    the reference set under the same additions), and afterwards the level-0
    chain leads from the head through strictly increasing values, which are
    exactly the loaded ones, to the tail. *)
Theorem X13_bulk_load_builds_sorted_set (levelmax : Z) (fuel : nat)
    (s0 : MLSkiplist.state) (vs : list Z) :
  1 <= levelmax →
  alloc_ok (MLSkiplist.st_heap s0) (MLSkiplist.st_brk s0) →
  Forall (λ v, VAL_MIN < v < VAL_MAX) vs →
  (length vs + 1 ≤ fuel)%nat →
  ∃ set s (l : list (Z * Z)) tl,
    bulk_exec levelmax fuel s0 vs
    = Some (set, ref_run ∅ (Add <$> vs), s)
    ∧ Shape.chain0 (MLSkiplist.st_heap s) (MLSkiplist.head set) (l.*1) tl
    ∧ Forall (Shape.has_val (MLSkiplist.st_heap s)) l
    ∧ Shape.has_val (MLSkiplist.st_heap s) (MLSkiplist.head set, VAL_MIN)
    ∧ Shape.has_val (MLSkiplist.st_heap s) (tl, VAL_MAX)
    ∧ StronglySorted Z.lt (l.*2)
    ∧ (list_to_set (l.*2) : gset Z) = list_to_set vs.
Proof.
  intros Hl Hal Hvs Hf.
  destruct (SeqFacts.sl_set_new_SL levelmax (Z.to_nat levelmax) s0
              ltac:(lia) ltac:(lia) Hal) as (hd & tl & s1 & E1 & HSL1).
  destruct (BulkFacts.seq_run_SL levelmax (Z.to_nat levelmax) hd tl fuel
              ltac:(lia) vs [] s1 Hvs HSL1)
    as (s & L & E & HSL & HS & _); [simpl; lia|].
  destruct (RunFacts.SL_chain0 _ _ _ _ _ _ HSL)
    as (_ & E2 & Hc & Hv & Hh & Ht & Hs & _).
  exists (MLSkiplist.mk_set hd), s,
    ((λ t, (Seq.t_addr t, Seq.t_val t)) <$> L), tl.
  split; [|split; [done|]; split; [done|]; split; [done|]; split; [done|];
           split; [done|]].
  - unfold bulk_exec. rewrite E1. cbn [mbind option_bind]. rewrite E.
    done.
  - rewrite E2, HS. simpl. by rewrite (right_id_L ∅ (∪)).
Qed.

(** X14.  After the bulk loader, [sl_set_size] returns the number of
    distinct loaded values (as an [unsigned long]). *)
Theorem X14_bulk_load_size (levelmax : Z) (fuel : nat)
    (s0 : MLSkiplist.state) (vs : list Z) :
  1 <= levelmax →
  alloc_ok (MLSkiplist.st_heap s0) (MLSkiplist.st_brk s0) →
  Forall (λ v, VAL_MIN < v < VAL_MAX) vs →
  (length vs + 1 ≤ fuel)%nat →
  ∃ set rs s,
    bulk_exec levelmax fuel s0 vs = Some (set, rs, s)
    ∧ MLSkiplist.sl_set_size fuel (MLSkiplist.st_heap s) set
      = Some (Z.of_nat (size (list_to_set vs : gset Z))
              mod 18446744073709551616).
Proof.
  intros Hl Hal Hvs Hf.
  destruct (SeqFacts.sl_set_new_SL levelmax (Z.to_nat levelmax) s0
              ltac:(lia) ltac:(lia) Hal) as (hd & tl & s1 & E1 & HSL1).
  destruct (BulkFacts.seq_run_SL levelmax (Z.to_nat levelmax) hd tl fuel
              ltac:(lia) vs [] s1 Hvs HSL1)
    as (s & L & E & HSL & HS & HL); [simpl; lia|].
  exists (MLSkiplist.mk_set hd), (ref_run ∅ (Add <$> vs)), s. split.
  - unfold bulk_exec. rewrite E1. cbn [mbind option_bind]. rewrite E.
    done.
  - rewrite (RunFacts.sl_set_size_SL _ _ _ _ _ _ fuel HSL)
      by (simpl in HL; lia).
    do 3 f_equal. simpl in HS. rewrite (right_id_L ∅ (∪)) in HS.
    rewrite <- HS. destruct HSL as [Hb _].
    rewrite size_list_to_set
      by (apply RunFacts.sorted_nodup, (Seq.b_sorted _ _ _ _ _ _ Hb)).
    unfold Seq.vals. by rewrite length_fmap.
Qed.


(** * The single-level list, run sequentially *)

Module ListSeqFacts.
Import MLList ListSeq.

Lemma list_iter_incr_S (n : nat) it :
  Nat.iter n incr_iter (incr_iter it) = Nat.iter (S n) incr_iter it.
Proof. induction n as [|n IH]; [done|]. simpl in *. by rewrite IH. Qed.

Lemma hd_addrs_app z A B :
  List.hd z (addrs (A ++ B)) = List.hd (List.hd z (addrs B)) (addrs A).
Proof. by destruct A. Qed.

Lemma lseg_app h A B z :
  lseg h (A ++ B) z ↔ lseg h A (List.hd z (addrs B)) ∧ lseg h B z.
Proof.
  induction A as [|c A IH]; simpl; [tauto|].
  rewrite IH, hd_addrs_app. tauto.
Qed.

Lemma lseg_ext h h' L z :
  lseg h L z → (∀ a, a ∈ addrs L → h' !! a = h !! a) → lseg h' L z.
Proof.
  induction L as [|c L IH]; simpl; [done|]. intros [H1 H2] He. split.
  - rewrite He; [done|]. apply elem_of_cons. by left.
  - apply IH; [done|]. intros a Ha. apply He. apply elem_of_cons. by right.
Qed.

Lemma lseg_lookup h z A c B :
  lseg h (A ++ c :: B) z →
  h !! c_addr c = Some (mk_node (c_val c) (c_del c) (List.hd z (addrs B))).
Proof. intros H. apply lseg_app in H as [_ H]. simpl in H. tauto. Qed.

(** The scan of [sl_add], [sl_remove] and [seq_add] over the cells [X],
    which hold less than [v], to the cell [c], which does not. *)
Lemma scan_lseg h v z c R :
  v <= c_val c →
  ∀ X fuel p it,
    lseg h (X ++ c :: R) z → Forall (λ c, c_val c < v) X →
    (length X < fuel)%nat →
    scan fuel h v p (List.hd (c_addr c) (addrs X)) it
    = Some (List.last (addrs X) p, c_addr c,
            Nat.iter (length X) incr_iter it).
Proof.
  intros Hc. induction X as [|x X IH]; intros fuel p it Hs Hlt Hf;
    (destruct fuel as [|fuel]; [simpl in Hf; lia|]).
  - cbn [scan addrs fmap list_fmap List.hd].
    rewrite (lseg_lookup h z [] c R Hs). cbn [mbind option_bind val].
    destruct (Z.ltb_spec (c_val c) v); [lia|]. done.
  - apply Forall_cons in Hlt as [Hx Hlt].
    cbn [scan addrs fmap list_fmap List.hd].
    rewrite (lseg_lookup h z [] x (X ++ c :: R) Hs).
    cbn [mbind option_bind val next].
    destruct (Z.ltb_spec (c_val x) v); [|lia].
    change (c_addr c :: addrs R) with (addrs (c :: R)). 
    rewrite hd_addrs_app. cbn [addrs fmap list_fmap List.hd].
    simpl in Hs. destruct Hs as [_ Hs].
    rewrite (IH fuel (c_addr x) (incr_iter it) Hs Hlt) by (simpl in Hf; lia).
    rewrite list_iter_incr_S.
    by rewrite <- (SeqFacts.last_cons_eq (addrs X) (c_addr x) p).
Qed.

(** The loop of [sl_contains] over the same cells. *)
Lemma seek_lseg h v z c R :
  v <= c_val c →
  ∀ X fuel it,
    lseg h (X ++ c :: R) z → Forall (λ c, c_val c < v) X →
    (length X < fuel)%nat →
    seek fuel h v (List.hd (c_addr c) (addrs X)) it
    = Some (c_addr c, Nat.iter (length X) incr_iter it).
Proof.
  intros Hc. induction X as [|x X IH]; intros fuel it Hs Hlt Hf;
    (destruct fuel as [|fuel]; [simpl in Hf; lia|]).
  - cbn [seek addrs fmap list_fmap List.hd].
    rewrite (lseg_lookup h z [] c R Hs). cbn [mbind option_bind val].
    destruct (Z.ltb_spec (c_val c) v); [lia|]. done.
  - apply Forall_cons in Hlt as [Hx Hlt].
    cbn [seek addrs fmap list_fmap List.hd].
    rewrite (lseg_lookup h z [] x (X ++ c :: R) Hs).
    cbn [mbind option_bind val next].
    destruct (Z.ltb_spec (c_val x) v); [|lia].
    change (c_addr c :: addrs R) with (addrs (c :: R)).
    rewrite hd_addrs_app. cbn [addrs fmap list_fmap List.hd].
    simpl in Hs. destruct Hs as [_ Hs].
    rewrite (IH fuel (incr_iter it) Hs Hlt) by (simpl in Hf; lia).
    by rewrite list_iter_incr_S.
Qed.

Lemma cells_split (L : list cell) v :
  StronglySorted Z.lt (vals L) →
  ∃ L1 L2, L = L1 ++ L2 ∧ Forall (λ c, c_val c < v) L1
           ∧ Forall (λ c, v <= c_val c) L2.
Proof.
  induction L as [|c L IH]; intros Hs.
  - exists [], []. by repeat split.
  - apply StronglySorted_inv in Hs as [Hs Hall].
    destruct (decide (c_val c < v)) as [Hlt|Hge].
    + destruct (IH Hs) as (L1 & L2 & -> & H1 & H2).
      exists (c :: L1), L2. split; [done|]. split; [|done].
      by apply Forall_cons.
    + exists [], (c :: L). split; [done|]. split; [done|].
      apply Forall_cons. split; [lia|].
      apply Forall_forall. intros c' Hc'. rewrite Forall_forall in Hall.
      assert (c_val c < c_val c'); [|lia].
      apply Hall. apply list_elem_of_fmap. by exists c'.
Qed.

Lemma lseg_alloc h L z a : lseg h L z → a ∈ addrs L → is_Some (h !! a).
Proof.
  intros Hs (c & -> & Hc)%list_elem_of_fmap.
  apply list_elem_of_split in Hc as (A & B & ->).
  rewrite (lseg_lookup h z A c B Hs). eauto.
Qed.

Lemma addrs_full hd tl L :
  addrs (mk_cell hd VAL_MIN false :: L ++ [mk_cell tl VAL_MAX false])
  = hd :: addrs L ++ [tl].
Proof. unfold addrs. by rewrite fmap_cons, fmap_app. Qed.

Lemma LSL_alloc hd tl L h brk a :
  LSL hd tl L h brk → a ∈ hd :: addrs L ++ [tl] → is_Some (h !! a).
Proof.
  intros H Ha. apply (lseg_alloc h _ NULL a (l_seg _ _ _ _ _ H)).
  by rewrite addrs_full.
Qed.

Lemma LSL_fresh hd tl L h brk :
  LSL hd tl L h brk →
  h !! brk = None ∧ (brk ∉ hd :: addrs L ++ [tl]) ∧ brk ≠ NULL.
Proof.
  intros H. destruct (l_brk _ _ _ _ _ H) as [Hpos Hall].
  assert (Hnone : h !! brk = None).
  { destruct (h !! brk) as [n|] eqn:E; [|done].
    assert (brk < brk) by (apply Hall; eauto). lia. }
  split; [done|]. split; [|unfold NULL; lia].
  intros Hin. apply (LSL_alloc _ _ _ _ _ _ H) in Hin as [n Hn]. congruence.
Qed.

Lemma hd_tail tl (L2 : list cell) z :
  List.hd z (addrs (L2 ++ [mk_cell tl VAL_MAX false])) = List.hd tl (addrs L2).
Proof. by rewrite hd_addrs_app. Qed.

(** The chain from the cells [X ++ L2] on, for any split of the cells
    before: the cell where a scan for [v] stops and what it holds. *)
Lemma stop_cases tl (L2 : list cell) v :
  v <= VAL_MAX → Forall (λ c, v <= c_val c) L2 →
  ∃ c R, L2 ++ [mk_cell tl VAL_MAX false] = c :: R
    ∧ v <= c_val c ∧ c_addr c = List.hd tl (addrs L2).
Proof.
  intros Hv Hge. destruct L2 as [|c L2].
  - eexists _, _. split; [done|]. simpl. split; [done|done].
  - apply Forall_cons in Hge as [Hc _]. eexists _, _. split; [done|]. done.
Qed.

Lemma scan_LSL hd tl L1 L2 h brk v fuel it :
  LSL hd tl (L1 ++ L2) h brk → VAL_MIN < v < VAL_MAX →
  Forall (λ c, c_val c < v) L1 → Forall (λ c, v <= c_val c) L2 →
  (length L1 < fuel)%nat →
  ∃ nh, h !! hd = Some nh
    ∧ scan fuel h v hd (next nh) it
      = Some (List.last (addrs L1) hd, List.hd tl (addrs L2),
              Nat.iter (length L1) incr_iter it).
Proof.
  intros H Hv Hlo Hhi Hf. pose proof (l_seg _ _ _ _ _ H) as Hs.
  destruct (stop_cases tl L2 v ltac:(lia) Hhi) as (c & R & ER & Hc & Ec).
  rewrite <- app_assoc, ER in Hs.
  eexists. split; [apply (lseg_lookup h NULL [] _ _ Hs)|].
  cbn [next]. simpl in Hs. destruct Hs as [_ Hs].
  change (c_addr c :: addrs R) with (addrs (c :: R)). rewrite hd_addrs_app.
  cbn [addrs fmap list_fmap List.hd]. rewrite <- Ec.
  by apply (scan_lseg h v NULL c R Hc L1 fuel hd it).
Qed.

(** What the stopping node holds. *)
Lemma stop_lookup hd tl L1 L2 h brk :
  LSL hd tl (L1 ++ L2) h brk →
  h !! List.hd tl (addrs L2)
  = Some (match L2 with
          | [] => mk_node VAL_MAX false NULL
          | c :: L2' => mk_node (c_val c) (c_del c) (List.hd tl (addrs L2'))
          end).
Proof.
  intros H. pose proof (l_seg _ _ _ _ _ H) as Hs.
  rewrite <- app_assoc in Hs. destruct L2 as [|c L2].
  - rewrite app_nil_l in Hs.
    apply (lseg_lookup h NULL (mk_cell hd VAL_MIN false :: L1)
             (mk_cell tl VAL_MAX false) []) in Hs. done.
  - apply (lseg_lookup h NULL (mk_cell hd VAL_MIN false :: L1) c
             (L2 ++ [mk_cell tl VAL_MAX false])) in Hs.
    by rewrite hd_tail in Hs.
Qed.

Lemma live_app A B : live (A ++ B) = live A ∪ live B.
Proof.
  unfold live, vals. by rewrite filter_app, fmap_app, list_to_set_app_L.
Qed.

Lemma live_cons c B :
  live (c :: B) = if c_del c then live B else {[c_val c]} ∪ live B.
Proof.
  unfold live, vals. rewrite filter_cons.
  destruct (decide (c_del c = false)) as [E|E].
  - rewrite E. by rewrite fmap_cons, list_to_set_cons.
  - by destruct (c_del c).
Qed.

Lemma live_vals L v : v ∈ live L → v ∈ vals L.
Proof.
  unfold live, vals. rewrite elem_of_list_to_set.
  intros (c & -> & Hc)%list_elem_of_fmap.
  apply list_elem_of_filter in Hc as [_ Hc].
  apply list_elem_of_fmap. eauto.
Qed.

Lemma below_not_in (L1 : list cell) v :
  Forall (λ c, c_val c < v) L1 → v ∉ vals L1.
Proof.
  intros Hlo (c & -> & Hc)%list_elem_of_fmap.
  rewrite Forall_forall in Hlo. specialize (Hlo c Hc). lia.
Qed.

Lemma above_not_in (L2 : list cell) v :
  Forall (λ c, v < c_val c) L2 → v ∉ vals L2.
Proof.
  intros Hlo (c & -> & Hc)%list_elem_of_fmap.
  rewrite Forall_forall in Hlo. specialize (Hlo c Hc). lia.
Qed.

Lemma sorted_tail (L1 : list cell) c (L2 : list cell) :
  StronglySorted Z.lt (vals (L1 ++ c :: L2)) →
  Forall (λ c', c_val c < c_val c') L2.
Proof.
  unfold vals. rewrite fmap_app, fmap_cons.
  intros (_ & _ & H)%StronglySorted_app.
  apply StronglySorted_inv in H as [_ H]. rewrite Forall_fmap in H.
  exact H.
Qed.

Lemma last_addrs hd (L1 : list cell) :
  ∃ A p, mk_cell hd VAL_MIN false :: L1 = A ++ [p]
         ∧ c_addr p = List.last (addrs L1) hd.
Proof.
  destruct (exists_last (l := mk_cell hd VAL_MIN false :: L1))
    as (A & p & E); [done|].
  exists A, p. split; [done|].
  rewrite <- (SeqFacts.last_cons_eq (addrs L1) hd hd).
  change (hd :: addrs L1) with (addrs (mk_cell hd VAL_MIN false :: L1)).
  rewrite E. unfold addrs. rewrite fmap_app. simpl.
  symmetry. apply SeqFacts.last_app_cons.
Qed.

(** Linking a new node at the allocation pointer between the cells below
    [v] and the cells above. *)
Lemma insert_LSL hd tl L1 L2 h brk v :
  LSL hd tl (L1 ++ L2) h brk → VAL_MIN < v < VAL_MAX →
  Forall (λ c, c_val c < v) L1 → Forall (λ c, v < c_val c) L2 →
  ∃ pn, h !! List.last (addrs L1) hd = Some pn
    ∧ LSL hd tl (L1 ++ mk_cell brk v false :: L2)
        (<[List.last (addrs L1) hd := set_next pn brk]>
           (<[brk := mk_node v false (List.hd tl (addrs L2))]> h))
        (brk + NODE_SIZE).
Proof.
  intros H Hv Hlo Hhi.
  destruct (LSL_fresh _ _ _ _ _ H) as (Hnone & Hnin & Hnz).
  destruct (last_addrs hd L1) as (A & p & EA & Ep). rewrite <- Ep.
  destruct H as [Hs Hso Hr Hd Hnull [Hpos Hall]].
  set (nc := mk_cell brk v false).
  assert (Efull : ∀ X, mk_cell hd VAL_MIN false :: (L1 ++ X) ++ [mk_cell tl VAL_MAX false]
                       = A ++ p :: X ++ [mk_cell tl VAL_MAX false]).
  { intros X. rewrite <- app_assoc.
    change (mk_cell hd VAL_MIN false :: L1 ++ X ++ [mk_cell tl VAL_MAX false])
      with ((mk_cell hd VAL_MIN false :: L1) ++ X ++ [mk_cell tl VAL_MAX false]).
    by rewrite EA, <- app_assoc. }
  rewrite Efull in Hs.
  assert (Hdd : NoDup (addrs (A ++ p :: L2 ++ [mk_cell tl VAL_MAX false]))).
  { rewrite <- Efull, addrs_full. done. }
  assert (Hin : ∀ a, a ∈ addrs (A ++ p :: L2 ++ [mk_cell tl VAL_MAX false]) → a ≠ brk).
  { intros a Ha ->. apply Hnin. by rewrite <- addrs_full, Efull. }
  pose proof (lseg_lookup h NULL A p _ Hs) as Hp. rewrite hd_tail in Hp.
  eexists. split; [exact Hp|]. cbn [set_next val deleted].
  set (h2 := <[c_addr p := _]> _).
  assert (Hpb : c_addr p ≠ brk).
  { apply Hin. unfold addrs. rewrite fmap_app, fmap_cons.
    apply elem_of_app. right. apply elem_of_cons. by left. }
  unfold addrs in Hdd. rewrite fmap_app, fmap_cons in Hdd.
  apply NoDup_app in Hdd as (HdA & HdAp & Hdp).
  apply NoDup_cons in Hdp as [HpR HdR].
  split.
  - change (mk_cell brk v false :: L2) with ([nc] ++ L2).
    rewrite Efull. apply lseg_app in Hs as [HA HR]. apply lseg_app.
    split.
    + cbn [addrs fmap list_fmap List.hd] in HA |- *.
      apply (lseg_ext h); [done|]. intros a Ha. unfold h2.
      rewrite !lookup_insert_ne; [done| |].
      * apply not_eq_sym, Hin. unfold addrs in *.
        rewrite fmap_app. apply elem_of_app. by left.
      * intros E. apply (HdAp a); [done|]. rewrite <- E.
        apply elem_of_cons. by left.
    + simpl in HR. destruct HR as [_ HR]. simpl. split; [|split].
      * unfold h2. by rewrite lookup_insert_eq.
      * unfold h2. rewrite lookup_insert_ne by done.
        rewrite lookup_insert_eq. by rewrite hd_tail.
      * apply (lseg_ext h); [done|]. intros a Ha. unfold h2.
        rewrite !lookup_insert_ne; [done| |].
        -- apply not_eq_sym, Hin. unfold addrs in *.
           rewrite fmap_app, fmap_cons. apply elem_of_app. right.
           apply elem_of_cons. by right.
        -- intros E. apply HpR. by rewrite E.
  - unfold vals in *. rewrite fmap_app in Hso. rewrite fmap_app, fmap_cons.
    apply StronglySorted_app in Hso as (H3 & H1 & H2).
    apply StronglySorted_app_2; [|done|].
    + intros x1 x2 (t1 & -> & Ht1)%list_elem_of_fmap Hx2.
      rewrite Forall_forall in Hlo. specialize (Hlo t1 Ht1).
      apply elem_of_cons in Hx2 as [->|Hx2]; [done|].
      apply list_elem_of_fmap in Hx2 as (t2 & -> & Ht2).
      rewrite Forall_forall in Hhi. specialize (Hhi t2 Ht2). simpl. lia.
    + apply StronglySorted_cons. split; [|done]. by apply Forall_fmap.
  - unfold vals in *. rewrite fmap_app in Hr. rewrite fmap_app, fmap_cons.
    apply Forall_app in Hr as [? ?]. apply Forall_app. split; [done|].
    apply Forall_cons. by split.
  - unfold addrs in *. rewrite fmap_app in Hd, Hnin.
    rewrite fmap_app, fmap_cons.
    apply (NoDup_Permutation_proper
             (brk :: hd :: ((c_addr <$> L1) ++ (c_addr <$> L2)) ++ [tl])).
    + rewrite <- !app_assoc.
      apply (Permutation_middle (hd :: (c_addr <$> L1))).
    + by apply NoDup_cons.
  - unfold h2. rewrite !lookup_insert_ne; [done| |].
    + intros E. unfold NULL in *. lia.
    + intros E. rewrite E, Hnull in Hp. done.
  - unfold NODE_SIZE. split; [lia|]. intros a [n Hn]. unfold h2 in Hn.
    destruct (decide (a = c_addr p)) as [->|Hne1].
    + assert (c_addr p < brk) by (apply Hall; eauto). lia.
    + rewrite lookup_insert_ne in Hn by done.
      destruct (decide (a = brk)) as [->|Hne2]; [lia|].
      rewrite lookup_insert_ne in Hn by done.
      assert (a < brk) by (apply Hall; eauto). lia.
Qed.

(** Writing the flag of one cell. *)
Lemma flag_LSL hd tl L1 c L2 h brk d :
  LSL hd tl (L1 ++ c :: L2) h brk →
  LSL hd tl (L1 ++ mk_cell (c_addr c) (c_val c) d :: L2)
      (<[c_addr c := mk_node (c_val c) d (List.hd tl (addrs L2))]> h) brk.
Proof.
  intros [Hs Hso Hr Hd Hnull [Hpos Hall]].
  assert (Efull : ∀ x, mk_cell hd VAL_MIN false :: (L1 ++ x :: L2) ++ [mk_cell tl VAL_MAX false]
                       = (mk_cell hd VAL_MIN false :: L1) ++ x :: L2 ++ [mk_cell tl VAL_MAX false]).
  { intros x. by rewrite <- app_assoc. }
  rewrite Efull in Hs.
  pose proof (lseg_lookup h NULL _ c _ Hs) as Hc.
  assert (Hdd : NoDup (addrs ((mk_cell hd VAL_MIN false :: L1) ++ c :: L2 ++ [mk_cell tl VAL_MAX false]))).
  { rewrite <- Efull. by rewrite addrs_full. }
  unfold addrs in Hdd. rewrite fmap_app, fmap_cons in Hdd.
  apply NoDup_app in Hdd as (HdA & HdAp & Hdp).
  apply NoDup_cons in Hdp as [HpR HdR].
  split; try done.
  - rewrite Efull. apply lseg_app in Hs as [HA HR]. apply lseg_app.
    split.
    + cbn [addrs fmap list_fmap List.hd c_addr] in HA |- *.
      apply (lseg_ext h); [done|]. intros a Ha.
      rewrite lookup_insert_ne; [done|]. intros E.
      apply (HdAp a); [done|]. rewrite <- E. apply elem_of_cons. by left.
    + destruct HR as [_ HR]. split.
      * cbn [c_addr c_val c_del]. rewrite lookup_insert_eq.
        by rewrite hd_tail.
      * apply (lseg_ext h); [done|]. intros a Ha.
        rewrite lookup_insert_ne; [done|]. intros E. apply HpR.
        by rewrite E.
  - unfold vals in *. by rewrite fmap_app, fmap_cons in *.
  - unfold vals in *. by rewrite fmap_app, fmap_cons in *.
  - unfold addrs in *. by rewrite fmap_app, fmap_cons in *.
  - rewrite lookup_insert_ne; [done|]. intros E. rewrite E, Hnull in Hc.
    done.
  - split; [done|]. intros a [n Hn].
    destruct (decide (a = c_addr c)) as [->|Hne].
    + apply Hall. rewrite Hc. eauto.
    + rewrite lookup_insert_ne in Hn by done. apply Hall. eauto.
Qed.

(** Membership in the live set, read at the stopping cell. *)
Lemma live_split (L1 L2 : list cell) v :
  StronglySorted Z.lt (vals (L1 ++ L2)) →
  Forall (λ c, c_val c < v) L1 → Forall (λ c, v <= c_val c) L2 →
  v ∈ live (L1 ++ L2)
  ↔ ∃ c L2', L2 = c :: L2' ∧ c_val c = v ∧ c_del c = false.
Proof.
  intros Hs Hlo Hhi. rewrite live_app, elem_of_union. split.
  - intros [Hin|Hin].
    { apply live_vals in Hin. by apply below_not_in in Hlo. }
    destruct L2 as [|c L2]; [apply live_vals in Hin; inversion Hin|].
    apply Forall_cons in Hhi as [Hc _].
    pose proof (sorted_tail L1 c L2 Hs) as Hab.
    assert (Hno : v ∉ live L2).
    { intros Hv%live_vals. revert Hv. apply above_not_in.
      eapply Forall_impl; [exact Hab|]. simpl. intros; lia. }
    rewrite live_cons in Hin. destruct (c_del c) eqn:Ed; [done|].
    apply elem_of_union in Hin as [Hin%elem_of_singleton|Hin]; [|done].
    eauto.
  - intros (c & L2' & -> & <- & Ed). right. rewrite live_cons, Ed.
    apply elem_of_union. left. by apply elem_of_singleton.
Qed.

(** Allocating the new node and linking it behind the predecessor, as
    [sl_add] and [seq_add] do once the scan has stopped. *)
Lemma link_new hd tl L1 L2 h brk it v :
  LSL hd tl (L1 ++ L2) h brk → VAL_MIN < v < VAL_MAX →
  Forall (λ c, c_val c < v) L1 → Forall (λ c, v < c_val c) L2 →
  ∃ s',
    (let '(newnode, s) :=
       sl_new_node (mk_state h brk it) v (List.hd tl (addrs L2)) in
     p ← st_heap s !! List.last (addrs L1) hd;
     Some (1, mk_state (<[List.last (addrs L1) hd := set_next p newnode]>
                          (st_heap s))
                       (st_brk s) (st_iter s)))
    = Some (1, s')
    ∧ LSL hd tl (L1 ++ mk_cell brk v false :: L2) (st_heap s') (st_brk s')
    ∧ st_iter s' = it.
Proof.
  intros H Hv Hlo Hhi.
  destruct (insert_LSL hd tl L1 L2 h brk v H Hv Hlo Hhi) as (pn & Hpn & H').
  destruct (LSL_fresh _ _ _ _ _ H) as (Hnone & _ & _).
  unfold sl_new_node. cbn [st_heap st_brk st_iter].
  rewrite lookup_insert_ne by (intros E; rewrite <- E, Hnone in Hpn; done).
  rewrite Hpn. cbn [mbind option_bind]. eexists. split; [done|].
  cbn [st_heap st_brk st_iter]. done.
Qed.

Lemma sl_add_LSL hd tl L s tbl est T v fuel :
  LSL hd tl L (st_heap s) (st_brk s) → VAL_MIN < v < VAL_MAX →
  is_Some (shortcut_start (st_heap s) tbl est T v) →
  (length L + 1 ≤ fuel)%nat →
  ∃ s' L',
    sl_add fuel s (mk_set hd) tbl est T v
    = Some ((ref_step (live L) (Add v)).1, s')
    ∧ LSL hd tl L' (st_heap s') (st_brk s')
    ∧ live L' = (ref_step (live L) (Add v)).2
    ∧ (length L' ≤ length L + 1)%nat.
Proof.
  intros H Hv [p Hp] Hf.
  destruct (cells_split L v (l_sorted _ _ _ _ _ H))
    as (L1 & L2 & -> & Hlo & Hhi).
  rewrite length_app in Hf.
  destruct (scan_LSL hd tl L1 L2 _ _ v fuel (st_iter s) H Hv Hlo Hhi)
    as (nh & Hnh & Hscan); [lia|].
  pose proof (live_split L1 L2 v (l_sorted _ _ _ _ _ H) Hlo Hhi) as Hlive.
  unfold sl_add. rewrite Hp. cbn [mbind option_bind head]. rewrite Hnh.
  cbn [mbind option_bind]. rewrite Hscan. cbn [mbind option_bind].
  rewrite (stop_lookup hd tl L1 L2 _ _ H). cbn [mbind option_bind].
  cbn [ref_step].
  assert (Hins : Forall (λ c, v < c_val c) L2 →
    ∃ s' L',
      (let '(newnode, s0) :=
         sl_new_node (mk_state (st_heap s) (st_brk s)
                        (Nat.iter (length L1) incr_iter (st_iter s)))
                     v (List.hd tl (addrs L2)) in
       p0 ← st_heap s0 !! List.last (addrs L1) hd;
       Some (1, mk_state (<[List.last (addrs L1) hd := set_next p0 newnode]>
                            (st_heap s0)) (st_brk s0) (st_iter s0)))
      = Some ((if decide (v ∈ live (L1 ++ L2)) then (0, live (L1 ++ L2))
               else (1, {[v]} ∪ live (L1 ++ L2))).1, s')
      ∧ LSL hd tl L' (st_heap s') (st_brk s')
      ∧ live L' = (if decide (v ∈ live (L1 ++ L2)) then (0, live (L1 ++ L2))
                   else (1, {[v]} ∪ live (L1 ++ L2))).2
      ∧ (length L' ≤ length (L1 ++ L2) + 1)%nat).
  { intros Hab.
    destruct (link_new hd tl L1 L2 _ _
                (Nat.iter (length L1) incr_iter (st_iter s)) v H Hv Hlo Hab)
      as (s' & E & H' & _).
    assert (Hno : v ∉ live (L1 ++ L2)).
    { rewrite Hlive. intros (c & L2' & -> & Ec & _).
      apply Forall_cons in Hab as [? _]. lia. }
    rewrite decide_False by done. cbn [fst snd].
    exists s', (L1 ++ mk_cell (st_brk s) v false :: L2).
    split; [exact E|]. split; [done|]. split.
    - rewrite !live_app, live_cons. cbn [c_del c_val].
      apply set_eq. intros w. rewrite !elem_of_union. tauto.
    - rewrite !length_app. simpl. lia. }
  destruct L2 as [|c L2].
  - cbn [val]. destruct (Z.eqb_spec VAL_MAX v); [lia|]. by apply Hins.
  - apply Forall_cons in Hhi as [Hc Hhi]. cbn [val deleted].
    pose proof (sorted_tail L1 c L2 (l_sorted _ _ _ _ _ H)) as Hab.
    destruct (Z.eqb_spec (c_val c) v) as [E|E].
    + destruct (c_del c) eqn:Ed.
      * assert (Hno : v ∉ live (L1 ++ c :: L2)).
        { rewrite Hlive. intros (c' & L2' & [= <- <-] & _ & Ed').
          congruence. }
        rewrite decide_False by done. cbn [fst snd].
        eexists _, (L1 ++ mk_cell (c_addr c) (c_val c) false :: L2).
        split; [done|]. cbn [st_heap st_brk set_deleted val next].
        split; [by apply flag_LSL|]. split.
        -- rewrite !live_app, !live_cons, Ed. cbn [c_del c_val]. rewrite E.
           apply set_eq. intros w. rewrite !elem_of_union. tauto.
        -- rewrite !length_app. simpl. lia.
      * assert (Hyes : v ∈ live (L1 ++ c :: L2)).
        { rewrite Hlive. eauto. }
        rewrite decide_True by done. cbn [fst snd].
        eexists _, (L1 ++ c :: L2). split; [done|].
        cbn [st_heap st_brk]. split; [done|]. split; [done|lia].
    + apply Hins. apply Forall_cons. split; [lia|].
      eapply Forall_impl; [exact Hab|]. simpl. intros; lia.
Qed.

Lemma seq_add_LSL hd tl L s v fuel :
  LSL hd tl L (st_heap s) (st_brk s) → VAL_MIN < v < VAL_MAX →
  (length L + 1 ≤ fuel)%nat →
  ∃ s' L',
    seq_add fuel s (mk_set hd) v
    = Some (if decide (v ∈ vals L) then 0 else 1, s')
    ∧ LSL hd tl L' (st_heap s') (st_brk s')
    ∧ (list_to_set (vals L') : gset Z) = {[v]} ∪ list_to_set (vals L)
    ∧ (Forall (λ c, c_del c = false) L → Forall (λ c, c_del c = false) L')
    ∧ (length L' ≤ length L + 1)%nat.
Proof.
  intros H Hv Hf.
  destruct (cells_split L v (l_sorted _ _ _ _ _ H))
    as (L1 & L2 & -> & Hlo & Hhi).
  rewrite length_app in Hf.
  destruct (scan_LSL hd tl L1 L2 _ _ v fuel 0 H Hv Hlo Hhi)
    as (nh & Hnh & Hscan); [lia|].
  unfold seq_add. cbn [mbind option_bind head]. rewrite Hnh.
  cbn [mbind option_bind]. rewrite Hscan. cbn [mbind option_bind].
  rewrite (stop_lookup hd tl L1 L2 _ _ H). cbn [mbind option_bind].
  assert (Hins : Forall (λ c, v < c_val c) L2 →
    ∃ s' L',
      (let '(newnode, s0) := sl_new_node s v (List.hd tl (addrs L2)) in
       p0 ← st_heap s0 !! List.last (addrs L1) hd;
       Some (1, mk_state (<[List.last (addrs L1) hd := set_next p0 newnode]>
                            (st_heap s0)) (st_brk s0) (st_iter s0)))
      = Some (if decide (v ∈ vals (L1 ++ L2)) then 0 else 1, s')
      ∧ LSL hd tl L' (st_heap s') (st_brk s')
      ∧ (list_to_set (vals L') : gset Z)
        = {[v]} ∪ list_to_set (vals (L1 ++ L2))
      ∧ (Forall (λ c, c_del c = false) (L1 ++ L2) →
         Forall (λ c, c_del c = false) L')
      ∧ (length L' ≤ length (L1 ++ L2) + 1)%nat).
  { intros Hab.
    destruct (link_new hd tl L1 L2 _ _ (st_iter s) v H Hv Hlo Hab)
      as (s' & E & H' & _).
    assert (Hno : v ∉ vals (L1 ++ L2)).
    { unfold vals. rewrite fmap_app, elem_of_app.
      intros [Hin|Hin]; [by apply below_not_in in Hlo|
                         by apply above_not_in in Hab]. }
    rewrite decide_False by done.
    exists s', (L1 ++ mk_cell (st_brk s) v false :: L2).
    split; [destruct s; exact E|]. split; [done|]. split; [|split].
    - unfold vals. rewrite !fmap_app, fmap_cons, !list_to_set_app_L.
      rewrite list_to_set_cons. cbn [c_val].
      apply set_eq. intros w. rewrite !elem_of_union. tauto.
    - intros [? ?]%Forall_app. apply Forall_app. split; [done|].
      by apply Forall_cons.
    - rewrite !length_app. simpl. lia. }
  destruct L2 as [|c L2].
  - cbn [val]. destruct (Z.eqb_spec VAL_MAX v); [lia|]. by apply Hins.
  - apply Forall_cons in Hhi as [Hc Hhi]. cbn [val deleted].
    pose proof (sorted_tail L1 c L2 (l_sorted _ _ _ _ _ H)) as Hab.
    destruct (Z.eqb_spec (c_val c) v) as [E|E].
    + assert (Hyes : v ∈ vals (L1 ++ c :: L2)).
      { unfold vals. rewrite fmap_app, fmap_cons, elem_of_app. right.
        apply elem_of_cons. by left. }
      rewrite decide_True by done.
      exists s, (L1 ++ c :: L2). split; [done|]. split; [done|].
      split; [|split; [done|lia]].
      apply set_eq. intros w. rewrite elem_of_union, elem_of_singleton.
      rewrite !elem_of_list_to_set. split; [by right|].
      intros [->|?]; done.
    + apply Hins. apply Forall_cons. split; [lia|].
      eapply Forall_impl; [exact Hab|]. simpl. intros; lia.
Qed.

(** The scan of [sl_remove], which starts at the node the shortcut loop
    has chosen. *)
Lemma scan_from hd tl L1 L2 h brk v fuel it p :
  LSL hd tl (L1 ++ L2) h brk → VAL_MIN < v < VAL_MAX →
  Forall (λ c, c_val c < v) L1 → Forall (λ c, v <= c_val c) L2 →
  starts_before hd (L1 ++ L2) v p → (length L1 < fuel)%nat →
  ∃ np pred' it',
    h !! p = Some np
    ∧ scan fuel h v p (next np) it
      = Some (pred', List.hd tl (addrs L2), it').
Proof.
  intros H Hv Hlo Hhi [->|(c0 & Hc0 & <- & Hlt)] Hf.
  - destruct (scan_LSL hd tl L1 L2 h brk v fuel it H Hv Hlo Hhi Hf)
      as (nh & Hnh & Hscan). eauto.
  - apply elem_of_app in Hc0 as [Hc0|Hc0].
    2:{ rewrite Forall_forall in Hhi. specialize (Hhi c0 Hc0). lia. }
    apply list_elem_of_split in Hc0 as (A & B & ->).
    pose proof (l_seg _ _ _ _ _ H) as Hs.
    destruct (stop_cases tl L2 v ltac:(lia) Hhi) as (c & R & ER & Hc & Ec).
    rewrite <- !app_assoc, ER in Hs. cbn [app] in Hs.
    change (mk_cell hd VAL_MIN false :: A ++ c0 :: B ++ c :: R)
      with ((mk_cell hd VAL_MIN false :: A) ++ c0 :: B ++ c :: R) in Hs.
    pose proof (lseg_lookup h NULL _ c0 _ Hs) as Hn0.
    apply lseg_app in Hs as [_ [_ Hs]].
    apply Forall_app in Hlo as [_ [_ HB]%Forall_cons].
    eexists _, _, _. split; [exact Hn0|]. cbn [next].
    change (c_addr c :: addrs R) with (addrs (c :: R)).
    rewrite hd_addrs_app. cbn [addrs fmap list_fmap List.hd]. rewrite <- Ec.
    apply (scan_lseg h v NULL c R Hc B fuel (c_addr c0) it Hs HB).
    rewrite !length_app in Hf. simpl in Hf. lia.
Qed.

Lemma sl_remove_LSL hd tl L s tbl est T v fuel p :
  LSL hd tl L (st_heap s) (st_brk s) → VAL_MIN < v < VAL_MAX →
  shortcut_start (st_heap s) tbl est T v = Some p →
  starts_before hd L v p → (length L + 1 ≤ fuel)%nat →
  ∃ s' L',
    sl_remove fuel s (mk_set hd) tbl est T v
    = Some ((ref_step (live L) (Remove v)).1, s')
    ∧ LSL hd tl L' (st_heap s') (st_brk s')
    ∧ live L' = (ref_step (live L) (Remove v)).2
    ∧ addrs L' = addrs L.
Proof.
  intros H Hv Hp Hst Hf.
  destruct (cells_split L v (l_sorted _ _ _ _ _ H))
    as (L1 & L2 & -> & Hlo & Hhi).
  rewrite length_app in Hf.
  destruct (scan_from hd tl L1 L2 _ _ v fuel (st_iter s) p H Hv Hlo Hhi Hst)
    as (np & pred' & it' & Hnp & Hscan); [lia|].
  pose proof (live_split L1 L2 v (l_sorted _ _ _ _ _ H) Hlo Hhi) as Hlive.
  unfold sl_remove. rewrite Hp. cbn [mbind option_bind]. rewrite Hnp.
  cbn [mbind option_bind]. rewrite Hscan. cbn [mbind option_bind].
  rewrite (stop_lookup hd tl L1 L2 _ _ H). cbn [mbind option_bind].
  cbn [ref_step].
  destruct (decide (v ∈ live (L1 ++ L2))) as [Hin|Hno]; cbn [fst snd].
  - apply Hlive in Hin as (c & L2' & -> & Ec & Ed). cbn [val deleted].
    rewrite Ec, Z.eqb_refl, Ed. cbn [negb orb].
    eexists _, (L1 ++ mk_cell (c_addr c) (c_val c) true :: L2').
    split; [done|]. cbn [st_heap st_brk set_deleted val next].
    rewrite <- Ec. split; [by apply flag_LSL|]. split.
    + pose proof (sorted_tail L1 c L2' (l_sorted _ _ _ _ _ H)) as Hab.
      assert (H1 : c_val c ∉ live L1).
      { intros Hx%live_vals. revert Hx. apply below_not_in.
        by rewrite Ec. }
      assert (H2 : c_val c ∉ live L2').
      { intros Hx%live_vals. revert Hx. by apply above_not_in. }
      rewrite !live_app, !live_cons, Ed. cbn [c_del c_val].
      apply set_eq. intros w.
      rewrite elem_of_difference, !elem_of_union, elem_of_singleton.
      split; [|tauto]. intros [?|?].
      * split; [tauto|]. by intros ->.
      * split; [tauto|]. by intros ->.
    + unfold addrs. by rewrite !fmap_app, !fmap_cons.
  - exists (mk_state (st_heap s) (st_brk s) it'), (L1 ++ L2).
    split; [|done].
    destruct L2 as [|c L2]; cbn [val deleted].
    + destruct (Z.eqb_spec VAL_MAX v); [lia|]. done.
    + destruct (Z.eqb_spec (c_val c) v) as [E|E]; cbn [negb orb]; [|done].
      destruct (c_del c) eqn:Ed; [done|]. exfalso. apply Hno, Hlive. eauto.
Qed.

Lemma sl_contains_LSL hd tl L s tbl est T v fuel p :
  LSL hd tl L (st_heap s) (st_brk s) → VAL_MIN < v < VAL_MAX →
  shortcut_start (st_heap s) tbl est T v = Some p →
  starts_before hd L (v + 1) p → (length L + 2 ≤ fuel)%nat →
  ∃ it',
    sl_contains fuel s (mk_set hd) tbl est T v
    = Some ((ref_step (live L) (Contains v)).1,
            mk_state (st_heap s) (st_brk s) it').
Proof.
  intros H Hv Hp Hst Hf.
  destruct (cells_split L v (l_sorted _ _ _ _ _ H))
    as (L1 & L2 & -> & Hlo & Hhi).
  rewrite length_app in Hf.
  pose proof (live_split L1 L2 v (l_sorted _ _ _ _ _ H) Hlo Hhi) as Hlive.
  pose proof (l_seg _ _ _ _ _ H) as Hs.
  destruct (stop_cases tl L2 v ltac:(lia) Hhi) as (c & R & ER & Hc & Ec).
  rewrite <- !app_assoc, ER in Hs.
  assert (Hseek : ∃ it', seek fuel (st_heap s) v p (st_iter s)
                         = Some (List.hd tl (addrs L2), it')).
  { rewrite <- Ec. destruct Hst as [->|(c0 & Hc0 & <- & Hlt)].
    - eexists.
      apply (seek_lseg (st_heap s) v NULL c R Hc
               (mk_cell hd VAL_MIN false :: L1) fuel (st_iter s) Hs).
      + apply Forall_cons. split; [simpl; lia|done].
      + simpl. lia.
    - apply elem_of_app in Hc0 as [Hc0|Hc0].
      + apply list_elem_of_split in Hc0 as (A & B & ->).
        rewrite <- !app_assoc in Hs. cbn [app] in Hs.
        change (mk_cell hd VAL_MIN false :: A ++ c0 :: B ++ c :: R)
          with ((mk_cell hd VAL_MIN false :: A) ++ (c0 :: B) ++ c :: R)
          in Hs.
        apply lseg_app in Hs as [_ Hs].
        apply Forall_app in Hlo as [_ HB].
        eexists.
        apply (seek_lseg (st_heap s) v NULL c R Hc (c0 :: B) fuel
                 (st_iter s) Hs HB).
        rewrite !length_app in Hf. simpl in *. lia.
      + assert (E0 : c0 = c).
        { destruct L2 as [|c' L2']; [inversion Hc0|].
          injection ER as <- _.
          apply elem_of_cons in Hc0 as [?|Hc0]; [done|].
          pose proof (sorted_tail L1 c' L2' (l_sorted _ _ _ _ _ H)) as Hab.
          rewrite Forall_forall in Hab. specialize (Hab c0 Hc0). lia. }
        subst c0.
        apply (lseg_app _ (mk_cell hd VAL_MIN false :: L1)) in Hs as [_ Hs].
        eexists.
        apply (seek_lseg (st_heap s) v NULL c R Hc [] fuel (st_iter s) Hs);
          [done|simpl; lia]. }
  destruct Hseek as [it' Hseek].
  unfold sl_contains. rewrite Hp. cbn [mbind option_bind]. rewrite Hseek.
  cbn [mbind option_bind]. rewrite (stop_lookup hd tl L1 L2 _ _ H).
  cbn [mbind option_bind]. exists it'. f_equal. f_equal. cbn [ref_step fst].
  destruct (decide (v ∈ live (L1 ++ L2))) as [Hin|Hno].
  - apply Hlive in Hin as (c' & L2' & -> & Ec' & Ed). cbn [val deleted].
    by rewrite Ec', Z.eqb_refl, Ed.
  - destruct L2 as [|c' L2]; cbn [val deleted].
    + destruct (Z.eqb_spec VAL_MAX v); [lia|]. done.
    + destruct (Z.eqb_spec (c_val c') v) as [E|E]; [|done].
      destruct (c_del c') eqn:Ed; [done|]. exfalso. apply Hno, Hlive. eauto.
Qed.

(** [sl_remove] started at the node that holds [v] itself: the scan begins
    behind it. *)
Lemma sl_remove_at_start hd tl L1 c L2 s tbl est T fuel :
  LSL hd tl (L1 ++ c :: L2) (st_heap s) (st_brk s) →
  c_val c < VAL_MAX →
  shortcut_start (st_heap s) tbl est T (c_val c) = Some (c_addr c) →
  (1 ≤ fuel)%nat →
  sl_remove fuel s (mk_set hd) tbl est T (c_val c)
  = Some (0, mk_state (st_heap s) (st_brk s) (st_iter s)).
Proof.
  intros H Hv Hp Hf. pose proof (l_seg _ _ _ _ _ H) as Hs.
  pose proof (sorted_tail L1 c L2 (l_sorted _ _ _ _ _ H)) as Hab.
  rewrite <- app_assoc in Hs. cbn [app] in Hs.
  apply (lseg_app _ (mk_cell hd VAL_MIN false :: L1)) in Hs as [_ Hs].
  destruct (stop_cases tl L2 (c_val c + 1) ltac:(lia)) as (c' & R & ER & Hc' & Ec').
  { eapply Forall_impl; [exact Hab|]. simpl. intros; lia. }
  rewrite ER in Hs. pose proof (lseg_lookup _ _ [] c _ Hs) as Hn.
  destruct Hs as [_ Hs]. pose proof (lseg_lookup _ _ [] c' _ Hs) as Hn'.
  unfold sl_remove. rewrite Hp. cbn [mbind option_bind]. rewrite Hn.
  cbn [mbind option_bind next addrs fmap list_fmap List.hd].
  destruct fuel as [|fuel]; [lia|]. cbn [scan]. rewrite Hn'.
  cbn [mbind option_bind val]. destruct (Z.ltb_spec (c_val c') (c_val c)); [lia|].
  cbn [mbind option_bind]. rewrite Hn'. cbn [mbind option_bind val].
  destruct (Z.eqb_spec (c_val c') (c_val c)); [lia|]. done.
Qed.

Lemma chain_nonnull h L z a :
  lseg h L z → h !! NULL = None → a ∈ addrs L → a ≠ NULL.
Proof.
  intros Hs Hn Ha ->. destruct (lseg_alloc h L z NULL Hs Ha) as [n E].
  congruence.
Qed.

Lemma hd_in (R : list cell) tl :
  List.hd tl (addrs R) ∈ addrs (R ++ [mk_cell tl VAL_MAX false]).
Proof. destruct R; apply elem_of_cons; by left. Qed.

(** [sl_set_size] counts every node between the sentinels. *)
Lemma size_loop_lseg h tl :
  h !! NULL = None →
  ∀ (R : list cell) fuel acc,
    lseg h (R ++ [mk_cell tl VAL_MAX false]) NULL →
    0 <= acc < 18446744073709551616 → (length R + 1 ≤ fuel)%nat →
    size_loop fuel h (List.hd tl (addrs R)) acc
    = Some ((acc + Z.of_nat (length R)) mod 18446744073709551616).
Proof.
  intros Hnull. induction R as [|c R IH]; intros fuel acc Hs Hacc Hf;
    (destruct fuel as [|fuel]; [simpl in Hf; lia|]).
  - cbn [size_loop addrs fmap list_fmap List.hd].
    pose proof (lseg_lookup h NULL [] _ [] Hs) as Ht.
    cbn [c_addr c_val c_del addrs fmap list_fmap List.hd] in Ht.
    rewrite Ht. cbn [mbind option_bind next]. rewrite Z.eqb_refl. f_equal.
    rewrite Z.add_0_r. symmetry. by apply Z.mod_small.
  - cbn [size_loop addrs fmap list_fmap List.hd].
    rewrite (lseg_lookup h NULL [] c _ Hs). cbn [mbind option_bind next].
    rewrite hd_tail. destruct Hs as [_ Hs].
    destruct (Z.eqb_spec (List.hd tl (addrs R)) NULL) as [E|_].
    { exfalso. revert E. apply (chain_nonnull h _ NULL _ Hs Hnull), hd_in. }
    rewrite IH; [|done| |simpl in Hf; lia].
    + f_equal. rewrite Z.add_mod_idemp_l by lia. f_equal. simpl length. lia.
    + apply Z.mod_pos_bound. lia.
Qed.

Lemma sl_set_size_LSL hd tl L h brk fuel :
  LSL hd tl L h brk → (length L + 1 ≤ fuel)%nat →
  sl_set_size fuel h (mk_set hd)
  = Some (Z.of_nat (length L) mod 18446744073709551616).
Proof.
  intros H Hf. pose proof (l_seg _ _ _ _ _ H) as Hs.
  unfold sl_set_size. cbn [head].
  pose proof (lseg_lookup h NULL [] _ _ Hs) as Hh.
  cbn [c_addr c_val c_del] in Hh. rewrite Hh.
  cbn [mbind option_bind next]. rewrite hd_tail. destruct Hs as [_ Hs].
  rewrite (size_loop_lseg h tl (l_null _ _ _ _ _ H) L fuel 0 Hs); [done|lia|done].
Qed.

(** The walk of [populate_shift_table] never touches the last bucket when
    the estimates lie in [[0,1)] and there are two buckets or more. *)
Lemma populate_walk_lseg h est T tl e :
  2 <= T → (∀ w, (0 <= estimate est w)%Q ∧ (estimate est w < 1)%Q) → h !! NULL = None →
  ∀ (R : list cell) fuel p np j tbl,
    h !! p = Some np → next np = List.hd tl (addrs R) →
    lseg h (R ++ [mk_cell tl VAL_MAX false]) NULL →
    length tbl = Z.to_nat T → tbl !! Z.to_nat (T - 1) = Some e →
    (length R + 1 ≤ fuel)%nat →
    ∃ tbl', populate_walk fuel h est T p j tbl = Some tbl'
      ∧ length tbl' = Z.to_nat T ∧ tbl' !! Z.to_nat (T - 1) = Some e.
Proof.
  intros HT Hest Hnull.
  induction R as [|c R IH]; intros fuel p np j tbl Hp Hnx Hs Hlen He Hf;
    (destruct fuel as [|fuel]; [simpl in Hf; lia|]).
  - cbn [populate_walk]. rewrite Hp. cbn [mbind option_bind]. rewrite Hnx.
    cbn [addrs fmap list_fmap List.hd].
    pose proof (lseg_lookup h NULL [] _ [] Hs) as Ht.
    cbn [c_addr c_val c_del addrs fmap list_fmap List.hd] in Ht.
    rewrite Ht. cbn [mbind option_bind next]. rewrite Z.eqb_refl. eauto.
  - cbn [populate_walk]. rewrite Hp. cbn [mbind option_bind]. rewrite Hnx.
    cbn [addrs fmap list_fmap List.hd].
    pose proof (lseg_lookup h NULL [] c _ Hs) as Hc. rewrite hd_tail in Hc.
    rewrite Hc. cbn [mbind option_bind next val]. destruct Hs as [_ Hs].
    destruct (Z.eqb_spec (List.hd tl (addrs R)) NULL) as [E|_].
    { exfalso. revert E. apply (chain_nonnull h _ NULL _ Hs Hnull), hd_in. }
    destruct (Hest (c_val c)) as [H0 H1].
    destruct (bucket_range est T (c_val c) H0 H1 ltac:(lia)) as [Hk Hk2].
    specialize (Hk2 HT). set (k := bucket est T (c_val c)) in *.
    assert (Hkl : 0 <= k < Z.of_nat (length tbl)) by lia.
    destruct (tbl_get_Some tbl k Hkl) as (ek & -> & _).
    cbn [mbind option_bind]. rewrite (tbl_set_is_Some tbl k _ Hkl).
    cbn [mbind option_bind].
    apply (IH fuel (c_addr c) _ _ _ Hc); [done|done| | |simpl in Hf; lia].
    + by rewrite length_insert.
    + rewrite list_lookup_insert_ne by lia. done.
Qed.

Lemma sl_set_new_LSL s0 :
  0 < st_brk s0 →
  (∀ a, is_Some (st_heap s0 !! a) → 0 < a < st_brk s0) →
  ∃ hd tl s, sl_set_new s0 = (mk_set hd, s)
    ∧ LSL hd tl [] (st_heap s) (st_brk s).
Proof.
  intros Hpos Hall. unfold sl_set_new, sl_new_node.
  cbn [st_heap st_brk st_iter]. unfold NODE_SIZE.
  set (tl := st_brk s0). set (hd := tl + 24).
  assert (Hne : hd ≠ tl) by (unfold hd; lia).
  exists hd, tl. eexists. split; [done|]. cbn [st_heap st_brk].
  split.
  - cbn [app lseg c_addr c_val c_del addrs fmap list_fmap List.hd].
    rewrite lookup_insert_eq. rewrite lookup_insert_ne by done.
    rewrite lookup_insert_eq. done.
  - constructor.
  - constructor.
  - cbn [addrs fmap list_fmap app]. apply NoDup_cons. split.
    + intros Hin%list_elem_of_singleton. done.
    + apply NoDup_singleton.
  - rewrite !lookup_insert_ne by (unfold NULL, hd; lia).
    destruct (st_heap s0 !! NULL) eqn:E; [|done].
    assert (0 < NULL < tl) by (apply Hall; eauto). unfold NULL in *. lia.
  - split; [lia|]. intros a [n Hn].
    destruct (decide (a = hd)) as [->|?]; [lia|].
    rewrite lookup_insert_ne in Hn by done.
    destruct (decide (a = tl)) as [->|?]; [unfold hd; lia|].
    rewrite lookup_insert_ne in Hn by done.
    assert (0 < a < tl) by (apply Hall; eauto). lia.
Qed.

Lemma list_seq_run_LSL hd tl fuel :
  ∀ vs L s,
    Forall (λ v, VAL_MIN < v < VAL_MAX) vs →
    LSL hd tl L (st_heap s) (st_brk s) →
    (length L + length vs + 1 ≤ fuel)%nat →
    ∃ s' L',
      list_seq_run fuel s (mk_set hd) vs
      = Some (ref_run (list_to_set (vals L)) (Add <$> vs), s')
      ∧ LSL hd tl L' (st_heap s') (st_brk s')
      ∧ (list_to_set (vals L') : gset Z)
        = list_to_set vs ∪ list_to_set (vals L)
      ∧ (Forall (λ c, c_del c = false) L → Forall (λ c, c_del c = false) L')
      ∧ (length L' ≤ length L + length vs)%nat.
Proof.
  induction vs as [|v vs IH]; intros L s Hvs H Hf.
  - exists s, L. split; [done|]. split; [done|].
    simpl. split; [|split; [done|lia]]. by rewrite (left_id_L ∅ (∪)).
  - apply Forall_cons in Hvs as [Hv Hvs]. simpl in Hf.
    destruct (seq_add_LSL hd tl L s v fuel H Hv)
      as (s1 & L1 & E & H1 & H2 & H3 & H4); [lia|].
    destruct (IH L1 s1 Hvs H1) as (s' & L' & E' & H1' & H2' & H3' & H4');
      [lia|].
    exists s', L'. cbn [list_seq_run fmap list_fmap ref_run ref_step].
    rewrite E. cbn [mbind option_bind]. rewrite E'.
    cbn [mbind option_bind].
    split; [|split; [done|split; [|split; [tauto|simpl; lia]]]].
    + f_equal. f_equal. destruct (decide (v ∈ vals L)) as [Hin|Hin].
      * rewrite decide_True by (by apply elem_of_list_to_set).
        cbn [fst snd]. f_equal. f_equal. rewrite H2.
        apply set_eq. intros w. rewrite elem_of_union, elem_of_singleton.
        rewrite !elem_of_list_to_set. split; [|by right].
        intros [->|?]; done.
      * rewrite decide_False by (by rewrite elem_of_list_to_set).
        cbn [fst snd]. by rewrite H2.
    + rewrite H2', H2, list_to_set_cons. apply set_eq. intros w.
      rewrite !elem_of_union. tauto.
Qed.

Lemma live_size (L : list cell) :
  StronglySorted Z.lt (vals L) →
  size (live L) = length (filter (λ c, c_del c = false) L).
Proof.
  induction L as [|c L IH]; intros Hs; [done|].
  pose proof (sorted_tail [] c L Hs) as Hab.
  apply StronglySorted_inv in Hs as [Hs _]. rewrite live_cons, filter_cons.
  destruct (decide (c_del c = false)) as [E|E].
  - rewrite E, size_union, size_singleton; [simpl; by rewrite IH|].
    apply disjoint_singleton_l. intros Hin%live_vals. revert Hin.
    by apply above_not_in.
  - destruct (c_del c); [by apply IH|done].
Qed.

Lemma filter_all (L : list cell) :
  length (filter (λ c, c_del c = false) L) = length L
  ↔ Forall (λ c, c_del c = false) L.
Proof.
  split.
  - intros Hl. apply Forall_forall. intros c Hc.
    destruct (c_del c) eqn:E; [|done].
    assert (length (filter (λ c, c_del c = false) L) < length L)%nat;
      [|lia].
    apply (length_filter_lt _ _ c Hc). congruence.
  - induction 1 as [|c L Hc _ IH]; [done|].
    rewrite filter_cons_True by done. simpl. by rewrite IH.
Qed.

(** [sl_set_delete] frees the nodes of the chain one by one. *)
Lemma delete_loop_lseg :
  ∀ (C : list cell) fuel h,
    lseg h C NULL → NoDup (addrs C) → h !! NULL = None →
    (length C + 1 ≤ fuel)%nat →
    ∃ h', delete_loop fuel h (List.hd NULL (addrs C)) = Some h'
      ∧ ∀ b, h' !! b = if decide (b ∈ addrs C) then None else h !! b.
Proof.
  induction C as [|c C IH]; intros fuel h Hs Hd Hnull Hf;
    (destruct fuel as [|fuel]; [simpl in Hf; lia|]).
  - cbn [delete_loop addrs fmap list_fmap List.hd]. rewrite Z.eqb_refl.
    exists h. split; [done|]. intros b. rewrite decide_False; [done|].
    by intros ?%elem_of_nil.
  - cbn [delete_loop addrs fmap list_fmap List.hd].
    pose proof (lseg_lookup h NULL [] c C Hs) as Hc.
    destruct (Z.eqb_spec (c_addr c) NULL) as [E|_].
    { rewrite E, Hnull in Hc. done. }
    rewrite Hc. cbn [mbind option_bind next]. unfold sl_delete_node.
    change (c_addr c :: (c_addr <$> C)) with (c_addr c :: addrs C) in *.
    apply NoDup_cons in Hd as [Hnin Hd]. destruct Hs as [_ Hs].
    destruct (IH fuel (delete (c_addr c) h)) as (h' & E & Hh').
    + apply (lseg_ext h); [done|]. intros a Ha. apply lookup_delete_ne.
      by intros <-.
    + done.
    + destruct (decide (c_addr c = NULL)) as [->|Hne].
      * apply lookup_delete_eq.
      * by rewrite lookup_delete_ne.
    + simpl in Hf. lia.
    + exists h'. split; [exact E|]. intros b. rewrite Hh'.
      destruct (decide (b = c_addr c)) as [->|Hne].
      * rewrite decide_False by done. rewrite lookup_delete_eq.
        rewrite decide_True; [done|]. apply elem_of_cons. by left.
      * rewrite lookup_delete_ne by done.
        destruct (decide (b ∈ addrs C)) as [Hin|Hin].
        -- rewrite decide_True; [done|]. apply elem_of_cons. by right.
        -- rewrite decide_False; [done|].
           intros [?|?]%elem_of_cons; done.
Qed.

End ListSeqFacts.

(** X15.  The bulk loader of the single-level list: [sl_set_new] followed
    by one [seq_add] per value (values strictly between the sentinels) runs
    to completion, each call returns 1 exactly when its value was not loaded
    before, and afterwards the list is a strictly sorted chain from the head
    to the tail whose nodes hold exactly the loaded values, none of them
    flagged. *)
Theorem X15_list_bulk_load_builds_sorted_list (fuel : nat)
    (s0 : MLList.state) (vs : list Z) :
  0 < MLList.st_brk s0 →
  (∀ a, is_Some (MLList.st_heap s0 !! a) → 0 < a < MLList.st_brk s0) →
  Forall (λ v, VAL_MIN < v < VAL_MAX) vs →
  (length vs + 1 ≤ fuel)%nat →
  ∃ set s tl L,
    list_bulk_exec fuel s0 vs = Some (set, ref_run ∅ (Add <$> vs), s)
    ∧ ListSeq.LSL (MLList.head set) tl L (MLList.st_heap s) (MLList.st_brk s)
    ∧ (list_to_set (ListSeq.vals L) : gset Z) = list_to_set vs
    ∧ Forall (λ c, ListSeq.c_del c = false) L.
Proof.
  intros Hpos Hall Hvs Hf.
  destruct (ListSeqFacts.sl_set_new_LSL s0 Hpos Hall) as (hd & tl & s1 & E1 & H1).
  destruct (ListSeqFacts.list_seq_run_LSL hd tl fuel vs [] s1 Hvs H1)
    as (s & L & E & H & HS & Hfl & _); [simpl; lia|].
  exists (MLList.mk_set hd), s, tl, L. split; [|split; [done|split]].
  - unfold list_bulk_exec. rewrite E1, E. done.
  - rewrite HS. simpl. by rewrite (right_id_L ∅ (∪)).
  - by apply Hfl.
Qed.

(** X16.  [sl_add] of the single-level list on a well-formed list, whatever
    the shift table holds as long as the shortcut loop does not fault:
    it returns 1 exactly when the value is not a live member (it clears the
    flag of a flagged node or links a new node), keeps the list well formed,
    and makes the value a live member without changing any other. *)
Theorem X16_list_add_matches_model (fuel : nat) (s : MLList.state)
    (hd tl : Z) (L : list ListSeq.cell) (tbl : list shift_node)
    (est : estimator) (T v : Z) :
  ListSeq.LSL hd tl L (MLList.st_heap s) (MLList.st_brk s) →
  VAL_MIN < v < VAL_MAX →
  is_Some (MLList.shortcut_start (MLList.st_heap s) tbl est T v) →
  (length L + 1 ≤ fuel)%nat →
  ∃ s' L',
    MLList.sl_add fuel s (MLList.mk_set hd) tbl est T v
    = Some ((ref_step (ListSeq.live L) (Add v)).1, s')
    ∧ ListSeq.LSL hd tl L' (MLList.st_heap s') (MLList.st_brk s')
    ∧ ListSeq.live L' = (ref_step (ListSeq.live L) (Add v)).2.
Proof.
  intros H Hv Hs Hf.
  destruct (ListSeqFacts.sl_add_LSL hd tl L s tbl est T v fuel H Hv Hs Hf)
    as (s' & L' & E & H' & Hl & _).
  by exists s', L'.
Qed.

(** X17.  [sl_remove] of the single-level list, when the shortcut loop
    ends on the head or on a node of the list that holds less than the
    value: it returns 1 exactly when the value is a live member, flags its
    node without unlinking anything, and leaves every other member alone. *)
Theorem X17_list_remove_matches_model (fuel : nat) (s : MLList.state)
    (hd tl : Z) (L : list ListSeq.cell) (tbl : list shift_node)
    (est : estimator) (T v p : Z) :
  ListSeq.LSL hd tl L (MLList.st_heap s) (MLList.st_brk s) →
  VAL_MIN < v < VAL_MAX →
  MLList.shortcut_start (MLList.st_heap s) tbl est T v = Some p →
  ListSeq.starts_before hd L v p →
  (length L + 1 ≤ fuel)%nat →
  ∃ s' L',
    MLList.sl_remove fuel s (MLList.mk_set hd) tbl est T v
    = Some ((ref_step (ListSeq.live L) (Remove v)).1, s')
    ∧ ListSeq.LSL hd tl L' (MLList.st_heap s') (MLList.st_brk s')
    ∧ ListSeq.live L' = (ref_step (ListSeq.live L) (Remove v)).2
    ∧ ListSeq.addrs L' = ListSeq.addrs L.
Proof.
  intros H Hv Hp Hst Hf.
  destruct (ListSeqFacts.sl_remove_LSL hd tl L s tbl est T v fuel p H Hv Hp Hst
              Hf) as (s' & L' & E & H' & Hl & Ha).
  by exists s', L'.
Qed.

(** X18.  [sl_remove] of the single-level list misses a live member when
    the shortcut loop ends on the very node that holds it (which is the
    case for the first node of a bucket): the scan starts behind that node,
    so the call returns 0 and changes nothing, although the value is a live
    member. *)
Theorem X18_list_remove_misses_start_node (fuel : nat) (s : MLList.state)
    (hd tl : Z) (L : list ListSeq.cell) (c : ListSeq.cell)
    (tbl : list shift_node) (est : estimator) (T : Z) :
  ListSeq.LSL hd tl L (MLList.st_heap s) (MLList.st_brk s) →
  c ∈ L → ListSeq.c_del c = false →
  MLList.shortcut_start (MLList.st_heap s) tbl est T (ListSeq.c_val c)
  = Some (ListSeq.c_addr c) →
  (1 ≤ fuel)%nat →
  MLList.sl_remove fuel s (MLList.mk_set hd) tbl est T (ListSeq.c_val c)
  = Some (0, s)
  ∧ ListSeq.c_val c ∈ ListSeq.live L.
Proof.
  intros H Hc Hd Hp Hf. split.
  - pose proof (ListSeq.l_range _ _ _ _ _ H) as Hr.
    rewrite Forall_forall in Hr.
    assert (Hv : VAL_MIN < ListSeq.c_val c < VAL_MAX).
    { apply Hr. apply list_elem_of_fmap. by exists c. }
    apply list_elem_of_split in Hc as (L1 & L2 & ->).
    rewrite (ListSeqFacts.sl_remove_at_start hd tl L1 c L2 s tbl est T fuel H
               ltac:(lia) Hp Hf).
    by destruct s.
  - unfold ListSeq.live. apply elem_of_list_to_set, list_elem_of_fmap.
    exists c. split; [done|]. by apply list_elem_of_filter.
Qed.

(** X19.  [sl_contains] of the single-level list, when the shortcut loop
    ends on the head or on a node of the list that holds at most the
    value: it returns 1 exactly when the value is a live member, and writes
    nothing but the iteration counter. *)
Theorem X19_list_contains_matches_model (fuel : nat) (s : MLList.state)
    (hd tl : Z) (L : list ListSeq.cell) (tbl : list shift_node)
    (est : estimator) (T v p : Z) :
  ListSeq.LSL hd tl L (MLList.st_heap s) (MLList.st_brk s) →
  VAL_MIN < v < VAL_MAX →
  MLList.shortcut_start (MLList.st_heap s) tbl est T v = Some p →
  ListSeq.starts_before hd L (v + 1) p →
  (length L + 2 ≤ fuel)%nat →
  ∃ it',
    MLList.sl_contains fuel s (MLList.mk_set hd) tbl est T v
    = Some (if decide (v ∈ ListSeq.live L) then 1 else 0,
            MLList.mk_state (MLList.st_heap s) (MLList.st_brk s) it').
Proof.
  intros H Hv Hp Hst Hf.
  exact (ListSeqFacts.sl_contains_LSL hd tl L s tbl est T v fuel p H Hv Hp Hst
           Hf).
Qed.

(** X20.  [populate_shift_table] of the single-level list seeds no
    sentinel: on any well-formed list, with two buckets or more and
    estimates in [[0,1)], the walk leaves the last bucket empty, so the
    backward fill starts by reading index [table_size], one past the last
    entry of the table. *)
Theorem X20_list_populate_reads_past_table (fuel : nat) (h : MLList.heap)
    (brk hd tl : Z) (L : list ListSeq.cell) (est : estimator) (T : Z) :
  ListSeq.LSL hd tl L h brk →
  2 <= T → (∀ w, (0 <= estimate est w)%Q ∧ (estimate est w < 1)%Q) →
  (length L + 1 ≤ fuel)%nat →
  MLList.populate_shift_table_trace fuel h (MLList.mk_set hd)
    (new_shift_table T) est T
  = Some ([T - 1; T], None).
Proof.
  intros H HT Hest Hf. pose proof (ListSeq.l_seg _ _ _ _ _ H) as Hs.
  pose proof (ListSeqFacts.lseg_lookup h NULL [] _ _ Hs) as Hh.
  cbn [ListSeq.c_addr ListSeq.c_val ListSeq.c_del] in Hh.
  rewrite ListSeqFacts.hd_tail in Hh. destruct Hs as [_ Hs].
  assert (Hlen : length (new_shift_table T) = Z.to_nat T)
    by apply length_replicate.
  assert (He : new_shift_table T !! Z.to_nat (T - 1)
               = Some (mk_shift 0 INT_MAX 0)).
  { unfold new_shift_table. apply lookup_replicate_2. lia. }
  destruct (ListSeqFacts.populate_walk_lseg h est T tl _ HT Hest
              (ListSeq.l_null _ _ _ _ _ H) L fuel hd _ 0 _ Hh eq_refl Hs
              Hlen He Hf) as (tbl' & E & Hlen' & He').
  unfold MLList.populate_shift_table_trace. cbn [MLList.head]. rewrite E.
  cbn [mbind option_bind]. f_equal.
  replace (Z.to_nat T) with (S (Z.to_nat (T - 1))) in * by lia.
  cbn [backfill]. rewrite He'. cbn [count Z.eqb].
  rewrite (lookup_ge_None_2 tbl' (S (Z.to_nat (T - 1)))) by lia.
  do 3 f_equal; [lia|]. f_equal. lia.
Qed.

(** X21.  [sl_set_size] of the single-level list returns the number of
    nodes between the sentinels (as an [unsigned long]): it does not look
    at the flags, so it counts the removed values as well. *)
Theorem X21_list_size_counts_flagged_nodes (fuel : nat) (h : MLList.heap)
    (brk hd tl : Z) (L : list ListSeq.cell) :
  ListSeq.LSL hd tl L h brk → (length L + 1 ≤ fuel)%nat →
  MLList.sl_set_size fuel h (MLList.mk_set hd)
  = Some (Z.of_nat (length L) mod 18446744073709551616)
  ∧ (size (ListSeq.live L) ≤ length L)%nat
  ∧ (size (ListSeq.live L) = length L
     ↔ Forall (λ c, ListSeq.c_del c = false) L).
Proof.
  intros H Hf. split; [by apply (ListSeqFacts.sl_set_size_LSL hd tl L h brk)|].
  pose proof (ListSeqFacts.live_size L (ListSeq.l_sorted _ _ _ _ _ H)) as E.
  rewrite E. pose proof (length_filter (λ c, ListSeq.c_del c = false) L).
  split; [lia|]. apply ListSeqFacts.filter_all.
Qed.

(** X23.  [sl_set_delete] of the single-level list frees the head, every
    node between the sentinels (flagged or not) and the tail, and nothing
    else. *)
Theorem X23_list_delete_frees_chain (fuel : nat) (h : MLList.heap)
    (brk hd tl : Z) (L : list ListSeq.cell) :
  ListSeq.LSL hd tl L h brk → (length L + 3 ≤ fuel)%nat →
  ∃ h', MLList.sl_set_delete fuel h (MLList.mk_set hd) = Some h'
    ∧ ∀ b, h' !! b = if decide (b ∈ hd :: ListSeq.addrs L ++ [tl])
                     then None else h !! b.
Proof.
  intros H Hf. unfold MLList.sl_set_delete. cbn [MLList.head].
  destruct (ListSeqFacts.delete_loop_lseg
              (ListSeq.mk_cell hd VAL_MIN false
               :: L ++ [ListSeq.mk_cell tl VAL_MAX false]) fuel h
              (ListSeq.l_seg _ _ _ _ _ H)) as (h' & E & Hh').
  - rewrite ListSeqFacts.addrs_full. apply (ListSeq.l_addr _ _ _ _ _ H).
  - apply (ListSeq.l_null _ _ _ _ _ H).
  - simpl. rewrite length_app. simpl. lia.
  - exists h'. split; [exact E|]. intros b. rewrite Hh'.
    by rewrite ListSeqFacts.addrs_full.
Qed.


(** * Bucket 0 of the shift table *)

Module TableFacts.
Import MLSkiplist Shape.

(** From the second node on, the walk of [populate_shift_table] never
    replaces the node of bucket 0: the offset [j - 0] is positive and the
    entry already holds offset 0. *)
Lemma walk_bucket0 est T :
  ∀ (l : list (Z * Z)) j tbl tbl' e0,
    1 <= j → j + Z.of_nat (length l) + 1 <= INT_MAX →
    tbl !! 0%nat = Some e0 → delta e0 = 0 → 1 <= count e0 <= j + 1 →
    walk_nodes est T l j tbl = Some tbl' →
    ∃ e0', tbl' !! 0%nat = Some e0' ∧ node e0' = node e0 ∧ delta e0' = 0
      ∧ 1 <= count e0' <= j + Z.of_nat (length l) + 1.
Proof.
  induction l as [|[a v] l IH]; intros j tbl tbl' e0 Hj Hmax H0 Hd Hc H.
  - injection H as <-. exists e0. simpl. repeat split; try done; lia.
  - cbn [walk_nodes] in H. simpl length in Hmax.
    set (k := bucket est T v) in *. clearbody k.
    destruct (tbl_get tbl k) as [e|] eqn:Eg; [|done].
    cbn [mbind option_bind] in H.
    destruct (tbl_set tbl k _) as [tbl1|] eqn:Es; [|done].
    cbn [mbind option_bind] in H.
    apply tbl_set_Some in Es as [Hk ->].
    assert (Ej : wrap_int (j + 1) = j + 1).
    { apply wrap_int_id. unfold INT_MIN, INT_MAX in *. lia. }
    rewrite Ej in H.
    destruct (decide (k = 0)) as [Ek|Ek].
    + rewrite Ek in *. change (Z.to_nat 0) with 0%nat in H.
      change (tbl !! 0%nat = Some e) in Eg. rewrite H0 in Eg.
      injection Eg as <-.
      assert (Ed : wrap_int (j - 0) = j).
      { rewrite Z.sub_0_r. apply wrap_int_id.
        unfold INT_MIN, INT_MAX in *. lia. }
      rewrite Ed, Hd in H. destruct (Z.leb_spec j 0); [lia|].
      assert (Ec : wrap_int (count e0 + 1) = count e0 + 1).
      { apply wrap_int_id. unfold INT_MIN, INT_MAX in *. lia. }
      rewrite Ec in H.
      match type of H with walk_nodes _ _ _ _ ?t = _ =>
        destruct (IH (j + 1) t tbl'
                    (mk_shift (count e0 + 1) (delta e0) (node e0)))
          as (e0' & ? & ? & ? & ?) end;
        [lia|lia|by apply list_lookup_insert_eq; lia|done|simpl; lia|exact H|].
      exists e0'. simpl in *. repeat split; try done; lia.
    + match type of H with walk_nodes _ _ _ _ ?t = _ =>
        destruct (IH (j + 1) t tbl' e0) as (e0' & ? & ? & ? & ?) end;
        [lia|lia| |done|lia|exact H|].
      * rewrite list_lookup_insert_ne by lia. done.
      * exists e0'. simpl length. repeat split; try done; lia.
Qed.

End TableFacts.

(** X22.  Bucket 0 of the table that [populate_shift_table] builds on a
    non-empty quiescent list (two buckets or more, estimates in [[0,1)],
    fewer than [INT_MAX - 1] nodes): it refers to the head sentinel only
    when the first node of the list is not estimated into bucket 0;
    otherwise the first node has replaced the head that was seeded
    there. *)
Theorem X22_populate_bucket_zero (fuel : nat) (h : MLSkiplist.heap)
    (set : MLSkiplist.sl_intset) (a v : Z) (lv : list (Z * Z)) (tl : Z)
    (est : estimator) (T : Z) :
  Shape.chain0 h (MLSkiplist.head set) (a :: lv.*1) tl →
  Forall (Shape.has_val h) ((a, v) :: lv) →
  (∀ w, (0 <= estimate est w)%Q ∧ (estimate est w < 1)%Q) →
  2 <= T →
  (length lv + 1 < fuel)%nat →
  Z.of_nat (length lv) + 2 <= INT_MAX →
  ∃ tbl e,
    MLSkiplist.populate_shift_table fuel h set (new_shift_table T) est T
    = Some tbl
    ∧ tbl !! 0%nat = Some e
    ∧ node e = if bucket est T v =? 0 then a else MLSkiplist.head set.
Proof.
  intros (Hp & Htl & Hnn) Hv Hest HT Hfuel Hmax.
  set (hd := MLSkiplist.head set) in *.
  set (C := hd :: (a :: lv.*1) ++ [tl]).
  unfold MLSkiplist.populate_shift_table,
    MLSkiplist.populate_shift_table_trace.
  assert (Hl0 : length (new_shift_table T) = Z.to_nat T)
    by (unfold new_shift_table; by rewrite length_replicate).
  rewrite tbl_set_is_Some by lia. cbn [mbind option_bind].
  change (Z.to_nat 0) with 0%nat. fold hd.
  set (tbl1 := <[0%nat := mk_shift 1 0 hd]> (new_shift_table T)).
  assert (Hl1 : length tbl1 = Z.to_nat T)
    by (unfold tbl1; by rewrite length_insert).
  rewrite (populate_walk_nodes h est T tl ((a, v) :: lv)); try done.
  2:{ by apply Forall_cons in Hnn as [_ ?]. }
  2:{ simpl. lia. }
  destruct (walk_nodes_tinv C est T Hest ltac:(lia) ((a, v) :: lv) 0 tbl1 Hl1)
    as (tbl2 & E & L2 & I2).
  { apply Forall_forall. intros [b w] Hin. simpl. unfold C.
    apply elem_of_cons. right. apply elem_of_app. left.
    change (a :: lv.*1) with (((a, v) :: lv).*1).
    apply list_elem_of_fmap. by exists (b, w). }
  { apply Forall_insert.
    - apply Forall_forall. intros e He. apply elem_of_replicate in He as [-> _].
      by right.
    - left. simpl. unfold C. apply elem_of_cons. by left. }
  rewrite E. cbn [mbind option_bind]. rewrite Hl1 in L2.
  (* bucket 0 after the walk *)
  assert (H0 : ∃ e0, tbl2 !! 0%nat = Some e0 ∧ count e0 ≠ 0
               ∧ node e0 = if bucket est T v =? 0 then a else hd).
  { cbn [walk_nodes] in E. destruct (Hest v) as [Hq0 Hq1].
    destruct (bucket_range est T v Hq0 Hq1 ltac:(lia)) as [Hk _].
    set (k := bucket est T v) in *.
    destruct (tbl_get tbl1 k) as [e|] eqn:Eg; [|done].
    cbn [mbind option_bind] in E.
    destruct (tbl_set tbl1 k _) as [tbl1'|] eqn:Es; [|done].
    cbn [mbind option_bind] in E.
    apply tbl_set_Some in Es as [_ ->].
    change (wrap_int (0 + 1)) with 1 in E.
    destruct (Z.eqb_spec k 0) as [Ek|Ek].
    - rewrite Ek in *. change (tbl1 !! 0%nat = Some e) in Eg.
      unfold tbl1 in Eg. rewrite list_lookup_insert_eq in Eg by lia.
      injection Eg as <-.
      change (walk_nodes est T lv 1
                (<[0%nat := mk_shift 2 0 a]> tbl1) = Some tbl2) in E.
      destruct (TableFacts.walk_bucket0 est T lv 1
                  (<[0%nat := mk_shift 2 0 a]> tbl1) tbl2 (mk_shift 2 0 a))
        as (e0 & ? & ? & ? & ?);
        [lia|lia|by apply list_lookup_insert_eq; lia|done|simpl; lia|exact E|].
      exists e0. split; [done|]. split; [lia|done].
    - match type of E with walk_nodes _ _ _ _ ?t = _ =>
        destruct (TableFacts.walk_bucket0 est T lv 1 t tbl2 (mk_shift 1 0 hd))
        as (e0 & ? & ? & ? & ?) end; [lia|lia| |done|simpl; lia|exact E|].
      + rewrite list_lookup_insert_ne by lia. unfold tbl1.
        apply list_lookup_insert_eq. lia.
      + exists e0. split; [done|]. split; [lia|done]. }
  destruct H0 as (e0 & He0 & Hc0 & Hn0).
  pose proof (path_last _ _ _ _ _ Hp) as Hlast. unfold Shape.nxt in Hlast.
  change (((a, v) :: lv).*1) with (a :: lv.*1). rewrite Hlast.
  cbn [mbind option_bind].
  rewrite tbl_set_is_Some by lia. cbn [mbind option_bind snd].
  set (tbl3 := <[Z.to_nat (T - 1) := mk_shift 1 0 tl]> tbl2).
  assert (Hin_tl : tl ∈ C).
  { unfold C. apply elem_of_cons. right. apply elem_of_app. right.
    by apply list_elem_of_singleton. }
  assert (L3 : length tbl3 = Z.to_nat T)
    by (unfold tbl3; by rewrite length_insert).
  assert (H3 : tbl3 !! Z.to_nat (T - 1) = Some (mk_shift 1 0 tl))
    by (unfold tbl3; apply list_lookup_insert_eq; lia).
  assert (H30 : tbl3 !! 0%nat = Some e0).
  { unfold tbl3. rewrite list_lookup_insert_ne by lia. done. }
  replace (Z.to_nat T) with (S (Z.to_nat (T - 1))) by lia.
  cbn [backfill]. rewrite H3. cbn [count Z.eqb].
  destruct (backfill_nodes C (Z.to_nat (T - 1)) tbl3) as (tr & tbl' & Eb & L & F).
  - lia.
  - intros i e Hi He. assert (i = Z.to_nat (T - 1)) as ->.
    { apply lookup_lt_Some in He. lia. }
    rewrite H3 in He. by injection He as <-.
  - unfold tbl3. apply Forall_insert; [done|]. by left.
  - rewrite Eb. cbn [snd]. exists tbl', e0. split; [done|]. split; [|done].
    by apply (SeqFacts.backfill_keeps _ _ _ _ _ _ Eb).
Qed.


(** * Concrete instances, continued *)

Lemma X12_witness :
  ∃ (j : nat) e n,
    (j ≤ Z.to_nat (bucket Scenario.est_lin 4 8))%nat
    ∧ Scenario.loaded_table !! j = Some e
    ∧ MLSkiplist.st_heap Scenario.bulk_state !! unset_mark (node e) = Some n
    ∧ MLSkiplist.shortcut_start (MLSkiplist.st_heap Scenario.bulk_state)
        Scenario.loaded_table Scenario.est_lin 4 8 0
      = Some (unset_mark (node e),
              Nat.iter (Z.to_nat (bucket Scenario.est_lin 4 8) - j + 1)
                       MLSkiplist.incr_iter 0)
    ∧ (MLSkiplist.val n <= 8 ∨ j = 0%nat)
    ∧ ∀ i e' n', (j < i ≤ Z.to_nat (bucket Scenario.est_lin 4 8))%nat →
        Scenario.loaded_table !! i = Some e' →
        MLSkiplist.st_heap Scenario.bulk_state !! unset_mark (node e')
        = Some n' →
        MLSkiplist.val n' > 8.
Proof.
  apply (X12_shortcut_start_stops (MLSkiplist.st_heap Scenario.bulk_state)
           Scenario.loaded_table Scenario.est_lin 4 8 0).
  - vm_compute. discriminate.
  - intros i Hi.
    assert (Hb : Z.to_nat (bucket Scenario.est_lin 4 8) = 2%nat)
      by (vm_compute; reflexivity).
    rewrite Hb in Hi.
    assert (Hc : (i = 0 ∨ i = 1 ∨ i = 2)%nat) by lia.
    destruct Hc as [Hc|[Hc|Hc]]; rewrite Hc;
      eexists _, _; split; vm_compute; reflexivity.
Defined.

Lemma X13_witness :
  ∃ set s (l : list (Z * Z)) tl,
    bulk_exec Scenario.MAXLEVEL 16 Scenario.s_start [5; 1; 9; 3; 5]
    = Some (set, ref_run ∅ (Add <$> [5; 1; 9; 3; 5]), s)
    ∧ Shape.chain0 (MLSkiplist.st_heap s) (MLSkiplist.head set) (l.*1) tl
    ∧ Forall (Shape.has_val (MLSkiplist.st_heap s)) l
    ∧ Shape.has_val (MLSkiplist.st_heap s) (MLSkiplist.head set, VAL_MIN)
    ∧ Shape.has_val (MLSkiplist.st_heap s) (tl, VAL_MAX)
    ∧ StronglySorted Z.lt (l.*2)
    ∧ (list_to_set (l.*2) : gset Z) = list_to_set [5; 1; 9; 3; 5].
Proof.
  apply (X13_bulk_load_builds_sorted_set Scenario.MAXLEVEL 16
           Scenario.s_start [5; 1; 9; 3; 5]).
  - vm_compute. discriminate.
  - exact s_start_alloc_ok.
  - repeat apply Forall_cons_2; try apply Forall_nil_2;
      (vm_compute; split; reflexivity).
  - simpl. lia.
Defined.

Lemma X14_witness :
  ∃ set rs s,
    bulk_exec Scenario.MAXLEVEL 16 Scenario.s_start [5; 1; 9; 3; 5]
    = Some (set, rs, s)
    ∧ MLSkiplist.sl_set_size 16 (MLSkiplist.st_heap s) set
      = Some (Z.of_nat (size (list_to_set [5; 1; 9; 3; 5] : gset Z))
              mod 18446744073709551616).
Proof.
  apply (X14_bulk_load_size Scenario.MAXLEVEL 16 Scenario.s_start
           [5; 1; 9; 3; 5]).
  - vm_compute. discriminate.
  - exact s_start_alloc_ok.
  - repeat apply Forall_cons_2; try apply Forall_nil_2;
      (vm_compute; split; reflexivity).
  - simpl. lia.
Defined.

(** The list [MIN -> 3 (flagged) -> 5 -> MAX] of [ListScenario.removed]. *)
Lemma removed_state_LSL :
  ListSeq.LSL 4120 4096
    [ListSeq.mk_cell 4168 3 true; ListSeq.mk_cell 4144 5 false]
    (MLList.st_heap ListScenario.removed_state)
    (MLList.st_brk ListScenario.removed_state).
Proof.
  split.
  - repeat split; vm_compute; reflexivity.
  - repeat constructor; lia.
  - repeat constructor; vm_compute; congruence.
  - apply (bool_decide_unpack _). vm_compute. exact I.
  - vm_compute. reflexivity.
  - split; [vm_compute; reflexivity|].
    assert (Hall : map_Forall (λ a _, a < 4192)
                     (MLList.st_heap ListScenario.removed_state)).
    { apply (bool_decide_unpack _). vm_compute. exact I. }
    intros a [n Hn]. exact (Hall a n Hn).
Qed.

(** The list [MIN -> 3 -> 5 -> MAX] of [ListScenario.loaded]. *)
Lemma loaded_state_LSL :
  ListSeq.LSL 4120 4096
    [ListSeq.mk_cell 4168 3 false; ListSeq.mk_cell 4144 5 false]
    (MLList.st_heap ListScenario.loaded_state)
    (MLList.st_brk ListScenario.loaded_state).
Proof.
  split.
  - repeat split; vm_compute; reflexivity.
  - repeat constructor; lia.
  - repeat constructor; vm_compute; congruence.
  - apply (bool_decide_unpack _). vm_compute. exact I.
  - vm_compute. reflexivity.
  - split; [vm_compute; reflexivity|].
    assert (Hall : map_Forall (λ a _, a < 4192)
                     (MLList.st_heap ListScenario.loaded_state)).
    { apply (bool_decide_unpack _). vm_compute. exact I. }
    intros a [n Hn]. exact (Hall a n Hn).
Qed.

Lemma X15_witness :
  ∃ set s tl L,
    list_bulk_exec 16 ListScenario.s_start [5; 1; 9; 3; 5]
    = Some (set, ref_run ∅ (Add <$> [5; 1; 9; 3; 5]), s)
    ∧ ListSeq.LSL (MLList.head set) tl L (MLList.st_heap s) (MLList.st_brk s)
    ∧ (list_to_set (ListSeq.vals L) : gset Z) = list_to_set [5; 1; 9; 3; 5]
    ∧ Forall (λ c, ListSeq.c_del c = false) L.
Proof.
  apply (X15_list_bulk_load_builds_sorted_list 16 ListScenario.s_start
           [5; 1; 9; 3; 5]).
  - vm_compute. reflexivity.
  - intros a [n Hn]. unfold ListScenario.s_start in Hn.
    cbn [MLList.st_heap] in Hn. by rewrite lookup_empty in Hn.
  - repeat apply Forall_cons_2; try apply Forall_nil_2;
      (vm_compute; split; reflexivity).
  - simpl. lia.
Defined.

Lemma X16_witness :
  let L := [ListSeq.mk_cell 4168 3 true; ListSeq.mk_cell 4144 5 false] in
  ∃ s' L',
    MLList.sl_add 16 ListScenario.removed_state (MLList.mk_set 4120)
      (ListScenario.head_table (MLList.mk_set 4120)) (λ _, 0%Q) 1 3
    = Some ((ref_step (ListSeq.live L) (Add 3)).1, s')
    ∧ ListSeq.LSL 4120 4096 L' (MLList.st_heap s') (MLList.st_brk s')
    ∧ ListSeq.live L' = (ref_step (ListSeq.live L) (Add 3)).2.
Proof.
  apply (X16_list_add_matches_model 16 ListScenario.removed_state 4120 4096
           [ListSeq.mk_cell 4168 3 true; ListSeq.mk_cell 4144 5 false]
           (ListScenario.head_table (MLList.mk_set 4120)) (λ _, 0%Q) 1 3).
  - exact removed_state_LSL.
  - vm_compute. split; reflexivity.
  - exists 4120. vm_compute. reflexivity.
  - simpl. lia.
Defined.

Lemma X17_witness :
  let L := [ListSeq.mk_cell 4168 3 true; ListSeq.mk_cell 4144 5 false] in
  ∃ s' L',
    MLList.sl_remove 16 ListScenario.removed_state (MLList.mk_set 4120)
      (ListScenario.head_table (MLList.mk_set 4120)) (λ _, 0%Q) 1 5
    = Some ((ref_step (ListSeq.live L) (Remove 5)).1, s')
    ∧ ListSeq.LSL 4120 4096 L' (MLList.st_heap s') (MLList.st_brk s')
    ∧ ListSeq.live L' = (ref_step (ListSeq.live L) (Remove 5)).2
    ∧ ListSeq.addrs L' = ListSeq.addrs L.
Proof.
  apply (X17_list_remove_matches_model 16 ListScenario.removed_state 4120
           4096 [ListSeq.mk_cell 4168 3 true; ListSeq.mk_cell 4144 5 false]
           (ListScenario.head_table (MLList.mk_set 4120)) (λ _, 0%Q) 1 5
           4120).
  - exact removed_state_LSL.
  - vm_compute. split; reflexivity.
  - vm_compute. reflexivity.
  - by left.
  - simpl. lia.
Defined.

Lemma X18_witness :
  MLList.sl_remove 16 ListScenario.loaded_state (MLList.mk_set 4120)
    ListScenario.loaded_table (λ _, 0%Q) 1 3
  = Some (0, ListScenario.loaded_state)
  ∧ 3 ∈ ListSeq.live
          [ListSeq.mk_cell 4168 3 false; ListSeq.mk_cell 4144 5 false].
Proof.
  apply (X18_list_remove_misses_start_node 16 ListScenario.loaded_state
           4120 4096
           [ListSeq.mk_cell 4168 3 false; ListSeq.mk_cell 4144 5 false]
           (ListSeq.mk_cell 4168 3 false)
           ListScenario.loaded_table (λ _, 0%Q) 1).
  - exact loaded_state_LSL.
  - apply elem_of_cons. by left.
  - reflexivity.
  - vm_compute. reflexivity.
  - lia.
Defined.

Lemma X19_witness :
  ∃ it',
    MLList.sl_contains 16 ListScenario.removed_state (MLList.mk_set 4120)
      (ListScenario.head_table (MLList.mk_set 4120)) (λ _, 0%Q) 1 3
    = Some (if decide (3 ∈ ListSeq.live
                         [ListSeq.mk_cell 4168 3 true;
                          ListSeq.mk_cell 4144 5 false])
            then 1 else 0,
            MLList.mk_state (MLList.st_heap ListScenario.removed_state)
              (MLList.st_brk ListScenario.removed_state) it').
Proof.
  apply (X19_list_contains_matches_model 16 ListScenario.removed_state 4120
           4096 [ListSeq.mk_cell 4168 3 true; ListSeq.mk_cell 4144 5 false]
           (ListScenario.head_table (MLList.mk_set 4120)) (λ _, 0%Q) 1 3
           4120).
  - exact removed_state_LSL.
  - vm_compute. split; reflexivity.
  - vm_compute. reflexivity.
  - by left.
  - simpl. lia.
Defined.

Lemma X20_witness :
  MLList.populate_shift_table_trace 16
    (MLList.st_heap ListScenario.loaded_state) (MLList.mk_set 4120)
    (new_shift_table 4) Scenario.est_lin 4
  = Some ([4 - 1; 4], None).
Proof.
  apply (X20_list_populate_reads_past_table 16
           (MLList.st_heap ListScenario.loaded_state)
           (MLList.st_brk ListScenario.loaded_state) 4120 4096
           [ListSeq.mk_cell 4168 3 false; ListSeq.mk_cell 4144 5 false]
           Scenario.est_lin 4).
  - exact loaded_state_LSL.
  - lia.
  - exact est_lin_range.
  - simpl. lia.
Defined.

Lemma X21_witness :
  let L := [ListSeq.mk_cell 4168 3 true; ListSeq.mk_cell 4144 5 false] in
  MLList.sl_set_size 16 (MLList.st_heap ListScenario.removed_state)
    (MLList.mk_set 4120)
  = Some (Z.of_nat (length L) mod 18446744073709551616)
  ∧ (size (ListSeq.live L) ≤ length L)%nat
  ∧ (size (ListSeq.live L) = length L
     ↔ Forall (λ c, ListSeq.c_del c = false) L).
Proof.
  apply (X21_list_size_counts_flagged_nodes 16
           (MLList.st_heap ListScenario.removed_state)
           (MLList.st_brk ListScenario.removed_state) 4120 4096
           [ListSeq.mk_cell 4168 3 true; ListSeq.mk_cell 4144 5 false]).
  - exact removed_state_LSL.
  - simpl. lia.
Defined.

Lemma X22_witness :
  ∃ tbl e,
    MLSkiplist.populate_shift_table 16
      (MLSkiplist.st_heap Scenario.bulk_state) (MLSkiplist.mk_set 4368)
      (new_shift_table 4) Scenario.est_lin 4
    = Some tbl
    ∧ tbl !! 0%nat = Some e
    ∧ node e = if bucket Scenario.est_lin 4 1 =? 0 then 4672
               else MLSkiplist.head (MLSkiplist.mk_set 4368).
Proof.
  apply (X22_populate_bucket_zero 16
           (MLSkiplist.st_heap Scenario.bulk_state) (MLSkiplist.mk_set 4368)
           4672 1 [(4728, 3); (4640, 5); (4704, 9)] 4096
           Scenario.est_lin 4).
  - split; [|split].
    + repeat split; vm_compute; reflexivity.
    + vm_compute. reflexivity.
    + repeat apply Forall_cons_2; try apply Forall_nil_2;
        (vm_compute; discriminate).
  - repeat apply Forall_cons_2; try apply Forall_nil_2;
      (eexists; split; vm_compute; reflexivity).
  - exact est_lin_range.
  - lia.
  - simpl. lia.
  - vm_compute. discriminate.
Defined.

Lemma X23_witness :
  ∃ h', MLList.sl_set_delete 16 (MLList.st_heap ListScenario.removed_state)
          (MLList.mk_set 4120) = Some h'
    ∧ ∀ b, h' !! b
           = if decide (b ∈ 4120 :: ListSeq.addrs
                              [ListSeq.mk_cell 4168 3 true;
                               ListSeq.mk_cell 4144 5 false] ++ [4096])
             then None
             else MLList.st_heap ListScenario.removed_state !! b.
Proof.
  apply (X23_list_delete_frees_chain 16
           (MLList.st_heap ListScenario.removed_state)
           (MLList.st_brk ListScenario.removed_state) 4120 4096
           [ListSeq.mk_cell 4168 3 true; ListSeq.mk_cell 4144 5 false]).
  - exact removed_state_LSL.
  - simpl. lia.
Defined.


(** * Adding a value whose node is flagged but still linked *)

Module ReinsertFacts.
Import MLSkiplist Shape Engine Seq SeqFacts.

(** ** The search does not read the flag *)

Section Flag.

Variables (xo d : Z).














End Flag.

(** ** The call on a skip list one node of which has been flagged *)



Section Reinsert.

Variables (levelmax : Z) (M : nat) (hd tl : Z).
Variables (tbl : list shift_node) (est : estimator) (T : Z).
Hypothesis HM : levelmax = Z.of_nat M.
Hypothesis Hest : ∀ w, (0 <= estimate est w)%Q ∧ (estimate est w < 1)%Q.
Hypothesis HT : 1 <= T.
Hypothesis Hlen : length tbl = Z.to_nat T.
Hypothesis Hstart : head_start hd tl tbl.




End Reinsert.

End ReinsertFacts.



